(** * Sync-free scheduler of Ginkgo's CUDA/HIP kernels

    A shallow embedding of [common/cuda_hip/components/syncfree.hpp]:
    the host-side [syncfree_storage] constructor and the device-side
    [syncfree_scheduler] (constructor, [get_work_id], [get_lane], [wait],
    [peek], [mark_ready]).

    Device code is written as interaction trees over the device primitives
    the source calls ([atomic_add], [load_acquire], [store_release], the
    shared-memory variants, [__syncthreads] and the tile barrier).  The
    spin loops of [wait] are [ITree.iter] loops.  The primitives get their
    meaning from handlers: one over the device memory (the status array and
    the per-block shared storage), one over a list of values read (the
    behaviour of the other lanes as one lane sees it).  The last part of
    the file runs the constructors of all the lanes of a grid side by side,
    step by step.

    A second part embeds the reductions of
    [common/cuda_hip/components/reduction.hpp]: [reduce] on a communicator
    group, [choose_pivot], [reduce] and [multireduce] on the data of a
    block, [reduce_array], [reduce_add_array] and
    [reduce_add_array_with_initial_value].  There the lanes of a group run in lockstep
    between two barriers, and a group is the list of what its lanes hold.

    A third part embeds the reference kernels of the hybrid format,
    [reference/matrix/hybrid_kernels.cpp], as functions on arrays that
    give no result when an access is outside an array, and [validate] of
    [dpcpp/base/helper.dp.cpp]. *)

From Stdlib Require Import ZArith List Lia Bool Permutation FinFun.
From ITree Require Import ITree Eq.Shallow.
Import ListNotations.
Import ITreeNotations.
Local Open Scope itree_scope.
Local Open Scope Z_scope.

(** ** Machine integers *)

(** Two's complement wrap-around of a signed integer of [bits] bits. *)
Definition wrap_signed (bits x : Z) : Z :=
  (x + 2 ^ (bits - 1)) mod 2 ^ bits - 2 ^ (bits - 1).

(** [int]: the type of [status_word], [shared_status_word] and of the
    template arguments. *)
Definition wrap_int (x : Z) : Z := wrap_signed 32 x.

(** [size_type] is an unsigned 64-bit integer. *)
Definition wrap_size (x : Z) : Z := x mod 2 ^ 64.

(** ** Arrays in device memory *)

(** A pointer into an array is the index of the element it points to.  An
    access outside the array has no defined result. *)
Definition load (m : list Z) (p : Z) : option Z :=
  if 0 <=? p then nth_error m (Z.to_nat p) else None.

Fixpoint list_set (m : list Z) (n : nat) (v : Z) : list Z :=
  match m, n with
  | [], _ => []
  | _ :: m', O => v :: m'
  | x :: m', S n' => x :: list_set m' n' v
  end.

Definition store (m : list Z) (p v : Z) : option (list Z) :=
  if (0 <=? p) && (p <? Z.of_nat (length m))
  then Some (list_set m (Z.to_nat p) v)
  else None.

(** ** Host side: [syncfree_storage] *)

(** The two pointers of the struct, as indices into [status_array]. *)
Record syncfree_storage : Type := {
  status : Z;
  block_counter : Z
}.

(** Modelled from the spec: [array::resize_and_reset] is not among the
    sources.  It leaves an array of the requested number of elements whose
    contents are unspecified; [fresh] supplies the unspecified contents. *)
Definition resize_and_reset (fresh : nat -> Z) (n : Z) : list Z :=
  map fresh (seq 0 (Z.to_nat n)).

(** Modelled from the spec: [components::fill_array] is not among the
    sources.  It sets the first [n] elements from [data] on to [v]. *)
Definition fill_array (arr : list Z) (data n v : Z) : list Z :=
  firstn (Z.to_nat data) arr
  ++ repeat v (Nat.min (Z.to_nat n) (length arr - Z.to_nat data))
  ++ skipn (Z.to_nat data + Z.to_nat n) arr.

(** The constructor: the array after it, and the struct. *)
Definition syncfree_storage_new (fresh : nat -> Z) (num_elements : Z)
  : list Z * syncfree_storage :=
  let status_array := resize_and_reset fresh (wrap_size (num_elements + 1)) in
  let status := 0 in
  let block_counter := status + num_elements in
  (fill_array status_array status (wrap_size (num_elements + 1)) 0,
   {| status := status; block_counter := block_counter |}).

(** ** Device primitives *)

Variant deviceE : Type -> Type :=
| AtomicAdd (p delta : Z) : deviceE Z          (* atomic_add(p, delta) *)
| LoadAcquire (p : Z) : deviceE Z              (* load_acquire(p) *)
| StoreRelease (p v : Z) : deviceE unit        (* store_release(p, v) *)
| LoadAcquireShared (i : Z) : deviceE Z        (* load_acquire_shared(local.status + i) *)
| StoreReleaseShared (i v : Z) : deviceE unit  (* store_release_shared(local.status + i, v) *)
| StoreShared (i v : Z) : deviceE unit         (* local.status[i] = v *)
| WriteBlockOffset (v : Z) : deviceE unit      (* local.block_offset = v *)
| ReadBlockOffset : deviceE Z                  (* local.block_offset *)
| SyncThreads : deviceE unit                   (* __syncthreads() *)
| TileSync : deviceE unit.                     (* tiled_partition<subwarp_size>(...).sync() *)

Definition atomic_add (p delta : Z) : itree deviceE Z :=
  ITree.trigger (AtomicAdd p delta).
Definition load_acquire (p : Z) : itree deviceE Z :=
  ITree.trigger (LoadAcquire p).
Definition store_release (p v : Z) : itree deviceE unit :=
  ITree.trigger (StoreRelease p v).
Definition load_acquire_shared (i : Z) : itree deviceE Z :=
  ITree.trigger (LoadAcquireShared i).
Definition store_release_shared (i v : Z) : itree deviceE unit :=
  ITree.trigger (StoreReleaseShared i v).
Definition syncthreads : itree deviceE unit := ITree.trigger SyncThreads.
Definition tile_sync : itree deviceE unit := ITree.trigger TileSync.

(** [while (!load) {}]: read until the value read is not zero. *)
Definition spin_until_set (read : itree deviceE Z) : itree deviceE unit :=
  ITree.iter
    (fun _ : unit =>
       v <- read;;
       if v =? 0 then Ret (inl tt) else Ret (inr tt))
    tt.

(** ** Device side: [syncfree_scheduler] *)

(** The fields of a scheduler object.  [local] is the shared storage of
    the block the lane runs in, which the shared-memory primitives address;
    [threadIdx_x] is the lane's index in its block. *)
Record scheduler : Type := {
  global : syncfree_storage;
  threadIdx_x : Z;
  work_id : Z;
  block_id : Z
}.

Section Scheduler.

(** The template arguments; [index_bits] is the width of [IndexType]. *)
Variables block_size subwarp_size index_bits : Z.

Definition wrap_index (x : Z) : Z := wrap_signed index_bits x.

Definition local_dependency_count : Z := block_size ÷ subwarp_size.

Definition syncfree_scheduler (deps : syncfree_storage) (tid : Z)
  : itree deviceE scheduler :=
  (if tid =? 0 then
     c <- atomic_add (block_counter deps) 1;;
     ITree.trigger (WriteBlockOffset (wrap_index (c * block_size)))
   else Ret tt);;
  ITree.iter
    (fun i : Z =>
       if i <? local_dependency_count then
         ITree.trigger (StoreShared i 0);;
         Ret (inl (wrap_int (i + subwarp_size)))
       else Ret (inr tt))
    tid;;
  syncthreads;;
  offset1 <- ITree.trigger ReadBlockOffset;;
  offset2 <- ITree.trigger ReadBlockOffset;;
  Ret {| global := deps;
         threadIdx_x := tid;
         work_id := wrap_index (offset2 + tid) ÷ subwarp_size;
         block_id := offset1 ÷ block_size |}.

Definition get_work_id (this : scheduler) : Z := work_id this.

Definition get_lane (this : scheduler) : Z :=
  Z.rem (threadIdx_x this) subwarp_size.

(** [wait], [peek] and [mark_ready] divide by [block_size / subwarp_size].
    The division of the model is total; what the calls do is stated for
    template arguments that leave the divisor other than zero. *)
Definition wait (this : scheduler) (dependency : Z) : itree deviceE unit :=
  let dep_block := dependency ÷ (block_size ÷ subwarp_size) in
  let dep_local := Z.rem dependency (block_size ÷ subwarp_size) in
  (if get_lane this =? 0 then
     if dep_block =? block_id this then
       spin_until_set (load_acquire_shared dep_local)
     else
       spin_until_set (load_acquire (status (global this) + dependency))
   else Ret tt);;
  tile_sync.

Definition peek (this : scheduler) (dependency : Z) : itree deviceE bool :=
  let dep_block := dependency ÷ (block_size ÷ subwarp_size) in
  let dep_local := Z.rem dependency (block_size ÷ subwarp_size) in
  if dep_block =? block_id this then
    v <- load_acquire_shared dep_local;;
    Ret (negb (v =? 0))
  else
    v <- load_acquire (status (global this) + dependency);;
    Ret (negb (v =? 0)).

Definition mark_ready (this : scheduler) : itree deviceE unit :=
  tile_sync;;
  if get_lane this =? 0 then
    let sh_id := Z.rem (get_work_id this) (block_size ÷ subwarp_size) in
    store_release_shared sh_id 1;;
    store_release (status (global this) + get_work_id this) 1
  else Ret tt.

End Scheduler.

(** ** Running a lane *)

(** What a lane did: the primitive and the value it got. *)
Inductive action : Type :=
| Atomic_add (p delta old : Z)
| Load_acquire (p v : Z)
| Store_release (p v : Z)
| Load_acquire_shared (i v : Z)
| Store_release_shared (i v : Z)
| Store_shared (i v : Z)
| Write_block_offset (v : Z)
| Read_block_offset (v : Z)
| Syncthreads
| Tile_sync.

Definition act_of {X} (e : deviceE X) : X -> action :=
  match e in deviceE X return X -> action with
  | AtomicAdd p delta => fun old => Atomic_add p delta old
  | LoadAcquire p => fun v => Load_acquire p v
  | StoreRelease p v => fun _ => Store_release p v
  | LoadAcquireShared i => fun v => Load_acquire_shared i v
  | StoreReleaseShared i v => fun _ => Store_release_shared i v
  | StoreShared i v => fun _ => Store_shared i v
  | WriteBlockOffset v => fun _ => Write_block_offset v
  | ReadBlockOffset => fun v => Read_block_offset v
  | SyncThreads => fun _ => Syncthreads
  | TileSync => fun _ => Tile_sync
  end.

(** A handler gives the primitives a meaning on a state; [None] where the
    primitive has no defined result there. *)
Definition handler (S : Type) : Type :=
  forall X, deviceE X -> S -> option (S * X).

Inductive status_of (R : Type) : Type :=
| Returned (r : R)
| Faulted
| Running.
Arguments Returned {R} r.
Arguments Faulted {R}.
Arguments Running {R}.

(** One step of a lane: nothing left, a silent step, or a primitive. *)
Inductive step_of (S R : Type) : Type :=
| Halt (r : R)
| Fault
| Next (t : itree deviceE R) (s : S) (a : option action).
Arguments Halt {S R} r.
Arguments Fault {S R}.
Arguments Next {S R} t s a.

Definition lane_step {S R} (h : handler S) (t : itree deviceE R) (s : S)
  : step_of S R :=
  match observe t with
  | RetF r => Halt r
  | TauF t' => Next t' s None
  | VisF e k =>
      match h _ e s with
      | Some (s', x) => Next (k x) s' (Some (act_of e x))
      | None => Fault
      end
  end.

Definition log {S R} (a : option action) (o : S * list action * status_of R)
  : S * list action * status_of R :=
  match a, o with
  | Some a, (s, tr, st) => (s, a :: tr, st)
  | None, _ => o
  end.

(** At most [fuel] steps of a lane: the state reached, the actions
    performed, and whether the call returned. *)
Fixpoint exec {S R} (h : handler S) (fuel : nat) (t : itree deviceE R) (s : S)
  : S * list action * status_of R :=
  match fuel with
  | O => (s, [], Running)
  | Datatypes.S fuel' =>
      match lane_step h t s with
      | Halt r => (s, [], Returned r)
      | Fault => (s, [], Faulted)
      | Next t' s' a => log a (exec h fuel' t' s')
      end
  end.

(** ** The device memory *)

Record shared_storage : Type := {
  local_status : list Z;   (* status[local_dependency_count] *)
  block_offset : Z
}.

(** The status array in global memory and the shared storage of every
    block. *)
Record device : Type := {
  global_mem : list Z;
  shared_mem : nat -> shared_storage
}.

Definition set_global (d : device) (m : list Z) : device :=
  {| global_mem := m; shared_mem := shared_mem d |}.

Definition set_shared (d : device) (b : nat) (sh : shared_storage) : device :=
  {| global_mem := global_mem d;
     shared_mem := fun b' => if Nat.eqb b' b then sh else shared_mem d b' |}.

Definition set_local_status (d : device) (b : nat) (m : list Z) : device :=
  set_shared d b {| local_status := m;
                    block_offset := block_offset (shared_mem d b) |}.

(** Modelled from the spec: the primitives of [atomic.hpp], [memory.hpp]
    and [cooperative_groups.hpp] are not among the sources.  A lane of
    block [b] runs them on the device memory: [atomic_add] returns the old
    value and stores the sum, the loads return the value stored, the stores
    replace it, a barrier leaves the memory as it is. *)
Definition on_device (b : nat) : handler device :=
  fun X (e : deviceE X) (d : device) =>
    match e in deviceE X return option (device * X) with
    | AtomicAdd p delta =>
        match load (global_mem d) p with
        | Some old =>
            match store (global_mem d) p (wrap_int (old + delta)) with
            | Some m => Some (set_global d m, old)
            | None => None
            end
        | None => None
        end
    | LoadAcquire p =>
        match load (global_mem d) p with
        | Some v => Some (d, v)
        | None => None
        end
    | StoreRelease p v =>
        match store (global_mem d) p v with
        | Some m => Some (set_global d m, tt)
        | None => None
        end
    | LoadAcquireShared i =>
        match load (local_status (shared_mem d b)) i with
        | Some v => Some (d, v)
        | None => None
        end
    | StoreReleaseShared i v | StoreShared i v =>
        match store (local_status (shared_mem d b)) i v with
        | Some m => Some (set_local_status d b m, tt)
        | None => None
        end
    | WriteBlockOffset v =>
        Some (set_shared d b {| local_status := local_status (shared_mem d b);
                                block_offset := v |}, tt)
    | ReadBlockOffset => Some (d, block_offset (shared_mem d b))
    | SyncThreads | TileSync => Some (d, tt)
    end.

(** The other lanes as one lane sees them: the values its loads return,
    in the order it reads them.  A load with nothing left to read has no
    result. *)
Definition on_reads : handler (list Z) :=
  fun X (e : deviceE X) (reads : list Z) =>
    match e in deviceE X return option (list Z * X) with
    | AtomicAdd _ _ | LoadAcquire _ | LoadAcquireShared _ | ReadBlockOffset =>
        match reads with
        | v :: rest => Some (rest, v)
        | [] => None
        end
    | StoreRelease _ _ | StoreReleaseShared _ _ | StoreShared _ _
    | WriteBlockOffset _ | SyncThreads | TileSync => Some (reads, tt)
    end.

(** ** A block building its schedulers *)

Section Constructor_parts.

Variables block_size subwarp_size index_bits : Z.

(** The constructor piece by piece: the claim of lane 0, the reset of
    the local cache, and what follows [__syncthreads()]. *)
Definition claim_offset (deps : syncfree_storage) (tid : Z) : itree deviceE unit :=
  if tid =? 0 then
    c <- atomic_add (block_counter deps) 1;;
    ITree.trigger (WriteBlockOffset (wrap_index index_bits (c * block_size)))
  else Ret tt.

Definition reset_status (tid : Z) : itree deviceE unit :=
  ITree.iter
    (fun i : Z =>
       if i <? local_dependency_count block_size subwarp_size then
         ITree.trigger (StoreShared i 0);;
         Ret (inl (wrap_int (i + subwarp_size)))
       else Ret (inr tt))
    tid.

Definition read_offset (deps : syncfree_storage) (tid : Z) : itree deviceE scheduler :=
  offset1 <- ITree.trigger ReadBlockOffset;;
  offset2 <- ITree.trigger ReadBlockOffset;;
  Ret {| global := deps;
         threadIdx_x := tid;
         work_id := wrap_index index_bits (offset2 + tid) ÷ subwarp_size;
         block_id := offset1 ÷ block_size |}.

End Constructor_parts.

(** The template arguments a kernel is built with: a block is a whole
    number of lane-groups, and [IndexType] has at least one bit. *)
Definition well_configured (block_size subwarp_size index_bits : Z) : Prop :=
  0 < subwarp_size
  /\ 0 < block_size < 2 ^ 31
  /\ Z.rem block_size subwarp_size = 0
  /\ 0 < index_bits.

(** Steps that are enough for a lane to run the constructor. *)
Definition constructor_fuel (block_size subwarp_size : Z) : nat :=
  2 * Z.to_nat (local_dependency_count block_size subwarp_size) + 6.

(** The scheduler of lane [tid] in the block that fetched [c] from the
    counter, in the words of the specification: the block id is [c] and the
    work item is the base [c * (block_size / subwarp_size)] of the block
    plus the index [tid / subwarp_size] of the lane-group in the block. *)
Definition scheduler_of (block_size subwarp_size : Z) (deps : syncfree_storage)
           (c tid : Z) : scheduler :=
  {| global := deps;
     threadIdx_x := tid;
     work_id := c * (block_size ÷ subwarp_size) + tid ÷ subwarp_size;
     block_id := c |}.

(** The calls of [atomic_add] a lane of that block is to make: one, by
    lane 0. *)
Definition claim_of (deps : syncfree_storage) (c tid : Z) : list action :=
  if tid =? 0 then [Atomic_add (block_counter deps) 1 c] else [].

(** What the claim of lane 0 leaves of [d] when it fetches [c]. *)
Definition after_claim (block_size : Z) (deps : syncfree_storage) (b : nat)
           (c : Z) (d : device) : device :=
  set_shared
    (set_global d (list_set (global_mem d) (Z.to_nat (block_counter deps)) (c + 1)))
    b
    {| local_status := local_status (shared_mem d b);
       block_offset := c * block_size |}.

(** What is left of the constructor at the barrier. *)
Definition after_barrier (block_size subwarp_size index_bits : Z)
           (deps : syncfree_storage) (tid : Z) : itree deviceE scheduler :=
  ITree.bind (Ret tt) (fun _ => read_offset block_size subwarp_size index_bits deps tid).

(** The block [b] while its lanes run: the status array is [G], the offset
    of the block is [off], the local cache has its [capacity] slots, and
    the other blocks are as in [d0]. *)
Definition block_running (capacity : Z) (b : nat) (d0 : device) (G : list Z)
           (off : Z) (d : device) : Prop :=
  global_mem d = G
  /\ block_offset (shared_mem d b) = off
  /\ Z.of_nat (length (local_status (shared_mem d b))) = capacity
  /\ forall b', b' <> b -> shared_mem d b' = shared_mem d0 b'.

(** [d'] is [d] but for what the local cache of block [b] holds. *)
Definition same_but_cache (b : nat) (d d' : device) : Prop :=
  global_mem d' = global_mem d
  /\ block_offset (shared_mem d' b) = block_offset (shared_mem d b)
  /\ length (local_status (shared_mem d' b)) = length (local_status (shared_mem d b))
  /\ forall b', b' <> b -> shared_mem d' b' = shared_mem d b'.

(** The rest of a lane that stands at [__syncthreads()]. *)
Definition at_syncthreads {R} (t : itree deviceE R) : option (itree deviceE R) :=
  match observe t with
  | VisF e k =>
      match e in deviceE X return (X -> itree deviceE R) -> option (itree deviceE R) with
      | SyncThreads => fun k => Some (k tt)
      | _ => fun _ => None
      end k
  | _ => None
  end.

(** A lane up to its next [__syncthreads()]: what is left of it there. *)
Fixpoint to_barrier {S R} (h : handler S) (fuel : nat) (t : itree deviceE R) (s : S)
  : S * list action * status_of (itree deviceE R) :=
  match fuel with
  | O => (s, [], Running)
  | Datatypes.S fuel' =>
      match at_syncthreads t with
      | Some t' => (s, [Syncthreads], Returned t')
      | None =>
          match lane_step h t s with
          | Halt r => (s, [], Returned (Ret r))
          | Fault => (s, [], Faulted)
          | Next t' s' a => log a (to_barrier h fuel' t' s')
          end
      end
  end.

(** The lanes of a block between two barriers, one after the other in
    the order of the list; [None] unless every lane gets there. *)
Fixpoint run_lanes {S A B} (run : A -> S -> S * list action * status_of B)
         (lanes : list A) (s : S) : option (S * list (list action * B)) :=
  match lanes with
  | [] => Some (s, [])
  | l :: lanes' =>
      match run l s with
      | (s', tr, Returned r) =>
          match run_lanes run lanes' s' with
          | Some (s'', rs) => Some (s'', (tr, r) :: rs)
          | None => None
          end
      | _ => None
      end
  end.

Section Launch.

Variables block_size subwarp_size index_bits : Z.

(** The [threadIdx.x] of the lanes of a block. *)
Definition thread_ids : list Z := map Z.of_nat (seq 0 (Z.to_nat block_size)).

(** Block [b] runs the constructor on all its lanes, [lanes] giving the
    order the lanes run in between barriers: first every lane up to
    [__syncthreads()], then every lane to the end.  The result is the
    actions and the scheduler of every lane. *)
Definition construct_block (deps : syncfree_storage) (fuel : nat) (b : nat)
           (lanes : list Z) (d : device)
  : option (device * list (list action * scheduler)) :=
  match run_lanes
          (fun tid =>
             to_barrier (on_device b) fuel
                        (syncfree_scheduler block_size subwarp_size index_bits deps tid))
          lanes d with
  | None => None
  | Some (d1, before) =>
      match run_lanes
              (fun l : list action * itree deviceE scheduler =>
                 exec (on_device b) fuel (snd l))
              before d1 with
      | None => None
      | Some (d2, after) =>
          Some (d2, map (fun p => (fst (fst p) ++ fst (snd p), snd (snd p)))
                        (combine before after))
      end
  end.

(** The blocks of a grid one after the other, in the order [order], each
    when the one before it has built its schedulers; the lanes of block [b]
    run in the order [lanes b].  (The lanes of all the blocks side by side,
    step by step, are run by [grid_run] below.) *)
Fixpoint launch (deps : syncfree_storage) (fuel : nat) (lanes : nat -> list Z)
         (order : list nat) (d : device)
  : option (device * list (nat * list (list action * scheduler))) :=
  match order with
  | [] => Some (d, [])
  | b :: order' =>
      match construct_block deps fuel b (lanes b) d with
      | None => None
      | Some (d', schedulers) =>
          match launch deps fuel lanes order' d' with
          | Some (d'', rest) => Some (d'', (b, schedulers) :: rest)
          | None => None
          end
      end
  end.

(** The work items a block owns: those of its lane-groups, named by the
    lane of each group that [get_lane] numbers 0. *)
Definition owned (schedulers : list (list action * scheduler)) : list Z :=
  map (fun l => get_work_id (snd l))
      (filter (fun l => get_lane subwarp_size (snd l) =? 0) schedulers).

End Launch.

(** The lists are the ranges of [capacity] work items from [c * capacity]
    on, one after the other: each list holds the items of its range, each
    once. *)
Fixpoint ranges_from (capacity c : Z) (ranges : list (list Z)) : Prop :=
  match ranges with
  | [] => True
  | r :: ranges' =>
      NoDup r
      /\ (forall w, In w r <-> c * capacity <= w < (c + 1) * capacity)
      /\ ranges_from capacity (c + 1) ranges'
  end.

Definition is_atomic_add (a : action) : bool :=
  match a with
  | Atomic_add _ _ _ => true
  | _ => false
  end.

(** ** Lanes running side by side *)

(** The calls a kernel makes on its scheduler. *)
Inductive call : Type :=
| Get_work_id
| Wait (dependency : Z)
| Peek (dependency : Z)
| Mark_ready.

Section Calls.

Variables block_size subwarp_size : Z.

Definition do_call (this : scheduler) (c : call) : itree deviceE unit :=
  match c with
  | Get_work_id => Ret (get_work_id this);; Ret tt
  | Wait dependency => wait block_size subwarp_size this dependency
  | Peek dependency => peek block_size subwarp_size this dependency;; Ret tt
  | Mark_ready => mark_ready block_size subwarp_size this
  end.

Fixpoint do_calls (this : scheduler) (cs : list call) : itree deviceE unit :=
  match cs with
  | [] => Ret tt
  | c :: cs' => do_call this c;; do_calls this cs'
  end.

End Calls.

(** A lane of the grid: its block and what it has left to run. *)
Record lane : Type := {
  lane_block : nat;
  lane_code : itree deviceE unit
}.

Fixpoint set_lane (pool : list lane) (i : nat) (l : lane) : list lane :=
  match pool, i with
  | [], _ => []
  | _ :: pool', O => l :: pool'
  | x :: pool', Datatypes.S i' => x :: set_lane pool' i' l
  end.

(** Lane [i] of the pool takes one step on the device; a lane that is
    done or has no defined step stays as it is.  A barrier is a step like
    any other and holds no lane back, so the runs of [sys_run] are those of
    the device and more. *)
Definition sys_step (i : nat) (pool : list lane) (d : device) : list lane * device :=
  match nth_error pool i with
  | Some l =>
      match lane_step (on_device (lane_block l)) (lane_code l) d with
      | Next t' d' _ => (set_lane pool i {| lane_block := lane_block l; lane_code := t' |}, d')
      | _ => (pool, d)
      end
  | None => (pool, d)
  end.

(** The lanes interleaved as [schedule] says, one step at a time. *)
Fixpoint sys_run (schedule : list nat) (pool : list lane) (d : device)
  : list lane * device :=
  match schedule with
  | [] => (pool, d)
  | i :: schedule' =>
      let (pool', d') := sys_step i pool d in
      sys_run schedule' pool' d'
  end.

(** What a lane of block [b] can still do, whatever the memory holds when
    it takes its steps. *)
Inductive can_do {R} (b : nat) : itree deviceE R -> action -> Prop :=
| can_do_now t d t' d' a :
    lane_step (on_device b) t d = Next t' d' (Some a) ->
    can_do b t a
| can_do_later t d t' d' o a :
    lane_step (on_device b) t d = Next t' d' o ->
    can_do b t' a ->
    can_do b t a.

Definition only_does {R} (b : nat) (t : itree deviceE R) (P : action -> Prop) : Prop :=
  forall a, can_do b t a -> P a.

(** The actions that write no word of the status array or of a local cache
    but to store 1 there. *)
Definition keeps_ready (a : action) : Prop :=
  match a with
  | Store_release _ v | Store_release_shared _ v => v = 1
  | Atomic_add _ _ _ | Store_shared _ _ => False
  | _ => True
  end.

(** Every word of [m'] is the word of [m] or 1. *)
Definition same_or_ready (m m' : list Z) : Prop :=
  forall p, load m' p = load m p \/ load m' p = Some 1.

(** From [d] to [d'] the flags of the status array and of the local caches
    have changed to 1 or not at all. *)
Definition ready_kept (d d' : device) : Prop :=
  same_or_ready (global_mem d) (global_mem d')
  /\ forall b, same_or_ready (local_status (shared_mem d b))
                             (local_status (shared_mem d' b)).

(** The lanes of a kernel, each with its block, its scheduler and the
    calls it makes. *)
Definition lanes_of (block_size subwarp_size : Z)
           (lanes : list (nat * scheduler * list call)) : list lane :=
  map (fun l => {| lane_block := fst (fst l);
                   lane_code := do_calls block_size subwarp_size (snd (fst l)) (snd l) |})
      lanes.

Definition lane_keeps_ready (l : lane) : Prop :=
  only_does (lane_block l) (lane_code l) keeps_ready.

(** ** More on the scheduler *)

(** The actions that write nothing. *)
Definition reads_only (a : action) : Prop :=
  match a with
  | Load_acquire _ _ | Load_acquire_shared _ _ | Read_block_offset _
  | Syncthreads | Tile_sync => True
  | _ => False
  end.

(** The calls that are not [mark_ready]. *)
Definition is_probe (c : call) : bool :=
  match c with
  | Mark_ready => false
  | _ => true
  end.

Definition lane_reads_only (l : lane) : Prop :=
  only_does (lane_block l) (lane_code l) reads_only.
(** * Reductions: [reduction.hpp] *)

Section Reduction.

Context {ValueType : Type}.
Variable reduce_op : ValueType -> ValueType -> ValueType.

(** ** [reduce] on a communicator group *)

(** Modelled from the spec: [shfl_xor] of [cooperative_groups.hpp] is not
    among the sources.  [group] holds the [local_data] of the lanes of the
    group in the order of their [thread_rank]; the lane [rank] gets the
    value of the lane [rank xor bitmask], and its own where the group has
    no such lane. *)
Definition shfl_xor (group : list ValueType) (rank : nat) (local_data : ValueType)
           (bitmask : Z) : ValueType :=
  nth (Z.to_nat (Z.lxor (Z.of_nat rank) bitmask)) group local_data.

(** One turn of the loop, by all the lanes of the group at once:
    [remote_data = group.shfl_xor(local_data, bitmask);
     local_data = reduce_op(local_data, remote_data)]. *)
Definition reduce_step (group : list ValueType) (bitmask : Z) : list ValueType :=
  map (fun lane : nat * ValueType =>
         let remote_data := shfl_xor group (fst lane) (snd lane) bitmask in
         reduce_op (snd lane) remote_data)
      (combine (seq 0 (length group)) group).

(** [for (int32 bitmask = ..; bitmask < group.size(); bitmask <<= 1)] *)
Fixpoint reduce_from (fuel : nat) (bitmask : Z) (group : list ValueType)
  : option (list ValueType) :=
  match fuel with
  | O => None
  | Datatypes.S fuel' =>
      if bitmask <? Z.of_nat (length group)
      then reduce_from fuel' (wrap_int (Z.shiftl bitmask 1)) (reduce_step group bitmask)
      else Some group
  end.

(** [reduce(group, local_data, reduce_op)]: what every lane returns, in
    the order of the lanes. *)
Definition reduce (fuel : nat) (group : list ValueType) : option (list ValueType) :=
  reduce_from fuel 1 group.

(** ** [reduce] on the data of a block *)

(** One turn of the loop, by all the lanes of the block between two
    barriers: [data] has a slot for every lane, and the lanes with
    [local_id < k] do
    [data[local_id] = reduce_op(data[local_id], data[local_id + k])].
    No lane reads a slot that another lane writes in the same turn. *)
Definition reduce_halve (data : list ValueType) (k : Z) : list ValueType :=
  map (fun slot : nat * ValueType =>
         let local_id := Z.of_nat (fst slot) in
         if local_id <? k
         then reduce_op (snd slot) (nth (Z.to_nat (local_id + k)) data (snd slot))
         else snd slot)
      (combine (seq 0 (length data)) data).

(** [for (int k = ..; k >= config::warp_size; k /= 2)] *)
Fixpoint reduce_halves (fuel : nat) (warp_size k : Z) (data : list ValueType)
  : option (list ValueType) :=
  match fuel with
  | O => None
  | Datatypes.S fuel' =>
      if warp_size <=? k
      then reduce_halves fuel' warp_size (k ÷ 2) (reduce_halve data k)
      else Some data
  end.

(** [reduce(group, data, reduce_op)] by a block of [length data] lanes:
    the array [data] after it.  The lanes of the first warp reduce what
    the loop has left in their slots, and the lane of rank 0 stores its
    result in [data[0]]. *)
Definition reduce_block (fuel : nat) (warp_size : Z) (data : list ValueType)
  : option (list ValueType) :=
  match reduce_halves fuel warp_size (wrap_int (Z.of_nat (length data) / 2)) data with
  | None => None
  | Some data' =>
      match reduce fuel (firstn (Z.to_nat warp_size) data') with
      | Some (result :: _) => Some (result :: tl data')
      | _ => None
      end
  end.

End Reduction.

(** ** What a reduction is to give *)

(** [data s], [data (s + 1)], ..., [data (s + k)] reduced from the left. *)
Fixpoint reduce_range {ValueType : Type}
         (reduce_op : ValueType -> ValueType -> ValueType)
         (data : Z -> ValueType) (s : Z) (k : nat) : ValueType :=
  match k with
  | O => data s
  | Datatypes.S k' => reduce_op (reduce_range reduce_op data s k') (data (s + Z.of_nat k))
  end.

(** ** [reduce_array] and [reduce_add_array] *)

(** [unsigned int], the type of [blockDim.x] and [gridDim.x]. *)
Definition wrap_uint (x : Z) : Z := x mod 2 ^ 32.

(** Modelled from the spec: [thread::get_thread_id_flat] of
    [thread_ids.hpp] is not among the sources.  It numbers the threads of
    a grid block after block, as a [size_type]. *)
Definition get_thread_id_flat (blockIdx blockDim threadIdx : Z) : Z :=
  wrap_size (threadIdx + blockDim * blockIdx).

(** Modelled from the spec: [ceildiv] is not among the sources.  It is
    the quotient rounded up, of operands whose sum is within their type. *)
Definition ceildiv (num den : Z) : Z := (num + den - 1) / den.

Definition default_reduce_block_size : Z := 512.

(** What every one of a list of threads or blocks has got, if every one
    has got something. *)
Fixpoint all_results {A : Type} (l : list (option A)) : option (list A) :=
  match l with
  | [] => Some []
  | None :: _ => None
  | Some x :: l' =>
      match all_results l' with
      | Some xs => Some (x :: xs)
      | None => None
      end
  end.

Section Reduce_array.

Context {ValueType : Type}.
Variable zero : ValueType.

(** [for (auto i = ..; i < size; i += blockDim.x * gridDim.x)
       thread_result = reduce_op(thread_result, source[i])];
    a read past the end of [source] has no defined result. *)
Fixpoint reduce_array_loop (reduce_op : ValueType -> ValueType -> ValueType)
         (fuel : nat) (size : Z) (source : list ValueType) (stride i : Z)
         (thread_result : ValueType) : option ValueType :=
  match fuel with
  | O => None
  | Datatypes.S fuel' =>
      if i <? size then
        match nth_error source (Z.to_nat i) with
        | Some v =>
            reduce_array_loop reduce_op fuel' size source stride
                              (wrap_size (i + stride)) (reduce_op thread_result v)
        | None => None
        end
      else Some thread_result
  end.

(** [reduce_array(size, source, result, reduce_op)] by the block
    [blockIdx] of a grid of [gridDim] blocks of [blockDim] threads: the
    array [result] after it.  Every thread stores its [thread_result] in
    the slot of its [threadIdx.x]; after the barrier the block reduces
    [result]. *)
Definition reduce_array (reduce_op : ValueType -> ValueType -> ValueType)
           (fuel : nat) (warp_size : Z) (size : Z) (source : list ValueType)
           (blockIdx blockDim gridDim : Z) : option (list ValueType) :=
  match all_results
          (map (fun threadIdx =>
                  let tidx := get_thread_id_flat blockIdx blockDim threadIdx in
                  reduce_array_loop reduce_op fuel size source
                                    (wrap_uint (blockDim * gridDim)) tidx zero)
               (thread_ids blockDim)) with
  | None => None
  | Some result => reduce_block reduce_op fuel warp_size result
  end.

Variable add : ValueType -> ValueType -> ValueType.

(** The kernel [reduce_add_array<<<gridDim, blockDim>>>(size, source,
    result)]: the array [result] after it, the thread 0 of every block
    having stored [block_sum[0]] in the slot of its [blockIdx.x]. *)
Definition reduce_add_array_kernel (fuel : nat) (warp_size : Z)
           (gridDim blockDim : Z) (size : Z) (source : list ValueType)
  : option (list ValueType) :=
  all_results
    (map (fun blockIdx =>
            match reduce_array add fuel warp_size size source
                               blockIdx blockDim gridDim with
            | Some (block_sum_0 :: _) => Some block_sum_0
            | _ => None
            end)
         (thread_ids gridDim)).

(** The host function [reduce_add_array(exec, size, source)]: the answer,
    and the launches of the kernel it made in their order, each
    [<<<gridDim, blockDim>>>] with the [size] it was given. *)
Definition reduce_add_array (fuel : nat) (warp_size : Z) (size : Z)
           (source : list ValueType) : option (ValueType * list (Z * Z * Z)) :=
  let last_launch (grid_dim : Z) (block_results_val : list ValueType)
                  (launched : list (Z * Z * Z)) :=
    match reduce_add_array_kernel fuel warp_size 1 default_reduce_block_size
                                  grid_dim block_results_val with
    | Some (answer :: _) =>
        Some (answer, launched ++ [(1, default_reduce_block_size, grid_dim)])
    | _ => None
    end in
  if size >? default_reduce_block_size then
    let n := ceildiv size default_reduce_block_size in
    let grid_dim :=
      if n <=? default_reduce_block_size then n else default_reduce_block_size in
    match reduce_add_array_kernel fuel warp_size grid_dim default_reduce_block_size
                                  size source with
    | Some block_results =>
        last_launch grid_dim block_results
                    [(grid_dim, default_reduce_block_size, size)]
    | None => None
    end
  else last_launch size source [].

End Reduce_array.

(** ** [choose_pivot] *)

(** Modelled from the spec: [shfl] of [cooperative_groups.hpp] is not
    among the sources.  Every lane gets the value that the lane [src_rank]
    of the group holds, the rank taken modulo the size of the group. *)
Definition shfl {A : Type} (group : list A) (local_data : A) (src_rank : Z) : A :=
  nth (Z.to_nat (src_rank mod Z.of_nat (length group))) group local_data.

Section Choose_pivot.

Context {ValueType real : Type}.

(** Modelled from the spec: [abs], [one] and the order of
    [remove_complex<ValueType>] are not among the sources. *)
Variable abs : ValueType -> real.
Variable minus_one : real.
Variable gt : real -> real -> bool.

(** [real lmag = is_pivoted ? -one<real>() : abs(local_data)] *)
Definition magnitude (lane : ValueType * bool) : real :=
  if snd lane then minus_one else abs (fst lane).

(** One turn of the loop of [reduce] with the operator of [choose_pivot],
    by all the lanes at once.  A lane holds [lidx], the [local_data] of
    the reduction, and [lmag], which the operator reads and writes; the
    operator fetches with [shfl] the [lmag] of the lane it is given. *)
Definition choose_pivot_step (group : list (Z * real)) (bitmask : Z)
  : list (Z * real) :=
  map (fun lane : nat * (Z * real) =>
         let lidx := fst (snd lane) in
         let lmag := snd (snd lane) in
         let ridx := shfl_xor (map fst group) (fst lane) lidx bitmask in
         let rmag := shfl (map snd group) lmag ridx in
         if gt rmag lmag then (ridx, rmag) else (lidx, lmag))
      (combine (seq 0 (length group)) group).

(** The loop of [reduce]; its operator is not a function of two values,
    so the loop is written out again. *)
Fixpoint choose_pivot_from (fuel : nat) (bitmask : Z) (group : list (Z * real))
  : option (list (Z * real)) :=
  match fuel with
  | O => None
  | Datatypes.S fuel' =>
      if bitmask <? Z.of_nat (length group)
      then choose_pivot_from fuel' (wrap_int (Z.shiftl bitmask 1))
                             (choose_pivot_step group bitmask)
      else Some group
  end.

(** [choose_pivot(group, local_data, is_pivoted)]: [group] holds the
    [local_data] and [is_pivoted] of the lanes in the order of their
    ranks; the result is what every lane returns. *)
Definition choose_pivot (fuel : nat) (group : list (ValueType * bool))
  : option (list Z) :=
  let start :=
    map (fun lane : nat * (ValueType * bool) =>
           (Z.of_nat (fst lane), magnitude (snd lane)))
        (combine (seq 0 (length group)) group) in
  match choose_pivot_from fuel 1 start with
  | None => None
  | Some lanes =>
      let pivot := map fst lanes in
      Some (map (fun p => shfl pivot p 0) pivot)
  end.

End Choose_pivot.
(** * Reference kernels of the hybrid format: [hybrid_kernels.cpp] *)

(** ** Arrays and loops of the host code *)

(** [int64]. *)
Definition wrap_int64 (x : Z) : Z := wrap_signed 64 x.

(** The element [p] of an array; outside the array there is none. *)
Definition read {A : Type} (m : list A) (p : Z) : option A :=
  if 0 <=? p then nth_error m (Z.to_nat p) else None.

Fixpoint list_update {A : Type} (m : list A) (n : nat) (v : A) : list A :=
  match m, n with
  | [], _ => []
  | _ :: m', O => v :: m'
  | x :: m', Datatypes.S n' => x :: list_update m' n' v
  end.

(** [m[p] = v]; outside the array the write has no defined result. *)
Definition write {A : Type} (m : list A) (p : Z) (v : A) : option (list A) :=
  if (0 <=? p) && (p <? Z.of_nat (length m))
  then Some (list_update m (Z.to_nat p) v)
  else None.

(** [turns] turns of a loop whose counter goes up by one from [i]; a
    turn that goes outside an array ends the run. *)
Fixpoint for_turns {S : Type} (turns : nat) (i : Z) (body : Z -> S -> option S)
         (s : S) : option S :=
  match turns with
  | O => Some s
  | Datatypes.S turns' =>
      match body i s with
      | Some s' => for_turns turns' (i + 1) body s'
      | None => None
      end
  end.

(** [for (i = first; i < bound; i++) body], [bound] within the type of
    the counter. *)
Definition for_loop {S : Type} (first bound : Z) (body : Z -> S -> option S)
           (s : S) : option S :=
  for_turns (Z.to_nat (bound - first)) first body s.

(** ** [compute_row_nnz] and [compute_coo_row_ptrs] *)

(** [row_ptrs] is an array of [int64], [row_nnzs] one of [size_type]; the
    bound of the loop is the [size_type] [get_num_elems() - 1]. *)
Definition compute_row_nnz (row_ptrs : list Z) (row_nnzs : list Z) : option (list Z) :=
  for_loop 0 (wrap_size (Z.of_nat (length row_ptrs) - 1))
           (fun i row_nnzs =>
              match read row_ptrs (i + 1), read row_ptrs i with
              | Some next, Some this =>
                  write row_nnzs i (wrap_size (wrap_int64 (next - this)))
              | _, _ => None
              end)
           row_nnzs.

(** Modelled from the spec: [components::prefix_sum] is not among the
    sources.  It replaces the first [n] elements of [counts] by the sums
    of the elements before them, the first by 0, as [int64]. *)
Fixpoint prefix_sum_from (acc : Z) (counts : list Z) (n : nat) : list Z :=
  match n, counts with
  | Datatypes.S n', x :: counts' => acc :: prefix_sum_from (wrap_int64 (acc + x)) counts' n'
  | _, _ => counts
  end.

Definition prefix_sum (counts : list Z) (n : Z) : option (list Z) :=
  if n <=? Z.of_nat (length counts)
  then Some (prefix_sum_from 0 counts (Z.to_nat n))
  else None.

(** [row_nnz] is an array of [size_type], [coo_row_ptrs] one of [int64]. *)
Definition compute_coo_row_ptrs (row_nnz : list Z) (ell_lim : Z)
           (coo_row_ptrs : list Z) : option (list Z) :=
  match for_loop 0 (Z.of_nat (length row_nnz))
                 (fun row coo_row_ptrs =>
                    match read row_nnz row with
                    | Some nnz =>
                        if nnz <=? ell_lim
                        then write coo_row_ptrs row 0
                        else write coo_row_ptrs row
                                   (wrap_int64 (wrap_size (nnz - ell_lim)))
                    | None => None
                    end)
                 coo_row_ptrs with
  | Some coo_row_ptrs' =>
      prefix_sum coo_row_ptrs' (wrap_size (Z.of_nat (length row_nnz) + 1))
  | None => None
  end.

(** ** The matrices *)

(** Modelled from the spec: [device_matrix_data] is not among the
    sources.  Its [nonzeros] are entries of a row, a column and a
    value. *)
Record matrix_data_entry (ValueType : Type) : Type := {
  row : Z;
  column : Z;
  value : ValueType
}.
Arguments row {ValueType}.
Arguments column {ValueType}.
Arguments value {ValueType}.

(** Modelled from the spec: [matrix::Hybrid] and [matrix::Ell] are not
    among the sources.  The ELL part is a table of [get_size()[0]] rows
    of [get_num_stored_elements_per_row()] slots, which [col_at] and
    [val_at] address by row and slot; the COO part is three arrays, as
    long as it has stored elements. *)
Record Hybrid (ValueType : Type) : Type := {
  hybrid_rows : Z;
  ell_num_stored_elements_per_row : Z;
  ell_col_at : Z -> Z -> Z;
  ell_val_at : Z -> Z -> ValueType;
  coo_row_idxs : list Z;
  coo_col_idxs : list Z;
  coo_values : list ValueType
}.
Arguments hybrid_rows {ValueType}.
Arguments ell_num_stored_elements_per_row {ValueType}.
Arguments ell_col_at {ValueType}.
Arguments ell_val_at {ValueType}.
Arguments coo_row_idxs {ValueType}.
Arguments coo_col_idxs {ValueType}.
Arguments coo_values {ValueType}.

(** Modelled from the spec: [matrix::Csr] is not among the sources. *)
Record Csr (ValueType : Type) : Type := {
  csr_values : list ValueType;
  csr_col_idxs : list Z;
  csr_row_ptrs : list Z
}.
Arguments csr_values {ValueType}.
Arguments csr_col_idxs {ValueType}.
Arguments csr_row_ptrs {ValueType}.

Section Hybrid_kernels.

Context {ValueType : Type}.
Variable zero : ValueType.

(** Modelled from the spec: [is_nonzero] of [math.hpp] is not among the
    sources. *)
Variable is_nonzero : ValueType -> bool.

(** [result->ell_col_at(row, idx) = col; result->ell_val_at(row, idx) = val] *)
Definition set_ell (result : Hybrid ValueType) (r idx col : Z) (val : ValueType)
  : Hybrid ValueType :=
  {| hybrid_rows := hybrid_rows result;
     ell_num_stored_elements_per_row := ell_num_stored_elements_per_row result;
     ell_col_at := fun r' idx' =>
                     if (r' =? r) && (idx' =? idx) then col else ell_col_at result r' idx';
     ell_val_at := fun r' idx' =>
                     if (r' =? r) && (idx' =? idx) then val else ell_val_at result r' idx';
     coo_row_idxs := coo_row_idxs result;
     coo_col_idxs := coo_col_idxs result;
     coo_values := coo_values result |}.

(** The three writes at [coo_nz]. *)
Definition set_coo (result : Hybrid ValueType) (coo_nz : Z)
           (nonzero : matrix_data_entry ValueType) : option (Hybrid ValueType) :=
  match write (coo_row_idxs result) coo_nz (row nonzero),
        write (coo_col_idxs result) coo_nz (column nonzero),
        write (coo_values result) coo_nz (value nonzero) with
  | Some rows, Some cols, Some vals =>
      Some {| hybrid_rows := hybrid_rows result;
              ell_num_stored_elements_per_row := ell_num_stored_elements_per_row result;
              ell_col_at := ell_col_at result;
              ell_val_at := ell_val_at result;
              coo_row_idxs := rows;
              coo_col_idxs := cols;
              coo_values := vals |}
  | _, _, _ => None
  end.

(** The state of the loops of [fill_in_matrix_data]. *)
Record fill_state : Type := {
  fill_result : Hybrid ValueType;
  fill_coo_nz : Z;
  fill_ell_nz : Z
}.

(** A turn of the loop over the nonzeros of the row [r]: the nonzero
    goes to the next slot of the row in the ELL part, if there is one,
    and to the COO part if not. *)
Definition fill_nonzero (nonzeros : list (matrix_data_entry ValueType))
           (ell_max_nnz r nz : Z) (st : fill_state) : option fill_state :=
  match read nonzeros nz with
  | Some nonzero =>
      if fill_ell_nz st <? ell_max_nnz then
        Some {| fill_result :=
                  set_ell (fill_result st) r (fill_ell_nz st)
                          (column nonzero) (value nonzero);
                fill_coo_nz := fill_coo_nz st;
                fill_ell_nz := fill_ell_nz st + 1 |}
      else
        match set_coo (fill_result st) (fill_coo_nz st) nonzero with
        | Some result' =>
            Some {| fill_result := result';
                    fill_coo_nz := fill_coo_nz st + 1;
                    fill_ell_nz := fill_ell_nz st |}
        | None => None
        end
  | None => None
  end.

(** A turn of the loop that fills the slots left of the row [r]. *)
Definition fill_padding (r ell_nz : Z) (st : fill_state) : option fill_state :=
  Some {| fill_result := set_ell (fill_result st) r ell_nz 0 zero;
          fill_coo_nz := fill_coo_nz st;
          fill_ell_nz := ell_nz + 1 |}.

(** A turn of the loop over the rows. *)
Definition fill_row (nonzeros : list (matrix_data_entry ValueType))
           (row_ptrs : list Z) (ell_max_nnz r : Z) (st : fill_state)
  : option fill_state :=
  match read row_ptrs r, read row_ptrs (r + 1) with
  | Some first, Some bound =>
      match for_loop first bound (fill_nonzero nonzeros ell_max_nnz r)
                     {| fill_result := fill_result st;
                        fill_coo_nz := fill_coo_nz st;
                        fill_ell_nz := 0 |} with
      | Some st1 => for_loop (fill_ell_nz st1) ell_max_nnz (fill_padding r) st1
      | None => None
      end
  | _, _ => None
  end.

Definition fill_in_matrix_data (nonzeros : list (matrix_data_entry ValueType))
           (row_ptrs : list Z) (result : Hybrid ValueType)
  : option (Hybrid ValueType) :=
  let num_rows := hybrid_rows result in
  let ell_max_nnz := ell_num_stored_elements_per_row result in
  option_map fill_result
    (for_loop 0 num_rows (fill_row nonzeros row_ptrs ell_max_nnz)
              {| fill_result := result; fill_coo_nz := 0; fill_ell_nz := 0 |}).

(** The state of the loops of [convert_to_csr]. *)
(** The width of [IndexType], the type of the row pointers of the CSR
    matrix and of the counters [row] and [col]. *)
Variable index_bits : Z.

(** [for (IndexType i = 0; i < bound; i++) body]: the body sees the
    counter as an [IndexType] holds it. *)
Definition index_loop {S : Type} (bound : Z) (body : Z -> S -> option S) (s : S)
  : option S :=
  for_loop 0 bound (fun i => body (wrap_index index_bits i)) s.

Record csr_state : Type := {
  conv_result : Csr ValueType;
  conv_csr_idx : Z;
  conv_coo_idx : Z
}.

(** [csr_val[csr_idx] = val; csr_col_idxs[csr_idx] = col; csr_idx++],
    [csr_idx] a [size_type]. *)
Definition push_csr (st : csr_state) (val : ValueType) (col : Z) : option csr_state :=
  match write (csr_values (conv_result st)) (conv_csr_idx st) val,
        write (csr_col_idxs (conv_result st)) (conv_csr_idx st) col with
  | Some vals, Some cols =>
      Some {| conv_result := {| csr_values := vals;
                                csr_col_idxs := cols;
                                csr_row_ptrs := csr_row_ptrs (conv_result st) |};
              conv_csr_idx := wrap_size (conv_csr_idx st + 1);
              conv_coo_idx := conv_coo_idx st |}
  | _, _ => None
  end.

(** [while (coo_idx < coo_nnz && coo_row[coo_idx] == row)]: it ends
    after [coo_nnz - coo_idx] turns at the latest. *)
Fixpoint convert_coo_part (turns : nat) (source : Hybrid ValueType) (r : Z)
         (st : csr_state) : option csr_state :=
  match turns with
  | O => Some st
  | Datatypes.S turns' =>
      if conv_coo_idx st <? Z.of_nat (length (coo_values source)) then
        match read (coo_row_idxs source) (conv_coo_idx st) with
        | Some coo_row =>
            if coo_row =? r then
              match read (coo_values source) (conv_coo_idx st),
                    read (coo_col_idxs source) (conv_coo_idx st) with
              | Some val, Some col =>
                  match push_csr st val col with
                  | Some st' =>
                      convert_coo_part turns' source r
                        {| conv_result := conv_result st';
                           conv_csr_idx := conv_csr_idx st';
                           conv_coo_idx := wrap_size (conv_coo_idx st' + 1) |}
                  | None => None
                  end
              | _, _ => None
              end
            else Some st
        | None => None
        end
      else Some st
  end.

(** A turn of the loop over the slots of the row [r] of the ELL part. *)
Definition convert_ell_slot (source : Hybrid ValueType) (r col : Z)
           (st : csr_state) : option csr_state :=
  let val := ell_val_at source r col in
  if is_nonzero val
  then push_csr st val (ell_col_at source r col)
  else Some st.

(** A turn of the loop over the rows; [csr_row_ptrs[row + 1] = csr_idx]
    stores the [size_type] as an [IndexType]. *)
Definition convert_row (source : Hybrid ValueType) (r : Z) (st : csr_state)
  : option csr_state :=
  let max_nnz_per_row := ell_num_stored_elements_per_row source in
  let coo_nnz := Z.of_nat (length (coo_values source)) in
  match index_loop max_nnz_per_row (convert_ell_slot source r) st with
  | Some st1 =>
      match convert_coo_part (Z.to_nat (coo_nnz - conv_coo_idx st1)) source r st1 with
      | Some st2 =>
          match write (csr_row_ptrs (conv_result st2))
                      (wrap_index index_bits (r + 1))
                      (wrap_index index_bits (conv_csr_idx st2)) with
          | Some row_ptrs' =>
              Some {| conv_result :=
                        {| csr_values := csr_values (conv_result st2);
                           csr_col_idxs := csr_col_idxs (conv_result st2);
                           csr_row_ptrs := row_ptrs' |};
                      conv_csr_idx := conv_csr_idx st2;
                      conv_coo_idx := conv_coo_idx st2 |}
          | None => None
          end
      | None => None
      end
  | None => None
  end.

Definition convert_to_csr (source : Hybrid ValueType) (result : Csr ValueType)
  : option (Csr ValueType) :=
  match write (csr_row_ptrs result) 0 0 with
  | None => None
  | Some row_ptrs0 =>
      option_map conv_result
        (index_loop (hybrid_rows source) (convert_row source)
           {| conv_result := {| csr_values := csr_values result;
                                csr_col_idxs := csr_col_idxs result;
                                csr_row_ptrs := row_ptrs0 |};
              conv_csr_idx := 0;
              conv_coo_idx := 0 |})
  end.

End Hybrid_kernels.

(** ** What the kernels are to give *)

(** The nonzeros of the row [r]: those from [row_ptrs[r]] up to
    [row_ptrs[r + 1]]. *)
Definition row_entries {ValueType : Type}
           (nonzeros : list (matrix_data_entry ValueType)) (row_ptrs : list Z)
           (r : nat) : list (matrix_data_entry ValueType) :=
  firstn (Z.to_nat (nth (Datatypes.S r) row_ptrs 0 - nth r row_ptrs 0))
         (skipn (Z.to_nat (nth r row_ptrs 0)) nonzeros).

(** The nonzeros of the first [n] rows for which the ELL part has no
    slot: of every row those after its first [ell_max_nnz]. *)
Definition coo_entries {ValueType : Type}
           (nonzeros : list (matrix_data_entry ValueType)) (row_ptrs : list Z)
           (ell_max_nnz : Z) (n : nat) : list (matrix_data_entry ValueType) :=
  concat (map (fun r => skipn (Z.to_nat ell_max_nnz) (row_entries nonzeros row_ptrs r))
              (seq 0 n)).

(** An array whose first elements have been written: [w] and behind it
    what [a0] had. *)
Definition written {A : Type} (w a0 : list A) : list A := w ++ skipn (length w) a0.

(** The value and the column of a nonzero. *)
Definition csr_entry {ValueType : Type} (e : matrix_data_entry ValueType)
  : ValueType * Z :=
  (value e, column e).

(** The slots of the row [r] of the ELL part that hold a nonzero value,
    in the order of the slots: their values and columns. *)
Definition ell_nonzeros {ValueType : Type} (is_nonzero : ValueType -> bool)
           (source : Hybrid ValueType) (r : Z) (slots : nat) : list (ValueType * Z) :=
  map (fun col => (ell_val_at source r col, ell_col_at source r col))
      (filter (fun col => is_nonzero (ell_val_at source r col))
              (map Z.of_nat (seq 0 slots))).

(** The values and columns of the first [n] rows of a hybrid matrix whose
    COO part holds [coo r] for the row [r]: of every row first what the
    ELL part has of it, then what the COO part has. *)
Definition csr_entries {ValueType : Type} (is_nonzero : ValueType -> bool)
           (source : Hybrid ValueType)
           (coo : nat -> list (matrix_data_entry ValueType)) (n : nat)
  : list (ValueType * Z) :=
  concat (map (fun r =>
                 ell_nonzeros is_nonzero source (Z.of_nat r)
                              (Z.to_nat (ell_num_stored_elements_per_row source))
                 ++ map csr_entry (coo r))
              (seq 0 n)).

(** * The check of a launch configuration: [dpcpp/base/helper.dp.cpp] *)

(** Modelled from the spec: the device queries of SYCL are not among the
    sources.  [subgroup_size_list] and [max_workgroup_size] are what the
    device of the queue answers for [sub_group_sizes] and
    [max_work_group_size]. *)
Definition validate (subgroup_size_list : list Z) (max_workgroup_size : Z)
           (workgroup_size subgroup_size : Z) : bool :=
  let allowed :=
    fold_left (fun allowed i => allowed || (i =? subgroup_size))
              subgroup_size_list false in
  allowed && (workgroup_size <=? max_workgroup_size).

(** * [reduce_add_array_with_initial_value]: [reduction.hpp] *)

Section Reduce_add_array_with_initial_value.

Context {ValueType : Type}.
Variable zero : ValueType.
Variable add : ValueType -> ValueType -> ValueType.



End Reduce_add_array_with_initial_value.

(** * [multireduce]: [reduction.hpp] *)

Section Multireduce.

Context {ValueType : Type}.
Variable reduce_op : ValueType -> ValueType -> ValueType.







End Multireduce.

(** * The blocks of a grid side by side *)

(** ** The lanes of a grid, step by step *)

(** What a lane has returned, if it has. *)
Definition returned {R : Type} (t : itree deviceE R) : option R :=
  match observe t with
  | RetF r => Some r
  | _ => None
  end.

Definition at_barrier {R : Type} (t : itree deviceE R) : bool :=
  match at_syncthreads t with
  | Some _ => true
  | None => false
  end.

Definition pass_barrier {R : Type} (t : itree deviceE R) : itree deviceE R :=
  match at_syncthreads t with
  | Some t' => t'
  | None => t
  end.

(** A grid while its blocks build their schedulers: for every block what
    each of its lanes has left of the constructor, the device memory, and
    the actions performed so far, each with the block of the lane, in the
    order in which they took place. *)
Record grid : Type := {
  grid_blocks : list (list (itree deviceE scheduler));
  grid_device : device;
  grid_log : list (nat * action)
}.

Definition logged (b : nat) (a : option action) : list (nat * action) :=
  match a with
  | Some a => [(b, a)]
  | None => []
  end.

(** The lane [i] of the block [b] takes a step.  A primitive is one step,
    [atomic_add] as well: it is the only one that reads and writes in one
    step.  A lane that stands at [__syncthreads()] waits there until every
    lane of its block does; then they all pass.  A lane that has returned
    or has no defined step stays as it is. *)
Definition grid_step (x : nat * nat) (g : grid) : grid :=
  let (b, i) := x in
  match nth_error (grid_blocks g) b with
  | None => g
  | Some lanes =>
      match nth_error lanes i with
      | None => g
      | Some t =>
          if at_barrier t then
            if forallb at_barrier lanes
            then {| grid_blocks := list_update (grid_blocks g) b (map pass_barrier lanes);
                    grid_device := grid_device g;
                    grid_log := grid_log g |}
            else g
          else
            match lane_step (on_device b) t (grid_device g) with
            | Next t' d' a =>
                {| grid_blocks := list_update (grid_blocks g) b (list_update lanes i t');
                   grid_device := d';
                   grid_log := grid_log g ++ logged b a |}
            | _ => g
            end
      end
  end.

(** The lanes of all the blocks interleaved as [schedule] says, one step
    at a time. *)
Definition grid_run (schedule : list (nat * nat)) (g : grid) : grid :=
  fold_left (fun g x => grid_step x g) schedule g.

(** The kernel starts: [G] blocks, every lane of every block at the
    beginning of the constructor. *)
Definition grid_start (block_size subwarp_size index_bits : Z)
           (deps : syncfree_storage) (G : nat) (d : device) : grid :=
  {| grid_blocks :=
       repeat (map (syncfree_scheduler block_size subwarp_size index_bits deps)
                   (thread_ids block_size)) G;
     grid_device := d;
     grid_log := [] |}.

(** The fetches of the counter on a log, in their order: the block and
    the value fetched. *)
Definition claims (log : list (nat * action)) : list (nat * Z) :=
  flat_map (fun e => match snd e with
                     | Atomic_add _ _ old => [(fst e, old)]
                     | _ => []
                     end) log.

(** The schedulers of the lanes of a block that have returned. *)
Definition schedulers_of (lanes : list (itree deviceE scheduler)) : list scheduler :=
  flat_map (fun t => match returned t with
                     | Some s => [s]
                     | None => []
                     end) lanes.

(** The work items of these schedulers, each lane-group named by the lane
    that [get_lane] numbers 0. *)
Definition work_items (subwarp_size : Z) (schedulers : list scheduler) : list Z :=
  map get_work_id (filter (fun s => get_lane subwarp_size s =? 0) schedulers).

Definition all_returned (g : grid) : Prop :=
  Forall (Forall (fun t => returned t <> None)) (grid_blocks g).

(** ** Where a lane stands in the constructor *)

(** The places of the constructor at which a lane can stand between two
    steps.  They serve the proofs about [grid_run]: a grid is followed by
    the phases of its lanes, and the steps of the grid are shown to be the
    steps of the phases. *)
Inductive phase : Type :=
| Claiming                     (* before [atomic_add] *)
| Fetched (c : Z)              (* before [local.block_offset = ...] *)
| Resetting (i : Z)            (* before the test [i < local_dependency_count] *)
| Stored (i : Z)               (* after [local.status[..] = 0], before that test *)
| Reading                      (* after [__syncthreads()] *)
| Reading2 (offset1 : Z)       (* after the first read of [local.block_offset] *)
| Finished (s : scheduler).

Section Phases.

Variables block_size subwarp_size index_bits : Z.
Variable deps : syncfree_storage.

(** What the lane [tid] has left of the constructor in a phase. *)
Definition code_of (tid : Z) (p : phase) : itree deviceE scheduler :=
  match p with
  | Claiming =>
      (c <- atomic_add (block_counter deps) 1;;
       ITree.trigger (WriteBlockOffset (wrap_index index_bits (c * block_size))));;
      reset_status block_size subwarp_size tid;;
      syncthreads;;
      read_offset block_size subwarp_size index_bits deps tid
  | Fetched c =>
      ITree.trigger (WriteBlockOffset (wrap_index index_bits (c * block_size)));;
      reset_status block_size subwarp_size tid;;
      syncthreads;;
      read_offset block_size subwarp_size index_bits deps tid
  | Resetting i =>
      reset_status block_size subwarp_size i;;
      syncthreads;;
      read_offset block_size subwarp_size index_bits deps tid
  | Stored i =>
      Tau (reset_status block_size subwarp_size i;;
           syncthreads;;
           read_offset block_size subwarp_size index_bits deps tid)
  | Reading => read_offset block_size subwarp_size index_bits deps tid
  | Reading2 offset1 =>
      offset2 <- ITree.trigger ReadBlockOffset;;
      Ret {| global := deps;
             threadIdx_x := tid;
             work_id := wrap_index index_bits (offset2 + tid) ÷ subwarp_size;
             block_id := offset1 ÷ block_size |}
  | Finished s => Ret s
  end.

Definition lane_at (tid : Z) (p : phase) (t : itree deviceE scheduler) : Prop :=
  observe t = observe (code_of tid p).

(** The phase of a lane when the kernel starts. *)
Definition first_phase (tid : Z) : phase :=
  if tid =? 0 then Claiming else Resetting tid.

(** A lane in this phase stands at [__syncthreads()]. *)
Definition waiting (p : phase) : bool :=
  match p with
  | Resetting i => negb (i <? local_dependency_count block_size subwarp_size)
  | _ => false
  end.

Definition finished (p : phase) : bool :=
  match p with
  | Finished _ => true
  | _ => false
  end.

(** The lane has passed [__syncthreads()]. *)
Definition released (p : phase) : bool :=
  match p with
  | Reading | Reading2 _ | Finished _ => true
  | _ => false
  end.

(** The step of the lane [tid] of block [b] from a phase: the next phase,
    the memory and the action; [None] where the lane waits, has returned
    or has no defined step. *)
Definition phase_step (b : nat) (tid : Z) (p : phase) (d : device)
  : option (phase * device * option action) :=
  match p with
  | Claiming =>
      match load (global_mem d) (block_counter deps) with
      | Some old =>
          match store (global_mem d) (block_counter deps) (wrap_int (old + 1)) with
          | Some m =>
              Some (Fetched old, set_global d m,
                    Some (Atomic_add (block_counter deps) 1 old))
          | None => None
          end
      | None => None
      end
  | Fetched c =>
      Some (Resetting tid,
            set_shared d b {| local_status := local_status (shared_mem d b);
                              block_offset := wrap_index index_bits (c * block_size) |},
            Some (Write_block_offset (wrap_index index_bits (c * block_size))))
  | Resetting i =>
      if i <? local_dependency_count block_size subwarp_size then
        match store (local_status (shared_mem d b)) i 0 with
        | Some m =>
            Some (Stored (wrap_int (i + subwarp_size)), set_local_status d b m,
                  Some (Store_shared i 0))
        | None => None
        end
      else None
  | Stored i => Some (Resetting i, d, None)
  | Reading =>
      Some (Reading2 (block_offset (shared_mem d b)), d,
            Some (Read_block_offset (block_offset (shared_mem d b))))
  | Reading2 offset1 =>
      Some (Finished
              {| global := deps;
                 threadIdx_x := tid;
                 work_id := wrap_index index_bits (block_offset (shared_mem d b) + tid)
                            ÷ subwarp_size;
                 block_id := offset1 ÷ block_size |},
            d,
            Some (Read_block_offset (block_offset (shared_mem d b))))
  | Finished _ => None
  end.

(** The grid by the phases of its lanes, each lane with its
    [threadIdx.x]. *)
Record phases : Type := {
  phases_blocks : list (list (Z * phase));
  phases_device : device;
  phases_log : list (nat * action)
}.

Definition phases_step (x : nat * nat) (a : phases) : phases :=
  let (b, i) := x in
  match nth_error (phases_blocks a) b with
  | None => a
  | Some lanes =>
      match nth_error lanes i with
      | None => a
      | Some (tid, p) =>
          if waiting p then
            if forallb (fun l => waiting (snd l)) lanes
            then {| phases_blocks :=
                      list_update (phases_blocks a) b
                                  (map (fun l => (fst l, Reading)) lanes);
                    phases_device := phases_device a;
                    phases_log := phases_log a |}
            else a
          else
            match phase_step b tid p (phases_device a) with
            | Some (p', d', act) =>
                {| phases_blocks :=
                     list_update (phases_blocks a) b (list_update lanes i (tid, p'));
                   phases_device := d';
                   phases_log := phases_log a ++ logged b act |}
            | None => a
            end
      end
  end.

Definition phases_run (schedule : list (nat * nat)) (a : phases) : phases :=
  fold_left (fun a x => phases_step x a) schedule a.

Definition phases_start (G : nat) (d : device) : phases :=
  {| phases_blocks :=
       repeat (map (fun tid => (tid, first_phase tid)) (thread_ids block_size)) G;
     phases_device := d;
     phases_log := [] |}.

(** The grid [g] stands where [a] says. *)
Definition stands_at (g : grid) (a : phases) : Prop :=
  Forall2 (Forall2 (fun t l => lane_at (fst l) (snd l) t))
          (grid_blocks g) (phases_blocks a)
  /\ grid_device g = phases_device a
  /\ grid_log g = phases_log a.

(** The block [b] has fetched the counter, as the [j]-th block to do so,
    and its offset is written. *)
Definition offset_written (log : list (nat * action)) (d : device) (b j : nat) : Prop :=
  nth_error (map fst (claims log)) j = Some b
  /\ block_offset (shared_mem d b) = Z.of_nat j * block_size.

(** What holds of the lane [tid] of block [b] in a phase. *)
Definition phase_ok (log : list (nat * action)) (d : device) (b : nat) (tid : Z)
           (p : phase) : Prop :=
  match p with
  | Claiming => tid = 0 /\ ~ In b (map fst (claims log))
  | Fetched c =>
      tid = 0
      /\ exists j, nth_error (map fst (claims log)) j = Some b /\ c = Z.of_nat j
  | Resetting i | Stored i =>
      0 <= i /\ (tid = 0 -> exists j, offset_written log d b j)
  | Reading => exists j, offset_written log d b j
  | Reading2 offset1 =>
      exists j, offset_written log d b j /\ offset1 = Z.of_nat j * block_size
  | Finished s =>
      exists j, nth_error (map fst (claims log)) j = Some b
                /\ s = scheduler_of block_size subwarp_size deps (Z.of_nat j) tid
  end.

(** What holds of a grid that started with [G] blocks, whatever steps its
    lanes have taken: the [k]-th fetch of the counter fetched [k], no block
    has fetched twice, the counter holds the number of fetches, and every
    lane is as its phase says; the lanes of a block have all passed the
    barrier or none has. *)
Definition grid_ok (G : nat) (a : phases) : Prop :=
  length (phases_blocks a) = G
  /\ Forall (fun lanes => map fst lanes = thread_ids block_size) (phases_blocks a)
  /\ map snd (claims (phases_log a))
     = map Z.of_nat (seq 0 (length (claims (phases_log a))))
  /\ NoDup (map fst (claims (phases_log a)))
  /\ (forall b, In b (map fst (claims (phases_log a))) -> (b < G)%nat)
  /\ load (global_mem (phases_device a)) (block_counter deps)
     = Some (Z.of_nat (length (claims (phases_log a))))
  /\ (forall b, (b < G)%nat ->
                Z.of_nat (length (local_status (shared_mem (phases_device a) b)))
                = local_dependency_count block_size subwarp_size)
  /\ (forall b lanes,
        nth_error (phases_blocks a) b = Some lanes ->
        Forall (fun l => phase_ok (phases_log a) (phases_device a) b (fst l) (snd l))
               lanes
        /\ (Forall (fun l => released (snd l) = false) lanes
            \/ Forall (fun l => released (snd l) = true) lanes)).

(** The steps a lane has left at most. *)
Definition steps_left (p : phase) : nat :=
  match p with
  | Claiming => 2 * Z.to_nat (local_dependency_count block_size subwarp_size) + 6
  | Fetched _ => 2 * Z.to_nat (local_dependency_count block_size subwarp_size) + 5
  | Resetting i =>
      2 * Z.to_nat (local_dependency_count block_size subwarp_size - i) + 3
  | Stored i =>
      2 * Z.to_nat (local_dependency_count block_size subwarp_size - i) + 4
  | Reading => 2
  | Reading2 _ => 1
  | Finished _ => 0
  end.

Definition steps_of (a : phases) : nat :=
  list_sum (map (fun lanes => list_sum (map (fun l => steps_left (snd l)) lanes))
                (phases_blocks a)).

End Phases.

(** * Proofs *)

(** ** Facts on running a lane *)

Lemma observe_iter {E A B} (body : A -> itree E (A + B)) (i : A) :
  observe (ITree.iter body i)
  = observe (lr <- body i;;
             match lr with
             | inl l => Tau (ITree.iter body l)
             | inr r => Ret r
             end).
Proof. reflexivity. Qed.

Lemma lane_step_observe {S R} (h : handler S) (t u : itree deviceE R) (s : S) :
  observe t = observe u -> lane_step h t s = lane_step h u s.
Proof. unfold lane_step. intros ->. reflexivity. Qed.

Lemma lane_step_bind {S R Q} (h : handler S) (t : itree deviceE R)
      (k : R -> itree deviceE Q) (s : S) :
  lane_step h (ITree.bind t k) s
  = match lane_step h t s with
    | Halt r => lane_step h (k r) s
    | Fault => Fault
    | Next t' s' a => Next (ITree.bind t' k) s' a
    end.
Proof.
  unfold lane_step. rewrite observe_bind.
  destruct (observe t) as [r | t' | X e ke]; cbn; try reflexivity.
  destruct (h X e s) as [[s' x] |]; reflexivity.
Qed.

Lemma exec_observe {S R} (h : handler S) fuel (t u : itree deviceE R) (s : S) :
  observe t = observe u -> exec h fuel t s = exec h fuel u s.
Proof.
  intros E. destruct fuel; [reflexivity |].
  cbn. rewrite (lane_step_observe h t u s E). reflexivity.
Qed.

Lemma log_status {S R} a (o : S * list action * status_of R) :
  snd (log a o) = snd o.
Proof. destruct a, o as [[s tr] st]; reflexivity. Qed.

Lemma log_inv {S R} a (o : S * list action * status_of R) s tr st :
  log a o = (s, tr, st) ->
  exists tr', o = (s, tr', st)
              /\ tr = match a with Some a => a :: tr' | None => tr' end.
Proof.
  destruct o as [[s0 tr0] st0]. destruct a; cbn; intros H; injection H as <- <- <-; eauto.
Qed.

(** A run that came to an end is not changed by more fuel. *)
Lemma exec_more_fuel {S R} (h : handler S) n fuel (t : itree deviceE R) (s : S) :
  snd (exec h fuel t s) <> Running ->
  exec h (fuel + n) t s = exec h fuel t s.
Proof.
  revert t s. induction fuel as [| fuel IH]; intros t s Hst.
  - cbn in Hst. congruence.
  - cbn in *. destruct (lane_step h t s) as [r | | t' s' a]; try reflexivity.
    rewrite log_status in Hst. rewrite (IH _ _ Hst). reflexivity.
Qed.

Lemma exec_bind {S R Q} (h : handler S) (t : itree deviceE R)
      (k : R -> itree deviceE Q) f1 f2 s s1 tr1 x s2 tr2 st :
  exec h f1 t s = (s1, tr1, Returned x) ->
  exec h f2 (k x) s1 = (s2, tr2, st) ->
  st <> Running ->
  exec h (f1 + f2) (ITree.bind t k) s = (s2, tr1 ++ tr2, st).
Proof.
  revert t s tr1. induction f1 as [| f1 IH]; intros t s tr1 H1 H2 Hst.
  - cbn in H1. congruence.
  - cbn in H1. cbn [Nat.add exec]. rewrite lane_step_bind.
    destruct (lane_step h t s) as [r | | t' s' a] eqn:Hstep.
    + injection H1 as <- <- <-.
      assert (E : exec h (Datatypes.S (f1 + f2)) (k r) s = (s2, tr2, st)).
      { replace (Datatypes.S (f1 + f2)) with (f2 + Datatypes.S f1)%nat by lia.
        rewrite exec_more_fuel; rewrite H2; auto. }
      cbn in E. exact E.
    + congruence.
    + apply log_inv in H1 as (tr1' & E1 & ->).
      rewrite (IH t' s' tr1' E1 H2 Hst). destruct a; reflexivity.
Qed.

(** A faulting first part faults the whole. *)
Lemma exec_bind_fault {S R Q} (h : handler S) (t : itree deviceE R)
      (k : R -> itree deviceE Q) f1 s s1 tr1 :
  exec h f1 t s = (s1, tr1, Faulted) ->
  exec h f1 (ITree.bind t k) s = (s1, tr1, Faulted).
Proof.
  revert t s tr1. induction f1 as [| f1 IH]; intros t s tr1 H1.
  - cbn in H1. congruence.
  - cbn in H1. cbn [exec]. rewrite lane_step_bind.
    destruct (lane_step h t s) as [r | | t' s' a] eqn:Hstep.
    + congruence.
    + injection H1 as <- <-. reflexivity.
    + apply log_inv in H1 as (tr1' & E1 & ->).
      rewrite (IH t' s' tr1' E1). destruct a; reflexivity.
Qed.

(** ** Facts on arrays *)

Lemma list_set_length m n v : length (list_set m n v) = length m.
Proof.
  revert n. induction m as [| x m IH]; intros [| n]; cbn; auto.
Qed.

Lemma nth_error_list_set_same m n v :
  (n < length m)%nat -> nth_error (list_set m n v) n = Some v.
Proof.
  revert n. induction m as [| x m IH]; intros [| n] H; cbn in *; try lia; auto.
  apply IH. lia.
Qed.

Lemma nth_error_list_set_other m n n' v :
  n' <> n -> nth_error (list_set m n v) n' = nth_error m n'.
Proof.
  revert n n'. induction m as [| x m IH]; intros [| n] [| n'] H; cbn; auto.
  - congruence.
Qed.

Lemma list_set_twice m n v : list_set (list_set m n v) n v = list_set m n v.
Proof.
  revert n. induction m as [| x m IH]; intros [| n]; cbn; auto.
  rewrite IH. reflexivity.
Qed.

Lemma store_some m p v m' :
  store m p v = Some m' ->
  0 <= p < Z.of_nat (length m) /\ m' = list_set m (Z.to_nat p) v.
Proof.
  unfold store. destruct (0 <=? p) eqn:E1; destruct (p <? Z.of_nat (length m)) eqn:E2;
    cbn; intros H; try discriminate.
  injection H as <-. split; [lia | reflexivity].
Qed.

Lemma store_in_range m p v :
  0 <= p < Z.of_nat (length m) -> store m p v = Some (list_set m (Z.to_nat p) v).
Proof.
  intros H. unfold store.
  destruct (0 <=? p) eqn:E1; destruct (p <? Z.of_nat (length m)) eqn:E2; cbn; auto; lia.
Qed.

Lemma store_length m p v m' : store m p v = Some m' -> length m' = length m.
Proof.
  intros H. apply store_some in H as [_ ->]. apply list_set_length.
Qed.

Lemma load_store_same m p v m' : store m p v = Some m' -> load m' p = Some v.
Proof.
  intros H. apply store_some in H as [Hp ->]. unfold load.
  destruct (0 <=? p) eqn:E; [| lia].
  apply nth_error_list_set_same. lia.
Qed.

Lemma load_store_other m p v m' q :
  store m p v = Some m' -> q <> p -> load m' q = load m q.
Proof.
  intros H Hq. apply store_some in H as [Hp ->]. unfold load.
  destruct (0 <=? q) eqn:E; [| reflexivity].
  apply nth_error_list_set_other. lia.
Qed.

Lemma store_twice m p v m' : store m p v = Some m' -> store m' p v = Some m'.
Proof.
  intros H. apply store_some in H as [Hp ->].
  rewrite store_in_range by (rewrite list_set_length; lia).
  rewrite list_set_twice. reflexivity.
Qed.

Lemma load_some m p v : load m p = Some v -> 0 <= p < Z.of_nat (length m).
Proof.
  unfold load. destruct (0 <=? p) eqn:E; [| discriminate].
  intros H. assert (nth_error m (Z.to_nat p) <> None) as H' by congruence.
  apply nth_error_Some in H'. lia.
Qed.

(** ** Spin loops *)

Lemma observe_subst {E R Q} (k : R -> itree E Q) (t : itree E R) :
  observe (ITree.subst k t)
  = observe (match observe t with
             | RetF r => k r
             | TauF t' => Tau (ITree.subst k t')
             | VisF e ke => Vis e (fun x => ITree.subst k (ke x))
             end).
Proof. reflexivity. Qed.

Lemma spin_again {S Q} (h : handler S) (e : deviceE Z) (k : unit -> itree deviceE Q)
      fuel s s' :
  h _ e s = Some (s', 0) ->
  exec h (Datatypes.S (Datatypes.S fuel)) (ITree.bind (spin_until_set (ITree.trigger e)) k) s
  = log (Some (act_of e 0))
        (exec h fuel (ITree.bind (spin_until_set (ITree.trigger e)) k) s').
Proof.
  intros H. cbn. unfold lane_step. cbn. rewrite H. cbn. reflexivity.
Qed.

Lemma spin_done {S Q} (h : handler S) (e : deviceE Z) (k : unit -> itree deviceE Q)
      fuel s s' v :
  h _ e s = Some (s', v) -> v <> 0 ->
  exec h (Datatypes.S fuel) (ITree.bind (spin_until_set (ITree.trigger e)) k) s
  = log (Some (act_of e v)) (exec h fuel (k tt) s').
Proof.
  intros H Hv. cbn [Nat.add exec]. unfold lane_step. cbn -[log exec]. rewrite H.
  f_equal. apply exec_observe.
  assert (E : (v =? 0) = false) by lia.
  repeat (rewrite observe_subst; cbn). rewrite E. reflexivity.
Qed.

Lemma spin_stuck {S Q} (h : handler S) (e : deviceE Z) (k : unit -> itree deviceE Q)
      fuel s :
  h _ e s = None ->
  exec h (Datatypes.S fuel) (ITree.bind (spin_until_set (ITree.trigger e)) k) s
  = (s, [], Faulted).
Proof.
  intros H. cbn. unfold lane_step. cbn. rewrite H. reflexivity.
Qed.
(** On a list of values read that starts with [n] zeros and a value that is
    not zero the loop reads [n + 1] times and goes on. *)
Lemma spin_on_reads {Q} (e : deviceE Z) (k : unit -> itree deviceE Q)
      n v rest fuel :
  (forall x r, on_reads _ e (x :: r) = Some (r, x)) ->
  v <> 0 ->
  exec on_reads (2 * n + 1 + fuel)
       (ITree.bind (spin_until_set (ITree.trigger e)) k) (repeat 0 n ++ v :: rest)
  = let '(s, tr, st) := exec on_reads fuel (k tt) rest in
    (s, map (act_of e) (repeat 0 n ++ [v]) ++ tr, st).
Proof.
  intros He Hv. induction n as [| n IH].
  - change (2 * 0 + 1 + fuel)%nat with (Datatypes.S fuel).
    cbn [repeat app map].
    rewrite (spin_done on_reads e k fuel (v :: rest) rest v (He _ _) Hv).
    destruct (exec on_reads fuel (k tt) rest) as [[s tr] st]. reflexivity.
  - replace (2 * Datatypes.S n + 1 + fuel)%nat
      with (Datatypes.S (Datatypes.S (2 * n + 1 + fuel))) by lia.
    cbn [repeat app].
    rewrite (spin_again on_reads e k _ _ _ (He _ _)). rewrite IH.
    destruct (exec on_reads fuel (k tt) rest) as [[s tr] st]. reflexivity.
Qed.

(** While it reads zeros only the loop does not come to its end. *)
Lemma spin_on_zeros {Q} (e : deviceE Z) (k : unit -> itree deviceE Q) n fuel r :
  (forall x r, on_reads _ e (x :: r) = Some (r, x)) ->
  on_reads _ e [] = None ->
  snd (exec on_reads fuel
            (ITree.bind (spin_until_set (ITree.trigger e)) k) (repeat 0 n))
  <> Returned r.
Proof.
  intros He He0. revert fuel. induction n as [| n IH]; intros fuel.
  - destruct fuel as [| fuel]; [cbn; congruence |].
    cbn [repeat]. rewrite (spin_stuck on_reads e k fuel [] He0). cbn. congruence.
  - destruct fuel as [| [| fuel]].
    + cbn. congruence.
    + cbn [exec repeat]. unfold lane_step. cbn -[on_reads]. rewrite He. cbn. congruence.
    + cbn [repeat].
      rewrite (spin_again on_reads e k fuel _ _ (He _ _)).
      rewrite log_status. apply IH.
Qed.

(** On a memory that does not change the loop reads the same word again
    and again as long as it is zero. *)
Lemma spin_on_device_zero {Q} b (e : deviceE Z) (k : unit -> itree deviceE Q) d fuel :
  on_device b _ e d = Some (d, 0) ->
  fst (fst (exec (on_device b) fuel
                 (ITree.bind (spin_until_set (ITree.trigger e)) k) d)) = d
  /\ snd (exec (on_device b) fuel
               (ITree.bind (spin_until_set (ITree.trigger e)) k) d) = Running.
Proof.
  intros He.
  assert (H : forall n fuel, (fuel < n)%nat ->
    fst (fst (exec (on_device b) fuel
                 (ITree.bind (spin_until_set (ITree.trigger e)) k) d)) = d
    /\ snd (exec (on_device b) fuel
               (ITree.bind (spin_until_set (ITree.trigger e)) k) d) = Running).
  { induction n as [| n IH]; intros f Hf; [lia |].
    destruct f as [| [| f]].
    - cbn. auto.
    - cbn. unfold lane_step. cbn. rewrite He. cbn. auto.
    - rewrite (spin_again (on_device b) e k f _ _ He).
      destruct (IH f ltac:(lia)) as [H1 H2].
      destruct (exec (on_device b) f _ d) as [[s tr] st]. cbn in *. auto. }
  apply (H (Datatypes.S fuel)). lia.
Qed.

(** ** [syncfree_storage] *)

Lemma fill_array_all arr n v :
  length arr = Z.to_nat n -> fill_array arr 0 n v = repeat v (Z.to_nat n).
Proof.
  intros H. unfold fill_array. cbn [Z.to_nat firstn app Nat.add].
  rewrite skipn_all2 by lia. rewrite app_nil_r.
  f_equal. lia.
Qed.

Lemma resize_and_reset_length fresh n :
  length (resize_and_reset fresh n) = Z.to_nat n.
Proof. unfold resize_and_reset. rewrite length_map, length_seq. reflexivity. Qed.

Lemma load_repeat v n p :
  0 <= p < Z.of_nat n -> load (repeat v n) p = Some v.
Proof.
  intros H. unfold load. destruct (0 <=? p) eqn:E; [| lia].
  rewrite nth_error_repeat by lia. reflexivity.
Qed.

Lemma syncfree_storage_new_zero fresh num_elements :
  0 <= num_elements < 2 ^ 64 - 1 ->
  syncfree_storage_new fresh num_elements
  = (repeat 0 (Z.to_nat (num_elements + 1)),
     {| status := 0; block_counter := num_elements |}).
Proof.
  intros H. unfold syncfree_storage_new, wrap_size.
  rewrite Z.mod_small by lia.
  rewrite fill_array_all by apply resize_and_reset_length.
  reflexivity.
Qed.

(** C6: the constructor of [syncfree_storage] for [num_elements] items
    leaves a status array of exactly [num_elements + 1] words that are all
    zero, the last one included, and [block_counter] points to that last
    word, the one at index [num_elements] from [status].  ([num_elements + 1]
    is computed in [size_type], so [num_elements] is at most [2^64 - 2].) *)
Theorem syncfree_storage_initialized fresh num_elements :
  0 <= num_elements < 2 ^ 64 - 1 ->
  let status_array := fst (syncfree_storage_new fresh num_elements) in
  let deps := snd (syncfree_storage_new fresh num_elements) in
  Z.of_nat (length status_array) = num_elements + 1
  /\ Forall (fun flag => flag = 0) status_array
  /\ (forall p, 0 <= p <= num_elements -> load status_array (status deps + p) = Some 0)
  /\ block_counter deps = status deps + num_elements
  /\ block_counter deps = status deps + Z.of_nat (length status_array) - 1
  /\ load status_array (block_counter deps) = Some 0.
Proof.
  intros H. cbv zeta. rewrite syncfree_storage_new_zero by assumption.
  cbn [fst snd status block_counter].
  rewrite repeat_length.
  split; [lia |]. split.
  { apply Forall_forall. intros x Hx. apply repeat_spec in Hx. exact Hx. }
  split.
  { intros p Hp. apply load_repeat. lia. }
  split; [lia |]. split; [lia |].
  apply load_repeat. lia.
Qed.

Lemma syncfree_storage_initialized_witness :
  fst (syncfree_storage_new (fun n => Z.of_nat n + 7) 3) = [0; 0; 0; 0]
  /\ Z.of_nat (length (fst (syncfree_storage_new (fun n => Z.of_nat n + 7) 3))) = 3 + 1
  /\ block_counter (snd (syncfree_storage_new (fun n => Z.of_nat n + 7) 3)) = 3.
Proof.
  split; [reflexivity |].
  pose proof (syncfree_storage_initialized (fun n => Z.of_nat n + 7) 3 ltac:(lia)) as H.
  cbv zeta in H. destruct H as (H1 & _ & _ & H4 & _).
  split; [exact H1 | exact H4].
Defined.

(** ** [mark_ready] *)

Lemma mark_ready_on_device bs sw b this d fuel :
  exec (on_device b) (4 + fuel) (mark_ready bs sw this) d
  = if get_lane sw this =? 0 then
      match store (local_status (shared_mem d b))
                  (Z.rem (get_work_id this) (bs ÷ sw)) 1 with
      | None => (d, [Tile_sync], Faulted)
      | Some l =>
          match store (global_mem d) (status (global this) + get_work_id this) 1 with
          | None =>
              (set_local_status d b l,
               [Tile_sync; Store_release_shared (Z.rem (get_work_id this) (bs ÷ sw)) 1],
               Faulted)
          | Some g =>
              (set_global (set_local_status d b l) g,
               [Tile_sync;
                Store_release_shared (Z.rem (get_work_id this) (bs ÷ sw)) 1;
                Store_release (status (global this) + get_work_id this) 1],
               Returned tt)
          end
      end
    else (d, [Tile_sync], Returned tt).
Proof.
  unfold mark_ready. destruct (get_lane sw this =? 0).
  - cbn. unfold lane_step. cbn.
    destruct (store (local_status (shared_mem d b)) _ 1) as [l |]; [| reflexivity].
    cbn. destruct (store (global_mem d) _ 1) as [g |]; reflexivity.
  - reflexivity.
Qed.

(** C2: every call of [mark_ready] first passes the barrier of the
    lane-group; then the lane that [get_lane] numbers 0, and no other,
    stores 1 with [store_release_shared] to the slot [work_id % (block_size
    / subwarp_size)] of the local cache and after that stores 1 with
    [store_release] to the flag [work_id] of the status array.  The first
    equation gives the actions of a call in their order, the second what
    they do to the device memory, the local store first.  The template
    arguments are such that [block_size / subwarp_size], by which the code
    divides, is not zero. *)
Theorem mark_ready_order bs sw this b d reads fuel :
  bs ÷ sw <> 0 ->
  let sh_id := Z.rem (get_work_id this) (bs ÷ sw) in
  let flag := status (global this) + get_work_id this in
  exec on_reads (4 + fuel) (mark_ready bs sw this) reads
  = (reads,
     if get_lane sw this =? 0
     then [Tile_sync; Store_release_shared sh_id 1; Store_release flag 1]
     else [Tile_sync],
     Returned tt)
  /\ exec (on_device b) (4 + fuel) (mark_ready bs sw this) d
     = if get_lane sw this =? 0 then
         match store (local_status (shared_mem d b)) sh_id 1 with
         | None => (d, [Tile_sync], Faulted)
         | Some l =>
             match store (global_mem d) flag 1 with
             | None =>
                 (set_local_status d b l,
                  [Tile_sync; Store_release_shared sh_id 1], Faulted)
             | Some g =>
                 (set_global (set_local_status d b l) g,
                  [Tile_sync; Store_release_shared sh_id 1; Store_release flag 1],
                  Returned tt)
             end
         end
       else (d, [Tile_sync], Returned tt).
Proof.
  intros _. cbv zeta. split; [| apply mark_ready_on_device].
  unfold mark_ready. destruct (get_lane sw this =? 0); reflexivity.
Qed.

(** The designated lane of the lane-group that owns item 5 of 8, in the
    second block of two. *)
Lemma mark_ready_order_witness :
  exec on_reads 4
       (mark_ready 8 2 {| global := {| status := 0; block_counter := 8 |};
                          threadIdx_x := 2; work_id := 5; block_id := 1 |})
       [9]
  = ([9], [Tile_sync; Store_release_shared 1 1; Store_release 5 1], Returned tt).
Proof.
  exact (proj1 (mark_ready_order 8 2
                  {| global := {| status := 0; block_counter := 8 |};
                     threadIdx_x := 2; work_id := 5; block_id := 1 |}
                  1
                  {| global_mem := [1; 1; 1; 1; 1; 0; 0; 0; 2];
                     shared_mem := fun _ => {| local_status := [1; 0; 0; 0];
                                               block_offset := 8 |} |}
                  [9] 0 ltac:(cbn; lia))).
Defined.

(** The memory after [mark_ready], read word by word. *)
Lemma mark_ready_memory bs sw b this d fuel :
  let d' := fst (fst (exec (on_device b) (4 + fuel) (mark_ready bs sw this) d)) in
  let sh_id := Z.rem (get_work_id this) (bs ÷ sw) in
  let flag := status (global this) + get_work_id this in
  (forall p, p <> flag -> load (global_mem d') p = load (global_mem d) p)
  /\ (forall i, i <> sh_id ->
        load (local_status (shared_mem d' b)) i = load (local_status (shared_mem d b)) i)
  /\ block_offset (shared_mem d' b) = block_offset (shared_mem d b)
  /\ (forall b', b' <> b -> shared_mem d' b' = shared_mem d b')
  /\ length (global_mem d') = length (global_mem d)
  /\ length (local_status (shared_mem d' b)) = length (local_status (shared_mem d b)).
Proof.
  cbv zeta. rewrite mark_ready_on_device.
  destruct (get_lane sw this =? 0); [| cbn; auto 10].
  destruct (store (local_status (shared_mem d b)) _ 1) as [l |] eqn:El; [| cbn; auto 10].
  assert (Hsh : forall g,
    (forall i, i <> Z.rem (get_work_id this) (bs ÷ sw) ->
       load (local_status (shared_mem (set_global (set_local_status d b l) g) b)) i
       = load (local_status (shared_mem d b)) i)
    /\ block_offset (shared_mem (set_global (set_local_status d b l) g) b)
       = block_offset (shared_mem d b)
    /\ (forall b', b' <> b ->
          shared_mem (set_global (set_local_status d b l) g) b' = shared_mem d b')
    /\ length (local_status (shared_mem (set_global (set_local_status d b l) g) b))
       = length (local_status (shared_mem d b))).
  { intros g. cbn. rewrite Nat.eqb_refl. cbn.
    split; [intros i Hi; eapply load_store_other; eauto |].
    split; [reflexivity |].
    split; [| eapply store_length; eauto].
    intros b' Hb'. apply Nat.eqb_neq in Hb'. rewrite Hb'. reflexivity. }
  destruct (store (global_mem d) _ 1) as [g |] eqn:Eg.
  - destruct (Hsh g) as (H1 & H2 & H3 & H4). cbn [fst].
    split; [intros p Hp; cbn; eapply load_store_other; eauto |].
    split; [exact H1 |]. split; [exact H2 |]. split; [exact H3 |].
    split; [cbn; eapply store_length; eauto | exact H4].
  - destruct (Hsh (global_mem d)) as (H1 & H2 & H3 & H4). cbn [fst].
    split; [reflexivity |]. auto.
Qed.

(** C10: [mark_ready] of the lane-group that owns work item [w] writes the
    flag [w] of the status array and the slot [w % (block_size /
    subwarp_size)] of the local cache of its block and nothing else: every
    other flag, the counter (the word after the [num_elements] flags),
    every other slot, [block_offset] and the shared storage of the other
    blocks are as before; when the call returns from the designated lane
    the two words hold 1. *)
Theorem mark_ready_frame bs sw this b d fuel num_elements :
  block_counter (global this) = status (global this) + num_elements ->
  0 <= get_work_id this < num_elements ->
  let d' := fst (fst (exec (on_device b) (4 + fuel) (mark_ready bs sw this) d)) in
  let returned := snd (exec (on_device b) (4 + fuel) (mark_ready bs sw this) d) in
  let sh_id := Z.rem (get_work_id this) (bs ÷ sw) in
  let flag := status (global this) + get_work_id this in
  (forall p, p <> flag -> load (global_mem d') p = load (global_mem d) p)
  /\ load (global_mem d') (block_counter (global this))
     = load (global_mem d) (block_counter (global this))
  /\ (forall i, i <> sh_id ->
        load (local_status (shared_mem d' b)) i = load (local_status (shared_mem d b)) i)
  /\ block_offset (shared_mem d' b) = block_offset (shared_mem d b)
  /\ (forall b', b' <> b -> shared_mem d' b' = shared_mem d b')
  /\ (get_lane sw this = 0 -> returned = Returned tt ->
      load (global_mem d') flag = Some 1
      /\ load (local_status (shared_mem d' b)) sh_id = Some 1).
Proof.
  intros Hc Hw. cbv zeta.
  destruct (mark_ready_memory bs sw b this d fuel) as (H1 & H2 & H3 & H4 & _).
  split; [exact H1 |]. split; [apply H1; lia |].
  split; [exact H2 |]. split; [exact H3 |]. split; [exact H4 |].
  intros Hl. rewrite mark_ready_on_device. rewrite Hl. cbn [Z.eqb].
  destruct (store (local_status (shared_mem d b)) _ 1) as [l |] eqn:El; [| cbn; congruence].
  destruct (store (global_mem d) _ 1) as [g |] eqn:Eg; [| cbn; congruence].
  intros _. cbn. rewrite Nat.eqb_refl. cbn.
  split; eapply load_store_same; eauto.
Qed.

(** C8: [mark_ready] called twice in a row leaves the status array and the
    shared storage of every block as one call leaves them, and ends as one
    call ends. *)
Theorem mark_ready_idempotent bs sw this b d fuel :
  let once := exec (on_device b) (4 + fuel) (mark_ready bs sw this) d in
  let twice :=
    exec (on_device b) (8 + fuel)
         (mark_ready bs sw this;; mark_ready bs sw this) d in
  global_mem (fst (fst twice)) = global_mem (fst (fst once))
  /\ (forall b', shared_mem (fst (fst twice)) b' = shared_mem (fst (fst once)) b')
  /\ snd twice = snd once.
Proof.
  cbv zeta.
  pose proof (mark_ready_on_device bs sw b this d fuel) as H1.
  pose proof (mark_ready_on_device bs sw b this d 0) as H0.
  replace (8 + fuel)%nat with ((4 + 0) + (4 + fuel))%nat by lia.
  destruct (get_lane sw this =? 0) eqn:Hl.
  - destruct (store (local_status (shared_mem d b)) _ 1) as [l |] eqn:El.
    + destruct (store (global_mem d) _ 1) as [g |] eqn:Eg.
      * pose proof (mark_ready_on_device bs sw b this
                      (set_global (set_local_status d b l) g) fuel) as H2.
        rewrite Hl in H2. cbn [set_global set_local_status set_shared shared_mem global_mem] in H2.
        rewrite Nat.eqb_refl in H2. cbn [local_status] in H2.
        rewrite (store_twice _ _ _ _ El), (store_twice _ _ _ _ Eg) in H2.
        rewrite (exec_bind _ _ _ _ _ _ _ _ _ _ _ _ H0 H2) by congruence.
        rewrite H1. cbn. split; [reflexivity |]. split; [| reflexivity].
        intros b'. rewrite Nat.eqb_refl. destruct (Nat.eqb b' b); reflexivity.
      * rewrite exec_more_fuel; rewrite (exec_bind_fault _ _ _ _ _ _ _ H0).
        -- rewrite H1. auto.
        -- cbn. congruence.
    + rewrite exec_more_fuel; rewrite (exec_bind_fault _ _ _ _ _ _ _ H0).
      -- rewrite H1. auto.
      -- cbn. congruence.
  - pose proof (mark_ready_on_device bs sw b this d fuel) as H2.
    rewrite Hl in H2.
    rewrite (exec_bind _ _ _ _ _ _ _ _ _ _ _ _ H0 H2) by congruence.
    rewrite H1. auto.
Qed.

(** A lane-group that owns item 5 of 8, in the second block of two. *)
Lemma mark_ready_frame_witness :
  let this := {| global := {| status := 0; block_counter := 8 |};
                 threadIdx_x := 2; work_id := 5; block_id := 1 |} in
  let d := {| global_mem := [1; 1; 1; 1; 1; 0; 0; 0; 2];
              shared_mem := fun _ => {| local_status := [1; 0; 0; 0];
                                        block_offset := 8 |} |} in
  let d' := fst (fst (exec (on_device 1) 4 (mark_ready 8 2 this) d)) in
  load (global_mem d') 8 = Some 2
  /\ load (global_mem d') 5 = Some 1
  /\ load (local_status (shared_mem d' 1%nat)) 1 = Some 1.
Proof.
  cbv zeta.
  pose proof (mark_ready_frame 8 2
                {| global := {| status := 0; block_counter := 8 |};
                   threadIdx_x := 2; work_id := 5; block_id := 1 |}
                1
                {| global_mem := [1; 1; 1; 1; 1; 0; 0; 0; 2];
                   shared_mem := fun _ => {| local_status := [1; 0; 0; 0];
                                             block_offset := 8 |} |}
                0 8 eq_refl ltac:(cbn; lia)) as H.
  cbv zeta in H. destruct H as (_ & Hc & _ & _ & _ & Hr).
  split; [exact Hc |]. apply Hr; reflexivity.
Defined.

(** ** [peek] *)

(** C7: [peek] sorts the dependency as [wait] does, by whether
    [dependency / (block_size / subwarp_size)] is the [block_id] of the
    caller: it reads the slot [dependency % (block_size / subwarp_size)] of
    the local cache with [load_acquire_shared] in the one case and the flag
    [dependency] of the status array with [load_acquire] in the other.  It
    reads once, returns whether the word read is not zero, passes no
    barrier and leaves the memory as it is; it returns within two steps
    whatever the flag holds.  The last equation is [wait] on the same
    dependency reading the same word.  The template arguments are such
    that [block_size / subwarp_size], by which the code divides, is not
    zero. *)
Theorem peek_probes bs sw this dependency b d v reads fuel :
  bs ÷ sw <> 0 ->
  let dep_block := dependency ÷ (bs ÷ sw) in
  let dep_local := Z.rem dependency (bs ÷ sw) in
  let flag := status (global this) + dependency in
  exec (on_device b) (2 + fuel) (peek bs sw this dependency) d
  = (if dep_block =? block_id this then
       match load (local_status (shared_mem d b)) dep_local with
       | Some x => (d, [Load_acquire_shared dep_local x], Returned (negb (x =? 0)))
       | None => (d, [], Faulted)
       end
     else
       match load (global_mem d) flag with
       | Some x => (d, [Load_acquire flag x], Returned (negb (x =? 0)))
       | None => (d, [], Faulted)
       end)
  /\ exec on_reads (2 + fuel) (peek bs sw this dependency) (v :: reads)
     = (reads,
        [if dep_block =? block_id this
         then Load_acquire_shared dep_local v
         else Load_acquire flag v],
        Returned (negb (v =? 0)))
  /\ exec on_reads (4 + fuel) (wait bs sw this dependency) (1 :: reads)
     = (if get_lane sw this =? 0
        then (reads,
              [if dep_block =? block_id this
               then Load_acquire_shared dep_local 1
               else Load_acquire flag 1;
               Tile_sync],
              Returned tt)
        else (1 :: reads, [Tile_sync], Returned tt)).
Proof.
  intros _. cbv zeta. unfold peek, wait. split; [| split].
  - destruct (dependency ÷ (bs ÷ sw) =? block_id this).
    + cbn. unfold lane_step. cbn.
      destruct (load (local_status (shared_mem d b)) _) as [x |]; reflexivity.
    + cbn. unfold lane_step. cbn.
      destruct (load (global_mem d) _) as [x |]; reflexivity.
  - destruct (dependency ÷ (bs ÷ sw) =? block_id this); reflexivity.
  - destruct (get_lane sw this =? 0); [| reflexivity].
    destruct (dependency ÷ (bs ÷ sw) =? block_id this); reflexivity.
Qed.

(** A lane of block 1 that asks for item 2, of block 0, which is ready,
    and a lane that asks for item 5, of its own block, which is not. *)
Lemma peek_probes_witness :
  let this := {| global := {| status := 0; block_counter := 8 |};
                 threadIdx_x := 6; work_id := 7; block_id := 1 |} in
  let d := {| global_mem := [1; 1; 1; 1; 1; 0; 0; 0; 2];
              shared_mem := fun _ => {| local_status := [1; 0; 0; 0];
                                        block_offset := 8 |} |} in
  exec (on_device 1) 2 (peek 8 2 this 2) d = (d, [Load_acquire 2 1], Returned true)
  /\ exec (on_device 1) 2 (peek 8 2 this 5) d
     = (d, [Load_acquire_shared 1 0], Returned false).
Proof.
  cbv zeta. split.
  - exact (proj1 (peek_probes 8 2
                    {| global := {| status := 0; block_counter := 8 |};
                       threadIdx_x := 6; work_id := 7; block_id := 1 |}
                    2 1
                    {| global_mem := [1; 1; 1; 1; 1; 0; 0; 0; 2];
                       shared_mem := fun _ => {| local_status := [1; 0; 0; 0];
                                                 block_offset := 8 |} |}
                    0 [] 0 ltac:(cbn; lia))).
  - exact (proj1 (peek_probes 8 2
                    {| global := {| status := 0; block_counter := 8 |};
                       threadIdx_x := 6; work_id := 7; block_id := 1 |}
                    5 1
                    {| global_mem := [1; 1; 1; 1; 1; 0; 0; 0; 2];
                       shared_mem := fun _ => {| local_status := [1; 0; 0; 0];
                                                 block_offset := 8 |} |}
                    0 [] 0 ltac:(cbn; lia))).
Defined.

(** ** [wait] *)

(** [wait] on the device, the memory not changing meanwhile: where the
    flag holds zero the designated lane reads it for ever. *)
Lemma wait_on_device_spins bs sw this dependency b d fuel :
  get_lane sw this = 0 ->
  (if dependency ÷ (bs ÷ sw) =? block_id this
   then load (local_status (shared_mem d b)) (Z.rem dependency (bs ÷ sw))
   else load (global_mem d) (status (global this) + dependency)) = Some 0 ->
  fst (fst (exec (on_device b) fuel (wait bs sw this dependency) d)) = d
  /\ snd (exec (on_device b) fuel (wait bs sw this dependency) d) = Running.
Proof.
  intros Hl Hz. unfold wait. rewrite Hl. cbn [Z.eqb].
  destruct (dependency ÷ (bs ÷ sw) =? block_id this).
  - apply spin_on_device_zero. cbn. rewrite Hz. reflexivity.
  - apply spin_on_device_zero. cbn. rewrite Hz. reflexivity.
Qed.

(** Where the flag holds a value that is not zero [wait] reads it once. *)
Lemma wait_on_device_ready bs sw this dependency b d v fuel :
  get_lane sw this = 0 ->
  v <> 0 ->
  (if dependency ÷ (bs ÷ sw) =? block_id this
   then load (local_status (shared_mem d b)) (Z.rem dependency (bs ÷ sw))
   else load (global_mem d) (status (global this) + dependency)) = Some v ->
  exec (on_device b) (3 + fuel) (wait bs sw this dependency) d
  = (d,
     [if dependency ÷ (bs ÷ sw) =? block_id this
      then Load_acquire_shared (Z.rem dependency (bs ÷ sw)) v
      else Load_acquire (status (global this) + dependency) v;
      Tile_sync],
     Returned tt).
Proof.
  intros Hl Hv Hz. unfold wait. rewrite Hl. cbn [Z.eqb].
  change (3 + fuel)%nat with (Datatypes.S (2 + fuel)).
  unfold load_acquire_shared, load_acquire.
  destruct (dependency ÷ (bs ÷ sw) =? block_id this).
  - rewrite (spin_done (on_device b) (LoadAcquireShared _) _ _ d d v); auto.
    cbn. rewrite Hz. reflexivity.
  - rewrite (spin_done (on_device b) (LoadAcquire _) _ _ d d v); auto.
    cbn. rewrite Hz. reflexivity.
Qed.

(** C3: [wait] takes the dependency for local exactly when [dependency /
    (block_size / subwarp_size)] is the [block_id] of the caller.  The lane
    that [get_lane] numbers 0 then reads the slot [dependency % (block_size
    / subwarp_size)] of the local cache with [load_acquire_shared], and
    otherwise the flag [dependency] of the status array with
    [load_acquire], again and again until the value read is not zero: on
    [n] zeros and then [v] it reads [n + 1] times.  Every lane then passes
    the barrier of the lane-group and returns; the other lanes read
    nothing.  While the designated lane reads zeros only, [wait] has not
    returned.  On the device: as long as the word holds zero the lane is
    still in [wait], the memory untouched; once it holds [v] the lane reads
    it, passes the barrier and returns.  (It holds for every dependency,
    below [get_work_id] or not.)  The template arguments are such that
    [block_size / subwarp_size], by which the code divides, is not zero. *)
Theorem wait_polls_until_ready bs sw this dependency n v rest fuel b d :
  bs ÷ sw <> 0 ->
  v <> 0 ->
  let dep_block := dependency ÷ (bs ÷ sw) in
  let dep_local := Z.rem dependency (bs ÷ sw) in
  let poll := fun x =>
    if dep_block =? block_id this
    then Load_acquire_shared dep_local x
    else Load_acquire (status (global this) + dependency) x in
  let word :=
    if dep_block =? block_id this
    then load (local_status (shared_mem d b)) dep_local
    else load (global_mem d) (status (global this) + dependency) in
  exec on_reads (2 * n + 3 + fuel) (wait bs sw this dependency)
       (repeat 0 n ++ v :: rest)
  = (if get_lane sw this =? 0
     then (rest, map poll (repeat 0 n ++ [v]) ++ [Tile_sync], Returned tt)
     else (repeat 0 n ++ v :: rest, [Tile_sync], Returned tt))
  /\ (get_lane sw this = 0 ->
      forall fuel',
        snd (exec on_reads fuel' (wait bs sw this dependency) (repeat 0 n))
        <> Returned tt)
  /\ (get_lane sw this = 0 -> word = Some 0 ->
      forall fuel',
        fst (fst (exec (on_device b) fuel' (wait bs sw this dependency) d)) = d
        /\ snd (exec (on_device b) fuel' (wait bs sw this dependency) d) = Running)
  /\ (get_lane sw this = 0 -> word = Some v ->
      exec (on_device b) (3 + fuel) (wait bs sw this dependency) d
      = (d, [poll v; Tile_sync], Returned tt)).
Proof.
  intros _ Hv. cbv zeta. split; [| split; [| split]].
  - unfold wait. destruct (get_lane sw this =? 0).
    + replace (2 * n + 3 + fuel)%nat with (2 * n + 1 + (2 + fuel))%nat by lia.
      destruct (dependency ÷ (bs ÷ sw) =? block_id this).
      * unfold load_acquire_shared. rewrite spin_on_reads; auto.
      * unfold load_acquire. rewrite spin_on_reads; auto.
    + replace (2 * n + 3 + fuel)%nat with (3 + (2 * n + fuel))%nat by lia.
      reflexivity.
  - intros Hl fuel'. unfold wait. rewrite Hl. cbn [Z.eqb].
    destruct (dependency ÷ (bs ÷ sw) =? block_id this).
    + apply spin_on_zeros; auto.
    + apply spin_on_zeros; auto.
  - intros Hl Hw fuel'. apply wait_on_device_spins; assumption.
  - intros Hl Hw. apply wait_on_device_ready; assumption.
Qed.

(** A lane of block 1 that waits for item 5, of its own block, and
    reads 0, 0 and then 1. *)
Lemma wait_polls_until_ready_witness :
  exec on_reads 7
       (wait 8 2 {| global := {| status := 0; block_counter := 8 |};
                    threadIdx_x := 6; work_id := 7; block_id := 1 |} 5)
       [0; 0; 1; 9]
  = ([9],
     [Load_acquire_shared 1 0; Load_acquire_shared 1 0; Load_acquire_shared 1 1;
      Tile_sync],
     Returned tt).
Proof.
  exact (proj1 (wait_polls_until_ready 8 2
                  {| global := {| status := 0; block_counter := 8 |};
                     threadIdx_x := 6; work_id := 7; block_id := 1 |}
                  5 2 1 [9] 0 0
                  {| global_mem := []; shared_mem := fun _ =>
                       {| local_status := []; block_offset := 0 |} |}
                  ltac:(cbn; lia) ltac:(lia))).
Defined.

(** ** What a lane can do *)

Lemma can_do_ret {R} b (r : R) a : ~ can_do b (Ret r : itree deviceE R) a.
Proof. intros H. inversion H; subst; cbn in *; discriminate. Qed.

Lemma only_does_ret {R} b (r : R) P : only_does b (Ret r : itree deviceE R) P.
Proof. intros a H. destruct (can_do_ret b r a H). Qed.

Lemma only_does_trigger {X} b (e : deviceE X) (P : action -> Prop) :
  (forall x, P (act_of e x)) -> only_does b (ITree.trigger e) P.
Proof.
  intros HP a H. inversion H as [t d t' d' a' Hs | t d t' d' o a' Hs Hc]; subst.
  - unfold lane_step in Hs. cbn in Hs.
    destruct (on_device b X e d) as [[s' x] |]; [| discriminate].
    injection Hs as _ _ <-. apply HP.
  - unfold lane_step in Hs. cbn in Hs.
    destruct (on_device b X e d) as [[s' x] |]; [| discriminate].
    injection Hs as <- _ _. destruct (can_do_ret b x a Hc).
Qed.

Lemma only_does_later {R} b (t t' : itree deviceE R) d d' o P :
  only_does b t P ->
  lane_step (on_device b) t d = Next t' d' o ->
  only_does b t' P.
Proof. intros H Hs a Ha. apply H. eapply can_do_later; eauto. Qed.

Lemma can_do_bind {R Q} b (u : itree deviceE Q) a :
  can_do b u a ->
  forall (t : itree deviceE R) (k : R -> itree deviceE Q) (P : action -> Prop),
    u = ITree.bind t k ->
    only_does b t P -> (forall r, only_does b (k r) P) -> P a.
Proof.
  induction 1 as [u d t' d' a Hs | u d t' d' o a Hs Hc IH]; intros t k P -> Ht Hk.
  - rewrite lane_step_bind in Hs.
    destruct (lane_step (on_device b) t d) as [r | | t1 s1 a1] eqn:E.
    + apply (Hk r). eapply can_do_now; eauto.
    + discriminate.
    + injection Hs as _ _ ->. apply Ht. eapply can_do_now; eauto.
  - rewrite lane_step_bind in Hs.
    destruct (lane_step (on_device b) t d) as [r | | t1 s1 a1] eqn:E.
    + apply (Hk r). eapply can_do_later; eauto.
    + discriminate.
    + injection Hs as <- _ _.
      apply (IH t1 k P eq_refl); auto.
      eapply only_does_later; eauto.
Qed.

Lemma only_does_bind {R Q} b (t : itree deviceE R) (k : R -> itree deviceE Q) P :
  only_does b t P -> (forall r, only_does b (k r) P) ->
  only_does b (ITree.bind t k) P.
Proof. intros Ht Hk a Ha. eapply can_do_bind; eauto. Qed.

(** A loop does what its body does. *)
Lemma can_do_iter {I R} b (body : I -> itree deviceE (I + R)) (P : action -> Prop)
      (u : itree deviceE R) a :
  (forall i, only_does b (body i) P) ->
  can_do b u a ->
  forall t : itree deviceE (I + R),
    observe u
    = observe (ITree.bind t (fun lr => match lr with
                                       | inl l => Tau (ITree.iter body l)
                                       | inr r => Ret r
                                       end)) ->
    only_does b t P -> P a.
Proof.
  intros Hbody.
  induction 1 as [u d t' d' a Hs | u d t' d' o a Hs Hc IH]; intros t Hu Ht.
  - rewrite (lane_step_observe _ _ _ _ Hu), lane_step_bind in Hs.
    destruct (lane_step (on_device b) t d) as [[l | r] | | t1 s1 a1] eqn:E;
      try discriminate.
    injection Hs as _ _ ->. apply Ht. eapply can_do_now; eauto.
  - rewrite (lane_step_observe _ _ _ _ Hu), lane_step_bind in Hs.
    destruct (lane_step (on_device b) t d) as [[l | r] | | t1 s1 a1] eqn:E;
      try discriminate.
    + cbn in Hs. injection Hs as <- _ _.
      apply (IH (body l)); [apply observe_iter | apply Hbody].
    + injection Hs as <- _ _.
      apply (IH t1); [reflexivity |].
      eapply only_does_later; eauto.
Qed.

Lemma only_does_iter {I R} b (body : I -> itree deviceE (I + R)) (i : I) P :
  (forall i, only_does b (body i) P) -> only_does b (ITree.iter body i) P.
Proof.
  intros Hbody a Ha.
  eapply (can_do_iter b body P _ a Hbody Ha (body i)); [apply observe_iter | apply Hbody].
Qed.

Lemma only_does_spin b (e : deviceE Z) P :
  (forall x, P (act_of e x)) -> only_does b (spin_until_set (ITree.trigger e)) P.
Proof.
  intros HP. apply only_does_iter. intros _.
  apply only_does_bind; [apply only_does_trigger; exact HP |].
  intros v. destruct (v =? 0); apply only_does_ret.
Qed.

(** ** The calls keep what is ready *)

Lemma wait_keeps_ready bs sw b this dependency :
  only_does b (wait bs sw this dependency) keeps_ready.
Proof.
  unfold wait. apply only_does_bind.
  - destruct (get_lane sw this =? 0); [| apply only_does_ret].
    destruct (_ =? block_id this); apply only_does_spin; intros x; exact I.
  - intros _. apply only_does_trigger. intros x; exact I.
Qed.

Lemma peek_keeps_ready bs sw b this dependency :
  only_does b (peek bs sw this dependency) keeps_ready.
Proof.
  unfold peek.
  destruct (_ =? block_id this);
    (apply only_does_bind;
     [apply only_does_trigger; intros x; exact I | intros v; apply only_does_ret]).
Qed.

Lemma mark_ready_keeps_ready bs sw b this :
  only_does b (mark_ready bs sw this) keeps_ready.
Proof.
  unfold mark_ready. apply only_does_bind.
  - apply only_does_trigger. intros x; exact I.
  - intros _. destruct (get_lane sw this =? 0); [| apply only_does_ret].
    apply only_does_bind.
    + apply only_does_trigger. intros x; reflexivity.
    + intros _. apply only_does_trigger. intros x; reflexivity.
Qed.

Lemma do_call_keeps_ready bs sw b this c :
  only_does b (do_call bs sw this c) keeps_ready.
Proof.
  destruct c as [| dependency | dependency |]; cbn [do_call].
  - apply only_does_bind; [apply only_does_ret | intros; apply only_does_ret].
  - apply wait_keeps_ready.
  - apply only_does_bind; [apply peek_keeps_ready | intros; apply only_does_ret].
  - apply mark_ready_keeps_ready.
Qed.

Lemma do_calls_keep_ready bs sw b this cs :
  only_does b (do_calls bs sw this cs) keeps_ready.
Proof.
  induction cs as [| c cs IH]; cbn [do_calls].
  - apply only_does_ret.
  - apply only_does_bind; [apply do_call_keeps_ready | intros; exact IH].
Qed.

(** ** Steps on the device *)

Lemma same_or_ready_refl m : same_or_ready m m.
Proof. intros p. left. reflexivity. Qed.

Lemma same_or_ready_trans m1 m2 m3 :
  same_or_ready m1 m2 -> same_or_ready m2 m3 -> same_or_ready m1 m3.
Proof.
  intros H12 H23 p. destruct (H23 p) as [H | H]; [| right; exact H].
  rewrite H. apply H12.
Qed.

Lemma same_or_ready_store m p m' : store m p 1 = Some m' -> same_or_ready m m'.
Proof.
  intros H q. destruct (Z.eq_dec q p) as [-> | Hq].
  - right. eapply load_store_same; eauto.
  - left. eapply load_store_other; eauto.
Qed.

Lemma ready_kept_refl d : ready_kept d d.
Proof. split; [| intros b]; apply same_or_ready_refl. Qed.

Lemma ready_kept_trans d1 d2 d3 :
  ready_kept d1 d2 -> ready_kept d2 d3 -> ready_kept d1 d3.
Proof.
  intros [G12 S12] [G23 S23]. split; [| intros b];
    eapply same_or_ready_trans; eauto.
Qed.

Lemma lane_step_silent {S R} (h : handler S) (t t' : itree deviceE R) s s' :
  lane_step h t s = Next t' s' None -> s' = s.
Proof.
  unfold lane_step. destruct (observe t) as [r | t0 | X e k]; try discriminate.
  - intros H. injection H as _ <-. reflexivity.
  - destruct (h X e s) as [[s1 x] |]; discriminate.
Qed.

Lemma lane_step_ready_kept {R} b (t t' : itree deviceE R) d d' a :
  lane_step (on_device b) t d = Next t' d' (Some a) ->
  keeps_ready a ->
  ready_kept d d'.
Proof.
  unfold lane_step. destruct (observe t) as [r | t0 | X e k]; try discriminate.
  destruct e; cbn.
  - destruct (load (global_mem d) p); [| discriminate].
    destruct (store (global_mem d) p _); [| discriminate].
    intros H Ha. injection H as _ _ <-. destruct Ha.
  - destruct (load (global_mem d) p); [| discriminate].
    intros H _. injection H as _ <- _. apply ready_kept_refl.
  - destruct (store (global_mem d) p v) as [m |] eqn:E; [| discriminate].
    intros H Ha. injection H as _ <- <-. cbn in Ha. subst v.
    split; [| intros b'; apply same_or_ready_refl].
    cbn. eapply same_or_ready_store; eauto.
  - destruct (load (local_status (shared_mem d b)) i); [| discriminate].
    intros H _. injection H as _ <- _. apply ready_kept_refl.
  - destruct (store (local_status (shared_mem d b)) i v) as [m |] eqn:E; [| discriminate].
    intros H Ha. injection H as _ <- <-. cbn in Ha. subst v.
    split; [apply same_or_ready_refl |].
    intros b'. cbn. destruct (Nat.eqb_spec b' b) as [-> | Hb].
    + cbn. eapply same_or_ready_store; eauto.
    + apply same_or_ready_refl.
  - destruct (store (local_status (shared_mem d b)) i v) as [m |] eqn:E; [| discriminate].
    intros H Ha. injection H as _ _ <-. destruct Ha.
  - intros H _. injection H as _ <- _.
    split; [apply same_or_ready_refl |].
    intros b'. cbn. destruct (Nat.eqb_spec b' b) as [-> | Hb]; apply same_or_ready_refl.
  - intros H _. injection H as _ <- _. apply ready_kept_refl.
  - intros H _. injection H as _ <- _. apply ready_kept_refl.
  - intros H _. injection H as _ <- _. apply ready_kept_refl.
Qed.

(** ** Lanes side by side *)

Lemma set_lane_Forall (P : lane -> Prop) pool i l :
  Forall P pool -> P l -> Forall P (set_lane pool i l).
Proof.
  intros H Hl. revert i. induction H as [| x pool Hx H IH]; intros [| i]; cbn;
    constructor; auto.
Qed.

Lemma sys_step_ready_kept i pool d :
  Forall lane_keeps_ready pool ->
  Forall lane_keeps_ready (fst (sys_step i pool d))
  /\ ready_kept d (snd (sys_step i pool d)).
Proof.
  intros Hpool. unfold sys_step.
  destruct (nth_error pool i) as [l |] eqn:El;
    [| split; [exact Hpool | apply ready_kept_refl]].
  assert (Hl : lane_keeps_ready l).
  { eapply Forall_forall; [exact Hpool |]. eapply nth_error_In; eauto. }
  destruct (lane_step (on_device (lane_block l)) (lane_code l) d)
    as [r | | t' d' o] eqn:Es; try (split; [exact Hpool | apply ready_kept_refl]).
  cbn [fst snd]. split.
  - apply set_lane_Forall; [exact Hpool |].
    unfold lane_keeps_ready. cbn. eapply only_does_later; eauto.
  - destruct o as [a |].
    + eapply lane_step_ready_kept; eauto. apply Hl. eapply can_do_now; eauto.
    + apply lane_step_silent in Es. subst d'. apply ready_kept_refl.
Qed.

Lemma sys_run_ready_kept schedule pool d :
  Forall lane_keeps_ready pool ->
  ready_kept d (snd (sys_run schedule pool d)).
Proof.
  revert pool d. induction schedule as [| i schedule IH]; intros pool d Hpool.
  - apply ready_kept_refl.
  - cbn [sys_run].
    destruct (sys_step_ready_kept i pool d Hpool) as [H1 H2].
    destruct (sys_step i pool d) as [pool' d']. cbn [fst snd] in *.
    eapply ready_kept_trans; [exact H2 | apply IH; exact H1].
Qed.

Lemma lanes_of_keep_ready bs sw lanes :
  Forall lane_keeps_ready (lanes_of bs sw lanes).
Proof.
  unfold lanes_of. apply Forall_forall. intros l Hl.
  apply in_map_iff in Hl as ([[b this] cs] & <- & _).
  unfold lane_keeps_ready. cbn. apply do_calls_keep_ready.
Qed.

(** C9: the lanes of a grid, each making whatever calls of [get_work_id],
    [wait], [peek] and [mark_ready] on its scheduler, run interleaved step
    by step in whatever order; from whatever memory they start, every word
    of the status array and of the local cache of every block is afterwards
    what it was or 1.  So no call stores 0 (NotReady) anywhere, and a flag
    that holds 1 (Ready) holds 1 in every state that follows. *)
Theorem flags_stay_ready bs sw (lanes : list (nat * scheduler * list call))
        (schedule : list nat) (d : device) :
  let d' := snd (sys_run schedule (lanes_of bs sw lanes) d) in
  (forall p, load (global_mem d') p = load (global_mem d) p
             \/ load (global_mem d') p = Some 1)
  /\ (forall b i,
         load (local_status (shared_mem d' b)) i = load (local_status (shared_mem d b)) i
         \/ load (local_status (shared_mem d' b)) i = Some 1)
  /\ (forall p, load (global_mem d) p = Some 1 -> load (global_mem d') p = Some 1)
  /\ (forall b i, load (local_status (shared_mem d b)) i = Some 1 ->
                  load (local_status (shared_mem d' b)) i = Some 1).
Proof.
  cbv zeta.
  destruct (sys_run_ready_kept schedule (lanes_of bs sw lanes) d
              (lanes_of_keep_ready bs sw lanes)) as [HG HS].
  split; [exact HG |]. split; [intros b i; apply HS |]. split.
  - intros p Hp. destruct (HG p) as [H | H]; congruence.
  - intros b i Hp. destruct (HS b i) as [H | H]; congruence.
Qed.

(** Two lane-groups of one lane each in two blocks: the lane of item 1
    waits for item 0 while the lane of item 0 publishes it.  The waiting
    lane reads 0 twice, the other stores, and the waiting lane gets on. *)
Example publish_and_wait :
  let deps := {| status := 0; block_counter := 2 |} in
  let producer := {| global := deps; threadIdx_x := 0; work_id := 0; block_id := 0 |} in
  let consumer := {| global := deps; threadIdx_x := 0; work_id := 1; block_id := 1 |} in
  let d := {| global_mem := [0; 0; 2];
              shared_mem := fun _ => {| local_status := [0]; block_offset := 0 |} |} in
  let run := sys_run [1; 1; 1; 1; 0; 0; 0; 1; 1; 1; 1; 1; 1; 1; 1]%nat
                     (lanes_of 1 1 [(0%nat, producer, [Mark_ready]);
                                    (1%nat, consumer, [Wait 0; Mark_ready])]) d in
  global_mem (snd run) = [1; 1; 2]
  /\ map (fun l => lane_step (on_device 0) (lane_code l) (snd run)) (fst run)
     = [Halt tt; Halt tt].
Proof. vm_compute. split; reflexivity. Qed.

(** ** Up to the barrier *)

Lemma at_syncthreads_observe {R} (t u : itree deviceE R) :
  observe t = observe u -> at_syncthreads t = at_syncthreads u.
Proof. unfold at_syncthreads. intros ->. reflexivity. Qed.

Lemma to_barrier_observe {S R} (h : handler S) fuel (t u : itree deviceE R) s :
  observe t = observe u -> to_barrier h fuel t s = to_barrier h fuel u s.
Proof.
  intros E. destruct fuel; [reflexivity |].
  cbn. rewrite (at_syncthreads_observe t u E), (lane_step_observe h t u s E).
  reflexivity.
Qed.

Lemma to_barrier_more_fuel {S R} (h : handler S) n fuel (t : itree deviceE R) s :
  snd (to_barrier h fuel t s) <> Running ->
  to_barrier h (fuel + n) t s = to_barrier h fuel t s.
Proof.
  revert t s. induction fuel as [| fuel IH]; intros t s Hst.
  - cbn in Hst. congruence.
  - cbn in *. destruct (at_syncthreads t); [reflexivity |].
    destruct (lane_step h t s) as [r | | t' s' a]; try reflexivity.
    rewrite log_status in Hst. rewrite (IH _ _ Hst). reflexivity.
Qed.

Lemma at_syncthreads_bind {R Q} (t : itree deviceE R) (k : R -> itree deviceE Q) :
  at_syncthreads (ITree.bind t k)
  = match observe t with
    | RetF r => at_syncthreads (k r)
    | _ => match at_syncthreads t with
           | Some t' => Some (ITree.bind t' k)
           | None => None
           end
    end.
Proof.
  unfold at_syncthreads. rewrite observe_bind.
  destruct (observe t) as [r | t0 | X e ke]; cbn; try reflexivity.
  destruct e; reflexivity.
Qed.

(** The first part of a lane passes no barrier: the lane gets as far as
    what follows gets. *)
Lemma to_barrier_bind {S R Q} (h : handler S) (t : itree deviceE R)
      (k : R -> itree deviceE Q) f1 f2 s s1 tr1 x s2 tr2 st :
  exec h f1 t s = (s1, tr1, Returned x) ->
  ~ In Syncthreads tr1 ->
  to_barrier h f2 (k x) s1 = (s2, tr2, st) ->
  st <> Running ->
  to_barrier h (f1 + f2) (ITree.bind t k) s = (s2, tr1 ++ tr2, st).
Proof.
  revert t s tr1. induction f1 as [| f1 IH]; intros t s tr1 H1 Hno H2 Hst.
  - cbn in H1. congruence.
  - cbn in H1. cbn [Nat.add to_barrier].
    rewrite at_syncthreads_bind, lane_step_bind.
    unfold lane_step in H1 |- * at 1.
    destruct (observe t) as [r | t0 | X e ke] eqn:Eo.
    + injection H1 as <- <- <-.
      assert (E : to_barrier h (Datatypes.S (f1 + f2)) (k r) s = (s2, tr2, st)).
      { replace (Datatypes.S (f1 + f2)) with (f2 + Datatypes.S f1)%nat by lia.
        rewrite to_barrier_more_fuel; rewrite H2; auto. }
      cbn in E. exact E.
    + assert (Ea : at_syncthreads t = None).
      { unfold at_syncthreads. rewrite Eo. reflexivity. }
      rewrite Ea.
      apply log_inv in H1 as (tr1' & H1 & ->).
      rewrite (IH _ _ _ H1 Hno H2 Hst). reflexivity.
    + destruct (h X e s) as [[s' x0] |] eqn:Eh; [| discriminate].
      apply log_inv in H1 as (tr1' & H1 & ->).
      assert (Ea : at_syncthreads t = None).
      { unfold at_syncthreads. rewrite Eo.
        destruct e; try reflexivity.
        exfalso. apply Hno. left. reflexivity. }
      rewrite Ea.
      rewrite (IH _ _ _ H1 ltac:(intros Hin; apply Hno; right; exact Hin) H2 Hst).
      reflexivity.
Qed.

Lemma to_barrier_syncthreads {S R} (h : handler S) fuel
      (k : unit -> itree deviceE R) s :
  to_barrier h (Datatypes.S fuel) (ITree.bind syncthreads k) s
  = (s, [Syncthreads], Returned (ITree.bind (Ret tt) k)).
Proof. reflexivity. Qed.

(** ** The lanes of a block *)

Lemma run_lanes_app {S A B} (run : A -> S -> S * list action * status_of B) l1 l2 s :
  run_lanes run (l1 ++ l2) s
  = match run_lanes run l1 s with
    | Some (s1, r1) =>
        match run_lanes run l2 s1 with
        | Some (s2, r2) => Some (s2, r1 ++ r2)
        | None => None
        end
    | None => None
    end.
Proof.
  revert s. induction l1 as [| a l1 IH]; intros s; cbn.
  - destruct (run_lanes run l2 s) as [[s2 r2] |]; reflexivity.
  - destruct (run a s) as [[s' tr] [r | |]]; try reflexivity.
    rewrite IH. destruct (run_lanes run l1 s') as [[s1 r1] |]; [| reflexivity].
    destruct (run_lanes run l2 s1) as [[s2 r2] |]; reflexivity.
Qed.

(** Lanes that each keep [Inv] and come to an end with [Post] do so one
    after the other. *)
Lemma run_lanes_inv {S A B} (run : A -> S -> S * list action * status_of B)
      (Inv : S -> Prop) (Post : A -> list action -> B -> Prop) lanes s :
  (forall a s, In a lanes -> Inv s ->
               exists s' tr r, run a s = (s', tr, Returned r) /\ Inv s' /\ Post a tr r) ->
  Inv s ->
  exists s' rs,
    run_lanes run lanes s = Some (s', rs)
    /\ Inv s'
    /\ Forall2 (fun a p => Post a (fst p) (snd p)) lanes rs.
Proof.
  revert s. induction lanes as [| a lanes IH]; intros s Hrun Hs.
  - exists s, []. cbn. auto.
  - destruct (Hrun a s (or_introl eq_refl) Hs) as (s1 & tr & r & E & Hs1 & HP).
    destruct (IH s1) as (s2 & rs & E2 & Hs2 & HF); [| exact Hs1 |].
    { intros a' s' Ha'. apply Hrun. right. exact Ha'. }
    exists s2, ((tr, r) :: rs). cbn. rewrite E, E2. auto.
Qed.

Lemma Forall2_in_r {A B} (P : A -> B -> Prop) la lb b :
  Forall2 P la lb -> In b lb -> exists a, In a la /\ P a b.
Proof.
  induction 1 as [| a0 b0 la lb H0 H IH]; intros Hb; [destruct Hb |].
  destruct Hb as [<- | Hb].
  - exists a0. split; [left; reflexivity | exact H0].
  - destruct (IH Hb) as (a & Ha & HP). exists a. split; [right; exact Ha | exact HP].
Qed.

Lemma Forall2_combine {A B C D} (P : A -> B -> Prop) (Q : B -> C -> Prop)
      (R : A -> D -> Prop) (f : B * C -> D) la lb lc :
  (forall a b c, P a b -> Q b c -> R a (f (b, c))) ->
  Forall2 P la lb -> Forall2 Q lb lc ->
  Forall2 R la (map f (combine lb lc)).
Proof.
  intros HR HP. revert lc. induction HP as [| a b la lb Hab HP IH]; intros lc HQ.
  - constructor.
  - inversion HQ as [| b' c lb' lc' Hbc HQ']; subst. cbn.
    constructor; [eapply HR; eauto | apply IH; exact HQ'].
Qed.

Lemma Forall2_map_eq {A B C} (f : A -> C) (g : B -> C) la lb :
  Forall2 (fun a b => g b = f a) la lb -> map g lb = map f la.
Proof. induction 1; cbn; congruence. Qed.

Lemma Forall2_weaken {A B} (P Q : A -> B -> Prop) la lb :
  (forall a b, P a b -> Q a b) -> Forall2 P la lb -> Forall2 Q la lb.
Proof. intros H. induction 1; constructor; auto. Qed.

(** ** The constructor on one lane *)

Lemma wrap_signed_small bits x :
  0 < bits -> - 2 ^ (bits - 1) <= x < 2 ^ (bits - 1) -> wrap_signed bits x = x.
Proof.
  intros Hb Hx. unfold wrap_signed.
  assert (E : 2 ^ bits = 2 * 2 ^ (bits - 1)).
  { replace bits with (Z.succ (bits - 1)) at 1 by lia. apply Z.pow_succ_r. lia. }
  rewrite Z.mod_small by lia. lia.
Qed.

Lemma wrap_int_small x : - 2 ^ 31 <= x < 2 ^ 31 -> wrap_int x = x.
Proof. intros H. apply wrap_signed_small; [lia | exact H]. Qed.

Lemma same_but_cache_refl b d : same_but_cache b d d.
Proof. repeat split; auto. Qed.

Lemma same_but_cache_trans b d1 d2 d3 :
  same_but_cache b d1 d2 -> same_but_cache b d2 d3 -> same_but_cache b d1 d3.
Proof.
  intros (G1 & O1 & L1 & S1) (G2 & O2 & L2 & S2).
  repeat split; try congruence.
  intros b' Hb. rewrite (S2 b' Hb). apply S1. exact Hb.
Qed.

Lemma syncfree_scheduler_parts bs sw ib deps tid :
  syncfree_scheduler bs sw ib deps tid
  = (claim_offset bs ib deps tid;;
     reset_status bs sw tid;;
     syncthreads;;
     read_offset bs sw ib deps tid).
Proof. reflexivity. Qed.

Lemma thread_ids_in block_size tid :
  In tid (thread_ids block_size) <-> 0 <= tid < block_size.
Proof.
  unfold thread_ids. rewrite in_map_iff. split.
  - intros (n & <- & Hn). apply in_seq in Hn. lia.
  - intros H. exists (Z.to_nat tid). split; [lia |]. apply in_seq. lia.
Qed.

Lemma thread_ids_NoDup block_size : NoDup (thread_ids block_size).
Proof.
  unfold thread_ids. apply Injective_map_NoDup; [| apply seq_NoDup].
  intros x y H. lia.
Qed.

(** The lanes of a block in whatever order: each [threadIdx.x] once. *)
Lemma lanes_of_block block_size lanes :
  Permutation lanes (thread_ids block_size) ->
  NoDup lanes /\ forall tid, In tid lanes <-> 0 <= tid < block_size.
Proof.
  intros Hperm. split.
  - eapply Permutation_NoDup; [apply Permutation_sym; exact Hperm |].
    apply thread_ids_NoDup.
  - intros tid. rewrite <- (thread_ids_in block_size). split; intros H.
    + eapply Permutation_in; [exact Hperm | exact H].
    + eapply Permutation_in; [apply Permutation_sym; exact Hperm | exact H].
Qed.

Section Constructor.

Variables block_size subwarp_size index_bits : Z.
Hypothesis Hcfg : well_configured block_size subwarp_size index_bits.

Local Abbreviation cap := (local_dependency_count block_size subwarp_size).
Local Abbreviation claimed := (after_claim block_size).
Local Abbreviation rest := (after_barrier block_size subwarp_size index_bits).
Local Abbreviation block_state := (block_running cap).

Lemma block_size_lane_groups : block_size = cap * subwarp_size /\ 0 < cap.
Proof.
  destruct Hcfg as (Hsw & Hbs & Hrem & _). unfold local_dependency_count.
  pose proof (Z.quot_rem' block_size subwarp_size) as E. rewrite Hrem in E.
  split; [lia |].
  apply Z.quot_str_pos. split; [lia |].
  destruct (Z.le_gt_cases subwarp_size block_size) as [H | H]; [exact H |].
  rewrite Z.rem_small in Hrem by lia. lia.
Qed.

(** The reset loop from [i] on comes to its end and writes the local
    cache of the block only. *)
Lemma reset_status_runs b n : forall i d,
  0 <= i ->
  (Z.to_nat (cap - i) <= n)%nat ->
  Z.of_nat (length (local_status (shared_mem d b))) = cap ->
  exists d' tr,
    exec (on_device b) (2 * n + 1) (reset_status block_size subwarp_size i) d
    = (d', tr, Returned tt)
    /\ same_but_cache b d d'
    /\ ~ In Syncthreads tr
    /\ filter is_atomic_add tr = [].
Proof.
  destruct block_size_lane_groups as [Ebs Hcap].
  destruct Hcfg as (Hsw & Hbs & Hrem & _).
  induction n as [| n IH]; intros i d Hi Hn Hlen.
  - exists d, []. split; [| split; [apply same_but_cache_refl | split; auto]].
    unfold reset_status.
    rewrite (exec_observe _ _ _ _ _ (observe_iter _ _)).
    destruct (i <? cap) eqn:E; [lia |]. reflexivity.
  - unfold reset_status.
    rewrite (exec_observe _ _ _ _ _ (observe_iter _ _)).
    destruct (i <? cap) eqn:E.
    + replace (2 * Datatypes.S n + 1)%nat with (Datatypes.S (Datatypes.S (2 * n + 1))) by lia.
      set (f := (2 * n + 1)%nat) in *.
      cbn [exec]. unfold lane_step at 1. cbn -[exec log wrap_int].
      rewrite store_in_range by lia.
      set (d1 := set_local_status d b _).
      unfold lane_step at 1. cbn -[exec log wrap_int].
      rewrite wrap_int_small by nia.
      destruct (IH (i + subwarp_size) d1) as (d' & tr & Hrun & Hsame & Hno & Hadd).
      * lia.
      * lia.
      * subst d1. cbn. rewrite Nat.eqb_refl. cbn. rewrite list_set_length. exact Hlen.
      * exists d', (Store_shared i 0 :: tr).
        split; [| split; [| split]].
        -- match goal with
           | |- log ?a (log ?a' ?X) = _ =>
               change X with (exec (on_device b) f
                                   (reset_status block_size subwarp_size
                                                 (i + subwarp_size)) d1)
           end.
           rewrite Hrun. reflexivity.
        -- eapply same_but_cache_trans; [| exact Hsame].
           subst d1. repeat split; cbn.
           ++ rewrite Nat.eqb_refl. reflexivity.
           ++ rewrite Nat.eqb_refl. cbn. apply list_set_length.
           ++ intros b' Hb. apply Nat.eqb_neq in Hb. rewrite Hb. reflexivity.
        -- intros [H | H]; [discriminate | auto].
        -- cbn. exact Hadd.
    + exists d, []. split; [| split; [apply same_but_cache_refl | split; auto]].
      reflexivity.
Qed.


Lemma to_barrier_reset_status b deps tid d fuel :
  0 <= tid ->
  Z.of_nat (length (local_status (shared_mem d b))) = cap ->
  exists d' tr,
    to_barrier (on_device b) (2 * Z.to_nat cap + 2 + fuel)
               (reset_status block_size subwarp_size tid;;
                syncthreads;;
                read_offset block_size subwarp_size index_bits deps tid) d
    = (d', tr, Returned (rest deps tid))
    /\ same_but_cache b d d'
    /\ filter is_atomic_add tr = [].
Proof.
  intros Htid Hlen.
  destruct (reset_status_runs b (Z.to_nat cap) tid d Htid ltac:(lia) Hlen)
    as (d' & tr & Hrun & Hsame & Hno & Hadd).
  exists d', (tr ++ [Syncthreads]). split; [| split; [exact Hsame |]].
  - replace (2 * Z.to_nat cap + 2 + fuel)%nat
      with ((2 * Z.to_nat cap + 1) + Datatypes.S fuel)%nat by lia.
    eapply to_barrier_bind; [exact Hrun | exact Hno | | congruence].
    apply to_barrier_syncthreads.
  - rewrite filter_app, Hadd. reflexivity.
Qed.

(** Lane 0 up to the barrier: it fetches the counter, writes the offset
    of the block and resets its share of the local cache. *)
Lemma lane_0_to_barrier b deps c d fuel :
  load (global_mem d) (block_counter deps) = Some c ->
  - 2 ^ 31 <= c + 1 < 2 ^ 31 ->
  - 2 ^ (index_bits - 1) <= c * block_size < 2 ^ (index_bits - 1) ->
  Z.of_nat (length (local_status (shared_mem d b))) = cap ->
  exists d' tr,
    to_barrier (on_device b) (constructor_fuel block_size subwarp_size + fuel)
               (syncfree_scheduler block_size subwarp_size index_bits deps 0) d
    = (d', tr, Returned (rest deps 0))
    /\ same_but_cache b (claimed deps b c d) d'
    /\ filter is_atomic_add tr = claim_of deps c 0.
Proof.
  intros Hload Hc Hfit Hlen.
  destruct Hcfg as (_ & _ & _ & Hib).
  pose proof (load_some _ _ _ Hload) as Hrange.
  destruct (to_barrier_reset_status b deps 0 (claimed deps b c d) (1 + fuel))
    as (d' & tr & Hrun & Hsame & Hadd).
  { lia. }
  { unfold after_claim. cbn. rewrite Nat.eqb_refl. exact Hlen. }
  exists d', ([Atomic_add (block_counter deps) 1 c;
               Write_block_offset (c * block_size)] ++ tr).
  split; [| split; [exact Hsame |]].
  - rewrite syncfree_scheduler_parts.
    replace (constructor_fuel block_size subwarp_size + fuel)%nat
      with (3 + (2 * Z.to_nat cap + 2 + (1 + fuel)))%nat
      by (unfold constructor_fuel; lia).
    eapply to_barrier_bind; [| | | congruence].
    + unfold claim_offset, atomic_add. cbn. unfold lane_step. cbn -[wrap_int].
      rewrite Hload. rewrite store_in_range by exact Hrange. cbn -[wrap_int].
      rewrite wrap_int_small by exact Hc.
      unfold wrap_index. rewrite wrap_signed_small by assumption.
      reflexivity.
    + cbn. intros [H | [H | H]]; try discriminate; auto.
    + exact Hrun.
  - rewrite filter_app, Hadd. reflexivity.
Qed.

(** Any other lane up to the barrier: it resets its share of the local
    cache. *)
Lemma lane_to_barrier b deps c tid d fuel :
  0 < tid ->
  Z.of_nat (length (local_status (shared_mem d b))) = cap ->
  exists d' tr,
    to_barrier (on_device b) (constructor_fuel block_size subwarp_size + fuel)
               (syncfree_scheduler block_size subwarp_size index_bits deps tid) d
    = (d', tr, Returned (rest deps tid))
    /\ same_but_cache b d d'
    /\ filter is_atomic_add tr = claim_of deps c tid.
Proof.
  intros Htid Hlen.
  destruct (to_barrier_reset_status b deps tid d (3 + fuel))
    as (d' & tr & Hrun & Hsame & Hadd); [lia | exact Hlen |].
  exists d', ([] ++ tr). split; [| split; [exact Hsame |]].
  - rewrite syncfree_scheduler_parts.
    replace (constructor_fuel block_size subwarp_size + fuel)%nat
      with (1 + (2 * Z.to_nat cap + 2 + (3 + fuel)))%nat
      by (unfold constructor_fuel; lia).
    eapply to_barrier_bind; [| | exact Hrun | congruence].
    + unfold claim_offset. assert (E : (tid =? 0) = false) by lia.
      rewrite E. reflexivity.
    + cbn. auto.
  - cbn. rewrite Hadd. unfold claim_of.
    assert (E : (tid =? 0) = false) by lia. rewrite E. reflexivity.
Qed.

(** After the barrier a lane reads the offset of its block. *)
Lemma rest_runs b deps tid d fuel :
  exec (on_device b) (3 + fuel) (rest deps tid) d
  = (d,
     [Read_block_offset (block_offset (shared_mem d b));
      Read_block_offset (block_offset (shared_mem d b))],
     Returned
       {| global := deps;
          threadIdx_x := tid;
          work_id := wrap_index index_bits (block_offset (shared_mem d b) + tid)
                     ÷ subwarp_size;
          block_id := block_offset (shared_mem d b) ÷ block_size |}).
Proof. reflexivity. Qed.

(** The scheduler a lane builds from the offset [c * block_size]. *)
Lemma scheduler_from_offset deps c tid :
  0 <= c -> 0 <= tid ->
  - 2 ^ (index_bits - 1) <= c * block_size + tid < 2 ^ (index_bits - 1) ->
  {| global := deps;
     threadIdx_x := tid;
     work_id := wrap_index index_bits (c * block_size + tid) ÷ subwarp_size;
     block_id := (c * block_size) ÷ block_size |}
  = scheduler_of block_size subwarp_size deps c tid.
Proof.
  intros Hc Htid Hfit.
  destruct block_size_lane_groups as [Ebs Hcap].
  destruct Hcfg as (Hsw & Hbs & Hrem & Hib).
  unfold scheduler_of. f_equal.
  - unfold wrap_index. rewrite wrap_signed_small by assumption.
    fold (local_dependency_count block_size subwarp_size).
    set (k := local_dependency_count block_size subwarp_size) in *.
    rewrite Ebs.
    rewrite !Z.quot_div_nonneg by nia.
    replace (c * (k * subwarp_size) + tid) with (c * k * subwarp_size + tid) by ring.
    rewrite Z.div_add_l by lia. reflexivity.
  - apply Z.quot_mul. lia.
Qed.


Lemma block_state_same b d0 G off d d' :
  block_state b d0 G off d -> same_but_cache b d d' -> block_state b d0 G off d'.
Proof.
  intros (HG & Hoff & Hlen & Hoth) (G' & O' & L' & S').
  repeat split; try congruence.
  intros b' Hb. rewrite (S' b' Hb). apply Hoth. exact Hb.
Qed.

(** The lanes other than lane 0 up to the barrier. *)
Lemma lanes_to_barrier b deps c d0 G off lanes d fuel :
  (forall tid, In tid lanes -> 0 < tid < block_size) ->
  block_state b d0 G off d ->
  exists d' rs,
    run_lanes (fun tid =>
                 to_barrier (on_device b) (constructor_fuel block_size subwarp_size + fuel)
                   (syncfree_scheduler block_size subwarp_size index_bits deps tid))
              lanes d
    = Some (d', rs)
    /\ block_state b d0 G off d'
    /\ Forall2 (fun tid p =>
                  0 <= tid < block_size
                  /\ snd p = rest deps tid
                  /\ filter is_atomic_add (fst p) = claim_of deps c tid)
               lanes rs.
Proof.
  intros Hl Hd.
  destruct (run_lanes_inv
              (fun tid =>
                 to_barrier (on_device b) (constructor_fuel block_size subwarp_size + fuel)
                   (syncfree_scheduler block_size subwarp_size index_bits deps tid))
              (block_state b d0 G off)
              (fun tid tr t => 0 <= tid < block_size
                               /\ t = rest deps tid
                               /\ filter is_atomic_add tr = claim_of deps c tid)
              lanes d) as (d' & rs & E & Hd' & HF); [| exact Hd |].
  - intros tid s Hin Hs.
    destruct (lane_to_barrier b deps c tid s fuel) as (s' & tr & E & Hsame & Hadd).
    { apply Hl. exact Hin. }
    { apply Hs. }
    exists s', tr, (rest deps tid). split; [exact E |].
    split; [eapply block_state_same; eauto |].
    split; [specialize (Hl tid Hin); lia | auto].
  - exists d', rs. auto.
Qed.

(** A block whose lanes run the constructor, in
    whatever order between the barriers, fetches the counter once, by its
    lane 0, and every lane gets the scheduler of the specification. *)
Lemma construct_block_runs b deps c lanes d fuel :
  Permutation lanes (thread_ids block_size) ->
  load (global_mem d) (block_counter deps) = Some c ->
  0 <= c -> c + 1 < 2 ^ 31 ->
  (c + 1) * block_size <= 2 ^ (index_bits - 1) ->
  Z.of_nat (length (local_status (shared_mem d b))) = cap ->
  exists d' res,
    construct_block block_size subwarp_size index_bits deps
                    (constructor_fuel block_size subwarp_size + fuel) b lanes d
    = Some (d', res)
    /\ map snd res = map (scheduler_of block_size subwarp_size deps c) lanes
    /\ map (fun l => filter is_atomic_add (fst l)) res = map (claim_of deps c) lanes
    /\ global_mem d' = list_set (global_mem d) (Z.to_nat (block_counter deps)) (c + 1)
    /\ block_offset (shared_mem d' b) = c * block_size
    /\ Z.of_nat (length (local_status (shared_mem d' b))) = cap
    /\ forall b', b' <> b -> shared_mem d' b' = shared_mem d b'.
Proof.
  intros Hperm Hload Hc0 Hc1 Hfit Hlen.
  destruct block_size_lane_groups as [Ebs Hcap].
  pose proof Hcfg as (Hsw & Hbs & Hrem & Hib).
  assert (Hpow : 0 < 2 ^ (index_bits - 1)) by (apply Z.pow_pos_nonneg; lia).
  destruct (lanes_of_block _ _ Hperm) as [Hnd Hin].
  destruct (in_split 0 lanes) as (l1 & l2 & ->); [apply Hin; lia |].
  apply NoDup_remove_2 in Hnd.
  assert (H1 : forall tid, In tid l1 -> 0 < tid < block_size).
  { intros tid Ht. assert (tid <> 0).
    { intros ->. apply Hnd. apply in_or_app. left. exact Ht. }
    assert (0 <= tid < block_size) by (apply Hin; apply in_or_app; left; exact Ht). lia. }
  assert (H2 : forall tid, In tid l2 -> 0 < tid < block_size).
  { intros tid Ht. assert (tid <> 0).
    { intros ->. apply Hnd. apply in_or_app. right. exact Ht. }
    assert (0 <= tid < block_size) by (apply Hin; apply in_or_app; right; right; exact Ht). lia. }
  (* up to the barrier *)
  destruct (lanes_to_barrier b deps c d (global_mem d) (block_offset (shared_mem d b))
              l1 d fuel H1) as (d1 & rs1 & E1 & Hd1 & HF1).
  { repeat split; auto. }
  destruct (lane_0_to_barrier b deps c d1 fuel) as (d2 & tr0 & E0 & Hsame0 & Hadd0).
  { destruct Hd1 as (-> & _). exact Hload. }
  { lia. }
  { nia. }
  { apply Hd1. }
  assert (Hd2 : block_state b d
                  (list_set (global_mem d) (Z.to_nat (block_counter deps)) (c + 1))
                  (c * block_size) d2).
  { destruct Hd1 as (HG1 & Hoff1 & Hlen1 & Hoth1).
    destruct Hsame0 as (G' & O' & L' & S'). unfold after_claim in *. cbn in *.
    rewrite Nat.eqb_refl in *. cbn in *.
    repeat split; try congruence.
    intros b' Hb. rewrite (S' b' Hb). apply Nat.eqb_neq in Hb. rewrite Hb.
    apply Hoth1. apply Nat.eqb_neq. exact Hb. }
  destruct (lanes_to_barrier b deps c d _ _ l2 d2 fuel H2 Hd2)
    as (d3 & rs2 & E2 & Hd3 & HF2).
  assert (HF : Forall2 (fun tid p =>
                          0 <= tid < block_size
                          /\ snd p = rest deps tid
                          /\ filter is_atomic_add (fst p) = claim_of deps c tid)
                       (l1 ++ 0 :: l2) (rs1 ++ (tr0, rest deps 0) :: rs2)).
  { apply Forall2_app; [exact HF1 |]. constructor; [| exact HF2].
    cbn. split; [lia | auto]. }
  (* after the barrier *)
  destruct (run_lanes_inv
              (fun l : list action * itree deviceE scheduler =>
                 exec (on_device b) (constructor_fuel block_size subwarp_size + fuel) (snd l))
              (fun s => s = d3)
              (fun l tr sch =>
                 forall tid, 0 <= tid < block_size -> snd l = rest deps tid ->
                             sch = scheduler_of block_size subwarp_size deps c tid
                             /\ filter is_atomic_add tr = [])
              (rs1 ++ (tr0, rest deps 0) :: rs2) d3)
    as (d4 & after & E4 & -> & HF4); [| reflexivity |].
  { intros l s Hl ->.
    destruct (Forall2_in_r _ _ _ _ HF Hl) as (tid0 & _ & Ht0 & Hrest0 & _).
    assert (Hrun : forall tid, 0 <= tid < block_size ->
              exec (on_device b) (constructor_fuel block_size subwarp_size + fuel)
                   (rest deps tid) d3
              = (d3, [Read_block_offset (c * block_size);
                      Read_block_offset (c * block_size)],
                 Returned (scheduler_of block_size subwarp_size deps c tid))).
    { intros tid Ht.
      replace (constructor_fuel block_size subwarp_size + fuel)%nat
        with (3 + (2 * Z.to_nat cap + 3 + fuel))%nat
        by (unfold constructor_fuel; lia).
      rewrite rest_runs. destruct Hd3 as (_ & -> & _).
      rewrite scheduler_from_offset by nia. reflexivity. }
    exists d3, [Read_block_offset (c * block_size); Read_block_offset (c * block_size)],
           (scheduler_of block_size subwarp_size deps c tid0).
    split; [rewrite Hrest0; apply Hrun; exact Ht0 |]. split; [reflexivity |].
    intros tid Ht Hrest. split; [| reflexivity].
    pose proof (Hrun tid Ht) as Ea. pose proof (Hrun tid0 Ht0) as Eb.
    rewrite <- Hrest, Hrest0, Eb in Ea. congruence. }
  unfold construct_block.
  rewrite run_lanes_app. rewrite E1. cbn [run_lanes]. rewrite E0, E2.
  rewrite E4.
  eexists. eexists. split; [reflexivity |].
  assert (HR : Forall2 (fun tid (p : list action * scheduler) =>
                          snd p = scheduler_of block_size subwarp_size deps c tid
                          /\ filter is_atomic_add (fst p) = claim_of deps c tid)
                       (l1 ++ 0 :: l2)
                       (map (fun p : (list action * itree deviceE scheduler)
                                     * (list action * scheduler) =>
                               (fst (fst p) ++ fst (snd p), snd (snd p)))
                            (combine (rs1 ++ (tr0, rest deps 0) :: rs2) after))).
  { eapply Forall2_combine; [| exact HF | exact HF4].
    intros tid p q (Ht & Hrest & Hadd) Hq. destruct (Hq tid Ht Hrest) as [Hs Ha].
    cbn. split; [exact Hs |]. rewrite filter_app, Hadd, Ha. apply app_nil_r. }
  destruct Hd3 as (HG3 & Hoff3 & Hlen3 & Hoth3).
  split; [| split; [| auto]].
  - apply Forall2_map_eq. eapply Forall2_weaken; [| exact HR]. cbn. intros a p0 H. apply H.
  - apply (Forall2_map_eq (claim_of deps c)
                          (fun l : list action * scheduler => filter is_atomic_add (fst l))).
    eapply Forall2_weaken; [| exact HR]. cbn. intros a p0 H. apply H.
Qed.

End Constructor.

(** ** Ranges *)

Lemma ranges_from_nth capacity : forall ranges c k r,
  ranges_from capacity c ranges ->
  nth_error ranges k = Some r ->
  NoDup r
  /\ forall w, In w r <-> (c + Z.of_nat k) * capacity <= w < (c + Z.of_nat k + 1) * capacity.
Proof.
  induction ranges as [| r0 ranges IH]; intros c k r H Hk.
  - destruct k; discriminate.
  - destruct H as (Hnd & Hin & Hrest). destruct k as [| k]; cbn in Hk.
    + injection Hk as <-. split; [exact Hnd |].
      intros w. rewrite Hin. replace (c + Z.of_nat 0) with c by lia. reflexivity.
    + destruct (IH (c + 1) k r Hrest Hk) as [H1 H2]. split; [exact H1 |].
      intros w. rewrite H2.
      replace (c + 1 + Z.of_nat k) with (c + Z.of_nat (Datatypes.S k)) by lia.
      reflexivity.
Qed.

Lemma ranges_from_concat capacity : forall ranges c,
  0 <= capacity ->
  ranges_from capacity c ranges ->
  NoDup (concat ranges)
  /\ forall w, In w (concat ranges)
               <-> c * capacity <= w < (c + Z.of_nat (length ranges)) * capacity.
Proof.
  induction ranges as [| r ranges IH]; intros c Hcap H.
  - cbn. split; [constructor |]. intros w. split; [tauto | lia].
  - destruct H as (Hnd & Hin & Hrest).
    destruct (IH (c + 1) Hcap Hrest) as [IH1 IH2]. cbn [concat length]. split.
    + apply NoDup_app; auto.
      intros w Hw Hw'. apply Hin in Hw. apply IH2 in Hw'. nia.
    + intros w. rewrite in_app_iff, Hin, IH2. nia.
Qed.

Lemma range_Permutation (l : list Z) n :
  NoDup l -> (forall w, In w l <-> 0 <= w < Z.of_nat n) ->
  Permutation l (map Z.of_nat (seq 0 n)).
Proof.
  intros Hnd Hin. apply NoDup_Permutation; [exact Hnd | |].
  - apply Injective_map_NoDup; [| apply seq_NoDup]. intros x y H. lia.
  - intros w. rewrite Hin, in_map_iff. split.
    + intros H. exists (Z.to_nat w). split; [lia |]. apply in_seq. lia.
    + intros (x & <- & Hx). apply in_seq in Hx. lia.
Qed.

(** ** The blocks of a grid *)

Section Launch_facts.

Variables block_size subwarp_size index_bits : Z.
Hypothesis Hcfg : well_configured block_size subwarp_size index_bits.

Local Abbreviation cap := (local_dependency_count block_size subwarp_size).

Lemma owned_of_schedulers (res : list (list action * scheduler)) :
  owned subwarp_size res
  = map get_work_id
        (filter (fun s => get_lane subwarp_size s =? 0) (map snd res)).
Proof.
  unfold owned. rewrite filter_map_swap, map_map. reflexivity.
Qed.

(** The lane-groups of the block that fetched [c] own the [cap] work
    items from [c * cap] on, each of them one. *)
Lemma owned_range deps c lanes (res : list (list action * scheduler)) :
  Permutation lanes (thread_ids block_size) ->
  map snd res = map (scheduler_of block_size subwarp_size deps c) lanes ->
  NoDup (owned subwarp_size res)
  /\ forall w, In w (owned subwarp_size res) <-> c * cap <= w < (c + 1) * cap.
Proof.
  intros Hperm Hres.
  destruct (block_size_lane_groups _ _ _ Hcfg) as [Ebs Hcap].
  destruct Hcfg as (Hsw & Hbs & Hrem & Hib).
  destruct (lanes_of_block _ _ Hperm) as [Hnd Hin].
  rewrite owned_of_schedulers, Hres, filter_map_swap, map_map.
  cbn [get_work_id work_id scheduler_of]. unfold get_lane. cbn [threadIdx_x scheduler_of].
  fold (local_dependency_count block_size subwarp_size).
  set (k := local_dependency_count block_size subwarp_size) in *. clearbody k.
  split.
  - assert (Hf : NoDup (filter (fun tid => Z.rem tid subwarp_size =? 0) lanes))
      by (apply NoDup_filter; exact Hnd).
    assert (Hall : forall tid,
               In tid (filter (fun tid => Z.rem tid subwarp_size =? 0) lanes) ->
               Z.rem tid subwarp_size = 0).
    { intros tid Ht. apply filter_In in Ht as [_ Ht]. lia. }
    induction Hf as [| tid l Hnotin Hf IH]; cbn; constructor.
    + intros Hc. apply in_map_iff in Hc as (tid' & Heq & Ht').
      assert (tid' = tid); [| congruence].
      pose proof (Hall tid (or_introl eq_refl)) as R1.
      pose proof (Hall tid' (or_intror Ht')) as R2.
      pose proof (Z.quot_rem' tid subwarp_size).
      pose proof (Z.quot_rem' tid' subwarp_size).
      assert (tid ÷ subwarp_size = tid' ÷ subwarp_size) by lia.
      nia.
    + apply IH. intros t Ht. apply Hall. right. exact Ht.
  - intros w. rewrite in_map_iff. split.
    + intros (tid & <- & Ht). apply filter_In in Ht as [Ht Hr].
      apply Hin in Ht. rewrite Z.quot_div_nonneg by lia.
      assert (0 <= tid / subwarp_size < k).
      { split; [apply Z.div_pos; lia |]. apply Z.div_lt_upper_bound; nia. }
      nia.
    + intros Hw. exists ((w - c * k) * subwarp_size). split.
      * rewrite Z.quot_mul by lia. lia.
      * apply filter_In. split; [apply Hin; nia |].
        rewrite Z.rem_mul by lia. reflexivity.
Qed.

(** The blocks of [order], the counter at [c], build their schedulers
    one after the other: the block in place [k] fetches [c + k]. *)
Lemma launch_runs deps lanes fuel : forall order c d,
  NoDup order ->
  load (global_mem d) (block_counter deps) = Some c ->
  0 <= c ->
  c + Z.of_nat (length order) < 2 ^ 31 ->
  (c + Z.of_nat (length order)) * block_size <= 2 ^ (index_bits - 1) ->
  (forall b, In b order -> Permutation (lanes b) (thread_ids block_size)) ->
  (forall b, In b order ->
             Z.of_nat (length (local_status (shared_mem d b))) = cap) ->
  exists d' results,
    launch block_size subwarp_size index_bits deps
           (constructor_fuel block_size subwarp_size + fuel) lanes order d
    = Some (d', results)
    /\ map fst results = order
    /\ load (global_mem d') (block_counter deps) = Some (c + Z.of_nat (length order))
    /\ ranges_from cap c (map (fun r => owned subwarp_size (snd r)) results)
    /\ forall k b res,
         nth_error results k = Some (b, res) ->
         map snd res
         = map (scheduler_of block_size subwarp_size deps (c + Z.of_nat k)) (lanes b)
         /\ map (fun l => filter is_atomic_add (fst l)) res
            = map (claim_of deps (c + Z.of_nat k)) (lanes b).
Proof.
  pose proof Hcfg as (Hsw & Hbs & Hrem & Hib).
  induction order as [| b order IH]; intros c d Hnd Hload Hc Hint Hfit Hlanes Hlen.
  - exists d, []. cbn. rewrite Z.add_0_r. repeat split; auto;
      destruct k; discriminate.
  - cbn [length] in Hint, Hfit. inversion Hnd as [| b0 o0 Hnotin Hnd']; subst.
    destruct (construct_block_runs block_size subwarp_size index_bits Hcfg
                b deps c (lanes b) d fuel)
      as (d1 & res & E1 & Hs & Ha & HG & Hoff & Hl1 & Hoth);
      [apply Hlanes; left; reflexivity | exact Hload | lia | lia | nia
       | apply Hlen; left; reflexivity |].
    pose proof (load_some _ _ _ Hload) as Hrange.
    destruct (IH (c + 1) d1) as (d2 & results & E2 & Hfst & Hload2 & Hranges & Hnth).
    + exact Hnd'.
    + rewrite HG. unfold load. destruct (0 <=? block_counter deps) eqn:E; [| lia].
      apply nth_error_list_set_same. lia.
    + lia.
    + lia.
    + nia.
    + intros b' Hb'. apply Hlanes. right. exact Hb'.
    + intros b' Hb'. rewrite Hoth; [apply Hlen; right; exact Hb' |].
      intros ->. contradiction.
    + exists d2, ((b, res) :: results). cbn [launch]. rewrite E1, E2.
      split; [reflexivity |]. split; [cbn; congruence |].
      split; [rewrite Hload2; f_equal; cbn [length]; lia |].
      split.
      * cbn [map ranges_from snd].
        destruct (owned_range deps c (lanes b) res) as [H1 H2];
          [apply Hlanes; left; reflexivity | exact Hs |].
        auto.
      * intros [| k] b' res' Hk; cbn in Hk.
        -- injection Hk as <- <-. rewrite Z.add_0_r. auto.
        -- replace (c + Z.of_nat (Datatypes.S k)) with (c + 1 + Z.of_nat k) by lia.
           apply Hnth. exact Hk.
Qed.

End Launch_facts.

(** ** The claims on the constructor *)

Lemma exec_bind_returns {S R Q} (h : handler S) (t : itree deviceE R)
      (k : R -> itree deviceE Q) r fuel s :
  snd (exec h fuel (ITree.bind t k) s) = Returned r ->
  exists x fuel' s', snd (exec h fuel' (k x) s') = Returned r.
Proof.
  revert t s. induction fuel as [| fuel IH]; intros t s H; [discriminate |].
  cbn [exec] in H. rewrite lane_step_bind in H.
  destruct (lane_step h t s) as [x | | t' s' a] eqn:E.
  - exists x, (Datatypes.S fuel), s. exact H.
  - discriminate.
  - rewrite log_status in H. eapply IH. exact H.
Qed.

(** What a scheduler answers to [get_work_id] after whatever calls. *)
Lemma get_work_id_after_calls bs sw this cs b d fuel r :
  snd (exec (on_device b) fuel
            (do_calls bs sw this cs;; Ret (get_work_id this)) d) = Returned r ->
  r = get_work_id this.
Proof.
  intros H. apply exec_bind_returns in H as (x & fuel' & s' & H).
  destruct fuel'; [discriminate |]. cbn in H. congruence.
Qed.

Lemma claims_of_others deps c lanes :
  ~ In 0 lanes -> concat (map (claim_of deps c) lanes) = [].
Proof.
  induction lanes as [| tid lanes IH]; intros H; [reflexivity |].
  cbn. unfold claim_of at 1. destruct (tid =? 0) eqn:E.
  - exfalso. apply H. left. lia.
  - apply IH. intros Hin. apply H. right. exact Hin.
Qed.

Lemma claims_of_block block_size deps c lanes :
  0 < block_size ->
  Permutation lanes (thread_ids block_size) ->
  concat (map (claim_of deps c) lanes) = [Atomic_add (block_counter deps) 1 c].
Proof.
  intros Hbs Hperm. destruct (lanes_of_block _ _ Hperm) as [Hnd Hin].
  destruct (in_split 0 lanes) as (l1 & l2 & ->); [apply Hin; lia |].
  apply NoDup_remove_2 in Hnd.
  rewrite map_app, concat_app. cbn [map concat].
  rewrite !claims_of_others.
  - reflexivity.
  - intros H. apply Hnd. apply in_or_app. right. exact H.
  - intros H. apply Hnd. apply in_or_app. left. exact H.
Qed.

(** C4: in a block whose lanes run the constructor, whatever the order
    of the lanes between the barriers, the lane with [threadIdx.x == 0]
    calls [atomic_add] once, on the counter and with 1, and no other lane
    calls it; the counter goes from [c] to [c + 1].  The offset of the
    block, in lanes, is [c * block_size]; in work items it is [c] times
    [block_size / subwarp_size], the number of work items of the block,
    which is the work item of lane 0. *)
Theorem block_claims_once bs sw ib b deps c lanes d fuel :
  well_configured bs sw ib ->
  Permutation lanes (thread_ids bs) ->
  load (global_mem d) (block_counter deps) = Some c ->
  0 <= c -> c + 1 < 2 ^ 31 -> (c + 1) * bs <= 2 ^ (ib - 1) ->
  Z.of_nat (length (local_status (shared_mem d b))) = bs ÷ sw ->
  exists d' res,
    construct_block bs sw ib deps (constructor_fuel bs sw + fuel) b lanes d
    = Some (d', res)
    /\ map (fun l => (threadIdx_x (snd l), filter is_atomic_add (fst l))) res
       = map (fun tid => (tid, if tid =? 0
                               then [Atomic_add (block_counter deps) 1 c]
                               else []))
             lanes
    /\ concat (map (fun l => filter is_atomic_add (fst l)) res)
       = [Atomic_add (block_counter deps) 1 c]
    /\ load (global_mem d') (block_counter deps) = Some (c + 1)
    /\ block_offset (shared_mem d' b) = c * bs
    /\ block_offset (shared_mem d' b) ÷ sw = c * (bs ÷ sw)
    /\ Forall (fun l => block_id (snd l) = c
                        /\ (threadIdx_x (snd l) = 0 ->
                            get_work_id (snd l) = c * (bs ÷ sw)))
              res.
Proof.
  intros Hcfg Hperm Hload Hc0 Hc1 Hfit Hlen.
  destruct (construct_block_runs bs sw ib Hcfg b deps c lanes d fuel
              Hperm Hload Hc0 Hc1 Hfit Hlen)
    as (d' & res & E & Hs & Ha & HG & Hoff & _ & _).
  destruct (block_size_lane_groups _ _ _ Hcfg) as [Ebs Hcap].
  unfold local_dependency_count in Ebs, Hcap.
  pose proof Hcfg as (Hsw & Hbs & _).
  exists d', res. split; [exact E |]. split; [| split; [| split; [| split; [| split]]]].
  - assert (Hboth : map (fun l : list action * scheduler =>
                           (snd l, filter is_atomic_add (fst l))) res
                    = map (fun tid => (scheduler_of bs sw deps c tid, claim_of deps c tid))
                          lanes).
    { clear - Hs Ha. revert lanes Hs Ha.
      induction res as [| l res IH]; intros [| tid lanes] Hs Ha; try discriminate;
        [reflexivity |].
      cbn in *. injection Hs as Hs1 Hs2. injection Ha as Ha1 Ha2.
      rewrite (IH lanes Hs2 Ha2). congruence. }
    apply (f_equal (map (fun p : scheduler * list action => (threadIdx_x (fst p), snd p))))
      in Hboth.
    rewrite !map_map in Hboth. exact Hboth.
  - rewrite Ha. apply (claims_of_block bs); [lia | exact Hperm].
  - rewrite HG. pose proof (load_some _ _ _ Hload) as Hr.
    unfold load. destruct (0 <=? block_counter deps) eqn:E0; [| lia].
    apply nth_error_list_set_same. lia.
  - exact Hoff.
  - rewrite Hoff. rewrite Ebs at 1.
    replace (c * (bs ÷ sw * sw)) with (c * (bs ÷ sw) * sw) by ring.
    apply Z.quot_mul. lia.
  - apply Forall_forall. intros l Hl.
    assert (Hin : In (snd l) (map snd res)) by (apply in_map; exact Hl).
    rewrite Hs in Hin. apply in_map_iff in Hin as (tid & <- & _).
    cbn. split; [reflexivity |]. intros ->. cbn. lia.
Qed.

(** The second block to start, of four lanes in groups of two: its claim. *)
Lemma block_claims_once_witness :
  exists d' res,
    construct_block 4 2 32 {| status := 0; block_counter := 4 |}
                    (constructor_fuel 4 2) 0 [1; 0; 2; 3]
                    {| global_mem := [1; 1; 0; 0; 1];
                       shared_mem := fun _ => {| local_status := [7; 7];
                                                 block_offset := 99 |} |}
    = Some (d', res)
    /\ concat (map (fun l => filter is_atomic_add (fst l)) res) = [Atomic_add 4 1 1]
    /\ block_offset (shared_mem d' 0%nat) = 4.
Proof.
  destruct (block_claims_once 4 2 32 0 {| status := 0; block_counter := 4 |} 1
              [1; 0; 2; 3]
              {| global_mem := [1; 1; 0; 0; 1];
                 shared_mem := fun _ => {| local_status := [7; 7];
                                           block_offset := 99 |} |}
              0)
    as (d' & res & E & _ & Hone & _ & Hoff & _).
  - unfold well_configured. repeat split; try lia; reflexivity.
  - exact (perm_swap 0 1 [2; 3]).
  - reflexivity.
  - lia.
  - lia.
  - lia.
  - reflexivity.
  - exists d', res. split; [exact E |]. split; [exact Hone | exact Hoff].
Defined.

(** C5: the scheduler a lane has built answers [get_work_id] with the
    offset of its block in work items, which is the counter value [c] the
    block fetched times [block_size / subwarp_size], plus the index
    [threadIdx.x / subwarp_size] of its lane-group in the block; and it
    answers so after whatever calls the lane has made on it, on whatever
    memory. *)
Theorem get_work_id_of_lane bs sw ib b deps c lanes d fuel :
  well_configured bs sw ib ->
  Permutation lanes (thread_ids bs) ->
  load (global_mem d) (block_counter deps) = Some c ->
  0 <= c -> c + 1 < 2 ^ 31 -> (c + 1) * bs <= 2 ^ (ib - 1) ->
  Z.of_nat (length (local_status (shared_mem d b))) = bs ÷ sw ->
  exists d' res,
    construct_block bs sw ib deps (constructor_fuel bs sw + fuel) b lanes d
    = Some (d', res)
    /\ map (fun l => threadIdx_x (snd l)) res = lanes
    /\ Forall (fun l =>
                 get_work_id (snd l)
                 = block_offset (shared_mem d' b) ÷ sw + threadIdx_x (snd l) ÷ sw
                 /\ get_work_id (snd l) = c * (bs ÷ sw) + threadIdx_x (snd l) ÷ sw
                 /\ forall cs b' d1 fuel1 r,
                      snd (exec (on_device b') fuel1
                                (do_calls bs sw (snd l) cs;; Ret (get_work_id (snd l)))
                                d1) = Returned r ->
                      r = c * (bs ÷ sw) + threadIdx_x (snd l) ÷ sw)
              res.
Proof.
  intros Hcfg Hperm Hload Hc0 Hc1 Hfit Hlen.
  destruct (construct_block_runs bs sw ib Hcfg b deps c lanes d fuel
              Hperm Hload Hc0 Hc1 Hfit Hlen)
    as (d' & res & E & Hs & _ & _ & Hoff & _ & _).
  destruct (block_size_lane_groups _ _ _ Hcfg) as [Ebs Hcap].
  unfold local_dependency_count in Ebs, Hcap.
  pose proof Hcfg as (Hsw & Hbs & _).
  assert (Hbase : block_offset (shared_mem d' b) ÷ sw = c * (bs ÷ sw)).
  { rewrite Hoff. rewrite Ebs at 1.
    replace (c * (bs ÷ sw * sw)) with (c * (bs ÷ sw) * sw) by ring.
    apply Z.quot_mul. lia. }
  exists d', res. split; [exact E |]. split.
  - apply (f_equal (map threadIdx_x)) in Hs. rewrite !map_map in Hs.
    cbn in Hs. rewrite map_id in Hs. exact Hs.
  - apply Forall_forall. intros l Hl.
    assert (Hin : In (snd l) (map snd res)) by (apply in_map; exact Hl).
    rewrite Hs in Hin. apply in_map_iff in Hin as (tid & <- & _).
    rewrite Hbase. cbn [get_work_id work_id threadIdx_x scheduler_of].
    split; [reflexivity |]. split; [reflexivity |].
    intros cs b' d1 fuel1 r Hr.
    apply get_work_id_after_calls in Hr. exact Hr.
Qed.

(** The second block to start, of four lanes in groups of two: its lanes. *)
Lemma get_work_id_of_lane_witness :
  exists d' res,
    construct_block 4 2 32 {| status := 0; block_counter := 4 |}
                    (constructor_fuel 4 2) 0 [1; 0; 2; 3]
                    {| global_mem := [1; 1; 0; 0; 1];
                       shared_mem := fun _ => {| local_status := [7; 7];
                                                 block_offset := 99 |} |}
    = Some (d', res)
    /\ map (fun l => threadIdx_x (snd l)) res = [1; 0; 2; 3].
Proof.
  destruct (get_work_id_of_lane 4 2 32 0 {| status := 0; block_counter := 4 |} 1
              [1; 0; 2; 3]
              {| global_mem := [1; 1; 0; 0; 1];
                 shared_mem := fun _ => {| local_status := [7; 7];
                                           block_offset := 99 |} |}
              0)
    as (d' & res & E & Htid & _).
  - unfold well_configured. repeat split; try lia; reflexivity.
  - exact (perm_swap 0 1 [2; 3]).
  - reflexivity.
  - lia.
  - lia.
  - lia.
  - reflexivity.
  - exists d', res. split; [exact E | exact Htid].
Defined.

(** The constructor run on a block, computed. *)
Example construct_block_example :
  option_map (fun r => (global_mem (fst r),
                        block_offset (shared_mem (fst r) 0%nat),
                        local_status (shared_mem (fst r) 0%nat),
                        map (fun l => (threadIdx_x (snd l), work_id (snd l),
                                       block_id (snd l)))
                            (snd r)))
    (construct_block 4 2 32 {| status := 0; block_counter := 4 |}
                     (constructor_fuel 4 2) 0 [1; 0; 2; 3]
                     {| global_mem := [1; 1; 0; 0; 1];
                        shared_mem := fun _ => {| local_status := [7; 7];
                                                  block_offset := 99 |} |})
  = Some ([1; 1; 0; 0; 2], 4, [0; 0],
          [(1, 2, 1); (0, 2, 1); (2, 3, 1); (3, 3, 1)]).
Proof. vm_compute. reflexivity. Qed.

(** The blocks one after the other: a grid of [G] blocks over [N = G *
    capacity] work items, the status array fresh from the constructor of
    [syncfree_storage]; the blocks start in whatever order, each when the
    one before it has its schedulers, their lanes run in whatever order
    between the barriers.  Every block gets its schedulers.  The block in place [k] of
    the order fetches [k] from the counter, takes [k] for its [block_id],
    and its lane-groups own the work items from [k * capacity] up to
    [(k + 1) * capacity], each of them one.  All the work items owned are
    the items [0 .. N - 1], each once: the ranges are pairwise disjoint
    and their union is [0, N).  The first block to start has the range from
    0, and a block that starts later owns larger work items only. *)
Lemma launch_ranges_tile bs sw ib fresh (G : nat) lanes order shm fuel :
  well_configured bs sw ib ->
  Z.of_nat G < 2 ^ 31 ->
  Z.of_nat G * bs <= 2 ^ (ib - 1) ->
  Permutation order (seq 0 G) ->
  (forall b, In b order -> Permutation (lanes b) (thread_ids bs)) ->
  (forall b, In b order -> Z.of_nat (length (local_status (shm b))) = bs ÷ sw) ->
  let capacity := bs ÷ sw in
  let N := Z.of_nat G * capacity in
  let status_array := fst (syncfree_storage_new fresh N) in
  let deps := snd (syncfree_storage_new fresh N) in
  exists d' results,
    launch bs sw ib deps (constructor_fuel bs sw + fuel) lanes order
           {| global_mem := status_array; shared_mem := shm |}
    = Some (d', results)
    /\ map fst results = order
    /\ load (global_mem d') (block_counter deps) = Some (Z.of_nat G)
    /\ (forall k b res,
          nth_error results k = Some (b, res) ->
          Forall (fun l => block_id (snd l) = Z.of_nat k) res
          /\ NoDup (owned sw res)
          /\ forall w, In w (owned sw res)
                       <-> Z.of_nat k * capacity <= w < (Z.of_nat k + 1) * capacity)
    /\ Permutation (concat (map (fun r => owned sw (snd r)) results))
                   (map Z.of_nat (seq 0 (Z.to_nat N)))
    /\ (forall k k' b b' res res' w w',
          nth_error results k = Some (b, res) ->
          nth_error results k' = Some (b', res') ->
          (k < k')%nat ->
          In w (owned sw res) -> In w' (owned sw res') -> w < w').
Proof.
  intros Hcfg HG Hfit Hperm Hlanes Hlen. cbv zeta.
  destruct (block_size_lane_groups _ _ _ Hcfg) as [Ebs Hcap].
  unfold local_dependency_count in Ebs, Hcap.
  pose proof Hcfg as (Hsw & Hbs & _).
  assert (HN : 0 <= Z.of_nat G * (bs ÷ sw) < 2 ^ 64 - 1).
  { assert (bs ÷ sw <= bs) by nia. split; [nia |].
    assert (Z.of_nat G * (bs ÷ sw) < 2 ^ 31 * 2 ^ 31) by nia. lia. }
  rewrite syncfree_storage_new_zero by exact HN. cbn [fst snd].
  assert (Hlen_order : length order = G).
  { rewrite (Permutation_length Hperm). apply length_seq. }
  destruct (launch_runs bs sw ib Hcfg
              {| status := 0; block_counter := Z.of_nat G * (bs ÷ sw) |}
              lanes fuel order 0
              {| global_mem := repeat 0 (Z.to_nat (Z.of_nat G * (bs ÷ sw) + 1));
                 shared_mem := shm |})
    as (d' & results & E & Hfst & Hload & Hranges & Hnth).
  - eapply Permutation_NoDup; [apply Permutation_sym; exact Hperm | apply seq_NoDup].
  - cbn. apply load_repeat. lia.
  - lia.
  - lia.
  - rewrite Hlen_order. lia.
  - exact Hlanes.
  - exact Hlen.
  - unfold local_dependency_count in Hranges.
    assert (Hk : forall k b res,
               nth_error results k = Some (b, res) ->
               nth_error (map (fun r : nat * list (list action * scheduler) =>
                                 owned sw (snd r)) results) k
               = Some (owned sw res)).
    { intros k b res H. rewrite nth_error_map, H. reflexivity. }
    exists d', results. split; [exact E |]. split; [exact Hfst |].
    split; [rewrite Hload, Hlen_order; reflexivity |].
    split; [| split].
    + intros k b res H. split.
      * destruct (Hnth k b res H) as [Hs _].
        apply Forall_forall. intros l Hl.
        assert (Hin : In (snd l) (map snd res)) by (apply in_map; exact Hl).
        rewrite Hs in Hin. apply in_map_iff in Hin as (tid & <- & _). reflexivity.
      * apply (ranges_from_nth _ _ 0 k _ Hranges (Hk k b res H)).
    + destruct (ranges_from_concat (bs ÷ sw) _ 0 ltac:(lia) Hranges) as [Hnd Hin].
      apply range_Permutation; [exact Hnd |].
      intros w. rewrite Hin. rewrite length_map.
      assert (length results = G).
      { rewrite <- (length_map fst results), Hfst. exact Hlen_order. }
      lia.
    + intros k k' b b' res res' w w' H H' Hlt Hw Hw'.
      destruct (ranges_from_nth _ _ 0 k _ Hranges (Hk k b res H)) as [_ H1].
      destruct (ranges_from_nth _ _ 0 k' _ Hranges (Hk k' b' res' H')) as [_ H2].
      apply H1 in Hw. apply H2 in Hw'. nia.
Qed.

(** Two blocks of four lanes in groups of two, block 1 the first to
    start. *)
Lemma launch_ranges_tile_witness :
  exists d' results,
    launch 4 2 32 (snd (syncfree_storage_new (fun _ => 5) 4)) (constructor_fuel 4 2)
           (fun _ => [1; 0; 2; 3]) [1; 0]%nat
           {| global_mem := fst (syncfree_storage_new (fun _ => 5) 4);
              shared_mem := fun _ => {| local_status := [7; 7]; block_offset := 99 |} |}
    = Some (d', results)
    /\ map fst results = [1; 0]%nat
    /\ Permutation (concat (map (fun r => owned 2 (snd r)) results)) [0; 1; 2; 3].
Proof.
  destruct (launch_ranges_tile 4 2 32 (fun _ => 5) 2 (fun _ => [1; 0; 2; 3]) [1; 0]%nat
              (fun _ => {| local_status := [7; 7]; block_offset := 99 |}) 0)
    as (d' & results & E & Hfst & _ & _ & Hperm & _).
  - unfold well_configured. repeat split; try lia; reflexivity.
  - lia.
  - lia.
  - exact (perm_swap 0%nat 1%nat []).
  - intros b _. exact (perm_swap 0 1 [2; 3]).
  - intros b _. reflexivity.
  - exists d', results. split; [exact E |]. split; [exact Hfst | exact Hperm].
Defined.

(** The launch of the witness, computed: block 1 starts first and gets
    the items 0 and 1, block 0 gets the items 2 and 3. *)
Example launch_example :
  option_map (fun r => (global_mem (fst r),
                        map (fun br => (fst br, owned 2 (snd br),
                                        map (fun l => block_id (snd l)) (snd br)))
                            (snd r)))
    (launch 4 2 32 (snd (syncfree_storage_new (fun _ => 5) 4)) (constructor_fuel 4 2)
            (fun _ => [1; 0; 2; 3]) [1; 0]%nat
            {| global_mem := fst (syncfree_storage_new (fun _ => 5) 4);
               shared_mem := fun _ => {| local_status := [7; 7]; block_offset := 99 |} |})
  = Some ([0; 0; 0; 0; 2],
          [(1%nat, [0; 1], [0; 0; 0; 0]); (0%nat, [2; 3], [1; 1; 1; 1])]).
Proof. vm_compute. reflexivity. Qed.

(** * More on the scheduler *)

(** ** Calls that only read *)

Lemma lane_step_reads_only {R} b (t t' : itree deviceE R) d d' a :
  lane_step (on_device b) t d = Next t' d' (Some a) ->
  reads_only a ->
  d' = d.
Proof.
  unfold lane_step. destruct (observe t) as [r | t0 | X e k]; try discriminate.
  destruct e; cbn.
  - destruct (load (global_mem d) p); [| discriminate].
    destruct (store (global_mem d) p _); [| discriminate].
    intros H Ha. injection H as _ _ <-. destruct Ha.
  - destruct (load (global_mem d) p); [| discriminate].
    intros H _. injection H as _ <- _. reflexivity.
  - destruct (store (global_mem d) p v); [| discriminate].
    intros H Ha. injection H as _ _ <-. destruct Ha.
  - destruct (load (local_status (shared_mem d b)) i); [| discriminate].
    intros H _. injection H as _ <- _. reflexivity.
  - destruct (store (local_status (shared_mem d b)) i v); [| discriminate].
    intros H Ha. injection H as _ _ <-. destruct Ha.
  - destruct (store (local_status (shared_mem d b)) i v); [| discriminate].
    intros H Ha. injection H as _ _ <-. destruct Ha.
  - intros H Ha. injection H as _ _ <-. destruct Ha.
  - intros H _. injection H as _ <- _. reflexivity.
  - intros H _. injection H as _ <- _. reflexivity.
  - intros H _. injection H as _ <- _. reflexivity.
Qed.

(** A lane that only reads leaves the memory as it is, however far it
    gets. *)
Lemma exec_reads_only {R} b (t : itree deviceE R) d fuel :
  only_does b t reads_only ->
  fst (fst (exec (on_device b) fuel t d)) = d.
Proof.
  revert t d. induction fuel as [| fuel IH]; intros t d Ht; [reflexivity |].
  cbn [exec]. destruct (lane_step (on_device b) t d) as [r | | t' d' o] eqn:E;
    try reflexivity.
  assert (d' = d) as ->.
  { destruct o as [a |].
    - eapply lane_step_reads_only; [exact E |]. apply Ht. eapply can_do_now; eauto.
    - eapply lane_step_silent; eauto. }
  specialize (IH t' d (only_does_later _ _ _ _ _ _ _ Ht E)).
  destruct (exec (on_device b) fuel t' d) as [[s tr] st]. destruct o; exact IH.
Qed.

Lemma wait_reads_only bs sw b this dependency :
  only_does b (wait bs sw this dependency) reads_only.
Proof.
  unfold wait. apply only_does_bind.
  - destruct (get_lane sw this =? 0); [| apply only_does_ret].
    destruct (_ =? block_id this); apply only_does_spin; intros x; exact I.
  - intros _. apply only_does_trigger. intros x; exact I.
Qed.

Lemma peek_reads_only bs sw b this dependency :
  only_does b (peek bs sw this dependency) reads_only.
Proof.
  unfold peek.
  destruct (_ =? block_id this);
    (apply only_does_bind;
     [apply only_does_trigger; intros x; exact I | intros v; apply only_does_ret]).
Qed.

Lemma probes_read_only bs sw b this cs :
  forallb is_probe cs = true ->
  only_does b (do_calls bs sw this cs) reads_only.
Proof.
  induction cs as [| c cs IH]; cbn [do_calls forallb]; intros H.
  - apply only_does_ret.
  - apply andb_prop in H as [Hc Hcs].
    apply only_does_bind; [| intros; apply IH; exact Hcs].
    destruct c as [| dependency | dependency |]; cbn [do_call]; try discriminate.
    + apply only_does_bind; [apply only_does_ret | intros; apply only_does_ret].
    + apply wait_reads_only.
    + apply only_does_bind; [apply peek_reads_only | intros; apply only_does_ret].
Qed.

Lemma sys_step_reads_only i pool d :
  Forall lane_reads_only pool ->
  Forall lane_reads_only
         (fst (sys_step i pool d))
  /\ snd (sys_step i pool d) = d.
Proof.
  intros Hpool. unfold sys_step.
  destruct (nth_error pool i) as [l |] eqn:El; [| auto].
  assert (Hl : lane_reads_only l).
  { eapply Forall_forall; [exact Hpool |]. eapply nth_error_In; eauto. }
  destruct (lane_step (on_device (lane_block l)) (lane_code l) d)
    as [r | | t' d' o] eqn:Es; auto.
  cbn [fst snd]. split.
  - apply set_lane_Forall; [exact Hpool |].
    unfold lane_reads_only. cbn. eapply only_does_later; eauto.
  - destruct o as [a |].
    + eapply lane_step_reads_only; eauto. apply Hl. eapply can_do_now; eauto.
    + eapply lane_step_silent; eauto.
Qed.

(** X1: [wait], [peek] and [get_work_id] write nothing.  However far a
    lane gets in [wait] or in [peek], returned, still polling or stopped
    at a word that is not there, the device memory is what it was; and
    lanes that make whatever calls of the three, interleaved in whatever
    order, leave the whole device memory as it was. *)
Theorem probes_write_nothing bs sw this dependency b d fuel
        (lanes : list (nat * scheduler * list call)) (schedule : list nat) :
  fst (fst (exec (on_device b) fuel (wait bs sw this dependency) d)) = d
  /\ fst (fst (exec (on_device b) fuel (peek bs sw this dependency) d)) = d
  /\ (forallb (fun l => forallb is_probe (snd l)) lanes = true ->
      snd (sys_run schedule (lanes_of bs sw lanes) d) = d).
Proof.
  split; [apply exec_reads_only, wait_reads_only |].
  split; [apply exec_reads_only, peek_reads_only |].
  intros Hlanes.
  assert (Hpool : Forall lane_reads_only
                         (lanes_of bs sw lanes)).
  { unfold lanes_of. apply Forall_forall. intros l Hl.
    apply in_map_iff in Hl as ([[b0 this0] cs] & <- & Hin).
    unfold lane_reads_only. cbn. apply probes_read_only.
    rewrite forallb_forall in Hlanes. apply (Hlanes _ Hin). }
  clear Hlanes. revert Hpool. generalize (lanes_of bs sw lanes) as pool.
  revert d. induction schedule as [| i schedule IH]; intros d pool Hpool; [reflexivity |].
  cbn [sys_run]. destruct (sys_step_reads_only i pool d Hpool) as [H1 H2].
  destruct (sys_step i pool d) as [pool' d']. cbn [fst snd] in *. subst d'.
  apply IH. exact H1.
Qed.

(** ** Publishing and waiting *)

Lemma peek_on_device bs sw this dependency b d fuel :
  exec (on_device b) (2 + fuel) (peek bs sw this dependency) d
  = (if dependency ÷ (bs ÷ sw) =? block_id this then
       match load (local_status (shared_mem d b)) (Z.rem dependency (bs ÷ sw)) with
       | Some x => (d, [Load_acquire_shared (Z.rem dependency (bs ÷ sw)) x],
                    Returned (negb (x =? 0)))
       | None => (d, [], Faulted)
       end
     else
       match load (global_mem d) (status (global this) + dependency) with
       | Some x => (d, [Load_acquire (status (global this) + dependency) x],
                    Returned (negb (x =? 0)))
       | None => (d, [], Faulted)
       end).
Proof.
  unfold peek. destruct (dependency ÷ (bs ÷ sw) =? block_id this).
  - cbn. unfold lane_step. cbn.
    destruct (load (local_status (shared_mem d b)) _) as [x |]; reflexivity.
  - cbn. unfold lane_step. cbn.
    destruct (load (global_mem d) _) as [x |]; reflexivity.
Qed.

Lemma wait_other_lanes bs sw this dependency b d fuel :
  get_lane sw this <> 0 ->
  exec (on_device b) (3 + fuel) (wait bs sw this dependency) d
  = (d, [Tile_sync], Returned tt).
Proof.
  intros H. unfold wait. assert (E : (get_lane sw this =? 0) = false) by lia.
  rewrite E. reflexivity.
Qed.

(** X2: a [peek] that returns [true] is followed by a [wait] that does
    not spin.  On the memory on which [peek] of a dependency answered
    [true], [wait] on that dependency returns at once: the lane that
    [get_lane] numbers 0 reads the word one time, every lane passes the
    barrier, and the memory stays as it is. *)
Theorem peek_true_then_wait_returns bs sw this dependency b d fuel :
  snd (exec (on_device b) (2 + fuel) (peek bs sw this dependency) d) = Returned true ->
  exists v,
    v <> 0
    /\ exec (on_device b) (3 + fuel) (wait bs sw this dependency) d
       = (d,
          if get_lane sw this =? 0
          then [if dependency ÷ (bs ÷ sw) =? block_id this
                then Load_acquire_shared (Z.rem dependency (bs ÷ sw)) v
                else Load_acquire (status (global this) + dependency) v;
                Tile_sync]
          else [Tile_sync],
          Returned tt).
Proof.
  rewrite peek_on_device. intros H.
  assert (Hv : exists v,
             v <> 0
             /\ (if dependency ÷ (bs ÷ sw) =? block_id this
                 then load (local_status (shared_mem d b)) (Z.rem dependency (bs ÷ sw))
                 else load (global_mem d) (status (global this) + dependency)) = Some v).
  { destruct (dependency ÷ (bs ÷ sw) =? block_id this).
    - destruct (load (local_status (shared_mem d b)) _) as [x |]; [| discriminate].
      cbn in H. exists x. split; [| reflexivity].
      intros ->. discriminate.
    - destruct (load (global_mem d) _) as [x |]; [| discriminate].
      cbn in H. exists x. split; [| reflexivity].
      intros ->. discriminate. }
  destruct Hv as (v & Hv & Hw). exists v. split; [exact Hv |].
  destruct (get_lane sw this =? 0) eqn:El.
  - apply wait_on_device_ready; [lia | exact Hv | exact Hw].
  - apply wait_other_lanes. lia.
Qed.

Lemma peek_true_then_wait_returns_witness :
  exists v,
    v <> 0
    /\ exec (on_device 1) 3
            (wait 8 2 {| global := {| status := 0; block_counter := 8 |};
                         threadIdx_x := 6; work_id := 7; block_id := 1 |} 2)
            {| global_mem := [1; 1; 1; 0; 0; 0; 0; 0; 2];
               shared_mem := fun _ => {| local_status := [0; 0; 0; 0];
                                         block_offset := 8 |} |}
       = ({| global_mem := [1; 1; 1; 0; 0; 0; 0; 0; 2];
             shared_mem := fun _ => {| local_status := [0; 0; 0; 0];
                                       block_offset := 8 |} |},
          [Load_acquire 2 v; Tile_sync], Returned tt).
Proof.
  exact (peek_true_then_wait_returns 8 2
           {| global := {| status := 0; block_counter := 8 |};
              threadIdx_x := 6; work_id := 7; block_id := 1 |} 2 1
           {| global_mem := [1; 1; 1; 0; 0; 0; 0; 0; 2];
              shared_mem := fun _ => {| local_status := [0; 0; 0; 0];
                                        block_offset := 8 |} |}
           0 eq_refl).
Defined.

(** X3: what [mark_ready] publishes, [peek] and [wait] find.  After the
    designated lane of the lane-group that owns work item [w] has returned
    from [mark_ready], a lane of whatever block that asks for [w] gets
    [true] from [peek] and returns from [wait] after one read, be the
    dependency local to it (it reads the slot of the local cache) or not
    (it reads the flag of the status array).  The one thing asked of the
    consumer is that its [block_id] is that of [w] only when it runs in
    the block of the producer. *)
Theorem published_is_seen bs sw this that b b' d fuel :
  get_lane sw this = 0 ->
  status (global that) = status (global this) ->
  (get_work_id this ÷ (bs ÷ sw) = block_id that -> b' = b) ->
  snd (exec (on_device b) (4 + fuel) (mark_ready bs sw this) d) = Returned tt ->
  let d' := fst (fst (exec (on_device b) (4 + fuel) (mark_ready bs sw this) d)) in
  let w := get_work_id this in
  let poll :=
    if w ÷ (bs ÷ sw) =? block_id that
    then Load_acquire_shared (Z.rem w (bs ÷ sw)) 1
    else Load_acquire (status (global that) + w) 1 in
  exec (on_device b') (2 + fuel) (peek bs sw that w) d' = (d', [poll], Returned true)
  /\ exec (on_device b') (3 + fuel) (wait bs sw that w) d'
     = (d', if get_lane sw that =? 0 then [poll; Tile_sync] else [Tile_sync],
        Returned tt).
Proof.
  intros Hl Hst Hblock. rewrite mark_ready_on_device, Hl. cbn [Z.eqb].
  destruct (store (local_status (shared_mem d b)) _ 1) as [l |] eqn:El;
    [| cbn; discriminate].
  destruct (store (global_mem d) _ 1) as [g |] eqn:Eg; [| cbn; discriminate].
  intros _. cbn [fst snd]. cbv zeta.
  set (d' := set_global (set_local_status d b l) g).
  assert (Hword :
    (if get_work_id this ÷ (bs ÷ sw) =? block_id that
     then load (local_status (shared_mem d' b')) (Z.rem (get_work_id this) (bs ÷ sw))
     else load (global_mem d') (status (global that) + get_work_id this)) = Some 1).
  { destruct (get_work_id this ÷ (bs ÷ sw) =? block_id that) eqn:E.
    - rewrite (Hblock ltac:(lia)). subst d'. cbn. rewrite Nat.eqb_refl. cbn.
      eapply load_store_same; eauto.
    - subst d'. cbn. rewrite Hst. eapply load_store_same; eauto. }
  split.
  - rewrite peek_on_device.
    destruct (get_work_id this ÷ (bs ÷ sw) =? block_id that); rewrite Hword; reflexivity.
  - destruct (get_lane sw that =? 0) eqn:E.
    + apply wait_on_device_ready; [lia | discriminate | exact Hword].
    + apply wait_other_lanes. lia.
Qed.

(** The owner of item 5, in block 1, publishes; a lane of block 0 waits
    for it. *)
Lemma published_is_seen_witness :
  let deps := {| status := 0; block_counter := 8 |} in
  let this := {| global := deps; threadIdx_x := 2; work_id := 5; block_id := 1 |} in
  let that := {| global := deps; threadIdx_x := 0; work_id := 0; block_id := 0 |} in
  let d := {| global_mem := [0; 0; 0; 0; 0; 0; 0; 0; 2];
              shared_mem := fun _ => {| local_status := [0; 0; 0; 0];
                                        block_offset := 0 |} |} in
  snd (exec (on_device 0)
            3 (wait 8 2 that 5)
            (fst (fst (exec (on_device 1) 4 (mark_ready 8 2 this) d))))
  = Returned tt.
Proof.
  cbv zeta.
  pose proof (published_is_seen 8 2
                {| global := {| status := 0; block_counter := 8 |};
                   threadIdx_x := 2; work_id := 5; block_id := 1 |}
                {| global := {| status := 0; block_counter := 8 |};
                   threadIdx_x := 0; work_id := 0; block_id := 0 |}
                1 0
                {| global_mem := [0; 0; 0; 0; 0; 0; 0; 0; 2];
                   shared_mem := fun _ => {| local_status := [0; 0; 0; 0];
                                             block_offset := 0 |} |}
                0 eq_refl eq_refl ltac:(cbn; discriminate) eq_refl) as H.
  cbv zeta in H. destruct H as [_ H]. apply (f_equal snd) in H. exact H.
Defined.

(** ** The reset of the local cache *)

Lemma run_lanes_acc {S A B} (run : A -> S -> S * list action * status_of B)
      (Post : A -> B -> Prop) lanes :
  forall (P : list A -> S -> Prop) s,
    (forall l1 a l2 s, lanes = l1 ++ a :: l2 -> P l1 s ->
                       exists s' tr r, run a s = (s', tr, Returned r)
                                       /\ P (l1 ++ [a]) s' /\ Post a r) ->
    P [] s ->
    exists s' rs,
      run_lanes run lanes s = Some (s', rs)
      /\ P lanes s'
      /\ Forall2 (fun a p => Post a (snd p)) lanes rs.
Proof.
  induction lanes as [| a lanes IH]; intros P s Hstep H0.
  - exists s, []. cbn. auto.
  - destruct (Hstep [] a lanes s eq_refl H0) as (s1 & tr & r & E & H1 & HP).
    destruct (IH (fun l s => P (a :: l) s) s1) as (s2 & rs & E2 & H2 & HF).
    + intros l1 a' l2 s' -> Hl1.
      apply (Hstep (a :: l1) a' l2 s' eq_refl Hl1).
    + exact H1.
    + exists s2, ((tr, r) :: rs). cbn. rewrite E, E2. auto.
Qed.

Lemma load_store_zero m p m' j :
  store m p 0 = Some m' -> load m j = Some 0 -> load m' j = Some 0.
Proof.
  intros Hs Hj. destruct (Z.eq_dec j p) as [-> | Hne].
  - eapply load_store_same; eauto.
  - rewrite (load_store_other _ _ _ _ _ Hs Hne). exact Hj.
Qed.

(** A list whose every slot holds 0. *)
Lemma all_zero (m : list Z) :
  (forall j, 0 <= j < Z.of_nat (length m) -> load m j = Some 0) ->
  m = repeat 0 (length m).
Proof.
  induction m as [| x m IH]; intros H; [reflexivity |].
  cbn [length repeat]. f_equal.
  - specialize (H 0 ltac:(cbn [length]; lia)). cbn in H. congruence.
  - apply IH. intros j Hj.
    specialize (H (j + 1) ltac:(cbn [length]; lia)).
    unfold load in *. destruct (0 <=? j + 1) eqn:E1; [| lia].
    destruct (0 <=? j) eqn:E2; [| lia].
    replace (Z.to_nat (j + 1)) with (Datatypes.S (Z.to_nat j)) in H by lia.
    exact H.
Qed.

Section Reset.

Variables block_size subwarp_size index_bits : Z.
Hypothesis Hcfg : well_configured block_size subwarp_size index_bits.

Local Abbreviation cap := (local_dependency_count block_size subwarp_size).
Local Abbreviation claimed := (after_claim block_size).
Local Abbreviation rest := (after_barrier block_size subwarp_size index_bits).

(** The reset loop from [i] on: it stores 0 in the slot [i] and leaves
    at 0 the slots that hold 0. *)
Lemma reset_status_zeroes b n : forall i d,
  0 <= i ->
  (Z.to_nat (cap - i) <= n)%nat ->
  Z.of_nat (length (local_status (shared_mem d b))) = cap ->
  exists d' tr,
    exec (on_device b) (2 * n + 1) (reset_status block_size subwarp_size i) d
    = (d', tr, Returned tt)
    /\ same_but_cache b d d'
    /\ ~ In Syncthreads tr
    /\ (forall j, load (local_status (shared_mem d b)) j = Some 0 ->
                  load (local_status (shared_mem d' b)) j = Some 0)
    /\ (i < cap -> load (local_status (shared_mem d' b)) i = Some 0).
Proof.
  destruct (block_size_lane_groups _ _ _ Hcfg) as [Ebs Hcap].
  destruct Hcfg as (Hsw & Hbs & Hrem & _).
  induction n as [| n IH]; intros i d Hi Hn Hlen.
  - exists d, []. split; [| split; [apply same_but_cache_refl | split; [auto |]]].
    + unfold reset_status.
      rewrite (exec_observe _ _ _ _ _ (observe_iter _ _)).
      destruct (i <? cap) eqn:E; [lia |]. reflexivity.
    + split; [auto | lia].
  - unfold reset_status.
    rewrite (exec_observe _ _ _ _ _ (observe_iter _ _)).
    destruct (i <? cap) eqn:E.
    + replace (2 * Datatypes.S n + 1)%nat with (Datatypes.S (Datatypes.S (2 * n + 1))) by lia.
      set (f := (2 * n + 1)%nat) in *.
      cbn [exec]. unfold lane_step at 1. cbn -[exec log wrap_int].
      pose proof (store_in_range (local_status (shared_mem d b)) i 0 ltac:(lia)) as Est.
      rewrite Est.
      set (d1 := set_local_status d b _).
      unfold lane_step at 1. cbn -[exec log wrap_int].
      rewrite wrap_int_small by nia.
      destruct (IH (i + subwarp_size) d1) as (d' & tr & Hrun & Hsame & Hno & Hz & _).
      * lia.
      * lia.
      * subst d1. cbn. rewrite Nat.eqb_refl. cbn. rewrite list_set_length. exact Hlen.
      * assert (H1 : forall j, load (local_status (shared_mem d b)) j = Some 0 ->
                               load (local_status (shared_mem d1 b)) j = Some 0).
        { intros j Hj. subst d1. cbn. rewrite Nat.eqb_refl. cbn.
          eapply load_store_zero; eauto. }
        assert (H2 : load (local_status (shared_mem d1 b)) i = Some 0).
        { subst d1. cbn. rewrite Nat.eqb_refl. cbn. eapply load_store_same; eauto. }
        exists d', (Store_shared i 0 :: tr).
        split; [| split; [| split; [| split]]].
        -- match goal with
           | |- log ?a (log ?a' ?X) = _ =>
               change X with (exec (on_device b) f
                                   (reset_status block_size subwarp_size
                                                 (i + subwarp_size)) d1)
           end.
           rewrite Hrun. reflexivity.
        -- eapply same_but_cache_trans; [| exact Hsame].
           subst d1. repeat split; cbn.
           ++ rewrite Nat.eqb_refl. reflexivity.
           ++ rewrite Nat.eqb_refl. cbn. apply list_set_length.
           ++ intros b' Hb. apply Nat.eqb_neq in Hb. rewrite Hb. reflexivity.
        -- intros [H | H]; [discriminate | auto].
        -- intros j Hj. apply Hz, H1, Hj.
        -- intros _. apply Hz, H2.
    + exists d, []. split; [reflexivity |].
      split; [apply same_but_cache_refl |]. split; [auto |]. split; [auto | lia].
Qed.

(** A lane up to the barrier, from the reset on. *)
Lemma to_barrier_reset_zeroes b deps tid d fuel :
  0 <= tid ->
  Z.of_nat (length (local_status (shared_mem d b))) = cap ->
  exists d' tr,
    to_barrier (on_device b) (2 * Z.to_nat cap + 2 + fuel)
               (reset_status block_size subwarp_size tid;;
                syncthreads;;
                read_offset block_size subwarp_size index_bits deps tid) d
    = (d', tr, Returned (rest deps tid))
    /\ same_but_cache b d d'
    /\ (forall j, load (local_status (shared_mem d b)) j = Some 0 ->
                  load (local_status (shared_mem d' b)) j = Some 0)
    /\ (tid < cap -> load (local_status (shared_mem d' b)) tid = Some 0).
Proof.
  intros Htid Hlen.
  destruct (reset_status_zeroes b (Z.to_nat cap) tid d Htid ltac:(lia) Hlen)
    as (d' & tr & Hrun & Hsame & Hno & Hz & Ht).
  exists d', (tr ++ [Syncthreads]). split; [| auto].
  replace (2 * Z.to_nat cap + 2 + fuel)%nat
    with ((2 * Z.to_nat cap + 1) + Datatypes.S fuel)%nat by lia.
  eapply to_barrier_bind; [exact Hrun | exact Hno | | congruence].
  apply to_barrier_syncthreads.
Qed.

Lemma lane_0_resets b deps c d fuel :
  load (global_mem d) (block_counter deps) = Some c ->
  - 2 ^ 31 <= c + 1 < 2 ^ 31 ->
  - 2 ^ (index_bits - 1) <= c * block_size < 2 ^ (index_bits - 1) ->
  Z.of_nat (length (local_status (shared_mem d b))) = cap ->
  exists d' tr,
    to_barrier (on_device b) (constructor_fuel block_size subwarp_size + fuel)
               (syncfree_scheduler block_size subwarp_size index_bits deps 0) d
    = (d', tr, Returned (rest deps 0))
    /\ same_but_cache b (claimed deps b c d) d'
    /\ (forall j, load (local_status (shared_mem d b)) j = Some 0 ->
                  load (local_status (shared_mem d' b)) j = Some 0)
    /\ load (local_status (shared_mem d' b)) 0 = Some 0.
Proof.
  intros Hload Hc Hfit Hlen.
  destruct (block_size_lane_groups _ _ _ Hcfg) as [Ebs Hcap].
  destruct Hcfg as (_ & _ & _ & Hib).
  pose proof (load_some _ _ _ Hload) as Hrange.
  destruct (to_barrier_reset_zeroes b deps 0 (claimed deps b c d) (1 + fuel))
    as (d' & tr & Hrun & Hsame & Hz & H0).
  { lia. }
  { unfold after_claim. cbn. rewrite Nat.eqb_refl. exact Hlen. }
  exists d', ([Atomic_add (block_counter deps) 1 c;
               Write_block_offset (c * block_size)] ++ tr).
  split; [| split; [exact Hsame | split]].
  - rewrite syncfree_scheduler_parts.
    replace (constructor_fuel block_size subwarp_size + fuel)%nat
      with (3 + (2 * Z.to_nat cap + 2 + (1 + fuel)))%nat
      by (unfold constructor_fuel; lia).
    eapply to_barrier_bind; [| | | congruence].
    + unfold claim_offset, atomic_add. cbn. unfold lane_step. cbn -[wrap_int].
      rewrite Hload. rewrite store_in_range by exact Hrange. cbn -[wrap_int].
      rewrite wrap_int_small by exact Hc.
      unfold wrap_index. rewrite wrap_signed_small by assumption.
      reflexivity.
    + cbn. intros [H | [H | H]]; try discriminate; auto.
    + exact Hrun.
  - intros j Hj. apply Hz. unfold after_claim. cbn. rewrite Nat.eqb_refl. exact Hj.
  - apply H0. exact Hcap.
Qed.

Lemma lane_resets b deps tid d fuel :
  0 < tid ->
  Z.of_nat (length (local_status (shared_mem d b))) = cap ->
  exists d' tr,
    to_barrier (on_device b) (constructor_fuel block_size subwarp_size + fuel)
               (syncfree_scheduler block_size subwarp_size index_bits deps tid) d
    = (d', tr, Returned (rest deps tid))
    /\ same_but_cache b d d'
    /\ (forall j, load (local_status (shared_mem d b)) j = Some 0 ->
                  load (local_status (shared_mem d' b)) j = Some 0)
    /\ (tid < cap -> load (local_status (shared_mem d' b)) tid = Some 0).
Proof.
  intros Htid Hlen.
  destruct (to_barrier_reset_zeroes b deps tid d (3 + fuel))
    as (d' & tr & Hrun & Hsame & Hz & Ht); [lia | exact Hlen |].
  exists d', ([] ++ tr). split; [| auto].
  rewrite syncfree_scheduler_parts.
  replace (constructor_fuel block_size subwarp_size + fuel)%nat
    with (1 + (2 * Z.to_nat cap + 2 + (3 + fuel)))%nat
    by (unfold constructor_fuel; lia).
  eapply to_barrier_bind; [| | exact Hrun | congruence].
  - unfold claim_offset. assert (E : (tid =? 0) = false) by lia.
    rewrite E. reflexivity.
  - cbn. auto.
Qed.


(** The whole block: beside what [construct_block_runs] says, the local
    cache is all 0 at the end. *)
Lemma construct_block_resets b deps c lanes d fuel :
  Permutation lanes (thread_ids block_size) ->
  load (global_mem d) (block_counter deps) = Some c ->
  0 <= c -> c + 1 < 2 ^ 31 ->
  (c + 1) * block_size <= 2 ^ (index_bits - 1) ->
  Z.of_nat (length (local_status (shared_mem d b))) = cap ->
  exists d' res,
    construct_block block_size subwarp_size index_bits deps
                    (constructor_fuel block_size subwarp_size + fuel) b lanes d
    = Some (d', res)
    /\ map snd res = map (scheduler_of block_size subwarp_size deps c) lanes
    /\ global_mem d' = list_set (global_mem d) (Z.to_nat (block_counter deps)) (c + 1)
    /\ local_status (shared_mem d' b) = repeat 0 (Z.to_nat cap)
    /\ forall b', b' <> b -> shared_mem d' b' = shared_mem d b'.
Proof.
  intros Hperm Hload Hc0 Hc1 Hfit Hlen.
  destruct (construct_block_runs _ _ _ Hcfg b deps c lanes d fuel
              Hperm Hload Hc0 Hc1 Hfit Hlen)
    as (d' & res & E & Hres & _ & HG & _ & Hlen' & Hoth).
  exists d', res. split; [exact E |]. split; [exact Hres |].
  split; [exact HG |]. split; [| exact Hoth].
  destruct (block_size_lane_groups _ _ _ Hcfg) as [Ebs Hcap].
  pose proof Hcfg as (Hsw & Hbs & Hrem & Hib).
  assert (Hpow : 0 < 2 ^ (index_bits - 1)) by (apply Z.pow_pos_nonneg; lia).
  destruct (lanes_of_block _ _ Hperm) as [Hnd Hin].
  (* up to the barrier every lane resets its slots *)
  destruct (run_lanes_acc
              (fun tid =>
                 to_barrier (on_device b) (constructor_fuel block_size subwarp_size + fuel)
                            (syncfree_scheduler block_size subwarp_size index_bits deps tid))
              (fun tid r => r = rest deps tid)
              lanes
              (fun done s =>
                 Z.of_nat (length (local_status (shared_mem s b))) = cap
                 /\ (forall j, In j done -> j < cap ->
                               load (local_status (shared_mem s b)) j = Some 0)
                 /\ (~ In 0 done -> global_mem s = global_mem d))
              d)
    as (d1 & rs & E1 & (_ & Hzero & _) & HF).
  { intros l1 tid l2 s Hl (Hl1 & Hz1 & Hg1).
    assert (Htid : 0 <= tid < block_size).
    { apply Hin. rewrite Hl. apply in_or_app. right. left. reflexivity. }
    destruct (Z.eq_dec tid 0) as [-> | Hne].
    - assert (Hno : ~ In 0 l1).
      { intros H0. rewrite Hl in Hnd. apply NoDup_remove_2 in Hnd.
        apply Hnd. apply in_or_app. left. exact H0. }
      destruct (lane_0_resets b deps c s fuel) as (s' & tr & Es & Hsame & Hz & H0).
      { rewrite (Hg1 Hno). exact Hload. }
      { lia. }
      { nia. }
      { exact Hl1. }
      exists s', tr, (rest deps 0). split; [exact Es |]. split; [| reflexivity].
      destruct Hsame as (_ & _ & L' & _). unfold after_claim in L'. cbn in L'.
      rewrite Nat.eqb_refl in L'. cbn in L'.
      split; [congruence |]. split.
      + intros j Hj Hjc. apply in_app_or in Hj. destruct Hj as [Hj | [<- | []]].
        * apply Hz. apply Hz1; assumption.
        * exact H0.
      + intros Hn. exfalso. apply Hn. apply in_or_app. right. left. reflexivity.
    - destruct (lane_resets b deps tid s fuel) as (s' & tr & Es & Hsame & Hz & Ht).
      { lia. }
      { exact Hl1. }
      exists s', tr, (rest deps tid). split; [exact Es |]. split; [| reflexivity].
      destruct Hsame as (G' & _ & L' & _).
      split; [congruence |]. split.
      + intros j Hj Hjc. apply in_app_or in Hj. destruct Hj as [Hj | [<- | []]].
        * apply Hz. apply Hz1; assumption.
        * apply Ht. exact Hjc.
      + intros Hn. rewrite G'. apply Hg1. intros H0. apply Hn.
        apply in_or_app. left. exact H0. }
  { split; [exact Hlen |]. split; [intros j [] | reflexivity]. }
  (* after the barrier nothing is written *)
  unfold construct_block in E. rewrite E1 in E.
  destruct (run_lanes _ rs d1) as [[d2 after] |] eqn:E2; [| discriminate].
  assert (Hd2 : d2 = d1).
  { assert (Hrs : forall p, In p rs -> exists tid, snd p = rest deps tid).
    { intros p Hp. destruct (Forall2_in_r _ _ _ _ HF Hp) as (tid & _ & Hr).
      exists tid. exact Hr. }
    replace (constructor_fuel block_size subwarp_size + fuel)%nat
      with (3 + (constructor_fuel block_size subwarp_size + fuel - 3))%nat in E2
      by (unfold constructor_fuel; lia).
    clear - E2 Hrs. revert d1 d2 after E2.
    induction rs as [| p rs IH]; intros d1 d2 after E2.
    - cbn in E2. congruence.
    - cbn [run_lanes] in E2.
      destruct (Hrs p (or_introl eq_refl)) as (tid & Hp).
      rewrite Hp in E2. rewrite rest_runs in E2.
      destruct (run_lanes _ rs d1) as [[d3 after'] |] eqn:E3; [| discriminate].
      assert (d3 = d1).
      { eapply IH; [| exact E3]. intros q Hq. apply Hrs. right. exact Hq. }
      congruence. }
  assert (Hd' : d' = d1) by congruence.
  rewrite Hd' in *.
  replace (Z.to_nat cap) with (length (local_status (shared_mem d1 b))) by lia.
  apply all_zero. intros j Hj. apply Hzero; [| lia].
  apply Hin. set (k := cap) in *. clearbody k. nia.
Qed.

End Reset.

(** X4: the constructor leaves the local cache of its block all 0,
    whatever the cache held: together the lanes of the block reset every
    one of the [block_size / subwarp_size] slots before the barrier, in any
    order of the lanes, and nothing writes to the cache after it. *)
Theorem constructor_resets_cache block_size subwarp_size index_bits
        b deps c lanes d fuel :
  well_configured block_size subwarp_size index_bits ->
  Permutation lanes (thread_ids block_size) ->
  load (global_mem d) (block_counter deps) = Some c ->
  0 <= c -> c + 1 < 2 ^ 31 ->
  (c + 1) * block_size <= 2 ^ (index_bits - 1) ->
  Z.of_nat (length (local_status (shared_mem d b)))
  = local_dependency_count block_size subwarp_size ->
  exists d' res,
    construct_block block_size subwarp_size index_bits deps
                    (constructor_fuel block_size subwarp_size + fuel) b lanes d
    = Some (d', res)
    /\ local_status (shared_mem d' b)
       = repeat 0 (Z.to_nat (local_dependency_count block_size subwarp_size)).
Proof.
  intros Hcfg Hperm Hload Hc0 Hc1 Hfit Hlen.
  destruct (construct_block_resets _ _ _ Hcfg b deps c lanes d fuel
              Hperm Hload Hc0 Hc1 Hfit Hlen) as (d' & res & E & _ & _ & Hz & _).
  exists d', res. auto.
Qed.

(** A block of four lanes in groups of two, its cache holding 7s. *)
Lemma constructor_resets_cache_witness :
  exists d' res,
    construct_block 4 2 32 {| status := 0; block_counter := 4 |}
                    (constructor_fuel 4 2) 0 [1; 0; 2; 3]
                    {| global_mem := [1; 1; 0; 0; 1];
                       shared_mem := fun _ => {| local_status := [7; 7];
                                                 block_offset := 99 |} |}
    = Some (d', res)
    /\ local_status (shared_mem d' 0%nat) = [0; 0].
Proof.
  destruct (constructor_resets_cache 4 2 32 0 {| status := 0; block_counter := 4 |} 1
              [1; 0; 2; 3]
              {| global_mem := [1; 1; 0; 0; 1];
                 shared_mem := fun _ => {| local_status := [7; 7];
                                           block_offset := 99 |} |}
              0)
    as (d' & res & E & Hz).
  - unfold well_configured. repeat split; try lia; reflexivity.
  - exact (perm_swap 0 1 [2; 3]).
  - reflexivity.
  - lia.
  - lia.
  - lia.
  - reflexivity.
  - exists d', res. split; [exact E | exact Hz].
Defined.

Section Launch_state.

Variables block_size subwarp_size index_bits : Z.
Hypothesis Hcfg : well_configured block_size subwarp_size index_bits.

Local Abbreviation cap := (local_dependency_count block_size subwarp_size).

(** The state a launch leaves: of the status array the counter alone has
    changed, and the cache of every block that started is all 0. *)
Lemma launch_resets deps lanes fuel : forall order c d,
  NoDup order ->
  load (global_mem d) (block_counter deps) = Some c ->
  0 <= c ->
  c + Z.of_nat (length order) < 2 ^ 31 ->
  (c + Z.of_nat (length order)) * block_size <= 2 ^ (index_bits - 1) ->
  (forall b, In b order -> Permutation (lanes b) (thread_ids block_size)) ->
  (forall b, In b order ->
             Z.of_nat (length (local_status (shared_mem d b))) = cap) ->
  exists d' results,
    launch block_size subwarp_size index_bits deps
           (constructor_fuel block_size subwarp_size + fuel) lanes order d
    = Some (d', results)
    /\ map fst results = order
    /\ length (global_mem d') = length (global_mem d)
    /\ (forall i, i <> block_counter deps ->
                  load (global_mem d') i = load (global_mem d) i)
    /\ (forall b, In b order ->
                  local_status (shared_mem d' b) = repeat 0 (Z.to_nat cap))
    /\ (forall b, ~ In b order -> shared_mem d' b = shared_mem d b)
    /\ forall k b res,
         nth_error results k = Some (b, res) ->
         map snd res
         = map (scheduler_of block_size subwarp_size deps (c + Z.of_nat k)) (lanes b).
Proof.
  pose proof Hcfg as (Hsw & Hbs & Hrem & Hib).
  induction order as [| b order IH]; intros c d Hnd Hload Hc Hint Hfit Hlanes Hlen.
  - exists d, []. cbn. repeat split; auto; try contradiction.
    intros k; destruct k; discriminate.
  - cbn [length] in Hint, Hfit. inversion Hnd as [| b0 o0 Hnotin Hnd']; subst.
    destruct (construct_block_resets block_size subwarp_size index_bits Hcfg
                b deps c (lanes b) d fuel)
      as (d1 & res & E1 & Hs & HG & Hz & Hoth);
      [apply Hlanes; left; reflexivity | exact Hload | lia | lia | nia
       | apply Hlen; left; reflexivity |].
    pose proof (load_some _ _ _ Hload) as Hrange.
    destruct (IH (c + 1) d1)
      as (d2 & results & E2 & Hfst & Hlen2 & Hflags & Hcache & Hrest & Hnth).
    + exact Hnd'.
    + rewrite HG. unfold load. destruct (0 <=? block_counter deps) eqn:E; [| lia].
      apply nth_error_list_set_same. lia.
    + lia.
    + lia.
    + nia.
    + intros b' Hb'. apply Hlanes. right. exact Hb'.
    + intros b' Hb'. rewrite Hoth; [apply Hlen; right; exact Hb' |].
      intros ->. contradiction.
    + exists d2, ((b, res) :: results). cbn [launch]. rewrite E1, E2.
      split; [reflexivity |]. split; [cbn; congruence |].
      split; [rewrite Hlen2, HG; apply list_set_length |].
      split; [| split; [| split]].
      * intros i Hi. rewrite (Hflags i Hi), HG. unfold load.
        destruct (0 <=? i) eqn:E; [| reflexivity].
        apply nth_error_list_set_other. lia.
      * intros b' [<- | Hb'].
        -- rewrite (Hrest b Hnotin). exact Hz.
        -- apply Hcache. exact Hb'.
      * intros b' Hb'. rewrite Hrest by (intros H; apply Hb'; right; exact H).
        apply Hoth. intros ->. apply Hb'. left. reflexivity.
      * intros [| k] b' res' Hk; cbn in Hk.
        -- injection Hk as <- <-. rewrite Z.add_0_r. exact Hs.
        -- replace (c + Z.of_nat (Datatypes.S k)) with (c + 1 + Z.of_nat k) by lia.
           apply Hnth. exact Hk.
Qed.

End Launch_state.

(** ** A grid over a fresh status array *)

Lemma launch_fresh bs sw ib fresh N lanes order shm fuel :
  well_configured bs sw ib ->
  0 <= N < 2 ^ 64 - 1 ->
  NoDup order ->
  Z.of_nat (length order) < 2 ^ 31 ->
  Z.of_nat (length order) * bs <= 2 ^ (ib - 1) ->
  (forall b, In b order -> Permutation (lanes b) (thread_ids bs)) ->
  (forall b, In b order -> Z.of_nat (length (local_status (shm b))) = bs ÷ sw) ->
  syncfree_storage_new fresh N
  = (repeat 0 (Z.to_nat (N + 1)), {| status := 0; block_counter := N |})
  /\ exists d' results,
      launch bs sw ib {| status := 0; block_counter := N |}
             (constructor_fuel bs sw + fuel) lanes order
             {| global_mem := repeat 0 (Z.to_nat (N + 1)); shared_mem := shm |}
      = Some (d', results)
      /\ NoDup (map fst results)
      /\ (forall b res, In (b, res) results -> In b order)
      /\ length (global_mem d') = Z.to_nat (N + 1)
      /\ (forall i, 0 <= i < N -> load (global_mem d') i = Some 0)
      /\ (forall b, In b order ->
                    local_status (shared_mem d' b) = repeat 0 (Z.to_nat (bs ÷ sw)))
      /\ forall k b res,
           nth_error results k = Some (b, res) ->
           map snd res
           = map (scheduler_of bs sw {| status := 0; block_counter := N |} (Z.of_nat k))
                 (lanes b).
Proof.
  intros Hcfg HN Hnd HG Hfit Hlanes Hlen.
  split; [apply syncfree_storage_new_zero; exact HN |].
  destruct (launch_resets bs sw ib Hcfg {| status := 0; block_counter := N |}
              lanes fuel order 0
              {| global_mem := repeat 0 (Z.to_nat (N + 1)); shared_mem := shm |})
    as (d' & results & E & Hfst & Hlen' & Hflags & Hcache & _ & Hnth).
  - exact Hnd.
  - cbn. apply load_repeat. lia.
  - lia.
  - lia.
  - lia.
  - exact Hlanes.
  - exact Hlen.
  - exists d', results. split; [exact E |].
    split; [rewrite Hfst; exact Hnd |].
    split; [intros b res Hb; rewrite <- Hfst; apply (in_map fst) in Hb; exact Hb |].
    split; [rewrite Hlen'; cbn; apply repeat_length |].
    split; [| split; [exact Hcache | exact Hnth]].
    intros i Hi. rewrite Hflags by (cbn; lia). cbn. apply load_repeat. lia.
Qed.

(** The lanes of an entry of the grid. *)
Lemma scheduler_in_grid bs (f : Z -> scheduler) lanes
      (res : list (list action * scheduler)) l :
  Permutation lanes (thread_ids bs) ->
  map snd res = map f lanes ->
  In l res ->
  exists tid, 0 <= tid < bs /\ snd l = f tid.
Proof.
  intros Hperm Hres Hl. apply (in_map snd) in Hl. rewrite Hres in Hl.
  apply in_map_iff in Hl as (tid & <- & Ht).
  exists tid. split; [| reflexivity].
  apply (lanes_of_block _ _ Hperm). exact Ht.
Qed.

(** The block of a work item. *)
Lemma work_item_block bs sw ib k tid :
  well_configured bs sw ib ->
  0 <= k -> 0 <= tid < bs ->
  (k * (bs ÷ sw) + tid ÷ sw) ÷ (bs ÷ sw) = k
  /\ 0 <= k * (bs ÷ sw) + tid ÷ sw.
Proof.
  intros Hcfg Hk Ht.
  destruct (block_size_lane_groups _ _ _ Hcfg) as [Ebs Hcap].
  unfold local_dependency_count in *.
  destruct Hcfg as (Hsw & Hbs & Hrem & _).
  set (c := bs ÷ sw) in *. clearbody c.
  assert (H1 : 0 <= tid ÷ sw < c).
  { rewrite Z.quot_div_nonneg by lia. split; [apply Z.div_pos; lia |].
    apply Z.div_lt_upper_bound; nia. }
  split; [| nia].
  rewrite Z.quot_div_nonneg by nia.
  symmetry. apply (Z.div_unique _ _ _ (tid ÷ sw)); [left; lia | lia].
Qed.

Lemma same_entry {A} (rs : list (nat * A)) k k' b r r' :
  NoDup (map fst rs) ->
  nth_error rs k = Some (b, r) -> nth_error rs k' = Some (b, r') -> k = k'.
Proof.
  intros Hnd H H'.
  apply (proj1 (NoDup_nth_error (map fst rs)) Hnd).
  - rewrite length_map. apply nth_error_Some. congruence.
  - rewrite !nth_error_map, H, H'. reflexivity.
Qed.

(** X5: right after the launch nothing is ready.  Over a status array
    fresh from the constructor of [syncfree_storage], once the blocks of
    a grid have built their schedulers, in whatever order, [peek] of
    every scheduler of the grid answers [false] for every work item,
    be it read from the local cache of the block or from the status
    array. *)
Theorem nothing_ready_after_launch bs sw ib fresh N lanes order shm fuel :
  well_configured bs sw ib ->
  0 <= N < 2 ^ 64 - 1 ->
  NoDup order ->
  Z.of_nat (length order) < 2 ^ 31 ->
  Z.of_nat (length order) * bs <= 2 ^ (ib - 1) ->
  (forall b, In b order -> Permutation (lanes b) (thread_ids bs)) ->
  (forall b, In b order -> Z.of_nat (length (local_status (shm b))) = bs ÷ sw) ->
  let status_array := fst (syncfree_storage_new fresh N) in
  let deps := snd (syncfree_storage_new fresh N) in
  exists d' results,
    launch bs sw ib deps (constructor_fuel bs sw + fuel) lanes order
           {| global_mem := status_array; shared_mem := shm |}
    = Some (d', results)
    /\ forall b res l dependency f,
         In (b, res) results -> In l res ->
         0 <= dependency < N ->
         exec (on_device b) (2 + f) (peek bs sw (snd l) dependency) d'
         = (d',
            [if dependency ÷ (bs ÷ sw) =? block_id (snd l)
             then Load_acquire_shared (Z.rem dependency (bs ÷ sw)) 0
             else Load_acquire (status deps + dependency) 0],
            Returned false).
Proof.
  intros Hcfg HN Hnd HG Hfit Hlanes Hlen. cbv zeta.
  destruct (launch_fresh bs sw ib fresh N lanes order shm fuel
              Hcfg HN Hnd HG Hfit Hlanes Hlen)
    as (-> & d' & results & E & _ & Hin & _ & Hflags & Hcache & Hnth).
  cbn [fst snd]. exists d', results. split; [exact E |].
  intros b res l dependency f Hb Hl Hdep.
  destruct (block_size_lane_groups _ _ _ Hcfg) as [_ Hcap].
  unfold local_dependency_count in Hcap.
  destruct (In_nth_error _ _ Hb) as (k & Hk).
  destruct (scheduler_in_grid bs _ _ res l
              (Hlanes b (Hin b res Hb)) (Hnth k b res Hk) Hl) as (tid & Htid & Hs).
  rewrite peek_on_device. rewrite Hs. cbn [global status block_id scheduler_of].
  destruct (dependency ÷ (bs ÷ sw) =? Z.of_nat k).
  - rewrite (Hcache b (Hin b res Hb)).
    rewrite load_repeat; [reflexivity |].
    pose proof (Z.rem_bound_pos dependency (bs ÷ sw) ltac:(lia) Hcap). lia.
  - rewrite Hflags by lia. reflexivity.
Qed.

(** Two blocks of four lanes in groups of two over four work items. *)
Lemma nothing_ready_after_launch_witness :
  exists d' results,
    launch 4 2 32 (snd (syncfree_storage_new (fun _ => 5) 4))
           (constructor_fuel 4 2) (fun _ => [1; 0; 2; 3]) [1; 0]%nat
           {| global_mem := fst (syncfree_storage_new (fun _ => 5) 4);
              shared_mem := fun _ => {| local_status := [7; 7];
                                        block_offset := 99 |} |}
    = Some (d', results)
    /\ forall b res l dependency f,
         In (b, res) results -> In l res ->
         0 <= dependency < 4 ->
         exec (on_device b) (2 + f) (peek 4 2 (snd l) dependency) d'
         = (d',
            [if dependency ÷ (4 ÷ 2) =? block_id (snd l)
             then Load_acquire_shared (Z.rem dependency (4 ÷ 2)) 0
             else Load_acquire
                    (status (snd (syncfree_storage_new (fun _ => 5) 4)) + dependency) 0],
            Returned false).
Proof.
  apply (nothing_ready_after_launch 4 2 32 (fun _ => 5) 4 (fun _ => [1; 0; 2; 3])
           [1; 0]%nat
           (fun _ => {| local_status := [7; 7]; block_offset := 99 |}) 0).
  - unfold well_configured. repeat split; try lia; reflexivity.
  - lia.
  - repeat constructor; cbn; intuition discriminate.
  - cbn. lia.
  - cbn. lia.
  - intros b _. exact (perm_swap 0 1 [2; 3]).
  - intros b _. reflexivity.
Defined.

(** X6: the first publication in a grid.  After the launch over a fresh
    status array, the designated lane of a lane-group whose work item [w]
    is one of the [N] items returns from [mark_ready]; it leaves the block
    counter as it was; and from then on [peek] of every scheduler of the
    grid, in whatever block, answers [true] for [w] and [false] for
    every other work item. *)
Theorem first_publication bs sw ib fresh N lanes order shm fuel :
  well_configured bs sw ib ->
  0 <= N < 2 ^ 64 - 1 ->
  NoDup order ->
  Z.of_nat (length order) < 2 ^ 31 ->
  Z.of_nat (length order) * bs <= 2 ^ (ib - 1) ->
  (forall b, In b order -> Permutation (lanes b) (thread_ids bs)) ->
  (forall b, In b order -> Z.of_nat (length (local_status (shm b))) = bs ÷ sw) ->
  let status_array := fst (syncfree_storage_new fresh N) in
  let deps := snd (syncfree_storage_new fresh N) in
  exists d' results,
    launch bs sw ib deps (constructor_fuel bs sw + fuel) lanes order
           {| global_mem := status_array; shared_mem := shm |}
    = Some (d', results)
    /\ forall b res l f,
         In (b, res) results -> In l res ->
         get_lane sw (snd l) = 0 ->
         get_work_id (snd l) < N ->
         exists d'' tr,
           exec (on_device b) (4 + f) (mark_ready bs sw (snd l)) d'
           = (d'', tr, Returned tt)
           /\ load (global_mem d'') (block_counter deps)
              = load (global_mem d') (block_counter deps)
           /\ forall b2 res2 l2 dependency f2,
                In (b2, res2) results -> In l2 res2 ->
                0 <= dependency < N ->
                snd (exec (on_device b2) (2 + f2)
                          (peek bs sw (snd l2) dependency) d'')
                = Returned (dependency =? get_work_id (snd l)).
Proof.
  intros Hcfg HN Hnd HG Hfit Hlanes Hlen. cbv zeta.
  destruct (launch_fresh bs sw ib fresh N lanes order shm fuel
              Hcfg HN Hnd HG Hfit Hlanes Hlen)
    as (-> & d' & results & E & Hnd' & Hin & Hglen & Hflags & Hcache & Hnth).
  cbn [fst snd]. exists d', results. split; [exact E |].
  intros b res l f Hb Hl Hlane HwN.
  destruct (block_size_lane_groups _ _ _ Hcfg) as [_ Hcap].
  unfold local_dependency_count in Hcap.
  destruct (In_nth_error _ _ Hb) as (k & Hk).
  destruct (scheduler_in_grid bs _ _ res l
              (Hlanes b (Hin b res Hb)) (Hnth k b res Hk) Hl) as (tid & Htid & Hs).
  destruct (work_item_block bs sw ib (Z.of_nat k) tid Hcfg ltac:(lia) Htid)
    as [Hwk Hw0].
  assert (Ew : get_work_id (snd l) = Z.of_nat k * (bs ÷ sw) + tid ÷ sw)
    by (rewrite Hs; reflexivity).
  assert (Eg : status (global (snd l)) = 0) by (rewrite Hs; reflexivity).
  rewrite <- Ew in Hwk, Hw0.
  set (w := get_work_id (snd l)) in *.
  rewrite mark_ready_on_device, Hlane, Eg. cbn [Z.eqb]. fold w.
  pose proof (Z.rem_bound_pos w (bs ÷ sw) Hw0 Hcap) as Hrem.
  assert (El : store (local_status (shared_mem d' b)) (Z.rem w (bs ÷ sw)) 1
               = Some (list_set (local_status (shared_mem d' b))
                                (Z.to_nat (Z.rem w (bs ÷ sw))) 1)).
  { apply store_in_range. rewrite (Hcache b (Hin b res Hb)), repeat_length. lia. }
  assert (Egl : store (global_mem d') (0 + w) 1
                = Some (list_set (global_mem d') (Z.to_nat (0 + w)) 1)).
  { apply store_in_range. rewrite Hglen. lia. }
  rewrite El, Egl.
  eexists _, _. split; [reflexivity |]. split.
  - cbn. apply (load_store_other _ _ _ _ _ Egl). lia.
  - intros b2 res2 l2 dependency f2 Hb2 Hl2 Hdep.
    destruct (In_nth_error _ _ Hb2) as (k2 & Hk2).
    destruct (scheduler_in_grid bs _ _ res2 l2
                (Hlanes b2 (Hin b2 res2 Hb2)) (Hnth k2 b2 res2 Hk2) Hl2)
      as (tid2 & Htid2 & Hs2).
    rewrite peek_on_device. rewrite Hs2. cbn [global status block_id scheduler_of].
    pose proof (Z.rem_bound_pos dependency (bs ÷ sw) ltac:(lia) Hcap) as Hrem2.
    pose proof (Z.quot_rem' dependency (bs ÷ sw)) as Hqr2.
    pose proof (Z.quot_rem' w (bs ÷ sw)) as Hqr.
    destruct (dependency ÷ (bs ÷ sw) =? Z.of_nat k2) eqn:Eblock.
    + cbn [shared_mem set_global set_local_status set_shared].
      destruct (Nat.eqb b2 b) eqn:Ebb.
      * apply Nat.eqb_eq in Ebb. subst b2.
        assert (k2 = k) by (eapply same_entry; eauto). subst k2.
        cbn [local_status].
        destruct (Z.eq_dec (Z.rem dependency (bs ÷ sw)) (Z.rem w (bs ÷ sw))) as [Er | Er].
        -- rewrite Er, (load_store_same _ _ _ _ El). cbn [snd].
           f_equal. symmetry. apply Z.eqb_eq. nia.
        -- rewrite (load_store_other _ _ _ _ _ El Er).
           rewrite (Hcache b (Hin b res Hb)), load_repeat by lia. cbn.
           f_equal. symmetry. apply Z.eqb_neq. intros ->. apply Er. reflexivity.
      * rewrite (Hcache b2 (Hin b2 res2 Hb2)), load_repeat by lia. cbn.
        f_equal. symmetry. apply Z.eqb_neq. intros ->.
        assert (k2 = k) by lia. subst k2.
        apply Nat.eqb_neq in Ebb. apply Ebb.
        pose proof (f_equal (option_map fst) Hk) as F1.
        pose proof (f_equal (option_map fst) Hk2) as F2.
        cbn in F1, F2. congruence.
    + cbn [global_mem set_global].
      destruct (Z.eq_dec dependency w) as [-> | Hne].
      * rewrite (load_store_same _ _ _ _ Egl). cbn. rewrite Z.eqb_refl. reflexivity.
      * rewrite (load_store_other _ _ _ _ _ Egl) by lia.
        rewrite Hflags by lia. cbn. f_equal. symmetry. apply Z.eqb_neq. exact Hne.
Qed.

(** Two blocks of four lanes in groups of two over four work items. *)
Lemma first_publication_witness :
  exists d' results,
    launch 4 2 32 (snd (syncfree_storage_new (fun _ => 5) 4))
           (constructor_fuel 4 2) (fun _ => [1; 0; 2; 3]) [1; 0]%nat
           {| global_mem := fst (syncfree_storage_new (fun _ => 5) 4);
              shared_mem := fun _ => {| local_status := [7; 7];
                                        block_offset := 99 |} |}
    = Some (d', results)
    /\ forall b res l f,
         In (b, res) results -> In l res ->
         get_lane 2 (snd l) = 0 ->
         get_work_id (snd l) < 4 ->
         exists d'' tr,
           exec (on_device b) (4 + f) (mark_ready 4 2 (snd l)) d'
           = (d'', tr, Returned tt)
           /\ load (global_mem d'')
                   (block_counter (snd (syncfree_storage_new (fun _ => 5) 4)))
              = load (global_mem d')
                     (block_counter (snd (syncfree_storage_new (fun _ => 5) 4)))
           /\ forall b2 res2 l2 dependency f2,
                In (b2, res2) results -> In l2 res2 ->
                0 <= dependency < 4 ->
                snd (exec (on_device b2) (2 + f2)
                          (peek 4 2 (snd l2) dependency) d'')
                = Returned (dependency =? get_work_id (snd l)).
Proof.
  apply (first_publication 4 2 32 (fun _ => 5) 4 (fun _ => [1; 0; 2; 3])
           [1; 0]%nat
           (fun _ => {| local_status := [7; 7]; block_offset := 99 |}) 0).
  - unfold well_configured. repeat split; try lia; reflexivity.
  - lia.
  - repeat constructor; cbn; intuition discriminate.
  - cbn. lia.
  - cbn. lia.
  - intros b _. exact (perm_swap 0 1 [2; 3]).
  - intros b _. reflexivity.
Defined.

(** ** The end of the status array *)

(** X12: [mark_ready] does not check its work item against the number
    of elements.  The flags and the block counter share one array, the
    counter behind the last flag; so the designated lane of a lane-group
    whose work item is [num_elements], one past the last, stores its 1 in
    the block counter. *)
Theorem mark_ready_past_the_end bs sw fresh N this b d fuel :
  0 <= N < 2 ^ 64 - 1 ->
  global this = snd (syncfree_storage_new fresh N) ->
  Z.of_nat (length (global_mem d)) = N + 1 ->
  get_lane sw this = 0 ->
  get_work_id this = N ->
  0 <= Z.rem N (bs ÷ sw) < Z.of_nat (length (local_status (shared_mem d b))) ->
  exists d',
    exec (on_device b) (4 + fuel) (mark_ready bs sw this) d
    = (d',
       [Tile_sync;
        Store_release_shared (Z.rem N (bs ÷ sw)) 1;
        Store_release (block_counter (global this)) 1],
       Returned tt)
    /\ load (global_mem d') (block_counter (global this)) = Some 1.
Proof.
  intros HN Hg Hlen Hlane Hw Hslot.
  rewrite syncfree_storage_new_zero in Hg by exact HN. cbn [snd] in Hg.
  rewrite mark_ready_on_device, Hlane, Hw, Hg. cbn [Z.eqb status block_counter Z.add].
  rewrite (store_in_range (local_status (shared_mem d b))) by exact Hslot.
  assert (Es : store (global_mem d) N 1
               = Some (list_set (global_mem d) (Z.to_nat N) 1))
    by (apply store_in_range; lia).
  rewrite Es. eexists. split; [reflexivity |].
  cbn [global_mem set_global]. apply (load_store_same _ _ _ _ Es).
Qed.

(** Four work items, the counter at 2; the lane-group of the item 4. *)
Lemma mark_ready_past_the_end_witness :
  exists d',
    exec (on_device 2) 4
         (mark_ready 4 2 {| global := {| status := 0; block_counter := 4 |};
                            threadIdx_x := 0; work_id := 4; block_id := 2 |})
         {| global_mem := [1; 1; 1; 1; 2];
            shared_mem := fun _ => {| local_status := [0; 0]; block_offset := 8 |} |}
    = (d', [Tile_sync; Store_release_shared 0 1; Store_release 4 1], Returned tt)
    /\ load (global_mem d') 4 = Some 1.
Proof.
  apply (mark_ready_past_the_end 4 2 (fun _ => 0) 4
           {| global := {| status := 0; block_counter := 4 |};
              threadIdx_x := 0; work_id := 4; block_id := 2 |}
           2
           {| global_mem := [1; 1; 1; 1; 2];
              shared_mem := fun _ => {| local_status := [0; 0]; block_offset := 8 |} |}
           0).
  - lia.
  - reflexivity.
  - reflexivity.
  - reflexivity.
  - reflexivity.
  - cbn. lia.
Defined.
(** * Reductions *)

(** Flipping one bit of a rank. *)
Lemma lxor_bit_clear q r j :
  0 <= j -> 0 <= q -> 0 <= r < 2 ^ j ->
  Z.lxor (2 * q * 2 ^ j + r) (2 ^ j) = (2 * q + 1) * 2 ^ j + r.
Proof.
  intros Hj Hq Hr.
  assert (Hp : 0 < 2 ^ j) by (apply Z.pow_pos_nonneg; lia).
  rewrite <- Z.add_nocarry_lxor; [lia |].
  apply Z.bits_inj'. intros k Hk.
  rewrite Z.land_spec, Z.bits_0, Z.pow2_bits_eqb by lia.
  destruct (Z.eqb_spec j k) as [<- | Hne]; [| apply andb_false_r].
  rewrite andb_true_r.
  pose proof (Z.testbit_spec' (2 * q * 2 ^ j + r) j Hj) as Hb.
  replace ((2 * q * 2 ^ j + r) / 2 ^ j) with (2 * q) in Hb.
  - assert (Hm : (2 * q) mod 2 = 0) by (rewrite Z.mul_comm; apply Z.mod_mul; lia).
    rewrite Hm in Hb.
    destruct (Z.testbit (2 * q * 2 ^ j + r) j); [discriminate | reflexivity].
  - apply (Z.div_unique _ _ _ r); [left; lia | lia].
Qed.

Lemma lxor_bit_set q r j :
  0 <= j -> 0 <= q -> 0 <= r < 2 ^ j ->
  Z.lxor ((2 * q + 1) * 2 ^ j + r) (2 ^ j) = 2 * q * 2 ^ j + r.
Proof.
  intros Hj Hq Hr.
  rewrite <- (lxor_bit_clear q r j Hj Hq Hr).
  rewrite Z.lxor_assoc, Z.lxor_nilpotent, Z.lxor_0_r. reflexivity.
Qed.

Section Reduction_facts.

Context {ValueType : Type}.
Variable reduce_op : ValueType -> ValueType -> ValueType.
Hypothesis reduce_op_assoc :
  forall x y z, reduce_op (reduce_op x y) z = reduce_op x (reduce_op y z).

Lemma reduce_range_join (data : Z -> ValueType) s k1 k2 :
  reduce_range reduce_op data s (k1 + 1 + k2)
  = reduce_op (reduce_range reduce_op data s k1)
              (reduce_range reduce_op data (s + Z.of_nat k1 + 1) k2).
Proof.
  induction k2 as [| k2 IH].
  - rewrite Nat.add_0_r, Nat.add_1_r. cbn [reduce_range]. do 2 f_equal. lia.
  - replace (k1 + 1 + Datatypes.S k2)%nat with (Datatypes.S (k1 + 1 + k2)) by lia.
    cbn [reduce_range]. rewrite IH, reduce_op_assoc. do 3 f_equal. lia.
Qed.

Lemma reduce_range_ext (f g : Z -> ValueType) s k :
  (forall i, s <= i <= s + Z.of_nat k -> f i = g i) ->
  reduce_range reduce_op f s k = reduce_range reduce_op g s k.
Proof.
  induction k as [| k IH]; intros H; cbn [reduce_range].
  - apply H. lia.
  - rewrite IH by (intros i Hi; apply H; lia). f_equal. apply H. lia.
Qed.

(** The reduction of a list that is not empty. *)
Lemma reduce_range_fold d x l :
  reduce_range reduce_op (fun i => nth (Z.to_nat i) (x :: l) d) 0 (length l)
  = fold_left reduce_op l x.
Proof.
  induction l as [| y l IH] using rev_ind; [reflexivity |].
  rewrite length_app, Nat.add_1_r, fold_left_app. cbn [reduce_range fold_left length].
  rewrite <- IH. f_equal.
  - apply reduce_range_ext. intros i Hi.
    replace (Z.to_nat i) with (Z.to_nat i)%nat by reflexivity.
    change (x :: l ++ [y]) with ((x :: l) ++ [y]).
    rewrite app_nth1 by (cbn [length]; lia). reflexivity.
  - change (x :: l ++ [y]) with ((x :: l) ++ [y]).
    rewrite app_nth2 by (cbn [length]; lia).
    replace (Z.to_nat (0 + Z.of_nat (Datatypes.S (length l))) - length (x :: l))%nat
      with 0%nat by (cbn [length]; lia).
    reflexivity.
Qed.

Lemma reduce_step_length (group : list ValueType) bitmask :
  length (reduce_step reduce_op group bitmask) = length group.
Proof.
  unfold reduce_step. rewrite length_map, length_combine, length_seq. lia.
Qed.

Lemma nth_reduce_step (group : list ValueType) bitmask i d :
  (i < length group)%nat ->
  (Z.to_nat (Z.lxor (Z.of_nat i) bitmask) < length group)%nat ->
  nth i (reduce_step reduce_op group bitmask) d
  = reduce_op (nth i group d)
              (nth (Z.to_nat (Z.lxor (Z.of_nat i) bitmask)) group d).
Proof.
  intros Hi Hp. unfold reduce_step.
  set (f := fun lane : nat * ValueType => _).
  rewrite (nth_indep _ d (f (0%nat, d)))
    by (rewrite length_map, length_combine, length_seq; lia).
  rewrite map_nth. subst f. cbn beta.
  rewrite combine_nth by apply length_seq.
  rewrite seq_nth by exact Hi. cbn [fst snd Nat.add]. unfold shfl_xor.
  f_equal. apply nth_indep. exact Hp.
Qed.

(** The loop from the turn of [2 ^ j] on.  Before that turn a lane
    holds the reduction of the [2 ^ j] lanes of its aligned group, if it is
    the first of them or [reduce_op] commutes. *)
Lemma reduce_from_runs (commutes : bool) (data : list ValueType) d e :
  (commutes = true -> forall x y, reduce_op x y = reduce_op y x) ->
  0 <= e <= 30 ->
  Z.of_nat (length data) = 2 ^ e ->
  forall k j group fuel,
    0 <= j -> j + Z.of_nat k = e ->
    length group = length data ->
    (forall q r, 0 <= q -> 0 <= r < 2 ^ j -> q * 2 ^ j + r < 2 ^ e ->
                 commutes = true \/ r = 0 ->
                 nth (Z.to_nat (q * 2 ^ j + r)) group d
                 = reduce_range reduce_op (fun i => nth (Z.to_nat i) data d)
                                (q * 2 ^ j) (Z.to_nat (2 ^ j - 1))) ->
    (k < fuel)%nat ->
    exists res,
      reduce_from reduce_op fuel (2 ^ j) group = Some res
      /\ length res = length data
      /\ forall i, 0 <= i < 2 ^ e -> commutes = true \/ i = 0 ->
                   nth (Z.to_nat i) res d
                   = reduce_range reduce_op (fun i => nth (Z.to_nat i) data d)
                                  0 (Z.to_nat (2 ^ e - 1)).
Proof.
  intros Hcomm He Hlen.
  induction k as [| k IH]; intros j group fuel Hj Hjk Hlg Hinv Hfuel.
  - assert (j = e) by lia. subst j.
    destruct fuel as [| fuel]; [lia |]. cbn [reduce_from].
    rewrite Hlg, Hlen, Z.ltb_irrefl.
    exists group. split; [reflexivity |]. split; [exact Hlg |].
    intros i Hi Hc. specialize (Hinv 0 i ltac:(lia) Hi ltac:(lia) Hc).
    cbn [Z.mul Z.add] in Hinv. exact Hinv.
  - destruct fuel as [| fuel]; [lia |]. cbn [reduce_from].
    assert (Hp : 0 < 2 ^ j) by (apply Z.pow_pos_nonneg; lia).
    assert (Hpe : 2 ^ e = 2 ^ (j + 1) * 2 ^ (e - j - 1)).
    { rewrite <- Z.pow_add_r by lia. f_equal. lia. }
    assert (Hp1 : 2 ^ (j + 1) = 2 * 2 ^ j) by (rewrite Z.pow_add_r by lia; lia).
    assert (Hpm : 0 < 2 ^ (e - j - 1)) by (apply Z.pow_pos_nonneg; lia).
    assert (Hlt : 2 ^ j < 2 ^ e) by nia.
    assert (He30 : 2 ^ e <= 2 ^ 30) by (apply Z.pow_le_mono_r; lia).
    rewrite Hlg, Hlen.
    destruct (2 ^ j <? 2 ^ e) eqn:E; [| lia].
    rewrite Z.shiftl_mul_pow2 by lia. change (2 ^ 1) with 2.
    rewrite wrap_int_small by lia.
    replace (2 ^ j * 2) with (2 ^ (j + 1)) by lia.
    apply (IH (j + 1)); [lia | lia | rewrite reduce_step_length; exact Hlg | | lia].
    intros q r Hq Hr Hqr Hc.
    assert (Hq0 : q < 2 ^ (e - j - 1)).
    { apply Z.lt_nge. intros Hge.
      assert (2 ^ (j + 1) * 2 ^ (e - j - 1) <= 2 ^ (j + 1) * q)
        by (apply Z.mul_le_mono_nonneg_l; lia).
      lia. }
    assert (Hq1 : (q + 1) * 2 ^ (j + 1) <= 2 ^ e).
    { rewrite Hpe, (Z.mul_comm (2 ^ (j + 1))).
      apply Z.mul_le_mono_nonneg_r; lia. }
    replace (Z.to_nat (2 ^ (j + 1) - 1))
      with (Z.to_nat (2 ^ j - 1) + 1 + Z.to_nat (2 ^ j - 1))%nat by lia.
    rewrite reduce_range_join.
    replace (q * 2 ^ (j + 1) + Z.of_nat (Z.to_nat (2 ^ j - 1)) + 1)
      with ((2 * q + 1) * 2 ^ j) by lia.
    replace (q * 2 ^ (j + 1)) with (2 * q * 2 ^ j) by lia.
    destruct (Z.lt_ge_cases r (2 ^ j)) as [Hlow | Hhigh].
    + rewrite nth_reduce_step;
        rewrite ?Z2Nat.id, ?lxor_bit_clear by lia; [| lia | lia].
      f_equal.
      * replace (2 * q * 2 ^ j + r) with ((2 * q) * 2 ^ j + r) by lia.
        apply Hinv; [lia | lia | lia | destruct Hc; auto].
      * apply Hinv; [lia | lia | lia | destruct Hc; auto].
    + destruct Hc as [Hc | Hc]; [| lia].
      replace (2 * q * 2 ^ j + r) with ((2 * q + 1) * 2 ^ j + (r - 2 ^ j)) by lia.
      rewrite nth_reduce_step;
        rewrite ?Z2Nat.id, ?lxor_bit_set by lia; [| lia | lia].
      rewrite (Hcomm Hc). f_equal.
      * replace (2 * q * 2 ^ j + (r - 2 ^ j)) with ((2 * q) * 2 ^ j + (r - 2 ^ j)) by lia.
        apply Hinv; [lia | lia | lia | auto].
      * apply Hinv; [lia | lia | lia | auto].
Qed.

End Reduction_facts.

Lemma all_lanes_equal {A} (l : list A) d c :
  (forall i, (i < length l)%nat -> nth i l d = c) -> l = repeat c (length l).
Proof.
  intros H. apply (nth_ext _ _ d c).
  - rewrite repeat_length. reflexivity.
  - intros i Hi. rewrite (H i Hi), nth_repeat. reflexivity.
Qed.

(** The loop of [reduce] over a group of [2 ^ e] lanes. *)
Lemma reduce_runs {ValueType} (reduce_op : ValueType -> ValueType -> ValueType)
      (commutes : bool) e x l fuel :
  (forall x y z, reduce_op (reduce_op x y) z = reduce_op x (reduce_op y z)) ->
  (commutes = true -> forall x y, reduce_op x y = reduce_op y x) ->
  0 <= e <= 30 ->
  Z.of_nat (length (x :: l)) = 2 ^ e ->
  (Z.to_nat e < fuel)%nat ->
  exists res,
    reduce reduce_op fuel (x :: l) = Some res
    /\ length res = length (x :: l)
    /\ forall i, 0 <= i < 2 ^ e -> commutes = true \/ i = 0 ->
                 nth (Z.to_nat i) res x = fold_left reduce_op l x.
Proof.
  intros Hassoc Hcomm He Hlen Hfuel.
  destruct (reduce_from_runs reduce_op Hassoc commutes (x :: l) x e Hcomm He Hlen
              (Z.to_nat e) 0 (x :: l) fuel) as (res & E & Hl & Hres).
  - lia.
  - lia.
  - reflexivity.
  - intros q r Hq Hr Hqr _. change (2 ^ 0) with 1 in *.
    assert (r = 0) by lia. subst r.
    change (Z.to_nat (1 - 1)) with 0%nat. cbn [reduce_range].
    f_equal. lia.
  - exact Hfuel.
  - exists res. split; [exact E |]. split; [exact Hl |].
    intros i Hi Hc. rewrite (Hres i Hi Hc).
    replace (Z.to_nat (2 ^ e - 1)) with (length l) by (cbn [length] in Hlen; lia).
    apply reduce_range_fold.
Qed.

(** X7: [reduce] on a group of [2 ^ e] lanes returns to the lane of
    rank 0 the reduction of the [local_data] of all the lanes in the order
    of their ranks, [reduce_op] being associative; it need not commute. *)
Theorem reduce_on_rank_0 {ValueType} (reduce_op : ValueType -> ValueType -> ValueType)
        e x l fuel :
  (forall x y z, reduce_op (reduce_op x y) z = reduce_op x (reduce_op y z)) ->
  0 <= e <= 30 ->
  Z.of_nat (length (x :: l)) = 2 ^ e ->
  (Z.to_nat e < fuel)%nat ->
  exists others,
    reduce reduce_op fuel (x :: l) = Some (fold_left reduce_op l x :: others)
    /\ length others = length l.
Proof.
  intros Hassoc He Hlen Hfuel.
  destruct (reduce_runs reduce_op false e x l fuel Hassoc ltac:(discriminate)
              He Hlen Hfuel) as (res & E & Hl & Hres).
  assert (Hp : 0 < 2 ^ e) by (apply Z.pow_pos_nonneg; lia).
  specialize (Hres 0 ltac:(lia) (or_intror eq_refl)).
  destruct res as [| r others]; [discriminate |]. cbn in Hres. subst r.
  exists others. split; [exact E |]. cbn [length] in Hl. lia.
Qed.

(** Four lanes that hold lists, reduced by [app]. *)
Lemma reduce_on_rank_0_witness :
  exists others,
    reduce (@app nat) 3 [[1]; [2]; [3]; [4]]%nat = Some ([1; 2; 3; 4]%nat :: others)
    /\ length others = 3%nat.
Proof.
  apply (reduce_on_rank_0 (@app nat) 2 [1%nat] [[2]; [3]; [4]]%nat 3).
  - intros x y z. symmetry. apply app_assoc.
  - lia.
  - reflexivity.
  - cbn. lia.
Defined.

(** X8: [reduce] on a group of [2 ^ e] lanes returns to every lane the
    reduction of the [local_data] of all the lanes, [reduce_op] being
    associative and commutative. *)
Theorem reduce_on_all_lanes {ValueType} (reduce_op : ValueType -> ValueType -> ValueType)
        e x l fuel :
  (forall x y z, reduce_op (reduce_op x y) z = reduce_op x (reduce_op y z)) ->
  (forall x y, reduce_op x y = reduce_op y x) ->
  0 <= e <= 30 ->
  Z.of_nat (length (x :: l)) = 2 ^ e ->
  (Z.to_nat e < fuel)%nat ->
  reduce reduce_op fuel (x :: l)
  = Some (repeat (fold_left reduce_op l x) (length (x :: l))).
Proof.
  intros Hassoc Hcomm He Hlen Hfuel.
  destruct (reduce_runs reduce_op true e x l fuel Hassoc (fun _ => Hcomm)
              He Hlen Hfuel) as (res & E & Hl & Hres).
  rewrite E. f_equal. rewrite <- Hl. apply (all_lanes_equal _ x).
  intros i Hi. rewrite <- (Nat2Z.id i). apply Hres; [| left; reflexivity].
  rewrite <- Hlen, <- Hl. lia.
Qed.

(** Four lanes, reduced by [+]. *)
Lemma reduce_on_all_lanes_witness :
  reduce Z.add 3 [1; 2; 3; 4] = Some [10; 10; 10; 10].
Proof.
  apply (reduce_on_all_lanes Z.add 2 1 [2; 3; 4] 3).
  - intros x y z. lia.
  - intros x y. lia.
  - lia.
  - reflexivity.
  - cbn. lia.
Defined.

(** ** The reduction of a block *)

Section Block_reduction.

Context {ValueType : Type}.
Variable reduce_op : ValueType -> ValueType -> ValueType.
Hypothesis reduce_op_assoc :
  forall x y z, reduce_op (reduce_op x y) z = reduce_op x (reduce_op y z).
Hypothesis reduce_op_comm : forall x y, reduce_op x y = reduce_op y x.

Lemma reduce_range_op (f g : Z -> ValueType) s k :
  reduce_range reduce_op (fun i => reduce_op (f i) (g i)) s k
  = reduce_op (reduce_range reduce_op f s k) (reduce_range reduce_op g s k).
Proof.
  induction k as [| k IH]; [reflexivity |]. cbn [reduce_range]. rewrite IH.
  rewrite !reduce_op_assoc. f_equal.
  rewrite <- !reduce_op_assoc. f_equal. apply reduce_op_comm.
Qed.

Lemma reduce_range_shift (f : Z -> ValueType) c s k :
  reduce_range reduce_op (fun i => f (i + c)) s k = reduce_range reduce_op f (s + c) k.
Proof.
  induction k as [| k IH]; [reflexivity |]. cbn [reduce_range]. rewrite IH.
  do 2 f_equal. lia.
Qed.

Lemma reduce_halve_length (data : list ValueType) k :
  length (reduce_halve reduce_op data k) = length data.
Proof.
  unfold reduce_halve. rewrite length_map, length_combine, length_seq. lia.
Qed.

Lemma nth_reduce_halve (data : list ValueType) k i d :
  0 <= i < k -> i + k < Z.of_nat (length data) ->
  nth (Z.to_nat i) (reduce_halve reduce_op data k) d
  = reduce_op (nth (Z.to_nat i) data d) (nth (Z.to_nat (i + k)) data d).
Proof.
  intros Hi Hk. unfold reduce_halve.
  set (f := fun slot : nat * ValueType => _).
  rewrite (nth_indep _ d (f (0%nat, d)))
    by (rewrite length_map, length_combine, length_seq; lia).
  rewrite map_nth. subst f. cbn beta.
  rewrite combine_nth by apply length_seq.
  rewrite seq_nth by lia. cbn [fst snd Nat.add]. rewrite Z2Nat.id by lia.
  destruct (i <? k) eqn:E; [| lia].
  f_equal. apply nth_indep. lia.
Qed.

(** A turn of the loop keeps the reduction of the slots in use. *)
Lemma reduce_halve_keeps (data : list ValueType) d j :
  0 <= j -> 2 ^ (j + 1) <= Z.of_nat (length data) ->
  reduce_range reduce_op
               (fun i => nth (Z.to_nat i) (reduce_halve reduce_op data (2 ^ j)) d)
               0 (Z.to_nat (2 ^ j - 1))
  = reduce_range reduce_op (fun i => nth (Z.to_nat i) data d)
                 0 (Z.to_nat (2 ^ (j + 1) - 1)).
Proof.
  intros Hj Hlen.
  assert (Hp : 0 < 2 ^ j) by (apply Z.pow_pos_nonneg; lia).
  assert (Hp1 : 2 ^ (j + 1) = 2 * 2 ^ j) by (rewrite Z.pow_add_r by lia; lia).
  replace (Z.to_nat (2 ^ (j + 1) - 1))
    with (Z.to_nat (2 ^ j - 1) + 1 + Z.to_nat (2 ^ j - 1))%nat by lia.
  rewrite reduce_range_join by exact reduce_op_assoc.
  replace (0 + Z.of_nat (Z.to_nat (2 ^ j - 1)) + 1) with (0 + 2 ^ j) by lia.
  rewrite <- (reduce_range_shift (fun i => nth (Z.to_nat i) data d)).
  rewrite <- reduce_range_op.
  apply reduce_range_ext. intros i Hi.
  apply nth_reduce_halve; lia.
Qed.

(** The loop over a block of [2 ^ e] lanes, from [2 ^ a] slots in use
    down to the [2 ^ w] slots of a warp. *)
Lemma reduce_halves_runs d w e : forall m a (data : list ValueType) fuel,
  0 <= w -> a = w + Z.of_nat m -> a <= e ->
  Z.of_nat (length data) = 2 ^ e ->
  (m < fuel)%nat ->
  exists data',
    reduce_halves reduce_op fuel (2 ^ w) (2 ^ a ÷ 2) data = Some data'
    /\ length data' = length data
    /\ reduce_range reduce_op (fun i => nth (Z.to_nat i) data' d) 0 (Z.to_nat (2 ^ w - 1))
       = reduce_range reduce_op (fun i => nth (Z.to_nat i) data d) 0 (Z.to_nat (2 ^ a - 1)).
Proof.
  induction m as [| m IH]; intros a data fuel Hw Ha Hae Hlen Hfuel.
  - assert (Ea : a = w) by lia. clear Ha. subst a.
    assert (Hp : 0 < 2 ^ w) by (apply Z.pow_pos_nonneg; lia).
    destruct fuel as [| fuel]; [lia |]. cbn [reduce_halves].
    assert (2 ^ w ÷ 2 < 2 ^ w).
    { rewrite Z.quot_div_nonneg by lia. apply Z.div_lt; lia. }
    destruct (2 ^ w <=? 2 ^ w ÷ 2) eqn:E; [lia |].
    exists data. auto.
  - destruct fuel as [| fuel]; [lia |]. cbn [reduce_halves].
    assert (Hq : 2 ^ a ÷ 2 = 2 ^ (a - 1)).
    { replace a with ((a - 1) + 1) at 1 by lia.
      rewrite Z.pow_add_r by lia. change (2 ^ 1) with 2.
      apply Z.quot_mul. lia. }
    rewrite Hq.
    assert (2 ^ w <= 2 ^ (a - 1)) by (apply Z.pow_le_mono_r; lia).
    destruct (2 ^ w <=? 2 ^ (a - 1)) eqn:E; [| lia].
    assert (H2 : 2 ^ a <= 2 ^ e) by (apply Z.pow_le_mono_r; lia).
    destruct (IH (a - 1) (reduce_halve reduce_op data (2 ^ (a - 1))) fuel)
      as (data' & E' & Hl' & Hr'); [lia | lia | lia | | lia |].
    { rewrite reduce_halve_length. exact Hlen. }
    exists data'. split; [exact E' |].
    split; [rewrite Hl'; apply reduce_halve_length |].
    rewrite Hr'. rewrite reduce_halve_keeps by (replace (a - 1 + 1) with a; lia).
    replace (a - 1 + 1) with a by lia. reflexivity.
Qed.

End Block_reduction.

Lemma reduce_block_runs {ValueType}
        (reduce_op : ValueType -> ValueType -> ValueType) w e x l fuel :
  (forall x y z, reduce_op (reduce_op x y) z = reduce_op x (reduce_op y z)) ->
  (forall x y, reduce_op x y = reduce_op y x) ->
  0 <= w <= e -> e <= 30 ->
  Z.of_nat (length (x :: l)) = 2 ^ e ->
  (Z.to_nat e < fuel)%nat ->
  exists rest,
    reduce_block reduce_op fuel (2 ^ w) (x :: l)
    = Some (fold_left reduce_op l x :: rest)
    /\ length rest = length l.
Proof.
  intros Hassoc Hcomm Hwe He Hlen Hfuel.
  assert (Hpw : 0 < 2 ^ w) by (apply Z.pow_pos_nonneg; lia).
  assert (Hwe2 : 2 ^ w <= 2 ^ e) by (apply Z.pow_le_mono_r; lia).
  assert (He30 : 2 ^ e <= 2 ^ 30) by (apply Z.pow_le_mono_r; lia).
  unfold reduce_block. rewrite Hlen.
  assert (Hhalf : 0 <= 2 ^ e / 2 <= 2 ^ e).
  { split; [apply Z.div_pos; lia | apply Z.div_le_upper_bound; lia]. }
  rewrite wrap_int_small by lia.
  rewrite <- Z.quot_div_nonneg by lia.
  destruct (reduce_halves_runs reduce_op Hassoc Hcomm x w e
              (Z.to_nat (e - w)) e (x :: l) fuel)
    as (data' & E & Hl & Hr); [lia | lia | lia | exact Hlen | lia |].
  rewrite E.
  destruct data' as [| x' l']; [discriminate |].
  assert (Hf : firstn (Z.to_nat (2 ^ w)) (x' :: l')
               = x' :: firstn (Z.to_nat (2 ^ w) - 1) l').
  { destruct (Z.to_nat (2 ^ w)) as [| n] eqn:En; [lia |].
    cbn [firstn]. do 2 f_equal. lia. }
  rewrite Hf.
  destruct (reduce_runs reduce_op false w x' (firstn (Z.to_nat (2 ^ w) - 1) l') fuel
              Hassoc ltac:(discriminate))
    as (res & E2 & Hl2 & Hres).
  - lia.
  - rewrite <- Hf, length_firstn, Hl. lia.
  - lia.
  - rewrite E2. specialize (Hres 0 ltac:(lia) (or_intror eq_refl)).
    destruct res as [| r others]; [discriminate |]. cbn in Hres. subst r.
    exists l'. split; [| cbn [length] in Hl; lia].
    cbn [tl]. do 2 f_equal.
    rewrite <- (reduce_range_fold reduce_op x x').
    rewrite <- (reduce_range_fold reduce_op x x l).
    rewrite <- Hf.
    replace (length l) with (Z.to_nat (2 ^ e - 1)) by (cbn [length] in Hlen; lia).
    rewrite <- Hr.
    replace (length (firstn (Z.to_nat (2 ^ w) - 1) l')) with (Z.to_nat (2 ^ w - 1)).
    + apply reduce_range_ext. intros i Hi.
      rewrite nth_firstn. destruct (Z.to_nat i <? Z.to_nat (2 ^ w))%nat eqn:En.
      * apply nth_indep. rewrite Hl. lia.
      * apply Nat.ltb_ge in En. lia.
    + rewrite length_firstn. cbn [length] in Hl, Hlen. lia.
Qed.

(** X9: [reduce] on the data of a block of [2 ^ e] lanes, not fewer
    than a warp, leaves in [data[0]] the reduction of all the [2 ^ e]
    elements of [data], [reduce_op] being associative and commutative;
    the array keeps its size. *)
Theorem reduce_block_result {ValueType}
        (reduce_op : ValueType -> ValueType -> ValueType) w e x l fuel :
  (forall x y z, reduce_op (reduce_op x y) z = reduce_op x (reduce_op y z)) ->
  (forall x y, reduce_op x y = reduce_op y x) ->
  0 <= w <= e -> e <= 30 ->
  Z.of_nat (length (x :: l)) = 2 ^ e ->
  (Z.to_nat e < fuel)%nat ->
  exists rest,
    reduce_block reduce_op fuel (2 ^ w) (x :: l)
    = Some (fold_left reduce_op l x :: rest)
    /\ length rest = length l.
Proof. apply reduce_block_runs. Qed.

(** Eight lanes in warps of two, reduced by [+]. *)
Lemma reduce_block_result_witness :
  exists rest,
    reduce_block Z.add 4 2 [1; 2; 3; 4; 5; 6; 7; 8] = Some (36 :: rest)
    /\ length rest = 7%nat.
Proof.
  apply (reduce_block_result Z.add 1 3 1 [2; 3; 4; 5; 6; 7; 8] 4).
  - intros x y z. lia.
  - intros x y. lia.
  - lia.
  - lia.
  - reflexivity.
  - cbn. lia.
Defined.

(** ** Sums *)

Lemma mod_eq_close T a b :
  0 < T -> a mod T = b mod T -> - T < a - b < T -> a = b.
Proof.
  intros HT Hm Hc.
  pose proof (Z.div_mod a T ltac:(lia)) as Ha.
  pose proof (Z.div_mod b T ltac:(lia)) as Hb.
  set (d := a / T - b / T).
  assert (Hd : a - b = T * d) by (subst d; lia).
  assert (d = 0) by nia.
  nia.
Qed.

Lemma all_results_map {A B} (F : A -> option B) (a : A -> B) l :
  (forall x, In x l -> F x = Some (a x)) ->
  all_results (map F l) = Some (map a l).
Proof.
  induction l as [| x l IH]; intros H; [reflexivity |].
  cbn [map all_results]. rewrite (H x (or_introl eq_refl)).
  rewrite IH by (intros y Hy; apply H; right; exact Hy). reflexivity.
Qed.

Lemma thread_ids_nonneg n k : In k (thread_ids n) -> 0 <= k < n.
Proof.
  unfold thread_ids. rewrite in_map_iff. intros (i & <- & Hi).
  apply in_seq in Hi. lia.
Qed.

Lemma thread_ids_length n : length (thread_ids n) = Z.to_nat n.
Proof. unfold thread_ids. rewrite length_map, length_seq. reflexivity. Qed.

Lemma thread_ids_succ n :
  0 <= n -> thread_ids (n + 1) = thread_ids n ++ [n].
Proof.
  intros Hn. unfold thread_ids.
  replace (Z.to_nat (n + 1)) with (Z.to_nat n + 1)%nat by lia.
  rewrite seq_app, map_app. cbn. rewrite Z2Nat.id by lia. reflexivity.
Qed.

Lemma seq_from n m : seq n m = map (fun i => (i + n)%nat) (seq 0 m).
Proof.
  induction n as [| n IH].
  - rewrite <- (map_id (seq 0 m)) at 1. apply map_ext. intros i. lia.
  - rewrite <- seq_shift, IH, map_map. apply map_ext. intros i. lia.
Qed.

Lemma thread_ids_add n m :
  0 <= n -> 0 <= m ->
  thread_ids (n + m) = thread_ids n ++ map (fun t => t + n) (thread_ids m).
Proof.
  intros Hn Hm. unfold thread_ids.
  replace (Z.to_nat (n + m)) with (Z.to_nat n + Z.to_nat m)%nat by lia.
  rewrite seq_app, map_app. f_equal. cbn [Nat.add].
  rewrite (seq_from (Z.to_nat n)), !map_map.
  apply map_ext. intros i. lia.
Qed.

Lemma firstn_as_map {A} (source : list A) d size :
  0 <= size <= Z.of_nat (length source) ->
  map (fun k => nth (Z.to_nat k) source d) (thread_ids size)
  = firstn (Z.to_nat size) source.
Proof.
  intros Hs. unfold thread_ids. rewrite map_map.
  assert (H : (Z.to_nat size <= length source)%nat) by lia.
  revert H. generalize (Z.to_nat size) as n. clear Hs size.
  intros n. revert source. induction n as [| n IH]; intros source H; [reflexivity |].
  destruct source as [| x source]; [cbn in H; lia |].
  cbn [firstn seq map]. rewrite Nat2Z.id. cbn [nth]. f_equal.
  rewrite <- seq_shift, map_map. rewrite <- IH by (cbn in H; lia).
  apply map_ext. intros i. rewrite !Nat2Z.id. reflexivity.
Qed.

Section Sums.

Context {ValueType : Type}.
Variable zero : ValueType.
Variable add : ValueType -> ValueType -> ValueType.
Hypothesis add_assoc : forall x y z, add (add x y) z = add x (add y z).
Hypothesis add_comm : forall x y, add x y = add y x.
Hypothesis add_zero : forall x, add zero x = x.

Local Abbreviation sum l := (fold_left add l zero).

Lemma fold_left_add_from l : forall x, fold_left add l x = add x (sum l).
Proof.
  induction l as [| y l IH]; intros x; cbn [fold_left].
  - rewrite add_comm, add_zero. reflexivity.
  - rewrite (IH (add x y)), (IH (add zero y)), add_zero, add_assoc. reflexivity.
Qed.

Lemma sum_cons x l : sum (x :: l) = add x (sum l).
Proof. cbn [fold_left]. rewrite add_zero. apply fold_left_add_from. Qed.

Lemma sum_app l1 l2 : sum (l1 ++ l2) = add (sum l1) (sum l2).
Proof. rewrite fold_left_app. apply fold_left_add_from. Qed.

Lemma sum_zeros {A} (l : list A) : sum (map (fun _ => zero) l) = zero.
Proof.
  induction l as [| x l IH]; [reflexivity |].
  cbn [map]. rewrite sum_cons, IH. apply add_zero.
Qed.

(** One term of a sum gets [v] more. *)
Lemma sum_one_more (a : Z -> ValueType) v g0 gs :
  NoDup gs -> In g0 gs ->
  sum (map (fun g => if g0 =? g then add v (a g) else a g) gs)
  = add v (sum (map a gs)).
Proof.
  induction 1 as [| g gs Hnotin Hnd IH]; intros Hin; [destruct Hin |].
  cbn [map]. rewrite !sum_cons.
  destruct (Z.eqb_spec g0 g) as [-> | Hne].
  - rewrite add_assoc. do 3 f_equal. apply map_ext_in.
    intros g' Hg'. destruct (Z.eqb_spec g g') as [-> | _]; [contradiction | reflexivity].
  - destruct Hin as [-> | Hin]; [contradiction |].
    rewrite (IH Hin), <- !add_assoc. f_equal. apply add_comm.
Qed.

(** The elements of [L] dealt to [T] threads by their rest modulo [T]:
    the sums of the threads add up to the sum of [L]. *)
Lemma sum_strided (f : Z -> ValueType) T L :
  0 < T ->
  sum (map (fun g => sum (map f (filter (fun k => k mod T =? g) L))) (thread_ids T))
  = sum (map f L).
Proof.
  intros HT. induction L as [| x L IH].
  - cbn [filter map]. apply sum_zeros.
  - cbn [map]. rewrite sum_cons, <- IH.
    rewrite <- (sum_one_more _ (f x) (x mod T)).
    + f_equal. apply map_ext. intros g. cbn [filter].
      destruct (x mod T =? g); [cbn [map]; apply sum_cons | reflexivity].
    + apply thread_ids_NoDup.
    + apply thread_ids_in. apply Z.mod_pos_bound. exact HT.
Qed.

(** The threads of a grid block after block. *)
Lemma sum_blocks (a : Z -> ValueType) B : forall G : nat,
  0 <= B ->
  sum (map (fun b => sum (map (fun t => a (t + B * b)) (thread_ids B)))
           (thread_ids (Z.of_nat G)))
  = sum (map a (thread_ids (Z.of_nat G * B))).
Proof.
  intros G HB. induction G as [| G IH]; [reflexivity |].
  replace (Z.of_nat (Datatypes.S G)) with (Z.of_nat G + 1) by lia.
  rewrite thread_ids_succ by lia.
  replace ((Z.of_nat G + 1) * B) with (Z.of_nat G * B + B) by lia.
  rewrite thread_ids_add by nia.
  rewrite !map_app, !sum_app, IH. f_equal.
  cbn [map]. rewrite sum_cons.
  replace (add _ (sum [])) with
    (sum (map (fun t => a (t + B * Z.of_nat G)) (thread_ids B)))
    by (cbn [fold_left]; rewrite add_comm, add_zero; reflexivity).
  rewrite map_map. f_equal. apply map_ext. intros t. f_equal. lia.
Qed.

End Sums.

(** ** [reduce_array] and [reduce_add_array] *)

Lemma filter_none {A} (p : A -> bool) l :
  (forall x, In x l -> p x = false) -> filter p l = [].
Proof.
  induction l as [| x l IH]; intros H; [reflexivity |].
  cbn [filter]. rewrite (H x (or_introl eq_refl)).
  apply IH. intros y Hy. apply H. right. exact Hy.
Qed.

(** Of the indices after [i], the next one with the rest of [i] modulo
    [T] is [i + T]. *)
Lemma filter_stride T g (i n : nat) :
  0 < T -> Z.of_nat i mod T = g ->
  filter (fun k => k mod T =? g) (map Z.of_nat (seq (Datatypes.S i) n))
  = filter (fun k => k mod T =? g)
           (map Z.of_nat (seq (i + Z.to_nat T) (n + 1 - Z.to_nat T))).
Proof.
  intros HT Hi.
  set (m := Nat.min (Z.to_nat T - 1) n).
  replace n with (m + (n - m))%nat at 1 by lia.
  rewrite seq_app, map_app, filter_app.
  rewrite (filter_none _ (map Z.of_nat (seq (Datatypes.S i) m))).
  - cbn [app]. destruct (Nat.le_gt_cases (Z.to_nat T - 1) n) as [Hle | Hgt].
    + replace (Datatypes.S i + m)%nat with (i + Z.to_nat T)%nat by lia.
      replace (n - m)%nat with (n + 1 - Z.to_nat T)%nat by lia.
      reflexivity.
    + replace (n - m)%nat with 0%nat by lia.
      replace (n + 1 - Z.to_nat T)%nat with 0%nat by lia.
      reflexivity.
  - intros k Hk. apply in_map_iff in Hk as (j & <- & Hj). apply in_seq in Hj.
    apply Z.eqb_neq. intros Hm.
    assert (Z.of_nat j = Z.of_nat i); [| lia].
    apply (mod_eq_close T); [exact HT | congruence | lia].
Qed.

Section Reduce_array_facts.

Context {ValueType : Type}.
Variable zero : ValueType.
Variable add : ValueType -> ValueType -> ValueType.
Hypothesis add_assoc : forall x y z, add (add x y) z = add x (add y z).
Hypothesis add_comm : forall x y, add x y = add y x.
Hypothesis add_zero : forall x, add zero x = x.

Local Abbreviation sum l := (fold_left add l zero).

Variable source : list ValueType.
Variable size : Z.
Hypothesis size_fits : 0 <= size <= Z.of_nat (length source).

(** What the thread [g] of [T] threads adds up. *)
Local Abbreviation share T g :=
  (sum (map (fun k => nth (Z.to_nat k) source zero)
            (filter (fun k => k mod T =? g) (thread_ids size)))).

Lemma reduce_array_loop_runs T g :
  0 < T -> size + T <= 2 ^ 64 ->
  forall fuel (i : nat) acc,
    Z.of_nat i mod T = g ->
    (Z.to_nat size - i < fuel)%nat ->
    reduce_array_loop add fuel size source T (Z.of_nat i) acc
    = Some (fold_left add
              (map (fun k => nth (Z.to_nat k) source zero)
                   (filter (fun k => k mod T =? g)
                           (map Z.of_nat (seq i (Z.to_nat size - i)))))
              acc).
Proof.
  intros HT Hfit. induction fuel as [| fuel IH]; intros i acc Hi Hfuel; [lia |].
  cbn [reduce_array_loop].
  destruct (Z.of_nat i <? size) eqn:E.
  - rewrite Nat2Z.id.
    rewrite (nth_error_nth' source zero) by lia.
    unfold wrap_size. rewrite Z.mod_small by lia.
    replace (Z.of_nat i + T) with (Z.of_nat (i + Z.to_nat T)) by lia.
    rewrite IH.
    + replace (Z.to_nat size - i)%nat with (Datatypes.S (Z.to_nat size - i - 1)) by lia.
      cbn [seq map filter]. rewrite Hi, Z.eqb_refl. cbn [map fold_left].
      rewrite Nat2Z.id.
      rewrite (filter_stride T g i _ HT Hi).
      replace (Z.to_nat size - i - 1 + 1 - Z.to_nat T)%nat
        with (Z.to_nat size - (i + Z.to_nat T))%nat by lia.
      reflexivity.
    + rewrite Nat2Z.inj_add, Z2Nat.id by lia.
      rewrite <- Zplus_mod_idemp_r, Z.mod_same, Z.add_0_r by lia. exact Hi.
    + lia.
  - replace (Z.to_nat size - i)%nat with 0%nat by lia. reflexivity.
Qed.

Lemma reduce_array_thread T g fuel :
  0 < T -> size + T <= 2 ^ 64 -> 0 <= g < T ->
  (Z.to_nat size < fuel)%nat ->
  reduce_array_loop add fuel size source T g zero = Some (share T g).
Proof.
  intros HT Hfit Hg Hfuel.
  rewrite <- (Z2Nat.id g) at 1 by lia.
  rewrite (reduce_array_loop_runs T g HT Hfit) by (rewrite ?Z2Nat.id, ?Z.mod_small; lia).
  do 3 f_equal. unfold thread_ids.
  set (m := Nat.min (Z.to_nat g) (Z.to_nat size)).
  replace (Z.to_nat size) with (m + (Z.to_nat size - m))%nat at 2 by lia.
  rewrite seq_app, map_app, filter_app.
  rewrite (filter_none _ (map Z.of_nat (seq 0 m))).
  - cbn [app Nat.add]. destruct (Nat.le_gt_cases (Z.to_nat g) (Z.to_nat size)).
    + replace m with (Z.to_nat g) by lia. reflexivity.
    + replace (Z.to_nat size - Z.to_nat g)%nat with 0%nat by lia.
      replace (Z.to_nat size - m)%nat with 0%nat by lia. reflexivity.
  - intros k Hk. apply in_map_iff in Hk as (j & <- & Hj). apply in_seq in Hj.
    apply Z.eqb_neq. rewrite Z.mod_small by lia. lia.
Qed.

(** A block of [2 ^ e] threads: [result[0]] is the sum of what its
    threads have added up. *)
Lemma reduce_array_runs w e fuel blockIdx gridDim :
  0 <= w <= e -> e <= 30 ->
  0 <= blockIdx < gridDim ->
  2 ^ e * gridDim < 2 ^ 32 ->
  size + 2 ^ e * gridDim <= 2 ^ 64 ->
  (Z.to_nat size < fuel)%nat -> (Z.to_nat e < fuel)%nat ->
  exists rest,
    reduce_array zero add fuel (2 ^ w) size source blockIdx (2 ^ e) gridDim
    = Some (sum (map (fun t => share (2 ^ e * gridDim) (t + 2 ^ e * blockIdx))
                     (thread_ids (2 ^ e)))
            :: rest).
Proof.
  intros Hwe He Hb HT Hfit Hf1 Hf2.
  assert (Hp : 0 < 2 ^ e) by (apply Z.pow_pos_nonneg; lia).
  unfold reduce_array.
  rewrite (all_results_map _
             (fun t => share (2 ^ e * gridDim) (t + 2 ^ e * blockIdx))).
  - destruct (map _ (thread_ids (2 ^ e))) as [| x l] eqn:El.
    { apply (f_equal (@length _)) in El.
      rewrite length_map, thread_ids_length in El. cbn in El. lia. }
    destruct (reduce_block_runs add w e x l fuel add_assoc add_comm Hwe He)
      as (rest & E & _).
    + rewrite <- El, length_map, thread_ids_length. lia.
    + exact Hf2.
    + exists rest. rewrite E. do 2 f_equal.
      rewrite sum_cons by assumption. apply fold_left_add_from; assumption.
  - intros t Ht. apply thread_ids_nonneg in Ht.
    assert (0 <= t + 2 ^ e * blockIdx < 2 ^ e * gridDim) by nia.
    unfold get_thread_id_flat, wrap_size, wrap_uint.
    rewrite !Z.mod_small by lia.
    apply reduce_array_thread; lia.
Qed.

(** The kernel: the block results add up to the sum of [source]. *)
Lemma reduce_add_array_kernel_runs w e fuel gridDim :
  0 <= w <= e -> e <= 30 ->
  0 < gridDim ->
  2 ^ e * gridDim < 2 ^ 32 ->
  size + 2 ^ e * gridDim <= 2 ^ 64 ->
  (Z.to_nat size < fuel)%nat -> (Z.to_nat e < fuel)%nat ->
  exists result,
    reduce_add_array_kernel zero add fuel (2 ^ w) gridDim (2 ^ e) size source
    = Some result
    /\ length result = Z.to_nat gridDim
    /\ sum result = sum (firstn (Z.to_nat size) source).
Proof.
  intros Hwe He HG HT Hfit Hf1 Hf2.
  assert (Hp : 0 < 2 ^ e) by (apply Z.pow_pos_nonneg; lia).
  unfold reduce_add_array_kernel.
  rewrite (all_results_map _
             (fun b => sum (map (fun t => share (2 ^ e * gridDim) (t + 2 ^ e * b))
                                (thread_ids (2 ^ e))))).
  - eexists. split; [reflexivity |].
    split; [rewrite length_map; apply thread_ids_length |].
    replace (thread_ids gridDim) with (thread_ids (Z.of_nat (Z.to_nat gridDim)))
      by (rewrite Z2Nat.id; [reflexivity | lia]).
    rewrite (sum_blocks zero add add_assoc add_comm add_zero
               (fun g => share (2 ^ e * gridDim) g) (2 ^ e) (Z.to_nat gridDim))
      by lia.
    rewrite Z2Nat.id by lia.
    replace (gridDim * 2 ^ e) with (2 ^ e * gridDim) by lia.
    rewrite (sum_strided zero add add_assoc add_comm add_zero) by nia.
    rewrite firstn_as_map by exact size_fits. reflexivity.
  - intros b Hb. apply thread_ids_nonneg in Hb.
    destruct (reduce_array_runs w e fuel b gridDim Hwe He Hb HT Hfit Hf1 Hf2)
      as (rest & ->).
    reflexivity.
Qed.

End Reduce_array_facts.



(** X11: the host function [reduce_add_array] returns the sum of the
    first [size] elements of [source].  When [size] is at most
    [default_reduce_block_size] it launches the kernel once, on one block
    over the [size] elements; when it is more it launches it twice, first on
    [min(ceildiv(size, 512), 512)] blocks over the [size] elements and then
    on one block over the sums of these blocks.  For [size = 0] it returns
    zero.  The addition is taken associative and commutative with [zero]
    neutral, the warp has [2 ^ w <= 512] lanes, and [size + 511], which
    [ceildiv] computes, is below [2 ^ 63]. *)
Theorem reduce_add_array_sums {ValueType} (zero : ValueType)
        (add : ValueType -> ValueType -> ValueType) source size w fuel :
  (forall x y z, add (add x y) z = add x (add y z)) ->
  (forall x y, add x y = add y x) ->
  (forall x, add zero x = x) ->
  0 <= size <= Z.of_nat (length source) ->
  size + 511 < 2 ^ 63 ->
  0 <= w <= 9 ->
  (Z.to_nat size < fuel)%nat -> (9 < fuel)%nat ->
  reduce_add_array zero add fuel (2 ^ w) size source
  = Some (fold_left add (firstn (Z.to_nat size) source) zero,
          if size <=? 512
          then [(1, 512, size)]
          else [(Z.min (ceildiv size 512) 512, 512, size);
                (1, 512, Z.min (ceildiv size 512) 512)]).
Proof.
  intros Hassoc Hcomm Hzero Hsize Hbound Hw Hf1 Hf2.
  assert (Hlast : forall grid_dim vals launched,
            0 <= grid_dim <= Z.of_nat (length vals) ->
            grid_dim + 511 < 2 ^ 63 ->
            (Z.to_nat grid_dim < fuel)%nat ->
            match reduce_add_array_kernel zero add fuel (2 ^ w) 1
                                          default_reduce_block_size grid_dim vals with
            | Some (answer :: _) =>
                Some (answer, launched ++ [(1, default_reduce_block_size, grid_dim)])
            | _ => None
            end = Some (fold_left add (firstn (Z.to_nat grid_dim) vals) zero,
                        launched ++ [(1, 512, grid_dim)])).
  { intros grid_dim vals launched Hg Hgb Hgf.
    change default_reduce_block_size with (2 ^ 9).
    destruct (reduce_add_array_kernel_runs zero add Hassoc Hcomm Hzero vals grid_dim Hg
                w 9 fuel 1) as (result & -> & Hl & Hs); try lia.
    destruct result as [| answer [| y result]]; try discriminate.
    rewrite <- Hs. cbn [fold_left]. rewrite Hzero. reflexivity. }
  unfold reduce_add_array.
  destruct (size >? default_reduce_block_size) eqn:E.
  - unfold default_reduce_block_size in *.
    destruct (Z.leb_spec size 512) as [Hle | Hgt]; [lia |].
    set (n := ceildiv size 512).
    assert (Hn : 0 < n).
    { subst n. unfold ceildiv. apply Z.div_str_pos. lia. }
    assert (Hmin : (if n <=? 512 then n else 512) = Z.min n 512).
    { destruct (Z.leb_spec n 512); lia. }
    rewrite Hmin.
    set (grid_dim := Z.min n 512).
    assert (Hgd : 0 < grid_dim <= 512) by (subst grid_dim; lia).
    destruct (reduce_add_array_kernel_runs zero add Hassoc Hcomm Hzero source size Hsize
                w 9 fuel grid_dim) as (result & Ek & Hl & Hs); try lia.
    assert (Ek' : reduce_add_array_kernel zero add fuel (2 ^ w) grid_dim 512 size source
                  = Some result) by exact Ek.
    rewrite Ek'.
    rewrite (Hlast grid_dim result [(grid_dim, 512, size)]) by lia.
    rewrite <- Hl, firstn_all, Hs. reflexivity.
  - destruct (Z.leb_spec size 512) as [Hle | Hgt];
      [| unfold default_reduce_block_size in E; lia].
    apply (Hlast size source []); lia.
Qed.

(** Three numbers, in one launch. *)
Lemma reduce_add_array_sums_witness :
  reduce_add_array 0 Z.add 10 32 3 [1; 2; 3] = Some (6, [(1, 512, 3)]).
Proof.
  apply (reduce_add_array_sums 0 Z.add [1; 2; 3] 3 5 10).
  - intros x y z. lia.
  - intros x y. lia.
  - intros x. lia.
  - cbn. lia.
  - lia.
  - lia.
  - cbn. lia.
  - lia.
Defined.

(** ** The pivot *)

Section Choose_pivot_facts.

Context {ValueType real : Type}.
Variable abs : ValueType -> real.
Variable minus_one : real.
Variable gt : real -> real -> bool.
Hypothesis gt_irrefl : forall a, gt a a = false.
Hypothesis gt_trans : forall a b c, gt a b = true -> gt b c = true -> gt a c = true.
Hypothesis gt_total : forall a b, gt a b = false -> gt b a = false -> a = b.

Lemma not_gt_trans a b c : gt a b = false -> gt b c = false -> gt a c = false.
Proof.
  intros Hab Hbc. destruct (gt a c) eqn:Hac; [| reflexivity].
  destruct (gt c b) eqn:Hcb.
  - rewrite (gt_trans a c b Hac Hcb) in Hab. discriminate.
  - rewrite (gt_total b c Hbc Hcb) in Hab. congruence.
Qed.

Lemma not_gt_below a b c : gt a b = false -> gt c b = true -> gt a c = false.
Proof.
  intros Hab Hcb. destruct (gt a c) eqn:Hac; [| reflexivity].
  rewrite (gt_trans a c b Hac Hcb) in Hab. discriminate.
Qed.

Variable group0 : list (ValueType * bool).
Variable e : Z.
Hypothesis He : 0 <= e <= 30.
Hypothesis Hlen0 : Z.of_nat (length group0) = 2 ^ e.

(** The magnitude the lane [k] starts with. *)
Local Abbreviation mag k :=
  (match nth_error group0 (Z.to_nat k) with
   | Some lane => magnitude abs minus_one lane
   | None => minus_one
   end).

Local Abbreviation nolane := (0, minus_one).

(** After the turns below [2 ^ j], the lane holds a largest magnitude of
    its aligned group of [2 ^ j] lanes and the rank of a lane that has
    it. *)
Local Abbreviation holds_largest j lanes :=
  (forall q r, 0 <= q -> 0 <= r < 2 ^ j -> q * 2 ^ j + r < 2 ^ e ->
     q * 2 ^ j <= fst (nth (Z.to_nat (q * 2 ^ j + r)) lanes nolane) < (q + 1) * 2 ^ j
     /\ snd (nth (Z.to_nat (q * 2 ^ j + r)) lanes nolane)
        = mag (fst (nth (Z.to_nat (q * 2 ^ j + r)) lanes nolane))
     /\ forall k, q * 2 ^ j <= k < (q + 1) * 2 ^ j ->
                  gt (mag k) (snd (nth (Z.to_nat (q * 2 ^ j + r)) lanes nolane)) = false).

Lemma choose_pivot_step_length (group : list (Z * real)) bitmask :
  length (choose_pivot_step gt group bitmask) = length group.
Proof.
  unfold choose_pivot_step. rewrite length_map, length_combine, length_seq. lia.
Qed.

Lemma nth_choose_pivot_step (group : list (Z * real)) bitmask i :
  (i < length group)%nat ->
  (Z.to_nat (Z.lxor (Z.of_nat i) bitmask) < length group)%nat ->
  0 <= fst (nth (Z.to_nat (Z.lxor (Z.of_nat i) bitmask)) group nolane)
    < Z.of_nat (length group) ->
  nth i (choose_pivot_step gt group bitmask) nolane
  = let lidx := fst (nth i group nolane) in
    let lmag := snd (nth i group nolane) in
    let ridx := fst (nth (Z.to_nat (Z.lxor (Z.of_nat i) bitmask)) group nolane) in
    let rmag := snd (nth (Z.to_nat ridx) group nolane) in
    if gt rmag lmag then (ridx, rmag) else (lidx, lmag).
Proof.
  intros Hi Hp Hr. unfold choose_pivot_step.
  set (f := fun lane : nat * (Z * real) => _).
  rewrite (nth_indep _ nolane (f (0%nat, nolane)))
    by (rewrite length_map, length_combine, length_seq; lia).
  rewrite map_nth. subst f. cbn beta.
  rewrite combine_nth by apply length_seq.
  rewrite seq_nth by exact Hi. cbn [fst snd Nat.add]. cbv zeta.
  assert (E1 : shfl_xor (map fst group) i (fst (nth i group nolane)) bitmask
               = fst (nth (Z.to_nat (Z.lxor (Z.of_nat i) bitmask)) group nolane)).
  { unfold shfl_xor.
    rewrite (nth_indep _ _ (fst nolane)) by (rewrite length_map; exact Hp).
    apply map_nth. }
  rewrite E1.
  set (ridx := fst (nth (Z.to_nat (Z.lxor (Z.of_nat i) bitmask)) group nolane)) in *.
  assert (E2 : shfl (map snd group) (snd (nth i group nolane)) ridx
               = snd (nth (Z.to_nat ridx) group nolane)).
  { unfold shfl. rewrite length_map, Z.mod_small by exact Hr.
    rewrite (nth_indep _ _ (snd nolane)) by (rewrite length_map; lia).
    apply map_nth. }
  rewrite E2. reflexivity.
Qed.

(** A turn of the loop. *)
Lemma choose_pivot_step_keeps (group : list (Z * real)) j :
  0 <= j < e ->
  Z.of_nat (length group) = 2 ^ e ->
  holds_largest j group ->
  holds_largest (j + 1) (choose_pivot_step gt group (2 ^ j)).
Proof.
  intros Hj Hlen Hinv q r Hq Hr Hqr.
  assert (Hp : 0 < 2 ^ j) by (apply Z.pow_pos_nonneg; lia).
  assert (Hpe : 2 ^ e = 2 ^ (j + 1) * 2 ^ (e - j - 1)).
  { rewrite <- Z.pow_add_r by lia. f_equal. lia. }
  assert (Hp1 : 2 ^ (j + 1) = 2 * 2 ^ j) by (rewrite Z.pow_add_r by lia; lia).
  assert (Hpm : 0 < 2 ^ (e - j - 1)) by (apply Z.pow_pos_nonneg; lia).
  assert (Hq0 : q < 2 ^ (e - j - 1)).
  { apply Z.lt_nge. intros Hge.
    assert (2 ^ (j + 1) * 2 ^ (e - j - 1) <= 2 ^ (j + 1) * q)
      by (apply Z.mul_le_mono_nonneg_l; lia).
    lia. }
  assert (Hq1 : (q + 1) * 2 ^ (j + 1) <= 2 ^ e).
  { rewrite Hpe, (Z.mul_comm (2 ^ (j + 1))).
    apply Z.mul_le_mono_nonneg_r; lia. }
  (* the lane, its group of [2 ^ j] and the group of its partner *)
  assert (Hsplit : exists qa qb ra,
             0 <= ra < 2 ^ j
             /\ q * 2 ^ (j + 1) + r = qa * 2 ^ j + ra
             /\ Z.lxor (q * 2 ^ (j + 1) + r) (2 ^ j) = qb * 2 ^ j + ra
             /\ (qa = 2 * q /\ qb = 2 * q + 1 \/ qa = 2 * q + 1 /\ qb = 2 * q)).
  { destruct (Z.lt_ge_cases r (2 ^ j)) as [Hlow | Hhigh].
    - exists (2 * q), (2 * q + 1), r. split; [lia |]. split; [lia |].
      split; [| left; lia].
      replace (q * 2 ^ (j + 1) + r) with (2 * q * 2 ^ j + r) by lia.
      apply lxor_bit_clear; lia.
    - exists (2 * q + 1), (2 * q), (r - 2 ^ j). split; [lia |]. split; [lia |].
      split; [| right; lia].
      replace (q * 2 ^ (j + 1) + r) with ((2 * q + 1) * 2 ^ j + (r - 2 ^ j)) by lia.
      apply lxor_bit_set; lia. }
  destruct Hsplit as (qa & qb & ra & Hra & Ei & Ex & Hab).
  assert (Hqa : 0 <= qa /\ qa * 2 ^ j + ra < 2 ^ e) by (destruct Hab; nia).
  assert (Hqb : 0 <= qb /\ qb * 2 ^ j + ra < 2 ^ e) by (destruct Hab; nia).
  destruct (Hinv qa ra ltac:(lia) Hra ltac:(lia)) as (Ha1 & Ha2 & Ha3).
  destruct (Hinv qb ra ltac:(lia) Hra ltac:(lia)) as (Hb1 & Hb2 & Hb3).
  set (la := nth (Z.to_nat (qa * 2 ^ j + ra)) group nolane) in *.
  set (lb := nth (Z.to_nat (qb * 2 ^ j + ra)) group nolane) in *.
  (* the lane that the partner names *)
  assert (Hrb : exists rb, 0 <= rb < 2 ^ j /\ fst lb = qb * 2 ^ j + rb)
    by (exists (fst lb - qb * 2 ^ j); lia).
  destruct Hrb as (rb & Hrb & Erb).
  destruct (Hinv qb rb ltac:(lia) Hrb ltac:(destruct Hab; nia)) as (Hc1 & Hc2 & Hc3).
  rewrite <- Erb in Hc1, Hc2, Hc3.
  set (lc := nth (Z.to_nat (fst lb)) group nolane) in *.
  assert (Hsame : snd lc = snd lb).
  { apply gt_total.
    - rewrite Hc2. apply Hb3. exact Hc1.
    - rewrite Hb2. apply Hc3. exact Hb1. }
  assert (Hi0 : 0 <= q * 2 ^ (j + 1) + r) by nia.
  rewrite nth_choose_pivot_step;
    rewrite ?(Z2Nat.id _ Hi0), ?Ex, ?Ei; fold la lb; [| lia | lia | lia].
  cbv zeta. fold lc. rewrite Hsame.
  destruct (gt (snd lb) (snd la)) eqn:Hgt; cbn [fst snd].
  - split; [destruct Hab; nia |]. split; [exact Hb2 |].
    intros k Hk.
    assert (Hk' : qa * 2 ^ j <= k < (qa + 1) * 2 ^ j
                  \/ qb * 2 ^ j <= k < (qb + 1) * 2 ^ j) by (destruct Hab; nia).
    destruct Hk' as [Hk' | Hk'].
    + apply (not_gt_below _ (snd la)); [apply Ha3; exact Hk' | exact Hgt].
    + apply Hb3. exact Hk'.
  - split; [destruct Hab; nia |]. split; [exact Ha2 |].
    intros k Hk.
    assert (Hk' : qa * 2 ^ j <= k < (qa + 1) * 2 ^ j
                  \/ qb * 2 ^ j <= k < (qb + 1) * 2 ^ j) by (destruct Hab; nia).
    destruct Hk' as [Hk' | Hk'].
    + apply Ha3. exact Hk'.
    + apply (not_gt_trans _ (snd lb)); [apply Hb3; exact Hk' | exact Hgt].
Qed.

Lemma choose_pivot_from_runs : forall k j (group : list (Z * real)) fuel,
  0 <= j -> j + Z.of_nat k = e ->
  Z.of_nat (length group) = 2 ^ e ->
  holds_largest j group ->
  (k < fuel)%nat ->
  exists lanes,
    choose_pivot_from gt fuel (2 ^ j) group = Some lanes
    /\ Z.of_nat (length lanes) = 2 ^ e
    /\ holds_largest e lanes.
Proof.
  induction k as [| k IH]; intros j group fuel Hj Hjk Hlen Hinv Hfuel.
  - assert (Ej : j = e) by lia. clear Hjk. subst j.
    destruct fuel as [| fuel]; [lia |]. cbn [choose_pivot_from].
    rewrite Hlen, Z.ltb_irrefl. exists group. auto.
  - destruct fuel as [| fuel]; [lia |]. cbn [choose_pivot_from].
    assert (Hp : 0 < 2 ^ j) by (apply Z.pow_pos_nonneg; lia).
    assert (Hlt : 2 ^ j < 2 ^ e) by (apply Z.pow_lt_mono_r; lia).
    assert (He30 : 2 ^ e <= 2 ^ 30) by (apply Z.pow_le_mono_r; lia).
    rewrite Hlen. destruct (2 ^ j <? 2 ^ e) eqn:E; [| lia].
    rewrite Z.shiftl_mul_pow2 by lia. change (2 ^ 1) with 2.
    rewrite wrap_int_small by lia.
    replace (2 ^ j * 2) with (2 ^ (j + 1)) by (rewrite Z.pow_add_r by lia; lia).
    apply (IH (j + 1)); [lia | lia | | | lia].
    + rewrite choose_pivot_step_length. exact Hlen.
    + apply choose_pivot_step_keeps; [lia | exact Hlen | exact Hinv].
Qed.

Lemma choose_pivot_runs fuel :
  (Z.to_nat e < fuel)%nat ->
  exists p lane_p,
    choose_pivot abs minus_one gt fuel group0
    = Some (repeat (Z.of_nat p) (length group0))
    /\ nth_error group0 p = Some lane_p
    /\ forall i lane, nth_error group0 i = Some lane ->
                      gt (magnitude abs minus_one lane)
                         (magnitude abs minus_one lane_p) = false.
Proof.
  intros Hfuel.
  assert (Hpe : 0 < 2 ^ e) by (apply Z.pow_pos_nonneg; lia).
  unfold choose_pivot.
  set (start := map _ (combine (seq 0 (length group0)) group0)).
  assert (Hls : length start = length group0).
  { subst start. rewrite length_map, length_combine, length_seq. lia. }
  assert (Hstart : forall i, 0 <= i < 2 ^ e ->
                             nth (Z.to_nat i) start nolane = (i, mag i)).
  { intros i Hi. subst start.
    destruct (nth_error group0 (Z.to_nat i)) as [lane |] eqn:El.
    - set (f := fun lane : nat * (ValueType * bool) => _).
      rewrite (nth_indep _ nolane (f (0%nat, lane)))
        by (rewrite length_map, length_combine, length_seq; lia).
      rewrite map_nth. subst f. cbn beta.
      rewrite combine_nth by apply length_seq.
      rewrite seq_nth by lia. cbn [fst snd Nat.add].
      rewrite (nth_error_nth _ _ lane El). f_equal. lia.
    - apply nth_error_None in El. lia. }
  destruct (choose_pivot_from_runs (Z.to_nat e) 0 start fuel)
    as (lanes & E & Hl & Hinv); [lia | lia | lia | | exact Hfuel |].
  { intros q r Hq Hr Hqr. change (2 ^ 0) with 1 in *.
    assert (r = 0) by lia. subst r.
    rewrite Hstart by lia. cbn [fst snd].
    split; [lia |]. split; [reflexivity |].
    intros k Hk. replace k with (q * 1 + 0) by lia. apply gt_irrefl. }
  change (2 ^ 0) with 1 in E. rewrite E.
  destruct (Hinv 0 0 ltac:(lia) ltac:(lia) ltac:(lia)) as (H1 & H2 & H3).
  replace (0 * 2 ^ e + 0) with 0 in H1, H2, H3 by lia.
  change (Z.to_nat 0) with 0%nat in H1, H2, H3.
  set (l0 := nth 0 lanes nolane) in *.
  destruct (nth_error group0 (Z.to_nat (fst l0))) as [lane_p |] eqn:Ep;
    [| apply nth_error_None in Ep; lia].
  exists (Z.to_nat (fst l0)), lane_p.
  split; [| split; [exact Ep |]].
  - f_equal. rewrite Z2Nat.id by lia.
    assert (Hshfl : forall p, shfl (map fst lanes) p 0 = fst l0).
    { intros p. unfold shfl. rewrite length_map, Z.mod_0_l by lia.
      cbn [Z.to_nat]. rewrite (nth_indep _ _ (fst nolane)) by (rewrite length_map; lia).
      apply map_nth. }
    rewrite (map_ext _ (fun _ => fst l0) Hshfl).
    rewrite map_map.
    replace (length group0) with (length lanes) by lia.
    generalize (fst l0) as p. clear. intros p.
    induction lanes as [| x l IH]; [reflexivity |].
    cbn [map length repeat]. f_equal. exact IH.
  - intros i lane Hi.
    assert (Hir : (i < length group0)%nat) by (apply nth_error_Some; congruence).
    specialize (H3 (Z.of_nat i) ltac:(lia)).
    rewrite Nat2Z.id, Hi in H3. rewrite H2 in H3. exact H3.
Qed.

End Choose_pivot_facts.

(** X13: [choose_pivot] on a group of [2 ^ e] lanes returns the same
    rank to every lane, the rank of a lane of the group whose magnitude
    no lane exceeds, the magnitude of a lane being -1 if it [is_pivoted]
    and [abs(local_data)] if not; so when [abs] is above -1 and some lane
    is not pivoted, the lane chosen is not pivoted.  The order of the
    magnitudes is taken strict and total. *)
Theorem choose_pivot_result {ValueType real : Type} (abs : ValueType -> real)
        (minus_one : real) (gt : real -> real -> bool) group e fuel :
  (forall a, gt a a = false) ->
  (forall a b c, gt a b = true -> gt b c = true -> gt a c = true) ->
  (forall a b, gt a b = false -> gt b a = false -> a = b) ->
  0 <= e <= 30 ->
  Z.of_nat (length group) = 2 ^ e ->
  (Z.to_nat e < fuel)%nat ->
  exists p lane_p,
    choose_pivot abs minus_one gt fuel group
    = Some (repeat (Z.of_nat p) (length group))
    /\ nth_error group p = Some lane_p
    /\ (forall i lane, nth_error group i = Some lane ->
                       gt (magnitude abs minus_one lane)
                          (magnitude abs minus_one lane_p) = false)
    /\ ((forall x, gt (abs x) minus_one = true) ->
        (exists lane, In lane group /\ snd lane = false) ->
        snd lane_p = false).
Proof.
  intros Hirr Htrans Htotal He Hlen Hfuel.
  destruct (choose_pivot_runs abs minus_one gt Hirr Htrans Htotal group e He Hlen
              fuel Hfuel) as (p & lane_p & E & Hp & Hmax).
  exists p, lane_p. split; [exact E |]. split; [exact Hp |]. split; [exact Hmax |].
  intros Habs (lane & Hin & Hfree).
  destruct (snd lane_p) eqn:Epiv; [| reflexivity].
  apply In_nth_error in Hin as (i & Hi).
  specialize (Hmax i lane Hi). unfold magnitude in Hmax.
  rewrite Hfree, Epiv, Habs in Hmax. discriminate.
Qed.

(** Four lanes, the third one pivoted. *)
Lemma choose_pivot_result_witness :
  exists p lane_p,
    choose_pivot Z.abs (-1) Z.gtb 3 [(3, false); (-7, false); (9, true); (5, false)]
    = Some (repeat (Z.of_nat p) 4)
    /\ nth_error [(3, false); (-7, false); (9, true); (5, false)] p = Some lane_p
    /\ (forall i lane,
          nth_error [(3, false); (-7, false); (9, true); (5, false)] i = Some lane ->
          Z.gtb (magnitude Z.abs (-1) lane) (magnitude Z.abs (-1) lane_p) = false)
    /\ ((forall x, Z.gtb (Z.abs x) (-1) = true) ->
        (exists lane, In lane [(3, false); (-7, false); (9, true); (5, false)]
                      /\ snd lane = false) ->
        snd lane_p = false).
Proof.
  apply (choose_pivot_result Z.abs (-1) Z.gtb
           [(3, false); (-7, false); (9, true); (5, false)] 2 3).
  - intros a. rewrite Z.gtb_ltb. apply Z.ltb_irrefl.
  - intros a b c. rewrite !Z.gtb_ltb, !Z.ltb_lt. lia.
  - intros a b. rewrite !Z.gtb_ltb, !Z.ltb_ge. lia.
  - lia.
  - reflexivity.
  - cbn. lia.
Defined.
(** * Reference kernels of the hybrid format *)

(** ** Arrays and loops *)

Lemma list_update_length {A} (m : list A) n v : length (list_update m n v) = length m.
Proof.
  revert n. induction m as [| x m IH]; intros [| n]; cbn; auto.
Qed.

Lemma read_some {A} (m : list A) p :
  0 <= p < Z.of_nat (length m) -> exists x, read m p = Some x.
Proof.
  intros H. unfold read. destruct (0 <=? p) eqn:E; [| lia].
  destruct (nth_error m (Z.to_nat p)) as [x |] eqn:En; [exists x; reflexivity |].
  apply nth_error_None in En. lia.
Qed.

Lemma read_app_next {A} (w rest : list A) x :
  read (w ++ x :: rest) (Z.of_nat (length w)) = Some x.
Proof.
  unfold read.
  assert (E : (0 <=? Z.of_nat (length w)) = true) by (apply Z.leb_le; lia).
  rewrite E, Nat2Z.id, nth_error_app2 by lia. rewrite Nat.sub_diag. reflexivity.
Qed.

Lemma read_nth {A} (m : list A) (n : nat) :
  read m (Z.of_nat n) = nth_error m n.
Proof.
  unfold read.
  assert (E : (0 <=? Z.of_nat n) = true) by (apply Z.leb_le; lia).
  rewrite E, Nat2Z.id. reflexivity.
Qed.

Lemma list_update_app_next {A} (w rest : list A) x v :
  list_update (w ++ x :: rest) (length w) v = (w ++ [v]) ++ rest.
Proof.
  induction w as [| y w IH]; cbn; [reflexivity |]. rewrite IH. reflexivity.
Qed.

(** Writing behind what has been written. *)
Lemma write_next {A} (w a0 : list A) v :
  (length w < length a0)%nat ->
  write (w ++ skipn (length w) a0) (Z.of_nat (length w)) v
  = Some ((w ++ [v]) ++ skipn (length (w ++ [v])) a0).
Proof.
  intros H. unfold write.
  rewrite length_app, length_skipn.
  assert (E1 : (0 <=? Z.of_nat (length w)) = true) by (apply Z.leb_le; lia).
  assert (E2 : (Z.of_nat (length w) <? Z.of_nat (length w + (length a0 - length w)))
               = true) by (apply Z.ltb_lt; lia).
  rewrite E1, E2. cbn [andb]. rewrite Nat2Z.id. f_equal.
  destruct (skipn (length w) a0) as [| x rest] eqn:Es.
  - apply (f_equal (@length _)) in Es. rewrite length_skipn in Es. cbn in Es. lia.
  - rewrite list_update_app_next. f_equal.
    rewrite length_app. cbn [length]. rewrite Nat.add_1_r.
    replace (Datatypes.S (length w)) with (1 + length w)%nat by lia.
    rewrite <- skipn_skipn, Es. reflexivity.
Qed.


Lemma nth_error_list_update_same {A} (m : list A) n v :
  (n < length m)%nat -> nth_error (list_update m n v) n = Some v.
Proof.
  revert n. induction m as [| x m IH]; intros [| n] H; cbn in *; try lia; auto.
  apply IH. lia.
Qed.

Lemma nth_error_list_update_other {A} (m : list A) n n' v :
  n' <> n -> nth_error (list_update m n v) n' = nth_error m n'.
Proof.
  revert n n'. induction m as [| x m IH]; intros [| n] [| n'] H; cbn; auto; lia.
Qed.

(** A loop that keeps an invariant [P], [P k] holding after [k] turns. *)
Lemma for_turns_inv {S} (P : nat -> S -> Prop) (body : Z -> S -> option S) n :
  forall i s,
    P 0%nat s ->
    (forall k s, (k < n)%nat -> P k s ->
                 exists s', body (i + Z.of_nat k) s = Some s' /\ P (Datatypes.S k) s') ->
    exists s', for_turns n i body s = Some s' /\ P n s'.
Proof.
  revert P. induction n as [| n IH]; intros P i s H0 Hstep.
  - exists s. auto.
  - destruct (Hstep 0%nat s ltac:(lia) H0) as (s1 & E1 & H1).
    rewrite Z.add_0_r in E1.
    destruct (IH (fun k s => P (Datatypes.S k) s) (i + 1) s1 H1) as (s2 & E2 & H2).
    + intros k s' Hk Hs'. destruct (Hstep (Datatypes.S k) s' ltac:(lia) Hs') as (s'' & E & H).
      exists s''. split; [| exact H].
      rewrite <- E. f_equal. lia.
    + exists s2. cbn [for_turns]. rewrite E1. auto.
Qed.

Lemma for_loop_inv {S} (P : nat -> S -> Prop) (body : Z -> S -> option S)
      first bound s :
  first <= bound ->
  P 0%nat s ->
  (forall k s, first + Z.of_nat k < bound -> P k s ->
               exists s', body (first + Z.of_nat k) s = Some s' /\ P (Datatypes.S k) s') ->
  exists s', for_loop first bound body s = Some s' /\ P (Z.to_nat (bound - first)) s'.
Proof.
  intros Hle H0 Hstep. unfold for_loop. apply for_turns_inv; [exact H0 |].
  intros k s' Hk. apply Hstep. lia.
Qed.

Lemma for_loop_none {S} (body : Z -> S -> option S) first bound s :
  bound <= first -> for_loop first bound body s = Some s.
Proof.
  intros H. unfold for_loop. replace (Z.to_nat (bound - first)) with 0%nat by lia.
  reflexivity.
Qed.

(** ** [compute_row_nnz] and [compute_coo_row_ptrs] *)

Lemma wrap_int64_small x : - 2 ^ 63 <= x < 2 ^ 63 -> wrap_int64 x = x.
Proof. intros H. apply wrap_signed_small; [lia | exact H]. Qed.

Lemma read_nth_default (m : list Z) (n : nat) d :
  (n < length m)%nat -> read m (Z.of_nat n) = Some (nth n m d).
Proof.
  intros H. rewrite read_nth. apply nth_error_nth'. exact H.
Qed.

Lemma nth_map_seq {A} (f : nat -> A) k i d :
  (i < k)%nat -> nth i (map f (seq 0 k)) d = f i.
Proof.
  intros H.
  rewrite (nth_indep _ d (f 0%nat)) by (rewrite length_map, length_seq; lia).
  rewrite (map_nth f), seq_nth by lia. reflexivity.
Qed.

Lemma sum_differences (row_ptrs : list Z) (k : nat) :
  fold_left Z.add
            (map (fun i => nth (Datatypes.S i) row_ptrs 0 - nth i row_ptrs 0) (seq 0 k)) 0
  = nth k row_ptrs 0 - nth 0 row_ptrs 0.
Proof.
  induction k as [| k IH]; [cbn; lia |].
  rewrite seq_S, map_app, fold_left_app, IH. cbn. lia.
Qed.

Lemma compute_row_nnz_runs row_ptrs row_nnzs :
  row_ptrs <> [] ->
  (length row_ptrs - 1 <= length row_nnzs)%nat ->
  Z.of_nat (length row_ptrs) < 2 ^ 64 ->
  (forall i, (i < length row_ptrs - 1)%nat ->
             0 <= nth (Datatypes.S i) row_ptrs 0 - nth i row_ptrs 0 < 2 ^ 63) ->
  compute_row_nnz row_ptrs row_nnzs
  = Some (map (fun i => nth (Datatypes.S i) row_ptrs 0 - nth i row_ptrs 0)
              (seq 0 (length row_ptrs - 1))
          ++ skipn (length row_ptrs - 1) row_nnzs).
Proof.
  intros Hne Hlen Hfit Hmono.
  assert (Hpos : (0 < length row_ptrs)%nat) by (destruct row_ptrs; [congruence | cbn; lia]).
  unfold compute_row_nnz. unfold wrap_size at 1. rewrite Z.mod_small by lia.
  set (d := fun i => nth (Datatypes.S i) row_ptrs 0 - nth i row_ptrs 0).
  destruct (for_loop_inv
              (fun k arr => arr = map d (seq 0 k) ++ skipn k row_nnzs)
              (fun i row_nnzs =>
                 match read row_ptrs (i + 1), read row_ptrs i with
                 | Some next, Some this =>
                     write row_nnzs i (wrap_size (wrap_int64 (next - this)))
                 | _, _ => None
                 end)
              0 (Z.of_nat (length row_ptrs) - 1) row_nnzs) as (arr & E & Harr).
  - lia.
  - reflexivity.
  - intros k arr Hk ->. cbn [Z.add].
    replace (Z.of_nat k + 1) with (Z.of_nat (Datatypes.S k)) by lia.
    rewrite (read_nth_default _ _ 0), (read_nth_default _ _ 0) by lia.
    specialize (Hmono k ltac:(lia)).
    rewrite wrap_int64_small by lia. unfold wrap_size. rewrite Z.mod_small by lia.
    change (nth (Datatypes.S k) row_ptrs 0 - nth k row_ptrs 0) with (d k).
    eexists. split.
    + pose proof (write_next (map d (seq 0 k)) row_nnzs (d k)) as Hw.
      rewrite length_map, length_seq in Hw. rewrite Hw by lia.
      rewrite length_app, length_map, length_seq. cbn [length].
      rewrite Nat.add_1_r. reflexivity.
    + rewrite seq_S, map_app. reflexivity.
  - rewrite E, Harr.
    replace (Z.to_nat (Z.of_nat (length row_ptrs) - 1 - 0))
      with (length row_ptrs - 1)%nat by lia.
    reflexivity.
Qed.

(** X14: [compute_row_nnz] on the [n + 1] row pointers of [n] rows
    writes the [n] differences of neighbouring row pointers to the
    first [n] slots of [row_nnzs] and leaves the other slots; the
    numbers written add up to the last row pointer less the first. *)
Theorem compute_row_nnz_result row_ptrs row_nnzs :
  row_ptrs <> [] ->
  (length row_ptrs - 1 <= length row_nnzs)%nat ->
  Z.of_nat (length row_ptrs) < 2 ^ 64 ->
  (forall i, (i < length row_ptrs - 1)%nat ->
             0 <= nth (Datatypes.S i) row_ptrs 0 - nth i row_ptrs 0 < 2 ^ 63) ->
  exists nnz,
    compute_row_nnz row_ptrs row_nnzs
    = Some (nnz ++ skipn (length row_ptrs - 1) row_nnzs)
    /\ length nnz = (length row_ptrs - 1)%nat
    /\ (forall i, (i < length row_ptrs - 1)%nat ->
                  nth i nnz 0 = nth (Datatypes.S i) row_ptrs 0 - nth i row_ptrs 0)
    /\ fold_left Z.add nnz 0
       = nth (length row_ptrs - 1) row_ptrs 0 - nth 0 row_ptrs 0.
Proof.
  intros Hne Hlen Hfit Hmono.
  exists (map (fun i => nth (Datatypes.S i) row_ptrs 0 - nth i row_ptrs 0)
              (seq 0 (length row_ptrs - 1))).
  split; [apply compute_row_nnz_runs; assumption |].
  split; [rewrite length_map, length_seq; reflexivity |].
  split; [| apply sum_differences].
  intros i Hi.
  apply (nth_map_seq (fun i => nth (Datatypes.S i) row_ptrs 0 - nth i row_ptrs 0)).
  exact Hi.
Qed.

(** Four rows. *)
Lemma compute_row_nnz_result_witness :
  exists nnz,
    compute_row_nnz [0; 3; 3; 7; 8] [9; 9; 9; 9; 9] = Some (nnz ++ [9])
    /\ length nnz = 4%nat
    /\ (forall i, (i < 4)%nat ->
                  nth i nnz 0 = nth (Datatypes.S i) [0; 3; 3; 7; 8] 0
                                - nth i [0; 3; 3; 7; 8] 0)
    /\ fold_left Z.add nnz 0 = 8.
Proof.
  apply (compute_row_nnz_result [0; 3; 3; 7; 8] [9; 9; 9; 9; 9]).
  - discriminate.
  - cbn. lia.
  - cbn. lia.
  - intros i Hi. cbn in Hi.
    destruct i as [| [| [| [| i]]]]; cbn; lia.
Defined.

(** X15: [compute_row_nnz] on an empty array of row pointers: the
    bound [get_num_elems() - 1] of the loop wraps around in [size_type],
    and the first turn reads outside [row_ptrs]. *)
Theorem compute_row_nnz_empty row_nnzs : compute_row_nnz [] row_nnzs = None.
Proof.
  unfold compute_row_nnz, for_loop.
  destruct (Z.to_nat (wrap_size (Z.of_nat (length (@nil Z)) - 1) - 0)) as [| turns] eqn:E.
  - unfold wrap_size in E. cbn [length] in E.
    change ((Z.of_nat 0 - 1) mod 2 ^ 64) with (2 ^ 64 - 1) in E. lia.
  - reflexivity.
Qed.

Lemma fold_left_Zadd l : forall a, fold_left Z.add l a = a + fold_left Z.add l 0.
Proof.
  induction l as [| x l IH]; intros a; cbn [fold_left]; [lia |].
  rewrite (IH (a + x)), (IH (0 + x)). lia.
Qed.

Lemma prefix_sum_from_length n : forall counts acc,
  length (prefix_sum_from acc counts n) = length counts.
Proof.
  induction n as [| n IH]; intros [| x counts] acc; cbn; auto.
Qed.

(** The sums before the elements, as long as they are within [int64]. *)
Lemma prefix_sum_from_nth n : forall counts acc r,
  (r < n)%nat -> (n <= length counts)%nat ->
  (forall k, (k < n)%nat ->
             - 2 ^ 63 <= acc + fold_left Z.add (firstn k counts) 0 < 2 ^ 63) ->
  nth r (prefix_sum_from acc counts n) 0
  = acc + fold_left Z.add (firstn r counts) 0.
Proof.
  induction n as [| n IH]; intros counts acc r Hr Hn Hfit; [lia |].
  destruct counts as [| x counts]; [cbn in Hn; lia |].
  cbn [prefix_sum_from]. destruct r as [| r]; [cbn; lia |].
  cbn [nth firstn fold_left]. cbn [length] in Hn.
  assert (Hx : wrap_int64 (acc + x) = acc + x).
  { apply wrap_int64_small. specialize (Hfit 1%nat ltac:(lia)). cbn in Hfit. lia. }
  rewrite Hx, IH; [| lia | lia |].
  - rewrite (fold_left_Zadd _ (0 + x)). lia.
  - intros k Hk. specialize (Hfit (Datatypes.S k) ltac:(lia)).
    cbn [firstn fold_left] in Hfit. rewrite (fold_left_Zadd _ (0 + x)) in Hfit. lia.
Qed.

Lemma firstn_seq_le k : forall a n, (k <= n)%nat -> firstn k (seq a n) = seq a k.
Proof.
  induction k as [| k IH]; intros a n H; [reflexivity |].
  destruct n as [| n]; [lia |]. cbn [seq firstn]. rewrite IH by lia. reflexivity.
Qed.

Lemma sum_nonneg l : (forall x, In x l -> 0 <= x) -> 0 <= fold_left Z.add l 0.
Proof.
  induction l as [| x l IH]; intros H; cbn [fold_left]; [lia |].
  rewrite fold_left_Zadd.
  assert (0 <= x) by (apply H; left; reflexivity).
  assert (0 <= fold_left Z.add l 0) by (apply IH; intros y Hy; apply H; right; exact Hy).
  lia.
Qed.

Lemma sum_firstn_le l k :
  (forall x, In x l -> 0 <= x) ->
  0 <= fold_left Z.add (firstn k l) 0 <= fold_left Z.add l 0.
Proof.
  intros H. rewrite <- (firstn_skipn k l) at 3.
  rewrite fold_left_app, (fold_left_Zadd (skipn k l)).
  assert (0 <= fold_left Z.add (firstn k l) 0).
  { apply sum_nonneg. intros x Hx. apply H.
    rewrite <- (firstn_skipn k l). apply in_or_app. left. exact Hx. }
  assert (0 <= fold_left Z.add (skipn k l) 0).
  { apply sum_nonneg. intros x Hx. apply H.
    rewrite <- (firstn_skipn k l). apply in_or_app. right. exact Hx. }
  lia.
Qed.

(** X16: [compute_coo_row_ptrs] fills [coo_row_ptrs] with the row
    pointers of the COO part: the pointer of a row is the number of
    elements that the rows before it have beyond the [ell_lim] elements
    that the ELL part takes of a row; the first pointer is 0 and the one
    after the last row is the number of elements of the COO part. *)
Theorem compute_coo_row_ptrs_result row_nnz ell_lim coo_row_ptrs :
  0 <= ell_lim ->
  (forall x, In x row_nnz -> 0 <= x < 2 ^ 63) ->
  (length row_nnz + 1 <= length coo_row_ptrs)%nat ->
  Z.of_nat (length row_nnz) + 1 < 2 ^ 64 ->
  fold_left Z.add (map (fun x => Z.max 0 (x - ell_lim)) row_nnz) 0 < 2 ^ 63 ->
  exists result,
    compute_coo_row_ptrs row_nnz ell_lim coo_row_ptrs = Some result
    /\ length result = length coo_row_ptrs
    /\ forall r, (r <= length row_nnz)%nat ->
                 nth r result 0
                 = fold_left Z.add
                             (map (fun x => Z.max 0 (x - ell_lim)) (firstn r row_nnz)) 0.
Proof.
  intros Hlim Hnnz Hlen Hfit Hsum.
  set (c := fun i => Z.max 0 (nth i row_nnz 0 - ell_lim)).
  assert (Hc : forall k, (k <= length row_nnz)%nat ->
                         map c (seq 0 k)
                         = map (fun x => Z.max 0 (x - ell_lim)) (firstn k row_nnz)).
  { intros k Hk. apply (nth_ext _ _ 0 0).
    - rewrite !length_map, length_seq, length_firstn. lia.
    - intros i Hi. rewrite length_map, length_seq in Hi.
      rewrite (nth_map_seq c) by exact Hi.
      rewrite (nth_indep _ 0 ((fun x => Z.max 0 (x - ell_lim)) 0))
        by (rewrite length_map, length_firstn; lia).
      rewrite (map_nth (fun x => Z.max 0 (x - ell_lim))).
      subst c. cbn beta. rewrite nth_firstn.
      destruct (i <? k)%nat eqn:E; [reflexivity |].
      apply Nat.ltb_ge in E. lia. }
  unfold compute_coo_row_ptrs.
  destruct (for_loop_inv
              (fun k arr => arr = map c (seq 0 k) ++ skipn k coo_row_ptrs)
              (fun row coo_row_ptrs =>
                 match read row_nnz row with
                 | Some nnz =>
                     if nnz <=? ell_lim
                     then write coo_row_ptrs row 0
                     else write coo_row_ptrs row
                                (wrap_int64 (wrap_size (nnz - ell_lim)))
                 | None => None
                 end)
              0 (Z.of_nat (length row_nnz)) coo_row_ptrs) as (arr & E & Harr).
  - lia.
  - reflexivity.
  - intros k arr Hk ->. cbn [Z.add].
    rewrite (read_nth_default _ _ 0) by lia.
    assert (Hx : 0 <= nth k row_nnz 0 < 2 ^ 63) by (apply Hnnz, nth_In; lia).
    pose proof (write_next (map c (seq 0 k)) coo_row_ptrs (c k)) as Hw.
    rewrite length_map, length_seq in Hw.
    assert (Hv : (if nth k row_nnz 0 <=? ell_lim
                  then write (map c (seq 0 k) ++ skipn k coo_row_ptrs) (Z.of_nat k) 0
                  else write (map c (seq 0 k) ++ skipn k coo_row_ptrs) (Z.of_nat k)
                             (wrap_int64 (wrap_size (nth k row_nnz 0 - ell_lim))))
                 = write (map c (seq 0 k) ++ skipn k coo_row_ptrs) (Z.of_nat k) (c k)).
    { subst c. cbn beta. destruct (nth k row_nnz 0 <=? ell_lim) eqn:El.
      - f_equal. lia.
      - unfold wrap_size. rewrite Z.mod_small by lia.
        rewrite wrap_int64_small by lia. f_equal. lia. }
    rewrite Hv, Hw by lia.
    eexists. split; [reflexivity |].
    rewrite length_app, length_map, length_seq. cbn [length].
    rewrite Nat.add_1_r, seq_S, map_app. reflexivity.
  - rewrite E. subst arr.
    replace (Z.to_nat (Z.of_nat (length row_nnz) - 0)) with (length row_nnz) by lia.
    unfold prefix_sum, wrap_size. rewrite Z.mod_small by lia.
    assert (Hl : length (map c (seq 0 (length row_nnz))
                         ++ skipn (length row_nnz) coo_row_ptrs)
                 = length coo_row_ptrs).
    { rewrite length_app, length_map, length_seq, length_skipn. lia. }
    rewrite Hl.
    destruct (Z.of_nat (length row_nnz) + 1 <=? Z.of_nat (length coo_row_ptrs)) eqn:En;
      [| lia].
    eexists. split; [reflexivity |].
    split; [rewrite prefix_sum_from_length; exact Hl |].
    intros r Hr.
    assert (Hpre : forall k, (k <= length row_nnz)%nat ->
                   firstn k (map c (seq 0 (length row_nnz))
                             ++ skipn (length row_nnz) coo_row_ptrs)
                   = map (fun x => Z.max 0 (x - ell_lim)) (firstn k row_nnz)).
    { intros k Hk. rewrite firstn_app, length_map, length_seq.
      replace (k - length row_nnz)%nat with 0%nat by lia.
      cbn [firstn]. rewrite app_nil_r.
      rewrite <- (Hc k Hk). rewrite firstn_map. f_equal.
      apply firstn_seq_le. exact Hk. }
    rewrite prefix_sum_from_nth.
    + rewrite Hpre by exact Hr. lia.
    + lia.
    + lia.
    + intros k Hk. rewrite Hpre by lia.
      rewrite <- firstn_map.
      pose proof (sum_firstn_le (map (fun x => Z.max 0 (x - ell_lim)) row_nnz) k) as Hb.
      destruct Hb as [Hb1 Hb2]; [| lia].
      intros x Hx. apply in_map_iff in Hx as (y & <- & _). lia.
Qed.

(** Four rows, two elements of a row in the ELL part. *)
Lemma compute_coo_row_ptrs_result_witness :
  exists result,
    compute_coo_row_ptrs [3; 0; 4; 1] 2 [9; 9; 9; 9; 9] = Some result
    /\ length result = 5%nat
    /\ forall r, (r <= 4)%nat ->
                 nth r result 0
                 = fold_left Z.add
                             (map (fun x => Z.max 0 (x - 2)) (firstn r [3; 0; 4; 1])) 0.
Proof.
  apply (compute_coo_row_ptrs_result [3; 0; 4; 1] 2 [9; 9; 9; 9; 9]).
  - lia.
  - intros x Hx. cbn in Hx. lia.
  - cbn. lia.
  - cbn. lia.
  - cbn. lia.
Defined.

(** ** [fill_in_matrix_data] *)

Lemma write_written {A} (w a0 : list A) v :
  (length w < length a0)%nat ->
  write (written w a0) (Z.of_nat (length w)) v = Some (written (w ++ [v]) a0).
Proof. apply write_next. Qed.

Lemma written_length {A} (w a0 : list A) :
  (length w <= length a0)%nat -> length (written w a0) = length a0.
Proof.
  intros H. unfold written. rewrite length_app, length_skipn. lia.
Qed.

Lemma written_all {A} (w a0 : list A) :
  length w = length a0 -> written w a0 = w.
Proof.
  intros H. unfold written. rewrite skipn_all2 by lia. apply app_nil_r.
Qed.

Lemma firstn_succ {A} (l : list A) t x :
  nth_error l t = Some x -> firstn (Datatypes.S t) l = firstn t l ++ [x].
Proof.
  revert t. induction l as [| y l IH]; intros [| t] H; cbn in *; try discriminate.
  - congruence.
  - rewrite (IH t H). reflexivity.
Qed.

Lemma coo_entries_succ {ValueType} (nonzeros : list (matrix_data_entry ValueType))
      row_ptrs M k :
  coo_entries nonzeros row_ptrs M (Datatypes.S k)
  = coo_entries nonzeros row_ptrs M k
    ++ skipn (Z.to_nat M) (row_entries nonzeros row_ptrs k).
Proof.
  unfold coo_entries. rewrite seq_S, map_app, concat_app. cbn. rewrite app_nil_r.
  reflexivity.
Qed.

Lemma coo_entries_length_mono {ValueType}
      (nonzeros : list (matrix_data_entry ValueType)) row_ptrs M k n :
  (k <= n)%nat ->
  (length (coo_entries nonzeros row_ptrs M k)
   <= length (coo_entries nonzeros row_ptrs M n))%nat.
Proof.
  induction 1 as [| n Hle IH]; [lia |].
  rewrite coo_entries_succ, length_app. lia.
Qed.

Section Fill_in.

Context {ValueType : Type}.
Variable zero : ValueType.
Variable nonzeros : list (matrix_data_entry ValueType).
Variable row_ptrs : list Z.
Variable result : Hybrid ValueType.

Local Abbreviation num_rows := (Z.to_nat (hybrid_rows result)).
Local Abbreviation M := (ell_num_stored_elements_per_row result).
Local Abbreviation E := (row_entries nonzeros row_ptrs).
Local Abbreviation C := (coo_entries nonzeros row_ptrs (ell_num_stored_elements_per_row result)).

Hypothesis Hrows : 0 <= hybrid_rows result.
Hypothesis HM : 0 <= M.
Hypothesis Hrp : (num_rows < length row_ptrs)%nat.
Hypothesis Hmono :
  forall r, (r < num_rows)%nat ->
            0 <= nth r row_ptrs 0 <= nth (Datatypes.S r) row_ptrs 0
            /\ nth (Datatypes.S r) row_ptrs 0 <= Z.of_nat (length nonzeros).
Hypothesis Hcoo_rows : (length (C num_rows) <= length (coo_row_idxs result))%nat.
Hypothesis Hcoo_cols : (length (C num_rows) <= length (coo_col_idxs result))%nat.
Hypothesis Hcoo_vals : (length (C num_rows) <= length (coo_values result))%nat.

(** The slots of the row [r] of the ELL part hold the first nonzeros of
    the row and then zeros. *)
Local Abbreviation ell_filled h r :=
  (forall j, 0 <= j < M ->
             ell_col_at h (Z.of_nat r) j
             = match nth_error (E r) (Z.to_nat j) with
               | Some e => column e
               | None => 0
               end
             /\ ell_val_at h (Z.of_nat r) j
                = match nth_error (E r) (Z.to_nat j) with
                  | Some e => value e
                  | None => zero
                  end).

(** The COO part holds [c] in its first slots. *)
Local Abbreviation coo_holds h c :=
  (coo_row_idxs h = written (map row c) (coo_row_idxs result)
   /\ coo_col_idxs h = written (map column c) (coo_col_idxs result)
   /\ coo_values h = written (map value c) (coo_values result)).

Local Abbreviation same_size h :=
  (hybrid_rows h = hybrid_rows result
   /\ ell_num_stored_elements_per_row h = M).

Lemma row_entries_length r :
  (r < num_rows)%nat ->
  length (E r) = Z.to_nat (nth (Datatypes.S r) row_ptrs 0 - nth r row_ptrs 0).
Proof.
  intros Hr. destruct (Hmono r Hr) as [H1 H2].
  unfold row_entries. rewrite length_firstn, length_skipn. lia.
Qed.

Lemma row_entries_nth r t :
  (r < num_rows)%nat ->
  (t < length (E r))%nat ->
  read nonzeros (nth r row_ptrs 0 + Z.of_nat t) = nth_error (E r) t.
Proof.
  intros Hr Ht. pose proof (row_entries_length r Hr) as Hl.
  destruct (Hmono r Hr) as [H1 H2].
  unfold row_entries. rewrite nth_error_firstn.
  destruct (t <? _)%nat eqn:Elt; [| apply Nat.ltb_ge in Elt; lia].
  rewrite nth_error_skipn.
  replace (nth r row_ptrs 0 + Z.of_nat t)
    with (Z.of_nat (Z.to_nat (nth r row_ptrs 0) + t)) by lia.
  apply read_nth.
Qed.

Lemma set_coo_next h c e :
  coo_holds h c ->
  (length c < length (coo_row_idxs result))%nat ->
  (length c < length (coo_col_idxs result))%nat ->
  (length c < length (coo_values result))%nat ->
  exists h',
    set_coo h (Z.of_nat (length c)) e = Some h'
    /\ coo_holds h' (c ++ [e])
    /\ hybrid_rows h' = hybrid_rows h
    /\ ell_num_stored_elements_per_row h' = ell_num_stored_elements_per_row h
    /\ ell_col_at h' = ell_col_at h
    /\ ell_val_at h' = ell_val_at h.
Proof.
  intros (H1 & H2 & H3) L1 L2 L3. unfold set_coo. rewrite H1, H2, H3.
  pose proof (write_written (map row c) (coo_row_idxs result) (row e)) as W1.
  pose proof (write_written (map column c) (coo_col_idxs result) (column e)) as W2.
  pose proof (write_written (map value c) (coo_values result) (value e)) as W3.
  rewrite length_map in W1, W2, W3.
  rewrite W1, W2, W3 by assumption.
  eexists. split; [reflexivity |]. cbn.
  rewrite !map_app. cbn [map]. auto 10.
Qed.

(** The loop over the nonzeros of the row [k]. *)
Lemma fill_row_entries k st :
  (k < num_rows)%nat ->
  same_size (fill_result st) ->
  coo_holds (fill_result st) (C k) ->
  exists st1,
    for_loop (nth k row_ptrs 0) (nth (Datatypes.S k) row_ptrs 0)
             (fill_nonzero nonzeros M (Z.of_nat k))
             {| fill_result := fill_result st;
                fill_coo_nz := Z.of_nat (length (C k));
                fill_ell_nz := 0 |}
    = Some st1
    /\ same_size (fill_result st1)
    /\ fill_ell_nz st1 = Z.min (Z.of_nat (length (E k))) M
    /\ fill_coo_nz st1 = Z.of_nat (length (C (Datatypes.S k)))
    /\ coo_holds (fill_result st1) (C (Datatypes.S k))
    /\ (forall j, 0 <= j < Z.min (Z.of_nat (length (E k))) M ->
                  ell_col_at (fill_result st1) (Z.of_nat k) j
                  = match nth_error (E k) (Z.to_nat j) with
                    | Some e => column e
                    | None => 0
                    end
                  /\ ell_val_at (fill_result st1) (Z.of_nat k) j
                     = match nth_error (E k) (Z.to_nat j) with
                       | Some e => value e
                       | None => zero
                       end)
    /\ (forall r j, r <> Z.of_nat k ->
                    ell_col_at (fill_result st1) r j = ell_col_at (fill_result st) r j
                    /\ ell_val_at (fill_result st1) r j = ell_val_at (fill_result st) r j).
Proof.
  intros Hk Hsize Hcoo.
  pose proof (row_entries_length k Hk) as Hl.
  destruct (Hmono k Hk) as [Hm1 Hm2].
  pose proof (coo_entries_length_mono nonzeros row_ptrs M (Datatypes.S k) num_rows
                ltac:(lia)) as Hcap.
  rewrite coo_entries_succ, length_app in Hcap.
  set (overflow := fun t : nat => skipn (Z.to_nat M) (firstn t (E k))).
  destruct (for_loop_inv
              (fun t st1 =>
                 (t <= length (E k))%nat
                 /\ same_size (fill_result st1)
                 /\ fill_ell_nz st1 = Z.min (Z.of_nat t) M
                 /\ fill_coo_nz st1 = Z.of_nat (length (C k ++ overflow t))
                 /\ coo_holds (fill_result st1) (C k ++ overflow t)
                 /\ (forall j, 0 <= j < Z.min (Z.of_nat t) M ->
                               ell_col_at (fill_result st1) (Z.of_nat k) j
                               = match nth_error (E k) (Z.to_nat j) with
                                 | Some e => column e
                                 | None => 0
                                 end
                               /\ ell_val_at (fill_result st1) (Z.of_nat k) j
                                  = match nth_error (E k) (Z.to_nat j) with
                                    | Some e => value e
                                    | None => zero
                                    end)
                 /\ (forall r j, r <> Z.of_nat k ->
                                 ell_col_at (fill_result st1) r j
                                 = ell_col_at (fill_result st) r j
                                 /\ ell_val_at (fill_result st1) r j
                                    = ell_val_at (fill_result st) r j))
              (fill_nonzero nonzeros M (Z.of_nat k))
              (nth k row_ptrs 0) (nth (Datatypes.S k) row_ptrs 0)
              {| fill_result := fill_result st;
                 fill_coo_nz := Z.of_nat (length (C k));
                 fill_ell_nz := 0 |})
    as (st1 & Erun & Hinv).
  - lia.
  - cbn [fill_result fill_coo_nz fill_ell_nz]. subst overflow. cbn beta.
    cbn [firstn]. rewrite skipn_nil, app_nil_r.
    split; [lia |]. split; [exact Hsize |]. split; [lia |]. split; [reflexivity |].
    split; [exact Hcoo |]. split; [intros j Hj; lia | auto].
  - intros t s Ht (Hle & Hs & Hell & Hnz & Hc & Hslots & Hother).
    assert (Htl : (t < length (E k))%nat) by lia.
    unfold fill_nonzero. rewrite (row_entries_nth k t Hk Htl).
    destruct (nth_error (E k) t) as [e |] eqn:Ee;
      [| apply nth_error_None in Ee; lia].
    assert (Hfirst : firstn (Datatypes.S t) (E k) = firstn t (E k) ++ [e])
      by (apply firstn_succ; exact Ee).
    destruct Hs as [Hs1 Hs2].
    rewrite Hell.
    destruct (Z.min (Z.of_nat t) M <? M) eqn:Elt.
    + (* a slot of the ELL part *)
      assert (HtM : Z.of_nat t < M) by lia.
      assert (Hov : overflow (Datatypes.S t) = overflow t).
      { subst overflow. cbn beta.
        rewrite !skipn_all2; [reflexivity | |]; rewrite length_firstn; lia. }
      eexists. split; [reflexivity |].
      cbn [fill_result fill_coo_nz fill_ell_nz set_ell hybrid_rows
           ell_num_stored_elements_per_row coo_row_idxs coo_col_idxs coo_values
           ell_col_at ell_val_at].
      rewrite Hov.
      split; [lia |]. split; [auto |]. split; [lia |]. split; [exact Hnz |].
      split; [exact Hc |]. split.
      * intros j Hj. rewrite Z.eqb_refl. cbn [andb].
        replace (Z.min (Z.of_nat t) M) with (Z.of_nat t) by lia.
        destruct (j =? Z.of_nat t) eqn:Ej.
        -- assert (j = Z.of_nat t) by lia. subst j. rewrite Nat2Z.id, Ee. auto.
        -- apply Hslots. lia.
      * intros r j Hr.
        destruct (r =? Z.of_nat k) eqn:Er; [lia |]. cbn [andb]. apply Hother. exact Hr.
    + (* a slot of the COO part *)
      assert (HtM : M <= Z.of_nat t) by lia.
      assert (Hov : overflow (Datatypes.S t) = overflow t ++ [e]).
      { subst overflow. cbn beta. rewrite Hfirst.
        rewrite skipn_app, length_firstn.
        replace (Z.to_nat M - Nat.min t (length (E k)))%nat with 0%nat by lia.
        reflexivity. }
      assert (Hovl : (length (overflow t) < length (skipn (Z.to_nat M) (E k)))%nat).
      { subst overflow. cbn beta. rewrite !length_skipn, length_firstn. lia. }
      rewrite Hnz.
      destruct (set_coo_next (fill_result s) (C k ++ overflow t) e Hc)
        as (h' & Eset & Hc' & R1 & R2 & R3 & R4);
        [rewrite length_app; lia | rewrite length_app; lia | rewrite length_app; lia |].
      rewrite Eset. eexists. split; [reflexivity |].
      cbn [fill_result fill_coo_nz fill_ell_nz].
      rewrite Hov, app_assoc.
      split; [lia |]. split; [split; congruence |]. split; [lia |].
      split; [rewrite (length_app _ [e]); cbn [length]; lia |].
      split; [exact Hc' |]. rewrite R3, R4. split.
      * intros j Hj. apply Hslots. lia.
      * exact Hother.
  - replace (Z.to_nat (nth (Datatypes.S k) row_ptrs 0 - nth k row_ptrs 0))
      with (length (E k)) in Hinv by lia.
    destruct Hinv as (_ & Hs & Hell & Hnz & Hc & Hslots & Hother).
    assert (Hall : overflow (length (E k)) = skipn (Z.to_nat M) (E k)).
    { subst overflow. cbn beta. rewrite firstn_all. reflexivity. }
    rewrite Hall, <- coo_entries_succ in Hnz, Hc.
    exists st1. auto 10.
Qed.

(** The loop over the slots left of the row [k]. *)
Lemma fill_padding_runs k st1 :
  0 <= fill_ell_nz st1 <= M ->
  exists st2,
    for_loop (fill_ell_nz st1) M (fill_padding zero (Z.of_nat k)) st1 = Some st2
    /\ fill_coo_nz st2 = fill_coo_nz st1
    /\ hybrid_rows (fill_result st2) = hybrid_rows (fill_result st1)
    /\ ell_num_stored_elements_per_row (fill_result st2)
       = ell_num_stored_elements_per_row (fill_result st1)
    /\ coo_row_idxs (fill_result st2) = coo_row_idxs (fill_result st1)
    /\ coo_col_idxs (fill_result st2) = coo_col_idxs (fill_result st1)
    /\ coo_values (fill_result st2) = coo_values (fill_result st1)
    /\ (forall j, fill_ell_nz st1 <= j < M ->
                  ell_col_at (fill_result st2) (Z.of_nat k) j = 0
                  /\ ell_val_at (fill_result st2) (Z.of_nat k) j = zero)
    /\ (forall r j, r <> Z.of_nat k \/ j < fill_ell_nz st1 ->
                    ell_col_at (fill_result st2) r j = ell_col_at (fill_result st1) r j
                    /\ ell_val_at (fill_result st2) r j
                       = ell_val_at (fill_result st1) r j).
Proof.
  intros Hz.
  destruct (for_loop_inv
              (fun u st2 =>
                 fill_coo_nz st2 = fill_coo_nz st1
                 /\ hybrid_rows (fill_result st2) = hybrid_rows (fill_result st1)
                 /\ ell_num_stored_elements_per_row (fill_result st2)
                    = ell_num_stored_elements_per_row (fill_result st1)
                 /\ coo_row_idxs (fill_result st2) = coo_row_idxs (fill_result st1)
                 /\ coo_col_idxs (fill_result st2) = coo_col_idxs (fill_result st1)
                 /\ coo_values (fill_result st2) = coo_values (fill_result st1)
                 /\ (forall j, fill_ell_nz st1 <= j < fill_ell_nz st1 + Z.of_nat u ->
                               ell_col_at (fill_result st2) (Z.of_nat k) j = 0
                               /\ ell_val_at (fill_result st2) (Z.of_nat k) j = zero)
                 /\ (forall r j, r <> Z.of_nat k \/ j < fill_ell_nz st1 ->
                                 ell_col_at (fill_result st2) r j
                                 = ell_col_at (fill_result st1) r j
                                 /\ ell_val_at (fill_result st2) r j
                                    = ell_val_at (fill_result st1) r j))
              (fill_padding zero (Z.of_nat k)) (fill_ell_nz st1) M st1)
    as (st2 & Erun & Hinv).
  - lia.
  - repeat split; auto. all: lia.
  - intros u s Hu (H1 & H2 & H3 & H4 & H5 & H6 & Hpad & Hother).
    unfold fill_padding. eexists. split; [reflexivity |].
    cbn [fill_result fill_coo_nz fill_ell_nz set_ell hybrid_rows
         ell_num_stored_elements_per_row coo_row_idxs coo_col_idxs coo_values
         ell_col_at ell_val_at].
    repeat (split; [assumption |]). split.
    + intros j Hj. rewrite Z.eqb_refl. cbn [andb].
      destruct (j =? fill_ell_nz st1 + Z.of_nat u) eqn:Ej; [auto |].
      apply Hpad. lia.
    + intros r j Hr.
      destruct ((r =? Z.of_nat k) && (j =? fill_ell_nz st1 + Z.of_nat u)) eqn:Eb.
      * apply andb_prop in Eb. lia.
      * apply Hother. exact Hr.
  - exists st2. split; [exact Erun |].
    destruct Hinv as (H1 & H2 & H3 & H4 & H5 & H6 & Hpad & Hother).
    repeat (split; [assumption |]). split; [| exact Hother].
    intros j Hj. apply Hpad. lia.
Qed.

(** What holds before the turn of the row [k]. *)
Local Abbreviation rows_filled k st :=
  (same_size (fill_result st)
   /\ fill_coo_nz st = Z.of_nat (length (C k))
   /\ coo_holds (fill_result st) (C k)
   /\ forall r, (r < k)%nat -> ell_filled (fill_result st) r).

Lemma fill_row_runs k st :
  (k < num_rows)%nat ->
  rows_filled k st ->
  exists st',
    fill_row zero nonzeros row_ptrs M (Z.of_nat k) st = Some st'
    /\ rows_filled (Datatypes.S k) st'.
Proof.
  intros Hk (Hsize & Hnz & Hcoo & Hell).
  unfold fill_row.
  replace (Z.of_nat k + 1) with (Z.of_nat (Datatypes.S k)) by lia.
  rewrite (read_nth_default _ _ 0), (read_nth_default _ _ 0) by lia.
  rewrite Hnz.
  destruct (fill_row_entries k st Hk Hsize Hcoo)
    as (st1 & E1 & Hs1 & Hell1 & Hnz1 & Hcoo1 & Hslots1 & Hother1).
  rewrite E1.
  destruct (fill_padding_runs k st1)
    as (st2 & E2 & P1 & P2 & P3 & P4 & P5 & P6 & Hpad & Hother2); [lia |].
  rewrite E2. exists st2. split; [reflexivity |].
  destruct Hs1 as [Hs11 Hs12]. destruct Hcoo1 as (Q1 & Q2 & Q3).
  split; [split; congruence |]. split; [congruence |].
  split; [repeat split; congruence |].
  intros r Hr j Hj.
  destruct (Nat.eq_dec r k) as [-> | Hne].
  - destruct (Z.lt_ge_cases j (fill_ell_nz st1)) as [Hlow | Hhigh].
    + destruct (Hother2 (Z.of_nat k) j (or_intror Hlow)) as [-> ->].
      apply Hslots1. lia.
    + destruct (Hpad j ltac:(lia)) as [-> ->].
      destruct (nth_error (E k) (Z.to_nat j)) as [e |] eqn:Ee; [| auto].
      assert (nth_error (E k) (Z.to_nat j) <> None) as Hsome by congruence.
      apply nth_error_Some in Hsome. lia.
  - assert (Hrk : Z.of_nat r <> Z.of_nat k) by lia.
    destruct (Hother2 (Z.of_nat r) j (or_introl Hrk)) as [-> ->].
    destruct (Hother1 (Z.of_nat r) j Hrk) as [-> ->].
    apply Hell; [lia | exact Hj].
Qed.

Lemma fill_in_matrix_data_runs :
  exists h,
    fill_in_matrix_data zero nonzeros row_ptrs result = Some h
    /\ same_size h
    /\ coo_holds h (C num_rows)
    /\ forall r, (r < num_rows)%nat -> ell_filled h r.
Proof.
  unfold fill_in_matrix_data.
  destruct (for_loop_inv
              (fun k st => (k <= num_rows)%nat /\ rows_filled k st)
              (fill_row zero nonzeros row_ptrs M) 0 (hybrid_rows result)
              {| fill_result := result; fill_coo_nz := 0; fill_ell_nz := 0 |})
    as (st & E & _ & Hs & _ & Hc & Hell).
  - exact Hrows.
  - split; [lia |]. split; [split; reflexivity |]. split; [reflexivity |].
    split; [repeat split; reflexivity |]. intros r Hr. lia.
  - intros k s Hk (_ & Hinv). cbn [Z.add].
    destruct (fill_row_runs k s ltac:(lia) Hinv) as (s' & Es & Hs').
    exists s'. split; [exact Es |]. split; [lia | exact Hs'].
  - rewrite E. cbn [option_map]. exists (fill_result st).
    rewrite Z.sub_0_r in Hc, Hell. auto.
Qed.

End Fill_in.

(** ** [convert_to_csr] *)

Lemma read_map_app_next {A B} (f : A -> B) (pre : list A) x rest :
  read (map f pre ++ x :: rest) (Z.of_nat (length pre)) = Some x.
Proof.
  rewrite <- (length_map f pre). apply read_app_next.
Qed.

Section Convert.

Context {ValueType : Type}.
Variable is_nonzero : ValueType -> bool.
Variable index_bits : Z.
Variable source : Hybrid ValueType.
Variable result : Csr ValueType.
Variable coo : nat -> list (matrix_data_entry ValueType).

Local Abbreviation num_rows := (Z.to_nat (hybrid_rows source)).
Local Abbreviation M := (ell_num_stored_elements_per_row source).
Local Abbreviation out := (csr_entries is_nonzero source coo).
Local Abbreviation all_coo n := (concat (map coo (seq 0 n))).

Hypothesis Hrows : 0 <= hybrid_rows source.
Hypothesis HM : 0 <= M.
Hypothesis Hcoo_row :
  forall r e, (r < num_rows)%nat -> In e (coo r) -> row e = Z.of_nat r.
Hypothesis Hcoo_rows : coo_row_idxs source = map row (all_coo num_rows).
Hypothesis Hcoo_cols : coo_col_idxs source = map column (all_coo num_rows).
Hypothesis Hcoo_vals : coo_values source = map value (all_coo num_rows).
Hypothesis Hcap_vals : (length (out num_rows) <= length (csr_values result))%nat.
Hypothesis Hcap_cols : (length (out num_rows) <= length (csr_col_idxs result))%nat.
Hypothesis Hcap_ptrs : (num_rows < length (csr_row_ptrs result))%nat.

(** [IndexType] is a signed integer of at most 64 bits that holds the
    number of rows, the width of the ELL part and the number of elements
    to write. *)
Hypothesis Hbits : 0 < index_bits <= 64.
Hypothesis Hrows_fit : hybrid_rows source < 2 ^ (index_bits - 1).
Hypothesis HM_fit : M < 2 ^ (index_bits - 1).
Hypothesis Hout_fit : Z.of_nat (length (out num_rows)) < 2 ^ (index_bits - 1).

Lemma index_bound : 2 ^ (index_bits - 1) <= 2 ^ 63.
Proof. apply Z.pow_le_mono_r; lia. Qed.

Lemma wrap_index_small x :
  0 <= x < 2 ^ (index_bits - 1) -> wrap_index index_bits x = x.
Proof. intros H. unfold wrap_index. apply wrap_signed_small; lia. Qed.

(** The CSR arrays hold [w] in their first slots. *)
Local Abbreviation csr_holds st w :=
  (csr_values (conv_result st) = written (map fst w) (csr_values result)
   /\ csr_col_idxs (conv_result st) = written (map snd w) (csr_col_idxs result)
   /\ conv_csr_idx st = Z.of_nat (length w)).

Lemma push_csr_next st w val col :
  csr_holds st w ->
  (length w < length (csr_values result))%nat ->
  (length w < length (csr_col_idxs result))%nat ->
  Z.of_nat (length w) + 1 < 2 ^ 64 ->
  exists st',
    push_csr st val col = Some st'
    /\ csr_holds st' (w ++ [(val, col)])
    /\ conv_coo_idx st' = conv_coo_idx st
    /\ csr_row_ptrs (conv_result st') = csr_row_ptrs (conv_result st).
Proof.
  intros (H1 & H2 & H3) L1 L2 L3. unfold push_csr. rewrite H1, H2, H3.
  pose proof (write_written (map fst w) (csr_values result) val) as W1.
  pose proof (write_written (map snd w) (csr_col_idxs result) col) as W2.
  rewrite length_map in W1, W2. rewrite W1, W2 by assumption.
  eexists. split; [reflexivity |]. cbn -[wrap_size].
  rewrite !map_app, length_app. cbn [map fst snd length].
  unfold wrap_size. rewrite Z.mod_small by lia.
  repeat split; auto. lia.
Qed.

Lemma csr_entries_succ k :
  out (Datatypes.S k)
  = out k ++ ell_nonzeros is_nonzero source (Z.of_nat k) (Z.to_nat M)
    ++ map csr_entry (coo k).
Proof.
  unfold csr_entries. rewrite seq_S, map_app, concat_app. cbn. rewrite app_nil_r.
  reflexivity.
Qed.

Lemma csr_entries_length_mono k n :
  (k <= n)%nat -> (length (out k) <= length (out n))%nat.
Proof.
  induction 1 as [| n Hle IH]; [lia |].
  rewrite csr_entries_succ, length_app. lia.
Qed.

Lemma ell_nonzeros_succ r u :
  ell_nonzeros is_nonzero source r (Datatypes.S u)
  = ell_nonzeros is_nonzero source r u
    ++ (if is_nonzero (ell_val_at source r (Z.of_nat u))
        then [(ell_val_at source r (Z.of_nat u), ell_col_at source r (Z.of_nat u))]
        else []).
Proof.
  unfold ell_nonzeros. rewrite seq_S, map_app, filter_app, map_app. cbn.
  destruct (is_nonzero _); reflexivity.
Qed.

Lemma ell_nonzeros_length_mono r u v :
  (u <= v)%nat ->
  (length (ell_nonzeros is_nonzero source r u)
   <= length (ell_nonzeros is_nonzero source r v))%nat.
Proof.
  induction 1 as [| v Hle IH]; [lia |].
  rewrite ell_nonzeros_succ, length_app. lia.
Qed.

(** The loop over the slots of the row [k] of the ELL part. *)
Lemma convert_ell_runs k st :
  (k < num_rows)%nat ->
  csr_holds st (out k) ->
  exists st1,
    index_loop index_bits M (convert_ell_slot is_nonzero source (Z.of_nat k)) st
    = Some st1
    /\ csr_holds st1 (out k ++ ell_nonzeros is_nonzero source (Z.of_nat k) (Z.to_nat M))
    /\ conv_coo_idx st1 = conv_coo_idx st
    /\ csr_row_ptrs (conv_result st1) = csr_row_ptrs (conv_result st).
Proof.
  intros Hk Hst.
  pose proof (csr_entries_length_mono (Datatypes.S k) num_rows ltac:(lia)) as Hcap.
  rewrite csr_entries_succ, !length_app in Hcap.
  pose proof index_bound as Hpow.
  unfold index_loop.
  destruct (for_loop_inv
              (fun u st1 =>
                 (u <= Z.to_nat M)%nat
                 /\ csr_holds st1 (out k ++ ell_nonzeros is_nonzero source (Z.of_nat k) u)
                 /\ conv_coo_idx st1 = conv_coo_idx st
                 /\ csr_row_ptrs (conv_result st1) = csr_row_ptrs (conv_result st))
              (fun col => convert_ell_slot is_nonzero source (Z.of_nat k)
                                           (wrap_index index_bits col))
              0 M st)
    as (st1 & E & _ & Hinv).
  - exact HM.
  - split; [lia |]. unfold ell_nonzeros. cbn [seq map filter].
    rewrite app_nil_r. auto.
  - intros u s Hu (Hle & Hs & Hc & Hp). cbn [Z.add].
    rewrite wrap_index_small by lia.
    unfold convert_ell_slot. rewrite ell_nonzeros_succ.
    pose proof (ell_nonzeros_length_mono (Z.of_nat k) (Datatypes.S u) (Z.to_nat M)
                  ltac:(lia)) as Hmono.
    rewrite ell_nonzeros_succ, length_app in Hmono.
    destruct (is_nonzero (ell_val_at source (Z.of_nat k) (Z.of_nat u))) eqn:Enz.
    + cbn [length] in Hmono.
      destruct (push_csr_next s _ (ell_val_at source (Z.of_nat k) (Z.of_nat u))
                              (ell_col_at source (Z.of_nat k) (Z.of_nat u)) Hs)
        as (s' & Es & Hs' & Hc' & Hp');
        [rewrite length_app; lia | rewrite length_app; lia | rewrite length_app; lia |].
      exists s'. split; [exact Es |]. split; [lia |].
      rewrite app_assoc. split; [exact Hs' |]. split; congruence.
    + exists s. split; [reflexivity |]. rewrite app_nil_r. split; [lia | auto].
  - exists st1. split; [exact E |]. rewrite Z.sub_0_r in Hinv. exact Hinv.
Qed.

(** The loop over the elements of the COO part of the row [r]: [todo]
    are the elements of the row not yet taken, [post] those of the later
    rows. *)
Lemma convert_coo_part_runs r pre post : forall todo w st turns,
  coo_row_idxs source = map row (pre ++ todo ++ post) ->
  coo_col_idxs source = map column (pre ++ todo ++ post) ->
  coo_values source = map value (pre ++ todo ++ post) ->
  (forall e, In e todo -> row e = r) ->
  match post with e :: _ => row e <> r | [] => True end ->
  conv_coo_idx st = Z.of_nat (length pre) ->
  csr_holds st w ->
  (length w + length todo <= length (csr_values result))%nat ->
  (length w + length todo <= length (csr_col_idxs result))%nat ->
  Z.of_nat (length w + length todo) < 2 ^ 64 ->
  Z.of_nat (length pre + length todo) < 2 ^ 64 ->
  (length todo <= turns)%nat ->
  exists st',
    convert_coo_part turns source r st = Some st'
    /\ csr_holds st' (w ++ map csr_entry todo)
    /\ conv_coo_idx st' = Z.of_nat (length (pre ++ todo))
    /\ csr_row_ptrs (conv_result st') = csr_row_ptrs (conv_result st).
Proof.
  intros todo. revert pre.
  induction todo as [| e todo IH];
    intros pre w st turns Hr Hc Hv Hrow Hpost Hidx Hst L1 L2 L3 L4 Hturns.
  - cbn [map]. rewrite !app_nil_r. cbn [app] in Hr, Hc, Hv.
    exists st. split; [| auto].
    destruct turns as [| turns]; [reflexivity |]. cbn [convert_coo_part].
    rewrite Hidx.
    destruct (Z.of_nat (length pre) <? Z.of_nat (length (coo_values source))) eqn:El;
      [| reflexivity].
    rewrite Hv, length_map in El.
    destruct post as [| e post]; [rewrite app_nil_r in El; lia |].
    rewrite Hr, map_app. cbn [map]. rewrite read_map_app_next.
    destruct (row e =? r) eqn:Er; [lia | reflexivity].
  - destruct turns as [| turns]; [cbn in Hturns; lia |]. cbn [convert_coo_part].
    assert (El : (Z.of_nat (length pre) <? Z.of_nat (length (coo_values source))) = true).
    { apply Z.ltb_lt. rewrite Hv, length_map, !length_app. cbn [length]. lia. }
    assert (Rr : read (coo_row_idxs source) (Z.of_nat (length pre)) = Some (row e)).
    { rewrite Hr, map_app. cbn [map app]. apply read_map_app_next. }
    assert (Rv : read (coo_values source) (Z.of_nat (length pre)) = Some (value e)).
    { rewrite Hv, map_app. cbn [map app]. apply read_map_app_next. }
    assert (Rc : read (coo_col_idxs source) (Z.of_nat (length pre)) = Some (column e)).
    { rewrite Hc, map_app. cbn [map app]. apply read_map_app_next. }
    rewrite Hidx, El, Rr, Rv, Rc.
    rewrite (Hrow e (or_introl eq_refl)), Z.eqb_refl.
    cbn [length] in L1, L2, L3, L4, Hturns.
    destruct (push_csr_next st w (value e) (column e) Hst) as (s' & Es & Hs' & Hc' & Hp');
      [lia | lia | lia |].
    rewrite Es.
    destruct (IH (pre ++ [e]) (w ++ [csr_entry e])
                 {| conv_result := conv_result s';
                    conv_csr_idx := conv_csr_idx s';
                    conv_coo_idx := wrap_size (conv_coo_idx s' + 1) |}
                 turns)
      as (st' & Erun & Hst' & Hidx' & Hptr').
    + rewrite Hr, <- !app_assoc. reflexivity.
    + rewrite Hc, <- !app_assoc. reflexivity.
    + rewrite Hv, <- !app_assoc. reflexivity.
    + intros e' He'. apply Hrow. right. exact He'.
    + exact Hpost.
    + cbn [conv_coo_idx]. rewrite Hc', Hidx, length_app. cbn [length].
      unfold wrap_size. rewrite Z.mod_small by lia. lia.
    + exact Hs'.
    + rewrite length_app. cbn [length]. lia.
    + rewrite length_app. cbn [length]. lia.
    + rewrite length_app. cbn [length]. lia.
    + rewrite length_app. cbn [length]. lia.
    + lia.
    + exists st'. split; [exact Erun |].
      cbn [map]. rewrite <- !app_assoc in Hst', Hidx'. cbn [app] in Hst', Hidx'.
      split; [exact Hst' |]. split; [exact Hidx' |].
      rewrite Hptr'. cbn [conv_result]. exact Hp'.
Qed.

Lemma all_coo_split k :
  (k < num_rows)%nat ->
  all_coo num_rows
  = all_coo k ++ coo k ++ concat (map coo (seq (Datatypes.S k) (num_rows - Datatypes.S k))).
Proof.
  intros Hk.
  replace num_rows with (k + (1 + (num_rows - Datatypes.S k)))%nat at 1 by lia.
  rewrite seq_app, (seq_app 1). cbn [Nat.add seq].
  replace (k + 1)%nat with (Datatypes.S k) by lia.
  rewrite !map_app, !concat_app. cbn [map concat]. rewrite app_nil_r. reflexivity.
Qed.

Lemma all_coo_succ k : all_coo (Datatypes.S k) = all_coo k ++ coo k.
Proof.
  rewrite seq_S, map_app, concat_app. cbn. rewrite app_nil_r. reflexivity.
Qed.

Lemma all_coo_length k : (length (all_coo k) <= length (out k))%nat.
Proof.
  induction k as [| k IH]; [cbn; lia |].
  rewrite all_coo_succ, csr_entries_succ, !length_app, length_map. lia.
Qed.

(** What holds before the turn of the row [k]. *)
Local Abbreviation rows_converted k st :=
  (csr_holds st (out k)
   /\ conv_coo_idx st = Z.of_nat (length (all_coo k))
   /\ csr_row_ptrs (conv_result st)
      = written (map (fun j => Z.of_nat (length (out j))) (seq 0 (Datatypes.S k)))
                (csr_row_ptrs result)).

Lemma convert_row_runs k st :
  (k < num_rows)%nat ->
  rows_converted k st ->
  exists st',
    convert_row is_nonzero index_bits source (Z.of_nat k) st = Some st'
    /\ rows_converted (Datatypes.S k) st'.
Proof.
  intros Hk (Hst & Hidx & Hptr). unfold convert_row.
  destruct (convert_ell_runs k st Hk Hst) as (st1 & E1 & Hst1 & Hidx1 & Hptr1).
  rewrite E1.
  pose proof (csr_entries_length_mono (Datatypes.S k) num_rows ltac:(lia)) as Hcap.
  rewrite csr_entries_succ, !length_app, length_map in Hcap.
  pose proof (all_coo_split k Hk) as Hsplit.
  pose proof index_bound as Hpow.
  pose proof (all_coo_length (Datatypes.S k)) as Hcoo_len.
  rewrite all_coo_succ, csr_entries_succ, !length_app, length_map in Hcoo_len.
  set (post := concat (map coo (seq (Datatypes.S k) (num_rows - Datatypes.S k)))) in *.
  destruct (convert_coo_part_runs (Z.of_nat k) (all_coo k) post (coo k)
              (out k ++ ell_nonzeros is_nonzero source (Z.of_nat k) (Z.to_nat M))
              st1
              (Z.to_nat (Z.of_nat (length (coo_values source)) - conv_coo_idx st1)))
    as (st2 & E2 & Hst2 & Hidx2 & Hptr2).
  - rewrite Hcoo_rows, Hsplit. reflexivity.
  - rewrite Hcoo_cols, Hsplit. reflexivity.
  - rewrite Hcoo_vals, Hsplit. reflexivity.
  - intros e He. apply (Hcoo_row k e Hk He).
  - assert (Hlater : forall e, In e post -> row e <> Z.of_nat k).
    { intros e He. subst post. apply in_concat in He as (l & Hl & He).
      apply in_map_iff in Hl as (r & <- & Hr). apply in_seq in Hr.
      rewrite (Hcoo_row r e ltac:(lia) He). lia. }
    destruct post as [| e post']; [exact I |].
    apply Hlater. left. reflexivity.
  - congruence.
  - exact Hst1.
  - rewrite length_app. lia.
  - rewrite length_app. lia.
  - rewrite length_app. lia.
  - lia.
  - rewrite Hcoo_vals, Hsplit, Hidx1, Hidx, length_map, !length_app. lia.
  - rewrite E2.
    assert (Hidx_fit : conv_csr_idx st2 = Z.of_nat (length (out (Datatypes.S k)))).
    { destruct Hst2 as (_ & _ & ->). rewrite csr_entries_succ, app_assoc. reflexivity. }
    assert (Hk_fit : Z.of_nat (length (out (Datatypes.S k))) < 2 ^ (index_bits - 1)).
    { rewrite csr_entries_succ, !length_app, length_map. lia. }
    rewrite (wrap_index_small (Z.of_nat k + 1)) by lia.
    rewrite (wrap_index_small (conv_csr_idx st2)) by lia.
    assert (Hw : write (csr_row_ptrs (conv_result st2)) (Z.of_nat k + 1)
                       (conv_csr_idx st2)
                 = Some (written
                           (map (fun j => Z.of_nat (length (out j)))
                                (seq 0 (Datatypes.S (Datatypes.S k))))
                           (csr_row_ptrs result))).
    { rewrite Hptr2, Hptr1, Hptr.
      pose proof (write_written
                    (map (fun j => Z.of_nat (length (out j))) (seq 0 (Datatypes.S k)))
                    (csr_row_ptrs result) (conv_csr_idx st2)) as W.
      rewrite length_map, length_seq in W.
      replace (Z.of_nat k + 1) with (Z.of_nat (Datatypes.S k)) by lia.
      rewrite W by lia. f_equal. f_equal.
      rewrite (seq_S (Datatypes.S k) 0), map_app. cbn [map Nat.add]. do 2 f_equal.
      destruct Hst2 as (_ & _ & ->).
      rewrite csr_entries_succ, app_assoc. reflexivity. }
    rewrite Hw. eexists. split; [reflexivity |].
    cbn [conv_result conv_csr_idx conv_coo_idx csr_values csr_col_idxs csr_row_ptrs].
    rewrite csr_entries_succ, app_assoc, all_coo_succ.
    split; [exact Hst2 |]. split; [exact Hidx2 | reflexivity].
Qed.

Lemma convert_to_csr_runs :
  exists csr,
    convert_to_csr is_nonzero index_bits source result = Some csr
    /\ csr_values csr = written (map fst (out num_rows)) (csr_values result)
    /\ csr_col_idxs csr = written (map snd (out num_rows)) (csr_col_idxs result)
    /\ csr_row_ptrs csr
       = written (map (fun k => Z.of_nat (length (out k))) (seq 0 (Datatypes.S num_rows)))
                 (csr_row_ptrs result).
Proof.
  unfold convert_to_csr.
  pose proof (write_written [] (csr_row_ptrs result) 0) as W.
  change (written [] (csr_row_ptrs result)) with (csr_row_ptrs result) in W.
  change (Z.of_nat (length (@nil Z))) with 0 in W.
  rewrite W by (cbn [length]; lia).
  unfold index_loop.
  destruct (for_loop_inv
              (fun k st => (k <= num_rows)%nat /\ rows_converted k st)
              (fun r => convert_row is_nonzero index_bits source
                                    (wrap_index index_bits r))
              0 (hybrid_rows source)
              {| conv_result := {| csr_values := csr_values result;
                                   csr_col_idxs := csr_col_idxs result;
                                   csr_row_ptrs := written ([] ++ [0]) (csr_row_ptrs result) |};
                 conv_csr_idx := 0;
                 conv_coo_idx := 0 |})
    as (st & E & _ & (Hv & Hc & _) & _ & Hp).
  - exact Hrows.
  - split; [lia |]. split; [repeat split; reflexivity |]. split; reflexivity.
  - intros k s Hk (_ & Hinv). cbn [Z.add].
    rewrite wrap_index_small by lia.
    destruct (convert_row_runs k s ltac:(lia) Hinv) as (s' & Es & Hs').
    exists s'. split; [exact Es |]. split; [lia | exact Hs'].
  - rewrite E. cbn [option_map]. exists (conv_result st).
    rewrite Z.sub_0_r in Hv, Hc, Hp. auto.
Qed.

End Convert.

(** X17: [fill_in_matrix_data] deals the nonzeros of every row to the
    two parts of the hybrid matrix: the first
    [ell_num_stored_elements_per_row] of them fill the slots of the row in
    the ELL part in their order, the slots left of the row get column 0
    and value zero, and the others go to the COO part, which holds them in
    the order of the rows behind one another; the sizes are kept, and the
    COO arrays are as before beyond what was written. *)
Theorem fill_in_matrix_data_result {ValueType : Type} (zero : ValueType)
        nonzeros row_ptrs result :
  0 <= hybrid_rows result ->
  0 <= ell_num_stored_elements_per_row result ->
  (Z.to_nat (hybrid_rows result) < length row_ptrs)%nat ->
  (forall r, (r < Z.to_nat (hybrid_rows result))%nat ->
             0 <= nth r row_ptrs 0 <= nth (Datatypes.S r) row_ptrs 0
             /\ nth (Datatypes.S r) row_ptrs 0 <= Z.of_nat (length nonzeros)) ->
  (length (coo_entries nonzeros row_ptrs (ell_num_stored_elements_per_row result)
                       (Z.to_nat (hybrid_rows result)))
   <= Nat.min (length (coo_row_idxs result))
              (Nat.min (length (coo_col_idxs result)) (length (coo_values result))))%nat ->
  exists h,
    fill_in_matrix_data zero nonzeros row_ptrs result = Some h
    /\ hybrid_rows h = hybrid_rows result
    /\ ell_num_stored_elements_per_row h = ell_num_stored_elements_per_row result
    /\ (forall r j,
          (r < Z.to_nat (hybrid_rows result))%nat ->
          0 <= j < ell_num_stored_elements_per_row result ->
          ell_col_at h (Z.of_nat r) j
          = match nth_error (row_entries nonzeros row_ptrs r) (Z.to_nat j) with
            | Some e => column e
            | None => 0
            end
          /\ ell_val_at h (Z.of_nat r) j
             = match nth_error (row_entries nonzeros row_ptrs r) (Z.to_nat j) with
               | Some e => value e
               | None => zero
               end)
    /\ (let coo := coo_entries nonzeros row_ptrs (ell_num_stored_elements_per_row result)
                               (Z.to_nat (hybrid_rows result)) in
        coo_row_idxs h = written (map row coo) (coo_row_idxs result)
        /\ coo_col_idxs h = written (map column coo) (coo_col_idxs result)
        /\ coo_values h = written (map value coo) (coo_values result)).
Proof.
  intros Hrows HM Hrp Hmono Hcap.
  destruct (fill_in_matrix_data_runs zero nonzeros row_ptrs result Hrows HM Hrp Hmono)
    as (h & E & (Hs1 & Hs2) & Hcoo & Hell); try lia.
  exists h. split; [exact E |]. split; [exact Hs1 |]. split; [exact Hs2 |].
  split; [| exact Hcoo].
  intros r j Hr Hj. apply Hell; assumption.
Qed.

(** Four rows, two slots of a row in the ELL part. *)
Lemma fill_in_matrix_data_result_witness :
  let nonzeros :=
    [ {| row := 0; column := 1; value := 5 |};
      {| row := 0; column := 2; value := 6 |};
      {| row := 0; column := 3; value := 7 |};
      {| row := 2; column := 0; value := 8 |};
      {| row := 3; column := 4; value := 9 |} ] in
  let result :=
    {| hybrid_rows := 4; ell_num_stored_elements_per_row := 2;
       ell_col_at := fun _ _ => 77; ell_val_at := fun _ _ => 77;
       coo_row_idxs := [9]; coo_col_idxs := [9]; coo_values := [9] |} in
  exists h,
    fill_in_matrix_data 0 nonzeros [0; 3; 3; 4; 5] result = Some h
    /\ coo_row_idxs h = [0] /\ coo_col_idxs h = [3] /\ coo_values h = [7].
Proof.
  cbv zeta.
  destruct (fill_in_matrix_data_result 0
              [ {| row := 0; column := 1; value := 5 |};
                {| row := 0; column := 2; value := 6 |};
                {| row := 0; column := 3; value := 7 |};
                {| row := 2; column := 0; value := 8 |};
                {| row := 3; column := 4; value := 9 |} ]
              [0; 3; 3; 4; 5]
              {| hybrid_rows := 4; ell_num_stored_elements_per_row := 2;
                 ell_col_at := fun _ _ => 77; ell_val_at := fun _ _ => 77;
                 coo_row_idxs := [9]; coo_col_idxs := [9]; coo_values := [9] |})
    as (h & E & _ & _ & _ & H1 & H2 & H3).
  - cbn. lia.
  - cbn. lia.
  - cbn. lia.
  - intros r Hr. cbn in Hr. destruct r as [| [| [| [| r]]]]; cbn; lia.
  - vm_compute. lia.
  - exists h. split; [exact E |]. split; [exact H1 |]. split; [exact H2 | exact H3].
Defined.

(** X18: [convert_to_csr] on a hybrid matrix whose COO part holds its
    elements row after row writes, row after row, the values and columns
    of the slots of the ELL part that hold a nonzero value, in the order
    of the slots, and behind them those of the elements that the COO part
    has of the row; the row pointer of a row is the number of elements
    written for the rows before it, the first 0; beyond what was written
    the arrays are as before.  [IndexType] is a signed integer of
    [index_bits] bits, at most 64, that holds the number of rows, the width
    of the ELL part and the number of elements written. *)
Theorem convert_to_csr_result {ValueType : Type} (is_nonzero : ValueType -> bool)
        index_bits source result coo :
  0 < index_bits <= 64 ->
  0 <= hybrid_rows source < 2 ^ (index_bits - 1) ->
  0 <= ell_num_stored_elements_per_row source < 2 ^ (index_bits - 1) ->
  Z.of_nat (length (csr_entries is_nonzero source coo (Z.to_nat (hybrid_rows source))))
  < 2 ^ (index_bits - 1) ->
  (forall r e, (r < Z.to_nat (hybrid_rows source))%nat ->
               In e (coo r) -> row e = Z.of_nat r) ->
  coo_row_idxs source
  = map row (concat (map coo (seq 0 (Z.to_nat (hybrid_rows source))))) ->
  coo_col_idxs source
  = map column (concat (map coo (seq 0 (Z.to_nat (hybrid_rows source))))) ->
  coo_values source
  = map value (concat (map coo (seq 0 (Z.to_nat (hybrid_rows source))))) ->
  (length (csr_entries is_nonzero source coo (Z.to_nat (hybrid_rows source)))
   <= Nat.min (length (csr_values result)) (length (csr_col_idxs result)))%nat ->
  (Z.to_nat (hybrid_rows source) < length (csr_row_ptrs result))%nat ->
  exists csr,
    convert_to_csr is_nonzero index_bits source result = Some csr
    /\ csr_values csr
       = written (map fst (csr_entries is_nonzero source coo
                                       (Z.to_nat (hybrid_rows source))))
                 (csr_values result)
    /\ csr_col_idxs csr
       = written (map snd (csr_entries is_nonzero source coo
                                       (Z.to_nat (hybrid_rows source))))
                 (csr_col_idxs result)
    /\ csr_row_ptrs csr
       = written (map (fun k => Z.of_nat (length (csr_entries is_nonzero source coo k)))
                      (seq 0 (Datatypes.S (Z.to_nat (hybrid_rows source)))))
                 (csr_row_ptrs result).
Proof.
  intros Hbits Hrows HM Hfit Hrow Hr Hc Hv Hcap Hptr.
  apply convert_to_csr_runs; try assumption; lia.
Qed.

(** Two rows, one slot of a row in the ELL part. *)
Lemma convert_to_csr_result_witness :
  exists csr,
    convert_to_csr (fun v => negb (v =? 0)) 32
      {| hybrid_rows := 2; ell_num_stored_elements_per_row := 1;
         ell_col_at := fun r _ => if r =? 0 then 1 else 0;
         ell_val_at := fun r _ => if r =? 0 then 5 else 0;
         coo_row_idxs := [0]; coo_col_idxs := [2]; coo_values := [6] |}
      {| csr_values := [9; 9; 9]; csr_col_idxs := [9; 9; 9]; csr_row_ptrs := [9; 9; 9] |}
    = Some csr
    /\ csr_values csr = [5; 6; 9]
    /\ csr_col_idxs csr = [1; 2; 9]
    /\ csr_row_ptrs csr = [0; 2; 2].
Proof.
  apply (convert_to_csr_result (fun v => negb (v =? 0)) 32
           {| hybrid_rows := 2; ell_num_stored_elements_per_row := 1;
              ell_col_at := fun r _ => if r =? 0 then 1 else 0;
              ell_val_at := fun r _ => if r =? 0 then 5 else 0;
              coo_row_idxs := [0]; coo_col_idxs := [2]; coo_values := [6] |}
           {| csr_values := [9; 9; 9]; csr_col_idxs := [9; 9; 9];
              csr_row_ptrs := [9; 9; 9] |}
           (fun r => match r with
                     | O => [ {| row := 0; column := 2; value := 6 |} ]
                     | _ => []
                     end)).
  - lia.
  - cbn. lia.
  - cbn. lia.
  - vm_compute. reflexivity.
  - intros r e Hr He. destruct r as [| r]; [| destruct He].
    destruct He as [<- | []]. reflexivity.
  - reflexivity.
  - reflexivity.
  - reflexivity.
  - vm_compute. lia.
  - vm_compute. lia.
Defined.

(** ** From matrix data to CSR by way of the hybrid format *)

Lemma nth_monotone (l : list Z) n :
  (forall r, (r < n)%nat -> nth r l 0 <= nth (Datatypes.S r) l 0) ->
  forall a b, (a <= b)%nat -> (b <= n)%nat -> nth a l 0 <= nth b l 0.
Proof.
  intros H a b Hab. induction Hab as [| b Hab IH]; intros Hb; [lia |].
  specialize (H b ltac:(lia)). specialize (IH ltac:(lia)). lia.
Qed.

Lemma firstn_split {A} (l : list A) a : forall b,
  (a <= b)%nat -> firstn a l ++ firstn (b - a) (skipn a l) = firstn b l.
Proof.
  revert l. induction a as [| a IH]; intros l b H.
  - cbn. rewrite Nat.sub_0_r. reflexivity.
  - destruct b as [| b]; [lia |]. destruct l as [| x l].
    + cbn. rewrite firstn_nil. reflexivity.
    + cbn [firstn skipn app Nat.sub]. rewrite IH by lia. reflexivity.
Qed.

Lemma map_nth_seq (l : list Z) : map (fun k => nth k l 0) (seq 0 (length l)) = l.
Proof.
  apply (nth_ext _ _ 0 0).
  - rewrite length_map, length_seq. reflexivity.
  - intros i Hi. rewrite length_map, length_seq in Hi.
    apply (nth_map_seq (fun k => nth k l 0)). exact Hi.
Qed.

Section Round_trip.

Context {ValueType : Type}.
Variable zero : ValueType.
Variable is_nonzero : ValueType -> bool.
Variable nonzeros : list (matrix_data_entry ValueType).
Variable row_ptrs : list Z.
Variable n : nat.

Hypothesis Hlen : length row_ptrs = Datatypes.S n.
Hypothesis Hfirst : nth 0 row_ptrs 0 = 0.
Hypothesis Hlast : nth n row_ptrs 0 = Z.of_nat (length nonzeros).
Hypothesis Hmono : forall r, (r < n)%nat -> nth r row_ptrs 0 <= nth (Datatypes.S r) row_ptrs 0.
Hypothesis Hvalues : forall e, In e nonzeros -> is_nonzero (value e) = true.
Hypothesis Hzero : is_nonzero zero = false.

Local Abbreviation E := (row_entries nonzeros row_ptrs).

Lemma row_ptrs_bounds r :
  (r <= n)%nat -> 0 <= nth r row_ptrs 0 <= Z.of_nat (length nonzeros).
Proof.
  intros Hr. rewrite <- Hfirst at 1. rewrite <- Hlast.
  split; apply (nth_monotone row_ptrs n Hmono); lia.
Qed.

(** The rows up to [k] are the nonzeros up to [row_ptrs[k]]. *)
Lemma concat_row_entries k :
  (k <= n)%nat ->
  concat (map E (seq 0 k)) = firstn (Z.to_nat (nth k row_ptrs 0)) nonzeros.
Proof.
  induction k as [| k IH]; intros Hk.
  - rewrite Hfirst. reflexivity.
  - rewrite seq_S, map_app, concat_app, IH by lia. cbn [map concat Nat.add].
    rewrite app_nil_r. unfold row_entries.
    pose proof (row_ptrs_bounds k ltac:(lia)).
    pose proof (Hmono k ltac:(lia)).
    replace (Z.to_nat (nth (Datatypes.S k) row_ptrs 0 - nth k row_ptrs 0))
      with (Z.to_nat (nth (Datatypes.S k) row_ptrs 0%Z)
            - Z.to_nat (nth k row_ptrs 0%Z))%nat
      by lia.
    apply firstn_split. lia.
Qed.

Lemma row_entries_in r e : In e (E r) -> In e nonzeros.
Proof.
  unfold row_entries. intros H.
  apply (In_iff_nth_error) in H as (i & Hi).
  rewrite nth_error_firstn in Hi.
  destruct (i <? _)%nat; [| discriminate].
  rewrite nth_error_skipn in Hi. eapply nth_error_In. exact Hi.
Qed.

(** The slots of a row of the ELL part that [fill_in_matrix_data] has
    filled: those with a nonzero value are the first nonzeros of the
    row. *)
Lemma ell_nonzeros_filled (h : Hybrid ValueType) r u :
  (forall j, 0 <= j < Z.of_nat u ->
             ell_col_at h (Z.of_nat r) j
             = match nth_error (E r) (Z.to_nat j) with
               | Some e => column e
               | None => 0
               end
             /\ ell_val_at h (Z.of_nat r) j
                = match nth_error (E r) (Z.to_nat j) with
                  | Some e => value e
                  | None => zero
                  end) ->
  ell_nonzeros is_nonzero h (Z.of_nat r) u = map csr_entry (firstn u (E r)).
Proof.
  induction u as [| u IH]; intros Hslots; [reflexivity |].
  rewrite ell_nonzeros_succ, IH by (intros j Hj; apply Hslots; lia).
  destruct (Hslots (Z.of_nat u) ltac:(lia)) as [Hc Hv].
  rewrite Nat2Z.id in Hc, Hv. rewrite Hc, Hv.
  destruct (nth_error (E r) u) as [e |] eqn:Ee.
  - rewrite (Hvalues e) by (eapply row_entries_in, nth_error_In; exact Ee).
    rewrite (firstn_succ _ _ _ Ee), map_app. reflexivity.
  - rewrite Hzero, app_nil_r. apply nth_error_None in Ee.
    rewrite !firstn_all2 by lia. reflexivity.
Qed.

End Round_trip.

(** X19: matrix data that goes through [fill_in_matrix_data] and then
    through [convert_to_csr] comes out as it was: the values and columns
    of the nonzeros in their order, and the row pointers.  The nonzeros are
    sorted by rows as the row pointers say, none of them has the value
    zero, and the arrays of the COO part and of the CSR matrix have the
    sizes that the number of elements asks for.  [IndexType] is a signed
    integer of [index_bits] bits, at most 64, that holds the number of
    rows, the width of the ELL part and the number of nonzeros. *)
Theorem hybrid_round_trip {ValueType : Type} (zero : ValueType)
        (is_nonzero : ValueType -> bool) index_bits nonzeros row_ptrs n hybrid0 csr0 :
  0 < index_bits <= 64 ->
  Z.of_nat n < 2 ^ (index_bits - 1) ->
  Z.of_nat (length nonzeros) < 2 ^ (index_bits - 1) ->
  hybrid_rows hybrid0 = Z.of_nat n ->
  0 <= ell_num_stored_elements_per_row hybrid0 < 2 ^ (index_bits - 1) ->
  length row_ptrs = Datatypes.S n ->
  nth 0 row_ptrs 0 = 0 ->
  nth n row_ptrs 0 = Z.of_nat (length nonzeros) ->
  (forall r, (r < n)%nat -> nth r row_ptrs 0 <= nth (Datatypes.S r) row_ptrs 0) ->
  (forall r e, (r < n)%nat -> In e (row_entries nonzeros row_ptrs r) ->
               row e = Z.of_nat r) ->
  (forall e, In e nonzeros -> is_nonzero (value e) = true) ->
  is_nonzero zero = false ->
  length (coo_row_idxs hybrid0)
  = length (coo_entries nonzeros row_ptrs (ell_num_stored_elements_per_row hybrid0) n) ->
  length (coo_col_idxs hybrid0) = length (coo_row_idxs hybrid0) ->
  length (coo_values hybrid0) = length (coo_row_idxs hybrid0) ->
  length (csr_values csr0) = length nonzeros ->
  length (csr_col_idxs csr0) = length nonzeros ->
  length (csr_row_ptrs csr0) = Datatypes.S n ->
  exists h csr,
    fill_in_matrix_data zero nonzeros row_ptrs hybrid0 = Some h
    /\ convert_to_csr is_nonzero index_bits h csr0 = Some csr
    /\ csr_values csr = map value nonzeros
    /\ csr_col_idxs csr = map column nonzeros
    /\ csr_row_ptrs csr = row_ptrs.
Proof.
  intros Hbits Hn_fit Hnz_fit Hrows HM Hlen Hfirst Hlast Hmono Hrow Hvalues Hzero
         Lcoo_r Lcoo_c Lcoo_v Lv Lc Lp.
  assert (Hn : Z.to_nat (hybrid_rows hybrid0) = n) by lia.
  set (M := ell_num_stored_elements_per_row hybrid0) in *.
  (* into the hybrid format *)
  destruct (fill_in_matrix_data_runs zero nonzeros row_ptrs hybrid0)
    as (h & Efill & (Hs1 & Hs2) & (Q1 & Q2 & Q3) & Hell);
    try (rewrite ?Hn; fold M; lia).
  { rewrite Hn. intros r Hr.
    pose proof (row_ptrs_bounds nonzeros row_ptrs n Hlen Hfirst Hlast Hmono r ltac:(lia)).
    pose proof (row_ptrs_bounds nonzeros row_ptrs n Hlen Hfirst Hlast Hmono
                                (Datatypes.S r) ltac:(lia)).
    specialize (Hmono r Hr). lia. }
  rewrite Hn in Q1, Q2, Q3, Hell. fold M in Q1, Q2, Q3, Hell, Hs2.
  rewrite written_all in Q1 by (rewrite length_map; lia).
  rewrite written_all in Q2 by (rewrite length_map; lia).
  rewrite written_all in Q3 by (rewrite length_map; lia).
  set (coo := fun r => skipn (Z.to_nat M) (row_entries nonzeros row_ptrs r)).
  assert (Hhn : Z.to_nat (hybrid_rows h) = n) by lia.
  (* what the conversion is to write *)
  assert (Hout : forall k, (k <= n)%nat ->
                           csr_entries is_nonzero h coo k
                           = map csr_entry
                                 (firstn (Z.to_nat (nth k row_ptrs 0)) nonzeros)).
  { intros k Hk.
    rewrite <- (concat_row_entries nonzeros row_ptrs n Hlen Hfirst Hlast Hmono k Hk).
    rewrite concat_map, map_map. unfold csr_entries. f_equal.
    apply map_ext_in. intros r Hr. apply in_seq in Hr.
    rewrite Hs2.
    rewrite (ell_nonzeros_filled zero is_nonzero nonzeros row_ptrs n Hlen Hvalues Hzero).
    - subst coo. cbn beta. rewrite <- map_app, firstn_skipn. reflexivity.
    - intros j Hj. apply Hell; lia. }
  assert (Hall : csr_entries is_nonzero h coo n = map csr_entry nonzeros).
  { rewrite Hout by lia. rewrite Hlast, Nat2Z.id, firstn_all. reflexivity. }
  (* out of the hybrid format *)
  destruct (convert_to_csr_runs is_nonzero index_bits h csr0 coo)
    as (csr & Econv & Hv & Hc & Hp).
  - lia.
  - lia.
  - rewrite Hhn. intros r e Hr He. apply (Hrow r e Hr).
    subst coo. cbn beta in He.
    rewrite <- (firstn_skipn (Z.to_nat M) (row_entries nonzeros row_ptrs r)).
    apply in_or_app. right. exact He.
  - rewrite Hhn. exact Q1.
  - rewrite Hhn. exact Q2.
  - rewrite Hhn. exact Q3.
  - rewrite Hhn, Hall, length_map. lia.
  - rewrite Hhn, Hall, length_map. lia.
  - lia.
  - exact Hbits.
  - lia.
  - lia.
  - rewrite Hhn, Hall, length_map. exact Hnz_fit.
  - exists h, csr. split; [exact Efill |]. split; [exact Econv |].
    rewrite Hhn, Hall in Hv, Hc. rewrite Hhn in Hp.
    rewrite written_all in Hv by (rewrite !length_map; lia).
    rewrite written_all in Hc by (rewrite !length_map; lia).
    rewrite map_map in Hv, Hc. cbn [csr_entry fst snd] in Hv, Hc.
    split; [exact Hv |]. split; [exact Hc |].
    rewrite Hp, written_all by (rewrite length_map, length_seq; lia).
    transitivity (map (fun k => nth k row_ptrs 0) (seq 0 (length row_ptrs)));
      [| apply map_nth_seq].
    rewrite Hlen. apply map_ext_in. intros k Hk. apply in_seq in Hk.
    rewrite Hout, length_map, length_firstn by lia.
    pose proof (row_ptrs_bounds nonzeros row_ptrs n Hlen Hfirst Hlast Hmono k ltac:(lia)).
    lia.
Qed.

(** Three rows, one slot of a row in the ELL part. *)
Lemma hybrid_round_trip_witness :
  let nonzeros :=
    [ {| row := 0; column := 1; value := 5 |};
      {| row := 0; column := 2; value := 6 |};
      {| row := 2; column := 0; value := 8 |} ] in
  exists h csr,
    fill_in_matrix_data 0 nonzeros [0; 2; 2; 3]
      {| hybrid_rows := 3; ell_num_stored_elements_per_row := 1;
         ell_col_at := fun _ _ => 77; ell_val_at := fun _ _ => 77;
         coo_row_idxs := [9]; coo_col_idxs := [9]; coo_values := [9] |}
    = Some h
    /\ convert_to_csr (fun v => negb (v =? 0)) 32 h
         {| csr_values := [9; 9; 9]; csr_col_idxs := [9; 9; 9];
            csr_row_ptrs := [9; 9; 9; 9] |}
       = Some csr
    /\ csr_values csr = [5; 6; 8]
    /\ csr_col_idxs csr = [1; 2; 0]
    /\ csr_row_ptrs csr = [0; 2; 2; 3].
Proof.
  cbv zeta.
  apply (hybrid_round_trip 0 (fun v => negb (v =? 0)) 32
           [ {| row := 0; column := 1; value := 5 |};
             {| row := 0; column := 2; value := 6 |};
             {| row := 2; column := 0; value := 8 |} ]
           [0; 2; 2; 3] 3
           {| hybrid_rows := 3; ell_num_stored_elements_per_row := 1;
              ell_col_at := fun _ _ => 77; ell_val_at := fun _ _ => 77;
              coo_row_idxs := [9]; coo_col_idxs := [9]; coo_values := [9] |}
           {| csr_values := [9; 9; 9]; csr_col_idxs := [9; 9; 9];
              csr_row_ptrs := [9; 9; 9; 9] |}).
  - lia.
  - cbn. lia.
  - cbn. lia.
  - reflexivity.
  - cbn. lia.
  - reflexivity.
  - reflexivity.
  - reflexivity.
  - intros r Hr. destruct r as [| [| [| r]]]; cbn; lia.
  - intros r e Hr He. destruct r as [| [| [| r]]]; [| | | lia].
    + destruct He as [<- | [<- | []]]; reflexivity.
    + destruct He.
    + destruct He as [<- | []]. reflexivity.
  - intros e He. destruct He as [<- | [<- | [<- | []]]]; reflexivity.
  - reflexivity.
  - reflexivity.
  - reflexivity.
  - reflexivity.
  - reflexivity.
  - reflexivity.
  - reflexivity.
Defined.

(** * The check of a launch configuration *)

Lemma fold_left_orb (p : Z -> bool) l : forall b,
  fold_left (fun allowed i => allowed || p i) l b = b || existsb p l.
Proof.
  induction l as [| x l IH]; intros b; cbn [fold_left existsb].
  - rewrite orb_false_r. reflexivity.
  - rewrite IH, orb_assoc. reflexivity.
Qed.

(** X20: [validate] accepts a configuration exactly when the device
    lists the subgroup size among its subgroup sizes and the workgroup
    size is not above the largest the device allows; a device that lists
    no subgroup size accepts none. *)
Theorem validate_accepts subgroup_size_list max_workgroup_size
        workgroup_size subgroup_size :
  validate subgroup_size_list max_workgroup_size workgroup_size subgroup_size = true
  <-> In subgroup_size subgroup_size_list /\ workgroup_size <= max_workgroup_size.
Proof.
  unfold validate. rewrite fold_left_orb. cbn [orb].
  rewrite andb_true_iff, existsb_exists, Z.leb_le.
  split.
  - intros [(i & Hi & Heq) Hw]. apply Z.eqb_eq in Heq. subst i. auto.
  - intros [Hin Hw]. split; [| exact Hw].
    exists subgroup_size. split; [exact Hin | apply Z.eqb_refl].
Qed.

(** * [reduce_add_array_with_initial_value] *)



Section With_initial_value.

Context {ValueType : Type}.
Variable zero : ValueType.
Variable add : ValueType -> ValueType -> ValueType.
Hypothesis add_assoc : forall x y z, add (add x y) z = add x (add y z).
Hypothesis add_comm : forall x y, add x y = add y x.
Hypothesis add_zero : forall x, add zero x = x.

Local Abbreviation total l := (fold_left add l zero).


End With_initial_value.



(** * [multireduce] *)




Section Multireduce_facts.

Context {ValueType : Type}.
Variable reduce_op : ValueType -> ValueType -> ValueType.
Hypothesis reduce_op_assoc :
  forall x y z, reduce_op (reduce_op x y) z = reduce_op x (reduce_op y z).
Hypothesis reduce_op_comm : forall x y, reduce_op x y = reduce_op y x.

Variable d : ValueType.
Variables size stride num : Z.
Hypothesis Hsize : 0 < size <= stride.
Hypothesis Hnum : 0 <= num.

(** The array is long enough for [num] reductions. *)
Local Abbreviation fits data :=
  (forall j, 0 <= j < num -> j * stride + size <= Z.of_nat (length data)).

Local Abbreviation at_ data i := (nth (Z.to_nat i) data d).




(** The slots of the reduction [j], counted from its first one. *)
Local Abbreviation slots data j := (fun i => at_ data (j * stride + i)).







End Multireduce_facts.




(** * The blocks of a grid side by side *)

(** ** A lane and its phase *)

Section Phase_facts.

Variables block_size subwarp_size index_bits : Z.
Variable deps : syncfree_storage.

Local Abbreviation cap := (local_dependency_count block_size subwarp_size).
Local Abbreviation code := (code_of block_size subwarp_size index_bits deps).
Local Abbreviation at_phase := (lane_at block_size subwarp_size index_bits deps).
Local Abbreviation step_of_phase := (phase_step block_size subwarp_size index_bits deps).
Local Abbreviation is_waiting := (waiting block_size subwarp_size).

Lemma lane_at_first tid :
  at_phase tid (first_phase tid)
           (syncfree_scheduler block_size subwarp_size index_bits deps tid).
Proof.
  unfold lane_at, first_phase, syncfree_scheduler.
  destruct (tid =? 0) eqn:E; reflexivity.
Qed.

(** The loop of the reset at its test. *)
Lemma observe_resetting tid i :
  if i <? cap then
    exists k, observe (code tid (Resetting i)) = VisF (StoreShared i 0) k
              /\ observe (k tt)
                 = observe (code tid (Stored (wrap_int (i + subwarp_size))))
  else
    exists k, observe (code tid (Resetting i)) = VisF SyncThreads k
              /\ observe (k tt) = observe (code tid Reading).
Proof.
  unfold code_of, reset_status.
  rewrite observe_bind, observe_iter.
  destruct (i <? cap); cbn -[wrap_int]; eexists; split; reflexivity.
Qed.

(** A lane stands at the barrier when its phase says so. *)
Lemma at_barrier_phase tid p t :
  at_phase tid p t -> at_barrier t = is_waiting p.
Proof.
  unfold lane_at, at_barrier, at_syncthreads. intros ->.
  destruct p; try reflexivity.
  pose proof (observe_resetting tid i) as H. cbn [waiting].
  destruct (i <? cap); destruct H as (k & -> & _); reflexivity.
Qed.

Lemma pass_barrier_phase tid p t :
  at_phase tid p t -> is_waiting p = true -> at_phase tid Reading (pass_barrier t).
Proof.
  unfold lane_at, pass_barrier, at_syncthreads. intros -> Hw.
  destruct p; try discriminate. cbn [waiting] in Hw.
  pose proof (observe_resetting tid i) as H.
  destruct (i <? cap); [discriminate |].
  destruct H as (k & -> & Hk). exact Hk.
Qed.

Lemma returned_phase tid p t :
  at_phase tid p t ->
  returned t = match p with
               | Finished s => Some s
               | _ => None
               end.
Proof.
  unfold lane_at, returned. intros ->.
  destruct p; try reflexivity.
  pose proof (observe_resetting tid i) as H.
  destruct (i <? cap); destruct H as (k & -> & _); reflexivity.
Qed.

(** A lane that does not wait steps as its phase says. *)
Lemma lane_step_phase b tid p t d :
  at_phase tid p t ->
  is_waiting p = false ->
  match step_of_phase b tid p d with
  | Some (p', d', a) =>
      exists t', lane_step (on_device b) t d = Next t' d' a /\ at_phase tid p' t'
  | None =>
      match lane_step (on_device b) t d with
      | Next _ _ _ => False
      | _ => True
      end
  end.
Proof.
  unfold lane_at, lane_step. intros -> Hw.
  destruct p; cbn [phase_step].
  - unfold code_of, atomic_add. cbn -[wrap_int].
    destruct (load (global_mem d) (block_counter deps)) as [old |]; [| exact I].
    destruct (store (global_mem d) (block_counter deps) _) as [m |]; [| exact I].
    eexists. split; reflexivity.
  - eexists. split; reflexivity.
  - pose proof (observe_resetting tid i) as H. cbn [waiting] in Hw.
    destruct (i <? cap); [| discriminate].
    destruct H as (k & -> & Hk). cbn -[wrap_int].
    destruct (store (local_status (shared_mem d b)) i 0) as [m |]; [| exact I].
    eexists. split; [reflexivity | exact Hk].
  - eexists. split; reflexivity.
  - eexists. split; reflexivity.
  - eexists. split; reflexivity.
  - exact I.
Qed.

End Phase_facts.

(** ** Lists side by side *)

Lemma Forall2_nth_error_l {A B} (P : A -> B -> Prop) la lb i x :
  Forall2 P la lb -> nth_error la i = Some x ->
  exists y, nth_error lb i = Some y /\ P x y.
Proof.
  intros H. revert i. induction H as [| a b la lb Hab H IH]; intros [| i] Hx;
    try discriminate.
  - injection Hx as <-. exists b. auto.
  - apply IH. exact Hx.
Qed.

Lemma Forall2_nth_error_r {A B} (P : A -> B -> Prop) la lb i y :
  Forall2 P la lb -> nth_error lb i = Some y ->
  exists x, nth_error la i = Some x /\ P x y.
Proof.
  intros H. revert i. induction H as [| a b la lb Hab H IH]; intros [| i] Hy;
    try discriminate.
  - injection Hy as <-. exists a. auto.
  - apply IH. exact Hy.
Qed.

Lemma Forall2_nth_error_none {A B} (P : A -> B -> Prop) la lb i :
  Forall2 P la lb -> nth_error la i = None -> nth_error lb i = None.
Proof.
  intros H Hn. apply nth_error_None. apply nth_error_None in Hn.
  rewrite <- (Forall2_length H). exact Hn.
Qed.

Lemma Forall2_list_update {A B} (P : A -> B -> Prop) la lb i x y :
  Forall2 P la lb -> P x y -> Forall2 P (list_update la i x) (list_update lb i y).
Proof.
  intros H Hxy. revert i. induction H as [| a b la lb Hab H IH]; intros [| i]; cbn;
    constructor; auto.
Qed.

Lemma Forall2_forallb {A B} (P : A -> B -> Prop) (f : A -> bool) (g : B -> bool) la lb :
  (forall x y, P x y -> f x = g y) ->
  Forall2 P la lb -> forallb f la = forallb g lb.
Proof.
  intros Hfg. induction 1 as [| a b la lb Hab H IH]; cbn; [reflexivity |].
  rewrite (Hfg a b Hab), IH. reflexivity.
Qed.

Lemma Forall2_map_where {A B C D} (P : A -> B -> Prop) (Q : C -> D -> Prop)
      (W : B -> bool) (f : A -> C) (g : B -> D) la lb :
  (forall x y, P x y -> W y = true -> Q (f x) (g y)) ->
  Forall2 P la lb -> forallb W lb = true ->
  Forall2 Q (map f la) (map g lb).
Proof.
  intros HQ. induction 1 as [| a b la lb Hab H IH]; cbn; intros Hw; [constructor |].
  apply andb_prop in Hw as [Hb Hw]. constructor; auto.
Qed.

(** ** The grid and the phases of its lanes *)

Section Grid_facts.

Variables block_size subwarp_size index_bits : Z.
Variable deps : syncfree_storage.

Local Abbreviation cap := (local_dependency_count block_size subwarp_size).
Local Abbreviation at_phase := (lane_at block_size subwarp_size index_bits deps).
Local Abbreviation step_of_phase := (phase_step block_size subwarp_size index_bits deps).
Local Abbreviation is_waiting := (waiting block_size subwarp_size).
Local Abbreviation step_of_phases :=
  (phases_step block_size subwarp_size index_bits deps).
Local Abbreviation run_of_phases :=
  (phases_run block_size subwarp_size index_bits deps).
Local Abbreviation stands :=
  (stands_at block_size subwarp_size index_bits deps).

(** A step of the grid is the step of the phases. *)
Lemma grid_step_stands x g a :
  stands g a -> stands (grid_step x g) (step_of_phases x a).
Proof.
  intros (Hb & Hd & Hl). destruct x as [b i]. unfold grid_step, phases_step.
  destruct (nth_error (grid_blocks g) b) as [lanes |] eqn:Eb.
  2: { rewrite (Forall2_nth_error_none _ _ _ _ Hb Eb). repeat split; assumption. }
  destruct (Forall2_nth_error_l _ _ _ _ _ Hb Eb) as (lanes' & Eb' & Hlanes).
  rewrite Eb'.
  destruct (nth_error lanes i) as [t |] eqn:Ei.
  2: { rewrite (Forall2_nth_error_none _ _ _ _ Hlanes Ei). repeat split; assumption. }
  destruct (Forall2_nth_error_l _ _ _ _ _ Hlanes Ei) as ([tid p] & Ei' & Ht).
  rewrite Ei'. cbn [fst snd] in Ht.
  rewrite (at_barrier_phase _ _ _ _ _ _ _ Ht).
  destruct (is_waiting p) eqn:Ew.
  - rewrite (Forall2_forallb _ at_barrier (fun l => is_waiting (snd l)) _ _
               ltac:(intros x y Hxy; eapply at_barrier_phase; exact Hxy) Hlanes).
    destruct (forallb (fun l => is_waiting (snd l)) lanes') eqn:Eall.
    + split; [| split; assumption]. cbn [grid_blocks phases_blocks].
      apply Forall2_list_update; [exact Hb |].
      apply (Forall2_map_where
               (fun t (l : Z * phase) => at_phase (fst l) (snd l) t)
               (fun t (l : Z * phase) => at_phase (fst l) (snd l) t)
               (fun l => is_waiting (snd l))
               pass_barrier (fun l => (fst l, Reading))); [| exact Hlanes | exact Eall].
      intros x y Hxy Hw. cbn [fst snd]. eapply pass_barrier_phase; eassumption.
    + repeat split; assumption.
  - pose proof (lane_step_phase _ _ _ _ b tid p t (grid_device g) Ht Ew) as Hs.
    rewrite <- Hd.
    destruct (step_of_phase b tid p (grid_device g)) as [[[p' d'] act] |].
    + destruct Hs as (t' & -> & Ht').
      split; [| split; [reflexivity | cbn; rewrite Hl; reflexivity]].
      cbn [grid_blocks phases_blocks].
      apply Forall2_list_update; [exact Hb |].
      apply Forall2_list_update; [exact Hlanes | exact Ht'].
    + destruct (lane_step (on_device b) t (grid_device g)); try contradiction;
        repeat split; assumption.
Qed.

Lemma grid_run_stands schedule : forall g a,
  stands g a -> stands (grid_run schedule g) (run_of_phases schedule a).
Proof.
  induction schedule as [| x schedule IH]; intros g a H; [exact H |].
  cbn. apply IH. apply grid_step_stands. exact H.
Qed.

Lemma grid_start_stands G d :
  stands (grid_start block_size subwarp_size index_bits deps G d)
         (phases_start block_size G d).
Proof.
  split; [| split; reflexivity]. cbn [grid_blocks grid_start phases_blocks phases_start].
  assert (Hlanes : Forall2 (fun t (l : Z * phase) => at_phase (fst l) (snd l) t)
                     (map (syncfree_scheduler block_size subwarp_size index_bits deps)
                          (thread_ids block_size))
                     (map (fun tid => (tid, first_phase tid)) (thread_ids block_size))).
  { induction (thread_ids block_size) as [| tid l IHl]; cbn [map]; constructor;
      [apply lane_at_first | exact IHl]. }
  induction G as [| G IH]; cbn [repeat]; constructor; [exact Hlanes | exact IH].
Qed.

End Grid_facts.

(** ** What the steps of a grid keep *)

Lemma claims_app log l : claims (log ++ l) = claims log ++ claims l.
Proof. unfold claims. apply flat_map_app. Qed.

Lemma NoDup_bound (l : list nat) n :
  NoDup l -> (forall x, In x l -> (x < n)%nat) -> (length l <= n)%nat.
Proof.
  intros Hnd Hlt. rewrite <- (length_seq n 0%nat).
  apply NoDup_incl_length; [exact Hnd |].
  intros x Hx. apply in_seq. specialize (Hlt x Hx). lia.
Qed.

Lemma nth_error_list_update_inv {A} (m : list A) n n' v y :
  nth_error (list_update m n v) n' = Some y ->
  (n' = n /\ y = v) \/ (n' <> n /\ nth_error m n' = Some y).
Proof.
  intros H. destruct (Nat.eq_dec n' n) as [-> | Hne].
  - left. split; [reflexivity |].
    assert (Hlt : (n < length m)%nat).
    { rewrite <- (list_update_length m n v). apply nth_error_Some. congruence. }
    rewrite nth_error_list_update_same in H by exact Hlt. congruence.
  - right. rewrite nth_error_list_update_other in H by exact Hne. auto.
Qed.

Lemma Forall_list_update {A} (P : A -> Prop) l i x :
  Forall P l -> P x -> Forall P (list_update l i x).
Proof.
  intros H Hx. revert i. induction H as [| a l Ha H IH]; intros [| i]; cbn;
    constructor; auto.
Qed.

(** The elements other than the one replaced go from [P] to [Q]. *)
Lemma Forall_list_update_others {A} (P Q : A -> Prop) l i x :
  (forall i' y, i' <> i -> nth_error l i' = Some y -> P y -> Q y) ->
  Forall P l -> Q x -> Forall Q (list_update l i x).
Proof.
  intros HPQ H Hx. revert i HPQ.
  induction H as [| a l Ha H IH]; intros i HPQ; [destruct i; constructor |].
  destruct i as [| i]; cbn.
  - constructor; [exact Hx |].
    apply Forall_forall. intros y Hy.
    destruct (In_nth_error _ _ Hy) as [n Hn].
    apply (HPQ (Datatypes.S n) y); [lia | exact Hn |].
    rewrite Forall_forall in H. apply H. exact Hy.
  - constructor.
    + apply (HPQ 0%nat a); [lia | reflexivity | exact Ha].
    + apply IH. intros i' y Hne Hn. apply (HPQ (Datatypes.S i') y); [lia | exact Hn].
Qed.

Lemma map_list_update_same {A B} (f : A -> B) l i x y :
  nth_error l i = Some x -> f y = f x -> map f (list_update l i y) = map f l.
Proof.
  revert i. induction l as [| a l IH]; intros [| i] Hx Hf; try discriminate; cbn.
  - injection Hx as ->. congruence.
  - f_equal. apply IH; assumption.
Qed.

Lemma Forall_nth_error {A} (P : A -> Prop) l i x :
  Forall P l -> nth_error l i = Some x -> P x.
Proof.
  intros H Hx. rewrite Forall_forall in H. apply H. eapply nth_error_In. exact Hx.
Qed.

Section Grid_invariant.

Variables block_size subwarp_size index_bits : Z.
Variable deps : syncfree_storage.
Variable G : nat.
Hypothesis Hcfg : well_configured block_size subwarp_size index_bits.
Hypothesis HG : Z.of_nat G < 2 ^ 31.
Hypothesis Hfit : Z.of_nat G * block_size <= 2 ^ (index_bits - 1).

Local Abbreviation cap := (local_dependency_count block_size subwarp_size).
Local Abbreviation step_of_phase := (phase_step block_size subwarp_size index_bits deps).
Local Abbreviation is_waiting := (waiting block_size subwarp_size).
Local Abbreviation step_of_phases :=
  (phases_step block_size subwarp_size index_bits deps).
Local Abbreviation run_of_phases :=
  (phases_run block_size subwarp_size index_bits deps).
Local Abbreviation ok := (phase_ok block_size subwarp_size deps).
Local Abbreviation written := (offset_written block_size).
Local Abbreviation all_ok := (grid_ok block_size subwarp_size deps G).

(** ** The lanes of a block *)

Lemma tid_unique (lanes : list (Z * phase)) i i' tid p q :
  map fst lanes = thread_ids block_size ->
  nth_error lanes i = Some (tid, p) -> nth_error lanes i' = Some (tid, q) -> i = i'.
Proof.
  intros Ht Hi Hi'.
  pose proof (thread_ids_NoDup block_size) as Hnd. rewrite <- Ht in Hnd.
  rewrite NoDup_nth_error in Hnd. apply Hnd.
  - rewrite length_map. apply nth_error_Some. congruence.
  - rewrite !nth_error_map, Hi, Hi'. reflexivity.
Qed.

Lemma tid_range (lanes : list (Z * phase)) i tid p :
  map fst lanes = thread_ids block_size ->
  nth_error lanes i = Some (tid, p) -> 0 <= tid < block_size.
Proof.
  intros Ht Hi. apply thread_ids_in. rewrite <- Ht.
  apply (in_map fst lanes (tid, p)). eapply nth_error_In. exact Hi.
Qed.

Lemma lane_0 (lanes : list (Z * phase)) :
  map fst lanes = thread_ids block_size ->
  exists p others, lanes = (0, p) :: others.
Proof using Hcfg.
  clear HG Hfit. intros Ht. destruct Hcfg as (_ & Hbs & _).
  unfold thread_ids in Ht.
  destruct (Z.to_nat block_size) as [| n] eqn:En; [lia |].
  cbn in Ht. destruct lanes as [| [tid p] others]; [discriminate |].
  cbn in Ht. injection Ht as -> _. eauto.
Qed.

(** ** What a step of another lane keeps *)

Lemma ok_stable log d log' d' ext b tid q :
  claims log' = claims log ++ ext ->
  block_offset (shared_mem d' b) = block_offset (shared_mem d b) ->
  (q = Claiming -> ~ In b (map fst ext)) ->
  ok log d b tid q -> ok log' d' b tid q.
Proof.
  intros Hext Hoff Hfresh.
  assert (Hnth : forall j, nth_error (map fst (claims log)) j = Some b ->
                           nth_error (map fst (claims log')) j = Some b).
  { intros j Hj. rewrite Hext, map_app, nth_error_app1; [exact Hj |].
    apply nth_error_Some. congruence. }
  assert (Hw : forall j, written log d b j -> written log' d' b j).
  { intros j [H1 H2]. split; [apply Hnth; exact H1 | congruence]. }
  destruct q; cbn [phase_ok].
  - intros [Ht Hn]. split; [exact Ht |].
    rewrite Hext, map_app, in_app_iff. intros [H | H]; [auto |].
    apply (Hfresh eq_refl). exact H.
  - intros (Ht & j & Hj & Hc). split; [exact Ht |]. exists j. auto.
  - intros [Hi H]. split; [exact Hi |]. intros Ht. destruct (H Ht) as [j Hj]. eauto.
  - intros [Hi H]. split; [exact Hi |]. intros Ht. destruct (H Ht) as [j Hj]. eauto.
  - intros [j Hj]. eauto.
  - intros (j & Hj & Ho). eauto.
  - intros (j & Hj & Hs). eauto.
Qed.

(** A lane other than lane 0 that has not passed the barrier depends on
    nothing. *)
Lemma ok_unreleased log d log' d' b tid q :
  released q = false -> tid <> 0 -> ok log d b tid q -> ok log' d' b tid q.
Proof.
  intros Hr Ht. destruct q; cbn [phase_ok]; try discriminate.
  - intros [H _]. contradiction.
  - intros [H _]. contradiction.
  - intros [Hi _]. split; [exact Hi | contradiction].
  - intros [Hi _]. split; [exact Hi | contradiction].
Qed.

(** The lane [i] of block [b] goes from [p] to [p'], the others keeping
    what holds of them. *)
Lemma grid_ok_update a b lanes i tid p p' d' log' :
  all_ok a ->
  nth_error (phases_blocks a) b = Some lanes ->
  nth_error lanes i = Some (tid, p) ->
  released p' = released p ->
  map snd (claims log') = map Z.of_nat (seq 0 (length (claims log'))) ->
  NoDup (map fst (claims log')) ->
  (forall b', In b' (map fst (claims log')) -> (b' < G)%nat) ->
  load (global_mem d') (block_counter deps) = Some (Z.of_nat (length (claims log'))) ->
  (forall b', (b' < G)%nat ->
              Z.of_nat (length (local_status (shared_mem d' b'))) = cap) ->
  ok log' d' b tid p' ->
  (forall b' tid' q,
     (b' = b -> tid' <> tid /\ released q = released p) ->
     ok (phases_log a) (phases_device a) b' tid' q -> ok log' d' b' tid' q) ->
  all_ok {| phases_blocks :=
              list_update (phases_blocks a) b (list_update lanes i (tid, p'));
            phases_device := d';
            phases_log := log' |}.
Proof.
  intros (Hlen & Htids & Hvals & Hnd & Hlt & Hcnt & Hcache & Hlanes)
         Eb Ei Hrel Hvals' Hnd' Hlt' Hcnt' Hcache' Hp' Hothers.
  pose proof (Forall_nth_error _ _ _ _ Htids Eb) as Ht.
  destruct (Hlanes b lanes Eb) as [Hok Hdich].
  assert (Hsame : forall i' tid' q, nth_error lanes i' = Some (tid', q) ->
                                    released q = released p).
  { intros i' tid' q Hi'.
    destruct Hdich as [H | H];
      pose proof (Forall_nth_error _ _ _ _ H Hi') as H1;
      pose proof (Forall_nth_error _ _ _ _ H Ei) as H2;
      cbn [snd] in H1, H2; congruence. }
  unfold grid_ok. cbn [phases_blocks phases_device phases_log].
  split; [rewrite list_update_length; exact Hlen |].
  split.
  { apply Forall_list_update; [exact Htids |].
    rewrite (map_list_update_same fst lanes i (tid, p) (tid, p') Ei eq_refl). exact Ht. }
  split; [exact Hvals' |]. split; [exact Hnd' |]. split; [exact Hlt' |].
  split; [exact Hcnt' |]. split; [exact Hcache' |].
  intros b' lanes' Eb'.
  apply nth_error_list_update_inv in Eb' as [[-> ->] | [Hne Eb']].
  - split.
    + apply (Forall_list_update_others
               (fun l => ok (phases_log a) (phases_device a) b (fst l) (snd l))
               (fun l => ok log' d' b (fst l) (snd l))); [| exact Hok | exact Hp'].
      intros i' [tid' q] Hi' Hn Hq. cbn [fst snd] in *.
      apply Hothers; [| exact Hq]. intros _. split.
      * intros ->. apply Hi'. symmetry. eapply tid_unique; eauto.
      * eapply Hsame. exact Hn.
    + destruct (released p) eqn:Erp; [right | left].
      * apply (Forall_list_update_others
                 (fun l => True) (fun l : Z * phase => released (snd l) = true));
          [| apply Forall_forall; auto | exact Hrel].
        intros i' [tid' q] _ Hn _. cbn. rewrite (Hsame i' tid' q Hn). reflexivity.
      * apply (Forall_list_update_others
                 (fun l => True) (fun l : Z * phase => released (snd l) = false));
          [| apply Forall_forall; auto | exact Hrel].
        intros i' [tid' q] _ Hn _. cbn. rewrite (Hsame i' tid' q Hn). reflexivity.
  - destruct (Hlanes b' lanes' Eb') as [Hok' Hdich']. split; [| exact Hdich'].
    eapply Forall_impl; [| exact Hok']. intros [tid' q] Hq. cbn [fst snd] in *.
    apply Hothers; [| exact Hq]. intros ->. contradiction.
Qed.

Lemma claims_bound log :
  NoDup (map fst (claims log)) ->
  (forall b, In b (map fst (claims log)) -> (b < G)%nat) ->
  (length (claims log) <= G)%nat.
Proof.
  intros Hnd Hlt. rewrite <- (length_map fst). apply NoDup_bound; assumption.
Qed.

(** A step that fetches nothing. *)
Lemma grid_ok_quiet a b lanes i tid p p' d' act :
  all_ok a ->
  nth_error (phases_blocks a) b = Some lanes ->
  nth_error lanes i = Some (tid, p) ->
  released p' = released p ->
  claims (logged b act) = [] ->
  global_mem d' = global_mem (phases_device a) ->
  (forall b', length (local_status (shared_mem d' b'))
              = length (local_status (shared_mem (phases_device a) b'))) ->
  (forall b', b' <> b ->
              block_offset (shared_mem d' b')
              = block_offset (shared_mem (phases_device a) b')) ->
  (block_offset (shared_mem d' b) = block_offset (shared_mem (phases_device a) b)
   \/ (tid = 0 /\ released p = false)) ->
  ok (phases_log a ++ logged b act) d' b tid p' ->
  all_ok {| phases_blocks :=
              list_update (phases_blocks a) b (list_update lanes i (tid, p'));
            phases_device := d';
            phases_log := phases_log a ++ logged b act |}.
Proof.
  intros Hok Eb Ei Hrel Hquiet Hglobal Hlens Hoffs Hoff Hp'.
  pose proof Hok as (Hlen & Htids & Hvals & Hnd & Hlt & Hcnt & Hcache & Hlanes).
  assert (Hclaims : claims (phases_log a ++ logged b act) = claims (phases_log a)).
  { rewrite claims_app, Hquiet. apply app_nil_r. }
  apply (grid_ok_update a b lanes i tid p p' d' _ Hok Eb Ei Hrel).
  - rewrite Hclaims. exact Hvals.
  - rewrite Hclaims. exact Hnd.
  - rewrite Hclaims. exact Hlt.
  - rewrite Hclaims, Hglobal. exact Hcnt.
  - intros b' Hb'. rewrite Hlens. apply Hcache. exact Hb'.
  - exact Hp'.
  - intros b' tid' q Hcond Hq.
    destruct (Nat.eq_dec b' b) as [-> | Hne].
    + destruct (Hcond eq_refl) as [Htid Hr].
      destruct Hoff as [Hoff | [-> Hunrel]].
      * apply (ok_stable _ _ _ _ [] b tid' q) with (4 := Hq);
          [rewrite Hclaims; symmetry; apply app_nil_r | exact Hoff | auto].
      * apply (ok_unreleased _ _ _ _ b tid' q) with (3 := Hq); [congruence | exact Htid].
    + apply (ok_stable _ _ _ _ [] b' tid' q) with (4 := Hq);
        [rewrite Hclaims; symmetry; apply app_nil_r | apply Hoffs; exact Hne | auto].
Qed.

(** The lanes of a block pass the barrier. *)
Lemma grid_ok_release a b lanes :
  all_ok a ->
  nth_error (phases_blocks a) b = Some lanes ->
  forallb (fun l => is_waiting (snd l)) lanes = true ->
  all_ok {| phases_blocks :=
              list_update (phases_blocks a) b (map (fun l => (fst l, Reading)) lanes);
            phases_device := phases_device a;
            phases_log := phases_log a |}.
Proof.
  intros (Hlen & Htids & Hvals & Hnd & Hlt & Hcnt & Hcache & Hlanes) Eb Hall.
  pose proof (Forall_nth_error _ _ _ _ Htids Eb) as Ht.
  destruct (Hlanes b lanes Eb) as [Hok _].
  unfold grid_ok. cbn [phases_blocks phases_device phases_log].
  split; [rewrite list_update_length; exact Hlen |].
  split.
  { apply Forall_list_update; [exact Htids |]. rewrite map_map. exact Ht. }
  do 5 (split; [assumption |]).
  intros b' lanes' Eb'.
  apply nth_error_list_update_inv in Eb' as [[-> ->] | [Hne Eb']]; [| auto].
  assert (Hw : exists j, written (phases_log a) (phases_device a) b j).
  { destruct (lane_0 lanes Ht) as (p0 & others & ->).
    cbn [forallb snd] in Hall. apply andb_prop in Hall as [Hw0 _].
    inversion Hok as [| l ls H0 _]; subst. cbn [fst snd] in H0.
    destruct p0; try discriminate. apply H0. reflexivity. }
  split; [| right]; apply Forall_forall; intros l Hl;
    apply in_map_iff in Hl as (l0 & <- & _); [exact Hw | reflexivity].
Qed.

Lemma shared_mem_set_shared d b sh b' :
  shared_mem (set_shared d b sh) b' = if Nat.eqb b' b then sh else shared_mem d b'.
Proof. reflexivity. Qed.

(** The steps of the lanes keep what holds of the grid. *)
Lemma grid_ok_step x a : all_ok a -> all_ok (step_of_phases x a).
Proof.
  intros Hok. destruct x as [b i]. unfold phases_step.
  destruct (nth_error (phases_blocks a) b) as [lanes |] eqn:Eb; [| exact Hok].
  destruct (nth_error lanes i) as [[tid p] |] eqn:Ei; [| exact Hok].
  destruct (is_waiting p) eqn:Ew.
  { destruct (forallb (fun l => is_waiting (snd l)) lanes) eqn:Eall; [| exact Hok].
    apply grid_ok_release; assumption. }
  pose proof Hok as (Hlen & Htids & Hvals & Hnd & Hlt & Hcnt & Hcache & Hlanes).
  pose proof (Forall_nth_error _ _ _ _ Htids Eb) as Ht.
  destruct (Hlanes b lanes Eb) as [Hoks _].
  pose proof (Forall_nth_error _ _ _ _ Hoks Ei) as Hp. cbn [fst snd] in Hp.
  pose proof (tid_range lanes i tid p Ht Ei) as Htid.
  assert (Hb : (b < G)%nat).
  { rewrite <- Hlen. apply nth_error_Some. congruence. }
  pose proof (claims_bound _ Hnd Hlt) as Hk.
  destruct (block_size_lane_groups _ _ _ Hcfg) as [Ebs Hcap].
  pose proof Hcfg as (Hsw & Hbs & Hrem & Hib).
  set (d := phases_device a) in *. set (log := phases_log a) in *.
  destruct p as [| c | j | j | | offset1 | s]; cbn [phase_step].
  - (* the fetch of the counter *)
    destruct Hp as [-> Hfresh].
    rewrite Hcnt. pose proof (load_some _ _ _ Hcnt) as Hrange.
    rewrite store_in_range by exact Hrange.
    set (k := length (claims log)) in *.
    assert (Hclaims : claims (log ++ logged b (Some (Atomic_add (block_counter deps) 1
                                                               (Z.of_nat k))))
                      = claims log ++ [(b, Z.of_nat k)]).
    { rewrite claims_app. reflexivity. }
    assert (Hnd' : NoDup (map fst (claims log ++ [(b, Z.of_nat k)]))).
    { rewrite map_app. apply NoDup_app; [exact Hnd | repeat constructor; auto |].
      intros b' H1 [<- | []]. contradiction. }
    assert (Hlt' : forall b', In b' (map fst (claims log ++ [(b, Z.of_nat k)])) ->
                              (b' < G)%nat).
    { intros b'. rewrite map_app, in_app_iff. intros [H | [<- | []]]; auto. }
    assert (Hk' : (k + 1 <= G)%nat).
    { pose proof (NoDup_bound _ _ Hnd' Hlt') as H.
      rewrite length_map, length_app in H. exact H. }
    apply (grid_ok_update a b lanes i 0 Claiming (Fetched (Z.of_nat k)) _ _ Hok Eb Ei).
    + reflexivity.
    + rewrite Hclaims, map_app, length_app. cbn [length map snd].
      rewrite Nat.add_1_r, seq_S, map_app. fold k. rewrite <- Hvals. reflexivity.
    + rewrite Hclaims. exact Hnd'.
    + rewrite Hclaims. exact Hlt'.
    + cbn [global_mem set_global]. rewrite Hclaims, length_app. cbn [length].
      unfold load. destruct (0 <=? block_counter deps) eqn:E; [| lia].
      rewrite nth_error_list_set_same by lia.
      rewrite wrap_int_small by lia. f_equal. fold k. lia.
    + intros b' Hb'. apply Hcache. exact Hb'.
    + cbn [phase_ok]. split; [reflexivity |]. exists k. split; [| reflexivity].
      rewrite Hclaims, map_app, nth_error_app2 by (rewrite length_map; fold k; lia).
      rewrite length_map. fold k. rewrite Nat.sub_diag. reflexivity.
    + intros b' tid' q Hcond Hq.
      destruct (Nat.eq_dec b' b) as [-> | Hne].
      * destruct (Hcond eq_refl) as [Htid' Hr].
        apply (ok_unreleased _ _ _ _ b tid' q) with (3 := Hq); assumption.
      * apply (ok_stable _ _ _ _ [(b, Z.of_nat k)] b' tid' q) with (4 := Hq);
          [exact Hclaims | reflexivity |].
        intros _ [H | []]. cbn in H. congruence.
  - (* the offset of the block *)
    destruct Hp as (-> & j & Hj & ->).
    assert (Hjk : (j < G)%nat).
    { assert (j < length (map fst (claims log)))%nat by (apply nth_error_Some; congruence).
      rewrite length_map in H. lia. }
    apply (grid_ok_quiet a b lanes i 0 (Fetched (Z.of_nat j))); try assumption;
      try reflexivity.
    + intros b'. rewrite shared_mem_set_shared.
      destruct (Nat.eqb b' b) eqn:E; [| reflexivity].
      apply Nat.eqb_eq in E. subst b'. reflexivity.
    + intros b' Hne. rewrite shared_mem_set_shared.
      apply Nat.eqb_neq in Hne. rewrite Hne. reflexivity.
    + right. auto.
    + cbn [phase_ok]. split; [lia |]. intros _. exists j. split.
      * rewrite claims_app. cbn [logged claims flat_map snd]. rewrite !app_nil_r. exact Hj.
      * rewrite shared_mem_set_shared, Nat.eqb_refl. cbn [block_offset].
        unfold wrap_index. apply wrap_signed_small; [exact Hib |].
        assert (0 < 2 ^ (index_bits - 1)) by (apply Z.pow_pos_nonneg; lia). nia.
  - (* a slot of the local cache *)
    cbn [waiting] in Ew. destruct (j <? cap) eqn:Ej; [| discriminate].
    destruct Hp as [Hj Hw].
    rewrite store_in_range by (fold d; rewrite (Hcache b Hb); lia).
    assert (Hsame : forall b', block_offset
                                 (shared_mem
                                    (set_local_status d b
                                       (list_set (local_status (shared_mem d b))
                                                 (Z.to_nat j) 0)) b')
                               = block_offset (shared_mem d b')).
    { intros b'. unfold set_local_status. rewrite shared_mem_set_shared.
      destruct (Nat.eqb b' b) eqn:E; [| reflexivity].
      apply Nat.eqb_eq in E. subst b'. reflexivity. }
    apply (grid_ok_quiet a b lanes i tid (Resetting j)); try assumption;
      try reflexivity.
    + intros b'. unfold set_local_status. rewrite shared_mem_set_shared.
      destruct (Nat.eqb b' b) eqn:E; [| reflexivity].
      apply Nat.eqb_eq in E. subst b'. cbn [local_status]. apply list_set_length.
    + intros b' _. apply Hsame.
    + left. apply Hsame.
    + cbn [phase_ok]. split.
      * rewrite wrap_int_small by nia. lia.
      * intros H0. destruct (Hw H0) as (j0 & Hj0 & Hoff). exists j0. split.
        -- rewrite claims_app. cbn [logged claims flat_map snd]. rewrite !app_nil_r.
           exact Hj0.
        -- rewrite Hsame. exact Hoff.
  - (* back to the test of the loop *)
    destruct Hp as [Hj Hw].
    apply (grid_ok_quiet a b lanes i tid (Stored j)); try assumption; try reflexivity.
    + left. reflexivity.
    + cbn [phase_ok logged]. rewrite app_nil_r. auto.
  - (* the first read of the offset *)
    destruct Hp as (j & Hj & Hoff).
    apply (grid_ok_quiet a b lanes i tid Reading); try assumption; try reflexivity.
    + left. reflexivity.
    + cbn [phase_ok]. exists j. split; [| exact Hoff]. split; [| exact Hoff].
      rewrite claims_app. cbn [logged claims flat_map snd]. rewrite !app_nil_r. exact Hj.
  - (* the second read, and the scheduler *)
    destruct Hp as (j & [Hj Hoff] & ->).
    assert (Hjk : (j < G)%nat).
    { assert (j < length (map fst (claims log)))%nat by (apply nth_error_Some; congruence).
      rewrite length_map in H. lia. }
    apply (grid_ok_quiet a b lanes i tid (Reading2 (Z.of_nat j * block_size)));
      try assumption; try reflexivity.
    + left. reflexivity.
    + cbn [phase_ok]. exists j. split.
      * rewrite claims_app. cbn [logged claims flat_map snd]. rewrite !app_nil_r. exact Hj.
      * fold d. rewrite Hoff.
        apply (scheduler_from_offset block_size subwarp_size index_bits Hcfg); try lia.
        assert (0 < 2 ^ (index_bits - 1)) by (apply Z.pow_pos_nonneg; lia). nia.
  - exact Hok.
Qed.

Lemma grid_ok_run schedule : forall a,
  all_ok a -> all_ok (run_of_phases schedule a).
Proof.
  induction schedule as [| x schedule IH]; intros a H; [exact H |].
  cbn. apply IH. apply grid_ok_step. exact H.
Qed.

(** ** The grid at the start *)

Lemma grid_ok_start d :
  load (global_mem d) (block_counter deps) = Some 0 ->
  (forall b, (b < G)%nat -> Z.of_nat (length (local_status (shared_mem d b))) = cap) ->
  all_ok (phases_start block_size G d).
Proof using Type.
  clear Hcfg HG Hfit. intros Hcnt Hcache. unfold grid_ok, phases_start.
  cbn [phases_blocks phases_device phases_log claims flat_map map length seq].
  split; [apply repeat_length |].
  assert (Htids : map fst (map (fun tid => (tid, first_phase tid)) (thread_ids block_size))
                  = thread_ids block_size).
  { rewrite map_map. cbn [fst]. apply map_id. }
  split.
  { apply Forall_forall. intros lanes Hl. apply repeat_spec in Hl. subst lanes.
    exact Htids. }
  split; [reflexivity |]. split; [constructor |]. split; [intros b [] |].
  split; [exact Hcnt |]. split; [exact Hcache |].
  intros b lanes Eb. apply nth_error_In, repeat_spec in Eb. subst lanes.
  split; [| left]; apply Forall_forall; intros l Hl;
    apply in_map_iff in Hl as (tid & <- & Htid); cbn [fst snd]; unfold first_phase.
  - apply thread_ids_in in Htid.
    destruct (Z.eqb_spec tid 0) as [-> | Hne]; cbn [phase_ok].
    + split; [reflexivity | intros []].
    + split; [lia | contradiction].
  - destruct (tid =? 0); reflexivity.
Qed.

(** ** Every lane gets to the end *)

Local Abbreviation left_of := (steps_left block_size subwarp_size).
Local Abbreviation left_in := (steps_of block_size subwarp_size).

Lemma list_sum_update {A} (f : A -> nat) l i old x :
  nth_error l i = Some old ->
  (list_sum (map f (list_update l i x)) + f old = list_sum (map f l) + f x)%nat.
Proof.
  revert i. induction l as [| a l IH]; intros [| i] H; try discriminate;
    cbn [list_update map].
  - cbn [nth_error] in H. injection H as ->.
    change (list_sum (f x :: map f l)) with (f x + list_sum (map f l))%nat.
    change (list_sum (f old :: map f l)) with (f old + list_sum (map f l))%nat. lia.
  - cbn [nth_error] in H. specialize (IH i H).
    change (list_sum (f a :: map f (list_update l i x)))
      with (f a + list_sum (map f (list_update l i x)))%nat.
    change (list_sum (f a :: map f l)) with (f a + list_sum (map f l))%nat. lia.
Qed.

Lemma steps_of_update a b lanes lanes' d' log' :
  nth_error (phases_blocks a) b = Some lanes ->
  (list_sum (map (fun l => left_of (snd l)) lanes')
   < list_sum (map (fun l => left_of (snd l)) lanes))%nat ->
  (left_in {| phases_blocks := list_update (phases_blocks a) b lanes';
              phases_device := d';
              phases_log := log' |}
   < left_in a)%nat.
Proof.
  intros Eb Hlt. unfold steps_of. cbn [phases_blocks].
  pose proof (list_sum_update
                (fun lanes => list_sum (map (fun l => left_of (snd l)) lanes))
                (phases_blocks a) b lanes lanes' Eb) as H.
  cbn beta in H. lia.
Qed.

(** A lane that neither waits nor has returned takes a step. *)
Lemma phase_step_some a b lanes i tid p :
  all_ok a ->
  nth_error (phases_blocks a) b = Some lanes ->
  nth_error lanes i = Some (tid, p) ->
  is_waiting p = false -> finished p = false ->
  exists p' d' act,
    step_of_phase b tid p (phases_device a) = Some (p', d', act)
    /\ (left_of p' < left_of p)%nat.
Proof.
  intros (Hlen & Htids & Hvals & Hnd & Hlt & Hcnt & Hcache & Hlanes) Eb Ei Ew Ef.
  destruct (Hlanes b lanes Eb) as [Hoks _].
  pose proof (Forall_nth_error _ _ _ _ Hoks Ei) as Hp. cbn [fst snd] in Hp.
  assert (Hb : (b < G)%nat).
  { rewrite <- Hlen. apply nth_error_Some. congruence. }
  destruct (block_size_lane_groups _ _ _ Hcfg) as [Ebs Hcap].
  pose proof Hcfg as (Hsw & Hbs & Hrem & Hib).
  destruct p as [| c | j | j | | offset1 | s]; cbn [phase_step steps_left];
    try discriminate.
  - rewrite Hcnt. rewrite store_in_range by exact (load_some _ _ _ Hcnt).
    do 3 eexists. split; [reflexivity |]. cbn [steps_left]. lia.
  - destruct Hp as [-> _]. do 3 eexists. split; [reflexivity |]. cbn [steps_left].
    rewrite Z.sub_0_r. lia.
  - cbn [waiting] in Ew. destruct (j <? cap) eqn:Ej; [| discriminate].
    destruct Hp as [Hj _].
    rewrite store_in_range by (rewrite (Hcache b Hb); lia).
    do 3 eexists. split; [reflexivity |]. cbn [steps_left].
    rewrite wrap_int_small by nia. lia.
  - do 3 eexists. split; [reflexivity |]. cbn [steps_left]. lia.
  - do 3 eexists. split; [reflexivity |]. cbn [steps_left]. lia.
  - do 3 eexists. split; [reflexivity |]. cbn [steps_left]. lia.
Qed.

Lemma step_decreases a b lanes i tid p :
  all_ok a ->
  nth_error (phases_blocks a) b = Some lanes ->
  nth_error lanes i = Some (tid, p) ->
  is_waiting p = false -> finished p = false ->
  (left_in (step_of_phases (b, i) a) < left_in a)%nat.
Proof.
  intros Hok Eb Ei Ew Ef.
  destruct (phase_step_some a b lanes i tid p Hok Eb Ei Ew Ef)
    as (p' & d' & act & Es & Hlt).
  unfold phases_step. rewrite Eb, Ei, Ew, Es.
  apply steps_of_update with (lanes := lanes); [exact Eb |].
  pose proof (list_sum_update (fun l => left_of (snd l)) lanes i (tid, p) (tid, p') Ei) as H.
  cbn [snd] in H. lia.
Qed.

Lemma waiting_steps (lanes : list (Z * phase)) :
  forallb (fun l => is_waiting (snd l)) lanes = true ->
  list_sum (map (fun l => left_of (snd l)) lanes) = (3 * length lanes)%nat.
Proof.
  induction lanes as [| [tid p] lanes IH]; cbn [forallb map length snd];
    intros H; [reflexivity |].
  apply andb_prop in H as [Hp H]. specialize (IH H).
  change (list_sum (left_of p :: map (fun l => left_of (snd l)) lanes))
    with (left_of p + list_sum (map (fun l => left_of (snd l)) lanes))%nat.
  rewrite IH.
  destruct p; try discriminate. cbn [waiting] in Hp. cbn [steps_left].
  destruct (Z.ltb_spec i cap); [discriminate |].
  replace (Z.to_nat (cap - i)) with 0%nat by lia. lia.
Qed.

Lemma release_decreases a b lanes i tid p :
  nth_error (phases_blocks a) b = Some lanes ->
  nth_error lanes i = Some (tid, p) ->
  is_waiting p = true ->
  forallb (fun l => is_waiting (snd l)) lanes = true ->
  (left_in (step_of_phases (b, i) a) < left_in a)%nat.
Proof.
  intros Eb Ei Ew Eall. unfold phases_step. rewrite Eb, Ei, Ew, Eall.
  apply steps_of_update with (lanes := lanes); [exact Eb |].
  rewrite (waiting_steps lanes Eall), map_map. cbn [snd steps_left].
  assert (Hsum : forall l : list (Z * phase),
             list_sum (map (fun _ => 2%nat) l) = (2 * length l)%nat).
  { induction l as [| x l IHl]; cbn [map length]; [reflexivity |].
    change (list_sum (2%nat :: map (fun _ => 2%nat) l))
      with (2 + list_sum (map (fun _ => 2%nat) l))%nat. lia. }
  rewrite Hsum.
  assert (length lanes <> 0%nat).
  { destruct lanes; [destruct i; discriminate | discriminate]. }
  lia.
Qed.

Lemma forallb_false_nth {A} (f : A -> bool) l :
  forallb f l = false -> exists i x, nth_error l i = Some x /\ f x = false.
Proof.
  induction l as [| a l IH]; cbn; [discriminate |].
  destruct (f a) eqn:E; cbn.
  - intros H. destruct (IH H) as (i & x & Hi & Hx).
    exists (Datatypes.S i), x. auto.
  - intros _. exists 0%nat, a. auto.
Qed.

(** While a lane has not returned some lane can take a step. *)
Lemma some_step_decreases a b lanes i tid p :
  all_ok a ->
  nth_error (phases_blocks a) b = Some lanes ->
  nth_error lanes i = Some (tid, p) ->
  finished p = false ->
  exists x, (left_in (step_of_phases x a) < left_in a)%nat.
Proof.
  intros Hok Eb Ei Ef.
  destruct (is_waiting p) eqn:Ew.
  2: { exists (b, i). eapply step_decreases; eauto. }
  destruct (forallb (fun l => is_waiting (snd l)) lanes) eqn:Eall.
  { exists (b, i). eapply release_decreases; eauto. }
  destruct (forallb_false_nth _ _ Eall) as (i' & [tid' q] & Ei' & Eq). cbn [snd] in Eq.
  exists (b, i'). eapply step_decreases; eauto.
  pose proof Hok as (_ & _ & _ & _ & _ & _ & _ & Hlanes).
  destruct (Hlanes b lanes Eb) as [_ [H | H]].
  - pose proof (Forall_nth_error _ _ _ _ H Ei') as Hr. cbn [snd] in Hr.
    destruct q; try reflexivity; discriminate.
  - pose proof (Forall_nth_error _ _ _ _ H Ei) as Hr. cbn [snd] in Hr.
    destruct p; discriminate.
Qed.

Local Abbreviation all_finished a :=
  (forallb (forallb (fun l : Z * phase => finished (snd l))) (phases_blocks a)).

(** From wherever the grid stands the lanes can all get to the end. *)
Lemma grid_completes n : forall a,
  (left_in a <= n)%nat -> all_ok a ->
  exists more, all_finished (run_of_phases more a) = true.
Proof.
  induction n as [| n IH]; intros a Hn Hok.
  - destruct (all_finished a) eqn:E; [exists []; exact E |].
    destruct (forallb_false_nth _ _ E) as (b & lanes & Eb & E').
    destruct (forallb_false_nth _ _ E') as (i & [tid p] & Ei & Ef). cbn [snd] in Ef.
    destruct (some_step_decreases a b lanes i tid p Hok Eb Ei Ef) as [x Hx]. lia.
  - destruct (all_finished a) eqn:E; [exists []; exact E |].
    destruct (forallb_false_nth _ _ E) as (b & lanes & Eb & E').
    destruct (forallb_false_nth _ _ E') as (i & [tid p] & Ei & Ef). cbn [snd] in Ef.
    destruct (some_step_decreases a b lanes i tid p Hok Eb Ei Ef) as [x Hx].
    destruct (IH (step_of_phases x a)) as [more Hmore];
      [lia | apply grid_ok_step; exact Hok |].
    exists (x :: more). exact Hmore.
Qed.

End Grid_invariant.

(** ** The ranges of a grid *)

Lemma ranges_from_each capacity : forall ranges c,
  (forall k r, nth_error ranges k = Some r ->
               NoDup r
               /\ forall w, In w r
                            <-> (c + Z.of_nat k) * capacity <= w
                                < (c + Z.of_nat k + 1) * capacity) ->
  ranges_from capacity c ranges.
Proof.
  induction ranges as [| r ranges IH]; intros c H; [exact I |].
  destruct (H 0%nat r eq_refl) as [Hnd Hin]. cbn [ranges_from].
  split; [exact Hnd |]. split.
  - intros w. rewrite Hin. replace (c + Z.of_nat 0) with c by lia. reflexivity.
  - apply IH. intros k r' Hk. destruct (H (Datatypes.S k) r' Hk) as [H1 H2].
    split; [exact H1 |]. intros w. rewrite H2.
    replace (c + Z.of_nat (Datatypes.S k)) with (c + 1 + Z.of_nat k) by lia.
    reflexivity.
Qed.

Lemma list_by_index {A} (l : list A) d :
  l = map (fun k => nth k l d) (seq 0 (length l)).
Proof.
  apply (nth_ext _ _ d d).
  - rewrite length_map, length_seq. reflexivity.
  - intros i Hi. symmetry. apply (nth_map_seq (fun k => nth k l d)). exact Hi.
Qed.

Lemma thread_ids_nth block_size i tid :
  nth_error (thread_ids block_size) i = Some tid -> tid = Z.of_nat i.
Proof.
  unfold thread_ids. rewrite nth_error_map.
  destruct (nth_error (seq 0 (Z.to_nat block_size)) i) as [n |] eqn:E; [| discriminate].
  intros H. injection H as <-.
  assert (Hi : (i < length (seq 0 (Z.to_nat block_size)))%nat)
    by (apply nth_error_Some; congruence).
  rewrite length_seq in Hi.
  rewrite (nth_error_nth' _ 0%nat) in E by (rewrite length_seq; exact Hi).
  rewrite seq_nth in E by exact Hi. injection E as <-. reflexivity.
Qed.

Lemma work_items_owned sw (ss : list scheduler) :
  work_items sw ss = owned sw (map (pair (@nil action)) ss).
Proof.
  rewrite owned_of_schedulers, map_map. cbn [snd]. rewrite map_id. reflexivity.
Qed.

Section Grid_results.

Variables block_size subwarp_size index_bits : Z.
Variable deps : syncfree_storage.
Variable G : nat.
Hypothesis Hcfg : well_configured block_size subwarp_size index_bits.

Local Abbreviation cap := (local_dependency_count block_size subwarp_size).
Local Abbreviation stands :=
  (stands_at block_size subwarp_size index_bits deps).
Local Abbreviation all_ok := (grid_ok block_size subwarp_size deps G).
Local Abbreviation at_phase := (lane_at block_size subwarp_size index_bits deps).

(** A lane that has returned has the scheduler of its block. *)
Lemma returned_scheduler g a b lanes i t s :
  stands g a -> all_ok a ->
  nth_error (grid_blocks g) b = Some lanes ->
  nth_error lanes i = Some t ->
  returned t = Some s ->
  exists k, nth_error (map fst (claims (grid_log g))) k = Some b
            /\ s = scheduler_of block_size subwarp_size deps (Z.of_nat k) (Z.of_nat i).
Proof.
  intros (Hb & Hd & Hl) (Hlen & Htids & Hvals & Hnd & Hlt & Hcnt & Hcache & Hlanes)
         Eb Ei Hs.
  destruct (Forall2_nth_error_l _ _ _ _ _ Hb Eb) as (lanes' & Eb' & Hlanes').
  destruct (Forall2_nth_error_l _ _ _ _ _ Hlanes' Ei) as ([tid p] & Ei' & Ht).
  cbn [fst snd] in Ht.
  rewrite (returned_phase _ _ _ _ _ _ _ Ht) in Hs.
  destruct p; try discriminate. injection Hs as ->.
  destruct (Hlanes b lanes' Eb') as [Hoks _].
  pose proof (Forall_nth_error _ _ _ _ Hoks Ei') as Hp. cbn [fst snd phase_ok] in Hp.
  destruct Hp as (k & Hk & ->). exists k. rewrite Hl. split; [exact Hk |].
  f_equal. apply (thread_ids_nth block_size).
  rewrite <- (Forall_nth_error _ _ _ _ Htids Eb'), nth_error_map, Ei'. reflexivity.
Qed.

(** Where every phase is the last one every lane has returned, and the
    other way round. *)
Lemma all_returned_finished g a :
  stands g a ->
  all_returned g
  <-> forallb (forallb (fun l : Z * phase => finished (snd l))) (phases_blocks a) = true.
Proof.
  intros (Hb & _). unfold all_returned.
  induction Hb as [| lanes lanes' bs bs' Hlanes Hb IH]; cbn [forallb].
  - split; [reflexivity | constructor].
  - rewrite Forall_cons_iff, andb_true_iff, IH.
    assert (H : Forall (fun t => returned t <> None) lanes
                <-> forallb (fun l : Z * phase => finished (snd l)) lanes' = true).
    { clear -Hlanes.
      induction Hlanes as [| t [tid p] ls ls' Ht Hls IHl]; cbn [forallb snd].
      - split; [reflexivity | constructor].
      - rewrite Forall_cons_iff, andb_true_iff, IHl.
        cbn [fst snd] in Ht. rewrite (returned_phase _ _ _ _ _ _ _ Ht).
        destruct p; cbn [finished]; intuition congruence. }
    rewrite H. reflexivity.
Qed.

(** The schedulers of a block whose lanes have all returned. *)
Lemma schedulers_of_block g a b lanes k :
  stands g a -> all_ok a ->
  nth_error (grid_blocks g) b = Some lanes ->
  Forall (fun t => returned t <> None) lanes ->
  nth_error (map fst (claims (grid_log g))) k = Some b ->
  schedulers_of lanes
  = map (scheduler_of block_size subwarp_size deps (Z.of_nat k)) (thread_ids block_size).
Proof.
  intros Hst Hok Eb Hall Hk.
  pose proof Hst as (Hb & Hd & Hl).
  pose proof Hok as (Hlen & Htids & Hvals & Hnd & Hlt & Hcnt & Hcache & Hlanes).
  destruct (Forall2_nth_error_l _ _ _ _ _ Hb Eb) as (lanes' & Eb' & Hlanes').
  rewrite <- (Forall_nth_error _ _ _ _ Htids Eb').
  destruct (Hlanes b lanes' Eb') as [Hoks _].
  assert (Hk' : forall j, nth_error (map fst (claims (phases_log a))) j = Some b -> j = k).
  { intros j Hj. rewrite NoDup_nth_error in Hnd. apply Hnd.
    - apply nth_error_Some. congruence.
    - rewrite Hj, <- Hl. symmetry. exact Hk. }
  clear Eb Eb' Hlanes. unfold schedulers_of.
  induction Hlanes' as [| t [tid p] ls ls' Ht Hls IH]; [reflexivity |].
  inversion Hall as [| t0 ls0 Hr Hall']; subst.
  inversion Hoks as [| l0 ls0 Hp Hoks']; subst.
  cbn [fst snd] in Ht, Hp. cbn [flat_map map fst].
  rewrite (returned_phase _ _ _ _ _ _ _ Ht) in Hr |- *.
  destruct p; try congruence. cbn [phase_ok] in Hp.
  destruct Hp as (j & Hj & ->). rewrite (Hk' j Hj). cbn [app]. f_equal.
  apply IH; assumption.
Qed.

(** The work items of the block that was the [k]-th to fetch. *)
Lemma work_items_of_block g a b lanes k :
  stands g a -> all_ok a ->
  nth_error (grid_blocks g) b = Some lanes ->
  Forall (fun t => returned t <> None) lanes ->
  nth_error (map fst (claims (grid_log g))) k = Some b ->
  Forall (fun s => block_id s = Z.of_nat k) (schedulers_of lanes)
  /\ NoDup (work_items subwarp_size (schedulers_of lanes))
  /\ forall w, In w (work_items subwarp_size (schedulers_of lanes))
               <-> Z.of_nat k * cap <= w < (Z.of_nat k + 1) * cap.
Proof.
  intros Hst Hok Eb Hall Hk.
  rewrite (schedulers_of_block g a b lanes k Hst Hok Eb Hall Hk). split.
  - apply Forall_forall. intros s Hs. apply in_map_iff in Hs as (tid & <- & _).
    reflexivity.
  - rewrite work_items_owned.
    apply (owned_range block_size subwarp_size index_bits Hcfg deps (Z.of_nat k)
                       (thread_ids block_size)).
    + apply Permutation_refl.
    + rewrite map_map. cbn [snd]. apply map_id.
Qed.

(** When every lane has returned every block has fetched, once. *)
Lemma all_blocks_fetched g a :
  stands g a -> all_ok a -> all_returned g ->
  Permutation (map fst (claims (grid_log g))) (seq 0 G).
Proof.
  intros Hst Hok Hall.
  pose proof Hst as (Hb & Hd & Hl).
  pose proof Hok as (Hlen & Htids & Hvals & Hnd & Hlt & Hcnt & Hcache & Hlanes).
  rewrite Hl. apply NoDup_Permutation; [exact Hnd | apply seq_NoDup |].
  intros b. rewrite in_seq. split; [intros H; specialize (Hlt b H); lia |].
  intros [_ Hlt'].
  assert (Hsome : nth_error (grid_blocks g) b <> None).
  { apply nth_error_Some. rewrite (Forall2_length Hb), Hlen. exact Hlt'. }
  destruct (nth_error (grid_blocks g) b) as [lanes |] eqn:Eb; [| contradiction].
  destruct (Forall2_nth_error_l _ _ _ _ _ Hb Eb) as (lanes' & Eb' & Hlanes').
  destruct (lane_0 block_size subwarp_size index_bits Hcfg lanes'
                   (Forall_nth_error _ _ _ _ Htids Eb')) as (p & others & ->).
  inversion Hlanes' as [| t l0 ts ls0 Ht _]; subst. cbn [fst snd] in Ht.
  pose proof (Forall_nth_error _ _ _ _ Hall Eb) as Hret.
  inversion Hret as [| t0 ts0 Hr _]; subst.
  rewrite (returned_phase _ _ _ _ _ _ _ Ht) in Hr.
  destruct p; try congruence.
  destruct (Hlanes b _ Eb') as [Hoks _].
  inversion Hoks as [| l0 ls0 Hp _]; subst. cbn [fst snd phase_ok] in Hp.
  destruct Hp as (j & Hj & _). eapply (nth_error_In _ j). exact Hj.
Qed.

End Grid_results.

(** C1: a grid of [G] blocks over [N = G * capacity] work items, the status
    array fresh from the constructor of [syncfree_storage].  The lanes of
    all the blocks run the constructor side by side, their steps
    interleaved in whatever way, a lane held at [__syncthreads()] until the
    lanes of its block are all there.  However far the lanes have got:
    the [k]-th fetch of the counter has fetched [k] (the first one 0, a
    later one more), no block has fetched twice, the counter holds the
    number of fetches; and in a lane that has returned, of the block that
    was the [k]-th to fetch, the scheduler has [k] for its [block_id] and
    the work item [k * capacity + threadIdx.x / subwarp_size].  When every
    lane has returned every block has fetched once, the lane-groups of the
    [k]-th block to fetch own the work items from [k * capacity] up to
    [(k + 1) * capacity], each of them one, so that a block that fetched
    later owns larger work items only, and all the work items owned are the
    items [0 .. N - 1], each once: the ranges are pairwise disjoint and
    their union is [0, N).  And from wherever the lanes have got they can
    all go on until they have returned. *)
Theorem claimed_ranges_tile bs sw ib fresh (G : nat) shm schedule :
  well_configured bs sw ib ->
  Z.of_nat G < 2 ^ 31 ->
  Z.of_nat G * bs <= 2 ^ (ib - 1) ->
  (forall b, (b < G)%nat -> Z.of_nat (length (local_status (shm b))) = bs ÷ sw) ->
  let capacity := bs ÷ sw in
  let N := Z.of_nat G * capacity in
  let status_array := fst (syncfree_storage_new fresh N) in
  let deps := snd (syncfree_storage_new fresh N) in
  let g := grid_run schedule
                    (grid_start bs sw ib deps G
                                {| global_mem := status_array; shared_mem := shm |}) in
  let fetched := claims (grid_log g) in
  let items := fun lanes => work_items sw (schedulers_of lanes) in
  map snd fetched = map Z.of_nat (seq 0 (length fetched))
  /\ NoDup (map fst fetched)
  /\ load (global_mem (grid_device g)) (block_counter deps)
     = Some (Z.of_nat (length fetched))
  /\ (forall b lanes i t s,
        nth_error (grid_blocks g) b = Some lanes ->
        nth_error lanes i = Some t ->
        returned t = Some s ->
        exists k, nth_error (map fst fetched) k = Some b
                  /\ s = scheduler_of bs sw deps (Z.of_nat k) (Z.of_nat i))
  /\ (all_returned g ->
      Permutation (map fst fetched) (seq 0 G)
      /\ (forall k b lanes,
            nth_error (map fst fetched) k = Some b ->
            nth_error (grid_blocks g) b = Some lanes ->
            Forall (fun s => block_id s = Z.of_nat k) (schedulers_of lanes)
            /\ NoDup (items lanes)
            /\ forall w, In w (items lanes)
                         <-> Z.of_nat k * capacity <= w < (Z.of_nat k + 1) * capacity)
      /\ (forall k k' b b' lanes lanes' w w',
            nth_error (map fst fetched) k = Some b ->
            nth_error (map fst fetched) k' = Some b' ->
            nth_error (grid_blocks g) b = Some lanes ->
            nth_error (grid_blocks g) b' = Some lanes' ->
            (k < k')%nat ->
            In w (items lanes) -> In w' (items lanes') -> w < w')
      /\ Permutation (concat (map items (grid_blocks g)))
                     (map Z.of_nat (seq 0 (Z.to_nat N))))
  /\ exists more, all_returned (grid_run more g).
Proof.
  intros Hcfg HG Hfit Hlen. cbv zeta.
  destruct (block_size_lane_groups _ _ _ Hcfg) as [Ebs Hcap].
  unfold local_dependency_count in Ebs, Hcap.
  pose proof Hcfg as (Hsw & Hbs & _).
  assert (HN : 0 <= Z.of_nat G * (bs ÷ sw) < 2 ^ 64 - 1).
  { assert (bs ÷ sw <= bs) by nia. split; [nia |].
    assert (Z.of_nat G * (bs ÷ sw) < 2 ^ 31 * 2 ^ 31) by nia. lia. }
  rewrite syncfree_storage_new_zero by exact HN. cbn [fst snd].
  set (deps := {| status := 0; block_counter := Z.of_nat G * (bs ÷ sw) |}).
  set (d := {| global_mem := repeat 0 (Z.to_nat (Z.of_nat G * (bs ÷ sw) + 1));
               shared_mem := shm |}).
  set (g := grid_run schedule (grid_start bs sw ib deps G d)).
  set (a := phases_run bs sw ib deps schedule (phases_start bs G d)).
  assert (Hst : stands_at bs sw ib deps g a)
    by (apply grid_run_stands, grid_start_stands).
  assert (Hok : grid_ok bs sw deps G a).
  { apply grid_ok_run; try assumption. apply grid_ok_start.
    - cbn. apply load_repeat. lia.
    - exact Hlen. }
  pose proof Hst as (Hb & Hd & Hl).
  pose proof Hok as (Hblocks & Htids & Hvals & Hnd & Hlt & Hcnt & Hcache & Hlanes).
  split; [rewrite Hl; exact Hvals |].
  split; [rewrite Hl; exact Hnd |].
  split; [rewrite Hl, Hd; exact Hcnt |].
  split; [intros b lanes i t s; apply (returned_scheduler bs sw ib deps G g a);
          assumption |].
  split.
  - intros Hall.
    pose proof (all_blocks_fetched bs sw ib deps G Hcfg g a Hst Hok Hall) as Hperm.
    assert (Hitems : forall k b lanes,
               nth_error (map fst (claims (grid_log g))) k = Some b ->
               nth_error (grid_blocks g) b = Some lanes ->
               Forall (fun s => block_id s = Z.of_nat k) (schedulers_of lanes)
               /\ NoDup (work_items sw (schedulers_of lanes))
               /\ forall w, In w (work_items sw (schedulers_of lanes))
                            <-> Z.of_nat k * (bs ÷ sw) <= w
                                < (Z.of_nat k + 1) * (bs ÷ sw)).
    { intros k b lanes Hk Eb.
      apply (work_items_of_block bs sw ib deps G Hcfg g a b lanes k Hst Hok Eb);
        [| exact Hk].
      apply (Forall_nth_error _ _ _ _ Hall Eb). }
    split; [exact Hperm |]. split; [exact Hitems |]. split.
    + intros k k' b b' lanes lanes' w w' Hk Hk' Eb Eb' Hlt' Hw Hw'.
      destruct (Hitems k b lanes Hk Eb) as (_ & _ & H1).
      destruct (Hitems k' b' lanes' Hk' Eb') as (_ & _ & H2).
      apply H1 in Hw. apply H2 in Hw'. nia.
    + assert (HlenG : length (grid_blocks g) = G)
        by (rewrite (Forall2_length Hb); exact Hblocks).
      rewrite <- flat_map_concat_map.
      rewrite (list_by_index (grid_blocks g) []) at 1. rewrite HlenG.
      rewrite flat_map_concat_map, map_map, <- flat_map_concat_map.
      rewrite <- Hperm.
      assert (Hranges : ranges_from (bs ÷ sw) 0
                          (map (fun b => work_items sw
                                           (schedulers_of (nth b (grid_blocks g) [])))
                               (map fst (claims (grid_log g))))).
      { apply ranges_from_each. intros k r Hk.
        rewrite nth_error_map in Hk.
        destruct (nth_error (map fst (claims (grid_log g))) k) as [b |] eqn:Ek;
          [| discriminate].
        injection Hk as <-.
        assert (Hbl : (b < length (grid_blocks g))%nat).
        { rewrite HlenG. apply Hlt. rewrite <- Hl. eapply nth_error_In. exact Ek. }
        destruct (Hitems k b (nth b (grid_blocks g) []) Ek
                         (nth_error_nth' _ _ Hbl)) as (_ & H1 & H2).
        split; [exact H1 |]. intros w. rewrite H2. reflexivity. }
      destruct (ranges_from_concat (bs ÷ sw) _ 0 ltac:(lia) Hranges) as [Hnd' Hin].
      rewrite flat_map_concat_map.
      apply range_Permutation; [exact Hnd' |].
      intros w. rewrite Hin, !length_map.
      assert (length (claims (grid_log g)) = G).
      { rewrite <- (length_map fst), (Permutation_length Hperm). apply length_seq. }
      lia.
  - destruct (grid_completes bs sw ib deps G Hcfg HG Hfit
                (steps_of bs sw a) a (Nat.le_refl _) Hok) as [more Hmore].
    exists more.
    apply (all_returned_finished bs sw ib deps (grid_run more g)
                                 (phases_run bs sw ib deps more a));
      [apply grid_run_stands; exact Hst | exact Hmore].
Qed.

(** Two blocks of four lanes in groups of two; the lanes take their steps
    in turn, a lane of block 1 and then the same lane of block 0. *)
Lemma claimed_ranges_tile_witness :
  let schedule :=
    concat (repeat [(1, 0); (0, 0); (1, 1); (0, 1); (1, 2); (0, 2); (1, 3); (0, 3)]%nat 3) in
  let g := grid_run schedule
             (grid_start 4 2 32 (snd (syncfree_storage_new (fun _ => 5) 4)) 2
                {| global_mem := fst (syncfree_storage_new (fun _ => 5) 4);
                   shared_mem := fun _ => {| local_status := [7; 7];
                                             block_offset := 99 |} |}) in
  NoDup (map fst (claims (grid_log g)))
  /\ (all_returned g ->
      Permutation (concat (map (fun lanes => work_items 2 (schedulers_of lanes))
                               (grid_blocks g)))
                  [0; 1; 2; 3])
  /\ exists more, all_returned (grid_run more g).
Proof.
  cbv zeta.
  destruct (claimed_ranges_tile 4 2 32 (fun _ => 5) 2
              (fun _ => {| local_status := [7; 7]; block_offset := 99 |})
              (concat (repeat [(1, 0); (0, 0); (1, 1); (0, 1);
                               (1, 2); (0, 2); (1, 3); (0, 3)]%nat 3)))
    as (_ & Hnd & _ & _ & Hall & Hmore).
  - unfold well_configured. repeat split; try lia; reflexivity.
  - lia.
  - lia.
  - intros b _. reflexivity.
  - split; [exact Hnd |]. split; [| exact Hmore].
    intros H. apply Hall. exact H.
Defined.

(** The run of the witness, computed, the lanes taking eight turns: block 1
    is the first to fetch and gets the items 0 and 1, block 0 gets the items
    2 and 3. *)
Example grid_run_example :
  let g := grid_run
             (concat (repeat [(1, 0); (0, 0); (1, 1); (0, 1);
                              (1, 2); (0, 2); (1, 3); (0, 3)]%nat 8))
             (grid_start 4 2 32 (snd (syncfree_storage_new (fun _ => 5) 4)) 2
                {| global_mem := fst (syncfree_storage_new (fun _ => 5) 4);
                   shared_mem := fun _ => {| local_status := [7; 7];
                                             block_offset := 99 |} |}) in
  (claims (grid_log g),
   global_mem (grid_device g),
   map (fun lanes => map (fun t => option_map (fun s => (work_id s, block_id s))
                                              (returned t)) lanes)
       (grid_blocks g),
   map (fun lanes => work_items 2 (schedulers_of lanes)) (grid_blocks g))
  = ([(1%nat, 0); (0%nat, 1)],
     [0; 0; 0; 0; 2],
     [[Some (2, 1); Some (2, 1); Some (3, 1); Some (3, 1)];
      [Some (0, 0); Some (0, 0); Some (1, 0); Some (1, 0)]],
     [[2; 3]; [0; 1]]).
Proof. vm_compute. reflexivity. Qed.
